(** * Stack maps: the writer of lib/CodeGen/StackMaps.cpp and its reader

    A shallow embedding of [StackMaps] (operand parsing, live-out masks,
    call-site recording, serialization) and of the [StackMapSection]
    reader, with the properties of both.

    Conventions.
    - C++ integers are [Z]; a conversion to a w-bit type is written out
      ([wrap32], [to_uint64], [to_int64]).
    - A vector is a [list]; an iterator over it is an index ([nat]).
    - A call that can hit a failing [assert], [llvm_unreachable] or an
      out-of-range access returns an [outcome]; assertions are modelled
      as enabled. *)

From Stdlib Require Import ZArith Lia List Bool String.
From Stdlib Require Strings.Byte.
From stdpp Require Import base tactics option list list_numbers sorting strings.

Local Open Scope Z_scope.

(** ** Outcomes of fallible code *)

Inductive outcome (A : Type) : Type :=
  | Ret (a : A)            (* normal return *)
  | AssertionFailure       (* a failing assert / llvm_unreachable *)
  | Undefined              (* an access outside an object *)
  | OutOfFuel.             (* the bound given to a loop of the model was hit *)
Arguments Ret {A} a.
Arguments AssertionFailure {A}.
Arguments Undefined {A}.
Arguments OutOfFuel {A}.

Global Instance outcome_ret : MRet outcome := λ A a, Ret a.
Global Instance outcome_bind : MBind outcome := λ A B f m,
  match m with
  | Ret a => f a
  | AssertionFailure => AssertionFailure
  | Undefined => Undefined
  | OutOfFuel => OutOfFuel
  end.

Global Instance outcome_fmap : FMap outcome := λ A B f m,
  match m with
  | Ret a => Ret (f a)
  | AssertionFailure => AssertionFailure
  | Undefined => Undefined
  | OutOfFuel => OutOfFuel
  end.

Definition assert (b : bool) : outcome unit :=
  if b then Ret tt else AssertionFailure.

Definition defined {A} (o : option A) : outcome A :=
  match o with Some a => Ret a | None => Undefined end.

(** ** Fixed-width integers *)

Definition wrap (bits : Z) (x : Z) : Z := x mod 2 ^ bits.
Definition wrap32 : Z → Z := wrap 32.
Definition to_uint64 : Z → Z := wrap 64.
Definition to_int64 (x : Z) : Z := (x + 2 ^ 63) mod 2 ^ 64 - 2 ^ 63.

Definition UINT16_MAX : Z := 65535.
Definition UINT64_MAX : Z := 2 ^ 64 - 1.
Definition INT32_MIN : Z := - 2 ^ 31.
Definition INT32_MAX : Z := 2 ^ 31 - 1.

(** [isInt<32>(x)] of MathExtras.h: x fits a signed 32-bit field. *)
Definition isInt32 (x : Z) : bool := (INT32_MIN <=? x) && (x <=? INT32_MAX).

Definition is_int64 (x : Z) : Prop := - 2 ^ 63 ≤ x < 2 ^ 63.

(** ** The reader: [parse_primitive] and the [parse] members *)

Module Reader.

(** The buffer behind a non-null [uint8_t*]; [None] is the null pointer. *)
Definition pointer : Type := option (list Byte.byte).

Inductive Primitive : Type := uint8_t | uint16_t | uint32_t | uint64_t.

Definition sizeof (T : Primitive) : Z :=
  match T with uint8_t => 1 | uint16_t => 2 | uint32_t => 4 | uint64_t => 8 end.

Definition byte_val (b : Byte.byte) : Z := Z.of_N (Byte.to_N b).

(** The value of an object representation on a little-endian host. *)
Fixpoint le_decode (bs : list Byte.byte) : Z :=
  match bs with
  | [] => 0
  | b :: bs' => byte_val b + 256 * le_decode bs'
  end.

(** The [n] bytes at [buf + offset]; outside the buffer the access is
    undefined. *)
Definition bytes_at (buf : list Byte.byte) (offset n : Z) : option (list Byte.byte) :=
  if bool_decide (0 ≤ offset ∧ offset + n ≤ Z.of_nat (length buf))
  then Some (take (Z.to_nat n) (drop (Z.to_nat offset) buf))
  else None.

(** [*(Primitive* )(data + offset)] *)
Definition load (T : Primitive) (buf : list Byte.byte) (offset : Z) : outcome Z :=
  bs ← defined (bytes_at buf offset (sizeof T)); Ret (le_decode bs).

(** [parse_primitive<Primitive>(data, offset, len)]: the value read and the
    updated [offset] (an [unsigned&] in the source). *)
Definition parse_primitive (T : Primitive) (data : pointer) (offset len : Z)
  : outcome (Z * Z) :=
  _ ← assert (bool_decide (is_Some data) && (0 <=? offset) && (0 <=? len));
  _ ← assert (offset <? len);
  buf ← defined data;
  rval ← load T buf offset;
  let offset := wrap32 (offset + sizeof T) in
  _ ← assert (offset <=? len);
  Ret (rval, offset).

(** Modelled from the spec: the [LocationRecord] struct is declared in
    StackMaps.h, which is not part of the sources at hand; its fields and
    widths are those of the record layout [{ u8 kind; u8 size; u16
    dwarf_reg; i32 offset }] (8 bytes, no padding). *)
Record LocationRecord : Type := {
  Type_ : Z;         (* uint8_t *)
  SizeInBytes : Z;   (* uint8_t *)
  DwarfRegNum : Z;   (* uint16_t *)
  Offset : Z         (* int32_t *)
}.

Definition sizeof_LocationRecord : Z := 8.

Definition to_int32 (u : Z) : Z := if u <? 2 ^ 31 then u else u - 2 ^ 32.

(** The object whose representation is the 8 bytes [bs]. *)
Definition LocationRecord_of_bytes (bs : list Byte.byte) : LocationRecord :=
  {| Type_ := le_decode (take 1 bs);
     SizeInBytes := le_decode (take 1 (drop 1 bs));
     DwarfRegNum := le_decode (take 2 (drop 2 bs));
     Offset := to_int32 (le_decode (take 4 (drop 4 bs))) |}.

(** [LocationRecord::parse] *)
Definition LocationRecord_parse (data : pointer) (offset len : Z)
  : outcome (LocationRecord * Z) :=
  _ ← assert (offset + sizeof_LocationRecord <=? len);
  buf ← defined data;
  bs ← defined (bytes_at buf offset sizeof_LocationRecord);  (* memcpy *)
  let this := LocationRecord_of_bytes bs in
  let offset := wrap32 (offset + sizeof_LocationRecord) in
  _ ← assert (Type_ this <=? 5);
  Ret (this, offset).

Record StackMapRecord : Type := {
  PatchPointID : Z;        (* uint64_t *)
  InstructionOffset : Z;   (* uint32_t *)
  ReservedFlags : Z;       (* uint16_t *)
  Locations : list LocationRecord
}.

(** [for (i = 0; i < NumLocations; i++) Locations[i].parse(data, offset, len)] *)
Fixpoint parse_Locations (NumLocations : nat) (data : pointer) (offset len : Z)
  : outcome (list LocationRecord * Z) :=
  match NumLocations with
  | O => Ret ([], offset)
  | S n =>
      '(Loc, offset) ← LocationRecord_parse data offset len;
      '(Locs, offset) ← parse_Locations n data offset len;
      Ret (Loc :: Locs, offset)
  end.

(** [StackMapRecord::parse]. Every member of [this] is overwritten, so the
    parsed record is returned. *)
Definition StackMapRecord_parse (data : pointer) (offset len : Z)
  : outcome (StackMapRecord * Z) :=
  '(PatchPointID, offset) ← parse_primitive uint64_t data offset len;
  '(InstructionOffset, offset) ← parse_primitive uint32_t data offset len;
  '(ReservedFlags, offset) ← parse_primitive uint16_t data offset len;
  '(NumLocations, offset) ← parse_primitive uint16_t data offset len;
  _ ← assert (0 =? ReservedFlags);
  '(Locations, offset) ← parse_Locations (Z.to_nat NumLocations) data offset len;
  '(Padding16, offset) ← parse_primitive uint16_t data offset len;
  _ ← assert (Padding16 =? 0);
  '(NumLiveOuts, offset) ← parse_primitive uint16_t data offset len;
  _ ← assert (NumLiveOuts =? 0);
  (* skip the padding inserted to align the record *)
  let offset :=
    if negb (offset mod 8 =? 0) then wrap32 (offset + (8 - offset mod 8))
    else offset in
  Ret ({| PatchPointID := PatchPointID;
          InstructionOffset := InstructionOffset;
          ReservedFlags := ReservedFlags;
          Locations := Locations |}, offset).

Record StackMapSizeRecord : Type := {
  FunctionAddr : Z;   (* uint64_t *)
  StackSize : Z       (* uint64_t *)
}.

Record StackMapSection : Type := {
  Version : Z;      (* uint8_t *)
  Reserved8 : Z;    (* uint8_t *)
  Reserved16 : Z;   (* uint16_t *)
  FnSizeRecords : list StackMapSizeRecord;
  Constants : list Z;
  Records : list StackMapRecord
}.

(** The first loop of [StackMapSection::parse]: the records pushed back. *)
Fixpoint parse_FnSizeRecords (NumFuncs : nat) (data : pointer) (offset len : Z)
  : outcome (list StackMapSizeRecord * Z) :=
  match NumFuncs with
  | O => Ret ([], offset)
  | S n =>
      '(Addr, offset) ← parse_primitive uint64_t data offset len;
      '(Size, offset) ← parse_primitive uint64_t data offset len;
      '(rest, offset) ← parse_FnSizeRecords n data offset len;
      Ret ({| FunctionAddr := Addr; StackSize := Size |} :: rest, offset)
  end.

(** The second loop: the constants pushed back. *)
Fixpoint parse_Constants (NumConstants : nat) (data : pointer) (offset len : Z)
  : outcome (list Z * Z) :=
  match NumConstants with
  | O => Ret ([], offset)
  | S n =>
      '(C, offset) ← parse_primitive uint64_t data offset len;
      '(rest, offset) ← parse_Constants n data offset len;
      Ret (C :: rest, offset)
  end.

(** The third loop: [Records[i].parse(data, offset, len)]. *)
Fixpoint parse_Records (NumRecords : nat) (data : pointer) (offset len : Z)
  : outcome (list StackMapRecord * Z) :=
  match NumRecords with
  | O => Ret ([], offset)
  | S n =>
      '(R, offset) ← StackMapRecord_parse data offset len;
      '(rest, offset) ← parse_Records n data offset len;
      Ret (R :: rest, offset)
  end.

(** [StackMapSection::parse] on the section object [this]: the two
    [push_back] loops append to the vectors of [this], [Records] is resized
    and every element of it parsed. *)
Definition StackMapSection_parse (this : StackMapSection)
    (data : pointer) (offset len : Z) : outcome (StackMapSection * Z) :=
  '(Version, offset) ← parse_primitive uint8_t data offset len;
  '(Reserved8, offset) ← parse_primitive uint8_t data offset len;
  '(Reserved16, offset) ← parse_primitive uint16_t data offset len;
  _ ← assert (Version =? 1);
  _ ← assert (Reserved8 =? 0);
  _ ← assert (Reserved16 =? 0);
  '(NumFuncs, offset) ← parse_primitive uint32_t data offset len;
  '(NumConstants, offset) ← parse_primitive uint32_t data offset len;
  '(NumRecords, offset) ← parse_primitive uint32_t data offset len;
  '(Fns, offset) ← parse_FnSizeRecords (Z.to_nat NumFuncs) data offset len;
  '(Cs, offset) ← parse_Constants (Z.to_nat NumConstants) data offset len;
  '(Rs, offset) ← parse_Records (Z.to_nat NumRecords) data offset len;
  Ret ({| Version := Version; Reserved8 := Reserved8; Reserved16 := Reserved16;
          FnSizeRecords := FnSizeRecords this ++ Fns;
          Constants := Constants this ++ Cs;
          Records := Rs |}, offset).

Definition empty_section : StackMapSection :=
  {| Version := 0; Reserved8 := 0; Reserved16 := 0;
     FnSizeRecords := []; Constants := []; Records := [] |}.

(** *** The layout a record is read from *)

(** The value of type [T] stored at [offset], when it lies in the buffer. *)
Definition read (T : Primitive) (buf : list Byte.byte) (offset : Z) : option Z :=
  le_decode <$> bytes_at buf offset (sizeof T).

(** The location record stored at [offset]. *)
Definition location_at (buf : list Byte.byte) (offset : Z) : option LocationRecord :=
  LocationRecord_of_bytes <$> bytes_at buf offset sizeof_LocationRecord.

(** [offset] moved to the next 8-byte boundary, in [unsigned] arithmetic. *)
Definition skip_padding (offset : Z) : Z :=
  if decide (offset mod 8 ≠ 0) then wrap32 (offset + (8 - offset mod 8)) else offset.

(** The location records [Ls] lie back to back from [offset] on, each of
    a known kind. *)
Definition locations_at (buf : list Byte.byte) (offset : Z)
    (Ls : list LocationRecord) : Prop :=
  ∀ (i : nat) L, Ls !! i = Some L →
    location_at buf (offset + 8 * Z.of_nat i) = Some L ∧ Type_ L ≤ 5.

(** The fields of a stack map record laid out from [offset] on, in order:
    id, pc offset, flags (zero), the number of locations, that many
    location records, padding (zero), the number of live-outs (zero). *)
Definition record_at (buf : list Byte.byte) (offset : Z)
    (R : StackMapRecord) (offset' : Z) : Prop :=
  let n := Z.of_nat (length (Locations R)) in
  read uint64_t buf offset = Some (PatchPointID R) ∧
  read uint32_t buf (offset + 8) = Some (InstructionOffset R) ∧
  read uint16_t buf (offset + 12) = Some 0 ∧ ReservedFlags R = 0 ∧
  read uint16_t buf (offset + 14) = Some n ∧
  locations_at buf (offset + 16) (Locations R) ∧
  read uint16_t buf (offset + 16 + 8 * n) = Some 0 ∧
  read uint16_t buf (offset + 18 + 8 * n) = Some 0 ∧
  offset' = skip_padding (offset + 20 + 8 * n).

(** The frame records [Fs] lie back to back from [offset] on, each a
    64-bit function address followed by a 64-bit stack size. *)
Definition frame_records_at (buf : list Byte.byte) (offset : Z)
    (Fs : list StackMapSizeRecord) : Prop :=
  ∀ (i : nat) F, Fs !! i = Some F →
    read uint64_t buf (offset + 16 * Z.of_nat i) = Some (FunctionAddr F) ∧
    read uint64_t buf (offset + 16 * Z.of_nat i + 8) = Some (StackSize F).

(** *** The reduced format of the layout comment

    The comment that precedes the reader describes frame records of two
    4-byte fields, a function offset and a stack size.  These definitions
    follow that description, for comparison with the reader above. *)
Fixpoint parse_FnSizeRecords_reduced (NumFuncs : nat) (data : pointer)
    (offset len : Z) : outcome (list StackMapSizeRecord * Z) :=
  match NumFuncs with
  | O => Ret ([], offset)
  | S n =>
      '(Addr, offset) ← parse_primitive uint32_t data offset len;
      '(Size, offset) ← parse_primitive uint32_t data offset len;
      '(rest, offset) ← parse_FnSizeRecords_reduced n data offset len;
      Ret ({| FunctionAddr := Addr; StackSize := Size |} :: rest, offset)
  end.

Definition StackMapSection_parse_reduced (this : StackMapSection)
    (data : pointer) (offset len : Z) : outcome (StackMapSection * Z) :=
  '(Version, offset) ← parse_primitive uint8_t data offset len;
  '(Reserved8, offset) ← parse_primitive uint8_t data offset len;
  '(Reserved16, offset) ← parse_primitive uint16_t data offset len;
  _ ← assert (Version =? 1);
  _ ← assert (Reserved8 =? 0);
  _ ← assert (Reserved16 =? 0);
  '(NumFuncs, offset) ← parse_primitive uint32_t data offset len;
  '(NumConstants, offset) ← parse_primitive uint32_t data offset len;
  '(NumRecords, offset) ← parse_primitive uint32_t data offset len;
  '(Fns, offset) ← parse_FnSizeRecords_reduced (Z.to_nat NumFuncs) data offset len;
  '(Cs, offset) ← parse_Constants (Z.to_nat NumConstants) data offset len;
  '(Rs, offset) ← parse_Records (Z.to_nat NumRecords) data offset len;
  Ret ({| Version := Version; Reserved8 := Reserved8; Reserved16 := Reserved16;
          FnSizeRecords := FnSizeRecords this ++ Fns;
          Constants := Constants this ++ Cs;
          Records := Rs |}, offset).

(** *** Sample buffers *)

Definition bytes (ns : list N) : list Byte.byte :=
  (λ n, default Byte.x00 (Byte.of_N n)) <$> ns.

(** A section with one frame record in the reduced format: function offset
    [0x40], stack size [0x18]. *)
Definition reduced_section_bytes : list Byte.byte :=
  bytes [1; 0; 0; 0;  1; 0; 0; 0;  0; 0; 0; 0;  0; 0; 0; 0;
         0x40; 0; 0; 0;  0x18; 0; 0; 0]%N.

(** The same frame record as the writer lays it out: address [0x40] and
    stack size [0x18], 8 bytes each. *)
Definition full_section_bytes : list Byte.byte :=
  bytes [1; 0; 0; 0;  1; 0; 0; 0;  0; 0; 0; 0;  0; 0; 0; 0;
         0x40; 0; 0; 0; 0; 0; 0; 0;  0x18; 0; 0; 0; 0; 0; 0; 0]%N.

(** A record with id [7], pc offset [0x10] and one location
    [{Indirect, 8, 6, -16}], padded to 32 bytes. *)
Definition sample_record_bytes : list Byte.byte :=
  bytes [7; 0; 0; 0; 0; 0; 0; 0;  0x10; 0; 0; 0;  0; 0;  1; 0;
         3; 8; 6; 0; 0xf0; 0xff; 0xff; 0xff;  0; 0;  0; 0;  0; 0; 0; 0]%N.

Definition sample_record : StackMapRecord :=
  {| PatchPointID := 7; InstructionOffset := 16; ReservedFlags := 0;
     Locations := [{| Type_ := 3; SizeInBytes := 8; DwarfRegNum := 6;
                      Offset := -16 |}] |}.

(** A section with one frame record (address [0x40], stack size [0x18]),
    the constant [2^32] and the sample record. *)
Definition sample_section_bytes : list Byte.byte :=
  bytes [1; 0; 0; 0;  1; 0; 0; 0;  1; 0; 0; 0;  1; 0; 0; 0;
         0x40; 0; 0; 0; 0; 0; 0; 0;  0x18; 0; 0; 0; 0; 0; 0; 0;
         0; 0; 0; 0; 1; 0; 0; 0]%N ++ sample_record_bytes.

Definition sample_section : StackMapSection :=
  {| Version := 1; Reserved8 := 0; Reserved16 := 0;
     FnSizeRecords := [{| FunctionAddr := 64; StackSize := 24 |}];
     Constants := [4294967296];
     Records := [sample_record] |}.

(** *** Validation and look-up *)

(** [StackMapSizeRecord::isFixedSizeFrame] *)
Definition isFixedSizeFrame (this : StackMapSizeRecord) : bool :=
  negb (StackSize this =? UINT64_MAX).

(** The inner loop of [verify],
    [for (uint16_t j = 0; j < Rec.Locations.size(); j++)].  The counter is
    16 bits wide: on a vector of 65536 locations or more the condition
    never fails, and the bound of the model is hit. *)
Fixpoint verify_Locations (fuel : nat) (Locs : list LocationRecord) (j : Z)
  : outcome unit :=
  if j <? Z.of_nat (length Locs) then
    match fuel with
    | O => OutOfFuel
    | S fuel' =>
        Loc ← defined (Locs !! Z.to_nat j);
        _ ← assert (Type_ Loc <=? 5);
        verify_Locations fuel' Locs (wrap 16 (j + 1))
    end
  else Ret tt.

(** The outer loop, [for (unsigned i = 0; i < Records.size(); i++)]. *)
Fixpoint verify_Records (fuel : nat) (Recs : list StackMapRecord) (i : Z)
  : outcome unit :=
  if i <? Z.of_nat (length Recs) then
    match fuel with
    | O => OutOfFuel
    | S fuel' =>
        Rec ← defined (Recs !! Z.to_nat i);
        _ ← assert (0 =? ReservedFlags Rec);
        _ ← verify_Locations (length (Locations Rec)) (Locations Rec) 0;
        verify_Records fuel' Recs (wrap32 (i + 1))
    end
  else Ret tt.

(** [StackMapSection::verify] *)
Definition StackMapSection_verify (this : StackMapSection) : outcome unit :=
  _ ← assert (Version this =? 1);
  verify_Records (length (Records this)) (Records this) 0.

(** Modelled from the spec: the enumerators of [LocationRecord] are
    declared in StackMaps.h; their values are those of the location kinds,
    [Unprocessed = 0] up to [ConstantIndex = 5]. *)
Definition locationTypeToString (Ty : Z) : outcome string :=
  if Ty =? 0 then Ret "Unprocessed"%string
  else if Ty =? 1 then Ret "Register"%string
  else if Ty =? 2 then Ret "Direct"%string
  else if Ty =? 3 then Ret "Indirect"%string
  else if Ty =? 4 then Ret "Constant"%string
  else if Ty =? 5 then Ret "ConstantIndex"%string
  else AssertionFailure.   (* llvm_unreachable *)

(** The loop of [findRecordForRelPC]; leaving it is [llvm_unreachable]. *)
Fixpoint findRecordForRelPC_loop (fuel : nat) (Recs : list StackMapRecord)
    (RelPC : Z) (i : Z) : outcome StackMapRecord :=
  if i <? Z.of_nat (length Recs) then
    match fuel with
    | O => OutOfFuel
    | S fuel' =>
        Rec ← defined (Recs !! Z.to_nat i);
        if InstructionOffset Rec =? RelPC then Ret Rec
        else findRecordForRelPC_loop fuel' Recs RelPC (wrap32 (i + 1))
    end
  else AssertionFailure.

(** [StackMapSection::findRecordForRelPC] *)
Definition findRecordForRelPC (this : StackMapSection) (RelPC : Z)
  : outcome StackMapRecord :=
  findRecordForRelPC_loop (length (Records this)) (Records this) RelPC 0.

Fixpoint hasRecordForRelPC_loop (fuel : nat) (Recs : list StackMapRecord)
    (RelPC : Z) (i : Z) : outcome bool :=
  if i <? Z.of_nat (length Recs) then
    match fuel with
    | O => OutOfFuel
    | S fuel' =>
        Rec ← defined (Recs !! Z.to_nat i);
        if InstructionOffset Rec =? RelPC then Ret true
        else hasRecordForRelPC_loop fuel' Recs RelPC (wrap32 (i + 1))
    end
  else Ret false.

(** [StackMapSection::hasRecordForRelPC] *)
Definition hasRecordForRelPC (this : StackMapSection) (RelPC : Z) : outcome bool :=
  hasRecordForRelPC_loop (length (Records this)) (Records this) RelPC 0.

(** What [verify] checks of a location and of a record. *)
Definition location_ok (L : LocationRecord) : bool := Type_ L <=? 5.
Definition record_ok (R : StackMapRecord) : bool :=
  (0 =? ReservedFlags R) && forallb location_ok (Locations R).

(** The record is the one of the call site at [RelPC]. *)
Definition at_RelPC (RelPC : Z) (R : StackMapRecord) : Prop :=
  InstructionOffset R = RelPC.

Global Instance at_RelPC_dec RelPC R : Decision (at_RelPC RelPC R).
Proof. unfold at_RelPC. apply _. Defined.

End Reader.

(** ** The writer: [StackMaps] *)

Module StackMaps.

(** *** External collaborators *)

(** Modelled from the spec: the register catalog ([TargetRegisterInfo]) is
    an external interface; these are the queries the writer makes.
    [TRI_getDwarfRegNum] is [TRI->getDwarfRegNum(Reg, false)] (negative when
    the register has no DWARF number), [superRegs] the registers an
    [MCSuperRegIterator] visits, in its order, and [isSuperRegister a b]
    holds when [b] is a super-register of [a]. *)
Record TargetRegisterInfo : Type := {
  TRI_getDwarfRegNum : Z → Z;
  superRegs : Z → list Z;
  getMinimalPhysRegClass_getSize : Z → Z;
  getLLVMRegNum : Z → Z;
  getSubRegIndex : Z → Z → Z;
  getSubRegIdxOffset : Z → Z;
  isSuperRegister : Z → Z → bool;
  isPhysicalRegister : Z → bool;
  getNumRegs : Z
}.

Inductive MCSymbol : Type :=
  | TempSymbol (n : nat)
  | NamedSymbol (name : string).

Inductive MCExpr : Type :=
  | MCSymbolRefExpr (Sym : MCSymbol)
  | MCBinaryExpr_Sub (LHS RHS : MCExpr).

(** What the writer reads through its [AsmPrinter &AP] during one call:
    the register catalog, the data layout's pointer size, and the symbols
    and frame information of the function being emitted. *)
Record AsmPrinter : Type := {
  TRI : TargetRegisterInfo;
  getPointerSizeInBits : Z;
  CurrentFnSym : MCSymbol;
  CurrentFnSymForSize : MCSymbol;
  hasVarSizedObjects : bool;
  needsStackRealignment : bool;
  getStackSize : Z
}.

(** Modelled from the spec: the machine operand model is external; an
    operand is a tagged value, and [getImm] / [getReg] on an operand of
    another tag fail the accessor's assertion.  A register-live-out
    operand carries the mask pointer ([None] is the null pointer). *)
Inductive MachineOperand : Type :=
  | MO_Immediate (Imm : Z)
  | MO_Register (Reg : Z) (IsDef IsImplicit IsEarlyClobber : bool) (SubReg : Z)
  | MO_RegisterLiveOut (Mask : option (list Z))
  | MO_Other.

Definition isImm (MO : MachineOperand) : bool :=
  match MO with MO_Immediate _ => true | _ => false end.
Definition isReg (MO : MachineOperand) : bool :=
  match MO with MO_Register _ _ _ _ _ => true | _ => false end.
Definition isRegLiveOut (MO : MachineOperand) : bool :=
  match MO with MO_RegisterLiveOut _ => true | _ => false end.
Definition getImm (MO : MachineOperand) : outcome Z :=
  match MO with MO_Immediate Imm => Ret Imm | _ => AssertionFailure end.
Definition getReg (MO : MachineOperand) : outcome Z :=
  match MO with MO_Register Reg _ _ _ _ => Ret Reg | _ => AssertionFailure end.
Definition isDef (MO : MachineOperand) : bool :=
  match MO with MO_Register _ d _ _ _ => d | _ => false end.
Definition isImplicit (MO : MachineOperand) : bool :=
  match MO with MO_Register _ _ i _ _ => i | _ => false end.
Definition getSubReg (MO : MachineOperand) : Z :=
  match MO with MO_Register _ _ _ _ s => s | _ => 0 end.

(** A [MachineInstr] is its operand array; a [const_mop_iterator] is an
    index into it, and dereferencing it past the end is undefined. *)
Abbreviation MachineInstr := (list MachineOperand).
Definition deref (MI : MachineInstr) (MOI : nat) : outcome MachineOperand :=
  defined (MI !! MOI).

(** The [OpType] tags a leading immediate may carry. *)
Inductive OpType : Type := DirectMemRefOp | IndirectMemRefOp | ConstantOp.

(** *** Data model *)

Inductive LocationType : Type :=
  Unprocessed | Register | Direct | Indirect | Constant | ConstantIndex.

Definition LocationType_value (T : LocationType) : Z :=
  match T with
  | Unprocessed => 0 | Register => 1 | Direct => 2
  | Indirect => 3 | Constant => 4 | ConstantIndex => 5
  end.

Global Instance LocationType_eq_dec : EqDecision LocationType.
Proof. solve_decision. Defined.

(** Modelled from the spec: [Location] is declared in StackMaps.h: a kind,
    an 8-bit size, a 16-bit DWARF register number and an offset.  [Offset]
    is an [int64_t] in the writer, as the promotion loop of
    [recordStackMapOpers] requires; it is narrowed on emission. *)
Record Location : Type := {
  LocType : LocationType;
  Size : Z;      (* 8 bits *)
  Reg : Z;       (* 16 bits, a DWARF register number *)
  Offset : Z     (* int64_t *)
}.

Definition mkLocation (LocType : LocationType) (Size Reg Offset : Z) : Location :=
  {| LocType := LocType; Size := wrap 8 Size; Reg := wrap 16 Reg;
     Offset := Offset |}.

(** Modelled from the spec: [LiveOutReg] is declared in StackMaps.h: the
    physical register, its 16-bit DWARF number, its 8-bit spill size and
    the validity mark of the merge pass.  [operator<] compares the DWARF
    numbers only. *)
Record LiveOutReg : Type := {
  LO_Reg : Z;
  LO_RegNo : Z;
  LO_Size : Z;
  LO_Valid : bool
}.

Definition mkLiveOutReg (Reg RegNo Size : Z) : LiveOutReg :=
  {| LO_Reg := Reg; LO_RegNo := wrap 16 RegNo; LO_Size := wrap 8 Size;
     LO_Valid := true |}.
Definition MarkInvalid (LO : LiveOutReg) : LiveOutReg :=
  {| LO_Reg := LO_Reg LO; LO_RegNo := LO_RegNo LO; LO_Size := LO_Size LO;
     LO_Valid := false |}.
Definition IsInvalid (LO : LiveOutReg) : bool := negb (LO_Valid LO).
Definition LiveOutReg_lt (a b : LiveOutReg) : Prop := LO_RegNo a < LO_RegNo b.
Definition LiveOutReg_le (a b : LiveOutReg) : Prop := LO_RegNo a ≤ LO_RegNo b.

Global Instance LiveOutReg_le_dec : RelDecision LiveOutReg_le.
Proof. intros a b. unfold LiveOutReg_le. apply _. Defined.

Abbreviation LocationVec := (list Location).
Abbreviation LiveOutVec := (list LiveOutReg).

Record CallsiteInfo : Type := {
  CSOffsetExpr : MCExpr;
  ID : Z;                  (* uint64_t *)
  Locations : LocationVec;
  LiveOuts : LiveOutVec
}.

(** Modelled from the spec: [MapVector<K, uint64_t>] (llvm/ADT) is an
    insertion-ordered map, here the vector of its pairs.  [insert] leaves
    the map alone when the key is present and appends the pair otherwise;
    it returns the position of the key's pair. *)
Abbreviation MapVector K := (list (K * Z)).

Fixpoint MapVector_find {K} `{EqDecision K} (k : K) (M : MapVector K) : option nat :=
  match M with
  | [] => None
  | (k', _) :: M' => if decide (k' = k) then Some O else S <$> MapVector_find k M'
  end.

Definition MapVector_insert {K} `{EqDecision K} (KV : K * Z) (M : MapVector K)
  : MapVector K * nat :=
  match MapVector_find (fst KV) M with
  | Some i => (M, i)
  | None => (M ++ [KV], length M)
  end.

(** [M[k] = v] *)
Definition MapVector_assign {K} `{EqDecision K} (k : K) (v : Z) (M : MapVector K)
  : MapVector K :=
  let '(M, i) := MapVector_insert (k, 0) M in <[i := (k, v)]> M.

Global Instance MCSymbol_eq_dec : EqDecision MCSymbol.
Proof. solve_decision. Defined.

Abbreviation ConstantPool := (MapVector Z).
Abbreviation FnStackSizeMap := (MapVector MCSymbol).

(** The members of a [StackMaps] object. *)
Record StackMaps : Type := {
  CSInfos : list CallsiteInfo;
  ConstPool : ConstantPool;
  FnStackSize : FnStackSizeMap
}.

(** Modelled from the spec: the keys a [DenseMap<uint64_t, T>] reserves,
    [(uint64_t)0] and [(uint64_t)-1] by the comment in
    [recordStackMapOpers]. *)
Definition DenseMapInfo_getEmptyKey : Z := to_uint64 0.
Definition DenseMapInfo_getTombstoneKey : Z := to_uint64 (-1).

(** *** Operand parsing *)

(** [getDwarfRegNum]: go up the super-register chain until a valid DWARF
    register number is hit. *)
Fixpoint getDwarfRegNum_loop (TRI : TargetRegisterInfo) (SRs : list Z) (RegNo : Z) : Z :=
  match SRs with
  | [] => RegNo
  | SR :: SRs' =>
      if RegNo <? 0 then getDwarfRegNum_loop TRI SRs' (TRI_getDwarfRegNum TRI SR)
      else RegNo
  end.

Definition getDwarfRegNum (Reg : Z) (TRI : TargetRegisterInfo) : outcome Z :=
  let RegNo := getDwarfRegNum_loop TRI (superRegs TRI Reg) (TRI_getDwarfRegNum TRI Reg) in
  _ ← assert (0 <=? RegNo);
  Ret RegNo.

(** [StackMaps::createLiveOutReg] *)
Definition createLiveOutReg (Reg : Z) (TRI : TargetRegisterInfo) : outcome LiveOutReg :=
  RegNo ← getDwarfRegNum Reg TRI;
  let Size := getMinimalPhysRegClass_getSize TRI Reg in
  Ret (mkLiveOutReg Reg RegNo Size).

(** The first loop of [parseRegisterLiveOutMask]: a [LiveOutReg] for each
    bit that is set in the register mask. *)
Fixpoint collectLiveOuts (TRI : TargetRegisterInfo) (Mask : list Z)
    (Regs : list Z) (LiveOuts : LiveOutVec) : outcome LiveOutVec :=
  match Regs with
  | [] => Ret LiveOuts
  | Reg :: Regs' =>
      word ← defined (Mask !! Z.to_nat (Reg / 32));
      if Z.land (Z.shiftr word (Reg mod 32)) 1 =? 1 then
        LO ← createLiveOutReg Reg TRI;
        collectLiveOuts TRI Mask Regs' (LiveOuts ++ [LO])
      else collectLiveOuts TRI Mask Regs' LiveOuts
  end.

(** The inner loop [for (II = ...; II != E; ++II)] of the merge, entered
    with the iterators at [I] and [II]: the vector and the value of [I]
    when the loop is left. *)
Fixpoint merge_inner (TRI : TargetRegisterInfo) (fuel : nat)
    (LiveOuts : LiveOutVec) (I II : nat) : outcome (LiveOutVec * nat) :=
  if decide (II = length LiveOuts) then Ret (LiveOuts, I)
  else
    match fuel with
    | O => OutOfFuel
    | S fuel' =>
        LI ← defined (LiveOuts !! I);
        LII ← defined (LiveOuts !! II);
        if decide (LO_RegNo LI ≠ LO_RegNo LII) then
          (* Skip all the now invalid entries: I = --II; break *)
          Ret (LiveOuts, pred II)
        else
          (* I->Size = std::max(I->Size, II->Size) *)
          let LI := {| LO_Reg := LO_Reg LI; LO_RegNo := LO_RegNo LI;
                       LO_Size := Z.max (LO_Size LI) (LO_Size LII);
                       LO_Valid := LO_Valid LI |} in
          let LiveOuts := <[I := LI]> LiveOuts in
          LI ← defined (LiveOuts !! I);
          LII ← defined (LiveOuts !! II);
          (* if (TRI->isSuperRegister(I->Reg, II->Reg)) I->Reg = II->Reg *)
          let LiveOuts :=
            if isSuperRegister TRI (LO_Reg LI) (LO_Reg LII)
            then <[I := {| LO_Reg := LO_Reg LII; LO_RegNo := LO_RegNo LI;
                           LO_Size := LO_Size LI; LO_Valid := LO_Valid LI |}]> LiveOuts
            else LiveOuts in
          (* II->MarkInvalid() *)
          LII ← defined (LiveOuts !! II);
          let LiveOuts := <[II := MarkInvalid LII]> LiveOuts in
          merge_inner TRI fuel' LiveOuts I (S II)
    end.

(** The outer loop [for (I = ...; I != E; ++I)]. *)
Fixpoint merge_outer (TRI : TargetRegisterInfo) (fuel : nat)
    (LiveOuts : LiveOutVec) (I : nat) : outcome LiveOutVec :=
  if decide (I = length LiveOuts) then Ret LiveOuts
  else
    match fuel with
    | O => OutOfFuel
    | S fuel' =>
        '(LiveOuts, I') ← merge_inner TRI (length LiveOuts) LiveOuts I (S I);
        merge_outer TRI fuel' LiveOuts (S I')
    end.

Section Writer.

(** [std::sort] on [LiveOutReg]s orders by [operator<]; the order of
    entries that compare equal is the library's. *)
Variable std_sort : LiveOutVec → LiveOutVec.

(** The numbering of the [OpType] enumerators, declared in StackMaps.h:
    the tag an immediate denotes, if any. *)
Variable OpType_of_imm : Z → option OpType.

(** [StackMaps::parseRegisterLiveOutMask] *)
Definition parseRegisterLiveOutMask (AP : AsmPrinter) (Mask : option (list Z))
  : outcome LiveOutVec :=
  _ ← assert (bool_decide (is_Some Mask));
  Mask ← defined Mask;
  let TRI := TRI AP in
  LiveOuts ← collectLiveOuts TRI Mask (seqZ 0 (getNumRegs TRI)) [];
  let LiveOuts := std_sort LiveOuts in
  LiveOuts ← merge_outer TRI (length LiveOuts) LiveOuts 0;
  Ret (filter (λ LO, IsInvalid LO = false) LiveOuts).

(** [StackMaps::parseOperand]: the iterator returned, and [Locs] and
    [LiveOuts] (reference parameters in the source) as the call leaves
    them. *)
Definition parseOperand (AP : AsmPrinter) (MI : MachineInstr) (MOI MOE : nat)
    (Locs : LocationVec) (LiveOuts : LiveOutVec)
  : outcome (nat * LocationVec * LiveOutVec) :=
  let TRI := TRI AP in
  MO ← deref MI MOI;
  if isImm MO then
    Imm ← getImm MO;
    match OpType_of_imm Imm with
    | None => AssertionFailure     (* llvm_unreachable *)
    | Some DirectMemRefOp =>
        let Size := getPointerSizeInBits AP in
        _ ← assert (Size mod 8 =? 0);
        let Size := Size / 8 in
        let MOI := S MOI in MO ← deref MI MOI; Reg ← getReg MO;
        let MOI := S MOI in MO ← deref MI MOI; Imm ← getImm MO;
        RegNo ← getDwarfRegNum Reg TRI;
        Ret (S MOI, Locs ++ [mkLocation Direct Size RegNo Imm], LiveOuts)
    | Some IndirectMemRefOp =>
        let MOI := S MOI in MO ← deref MI MOI; Size ← getImm MO;
        _ ← assert (0 <? Size);
        let MOI := S MOI in MO ← deref MI MOI; Reg ← getReg MO;
        let MOI := S MOI in MO ← deref MI MOI; Imm ← getImm MO;
        RegNo ← getDwarfRegNum Reg TRI;
        Ret (S MOI, Locs ++ [mkLocation Indirect Size RegNo Imm], LiveOuts)
    | Some ConstantOp =>
        let MOI := S MOI in MO ← deref MI MOI;
        _ ← assert (isImm MO);
        Imm ← getImm MO;
        Ret (S MOI, Locs ++ [mkLocation Constant 8 0 Imm], LiveOuts)
    end
  else if isReg MO then
    (* Skip implicit registers (this includes our scratch registers) *)
    if isImplicit MO then Ret (S MOI, Locs, LiveOuts)
    else
      Reg ← getReg MO;
      _ ← assert (isPhysicalRegister TRI Reg);
      let RC_getSize := getMinimalPhysRegClass_getSize TRI Reg in
      _ ← assert (getSubReg MO =? 0);
      RegNo ← getDwarfRegNum Reg TRI;
      let LLVMRegNo := getLLVMRegNum TRI RegNo in
      let SubRegIdx := getSubRegIndex TRI LLVMRegNo Reg in
      let Offset := if negb (SubRegIdx =? 0) then getSubRegIdxOffset TRI SubRegIdx else 0 in
      Ret (S MOI, Locs ++ [mkLocation Register RC_getSize RegNo Offset], LiveOuts)
  else if isRegLiveOut MO then
    LiveOuts ← parseRegisterLiveOutMask AP
                 (match MO with MO_RegisterLiveOut Mask => Mask | _ => None end);
    Ret (S MOI, Locs, LiveOuts)
  else Ret (S MOI, Locs, LiveOuts).

(** [while (MOI != MOE) MOI = parseOperand(MOI, MOE, Locations, LiveOuts)] *)
Fixpoint parseOperands (fuel : nat) (AP : AsmPrinter) (MI : MachineInstr)
    (MOI MOE : nat) (Locs : LocationVec) (LiveOuts : LiveOutVec)
  : outcome (LocationVec * LiveOutVec) :=
  if decide (MOI = MOE) then Ret (Locs, LiveOuts)
  else
    match fuel with
    | O => OutOfFuel
    | S fuel' =>
        '(MOI, Locs, LiveOuts) ← parseOperand AP MI MOI MOE Locs LiveOuts;
        parseOperands fuel' AP MI MOI MOE Locs LiveOuts
    end.

End Writer.

(** *** The stream emitter *)

(** Modelled from the spec: the object-file streaming layer is an abstract
    emitter.  The model keeps what was emitted, in order, with the section
    it went to; the size of a section is the sum of the sizes of its
    entries, and an alignment entry carries the padding it stands for. *)
Inductive MCSection : Type :=
  | StackMapSection             (* getStackMapSection() *)
  | OtherSection (n : nat).

Global Instance MCSection_eq_dec : EqDecision MCSection.
Proof. solve_decision. Defined.

Inductive Emitted : Type :=
  | Label (Sym : MCSymbol)
  | IntValue (Value : Z) (Size : Z)
  | ExprValue (Value : MCExpr) (Size : Z)
  | SymbolValue (Sym : MCSymbol) (Size : Z)
  | Alignment (ByteAlignment : Z) (Padding : Z)
  | BlankLine.

Definition Emitted_size (e : Emitted) : Z :=
  match e with
  | Label _ => 0
  | IntValue _ Size => Size
  | ExprValue _ Size => Size
  | SymbolValue _ Size => Size
  | Alignment _ Padding => Padding
  | BlankLine => 0
  end.

Definition size_of (es : list Emitted) : Z :=
  foldr (λ e n, Emitted_size e + n) 0 es.

Record MCStreamer : Type := {
  NextTempSymbol : nat;                    (* the context's temporary symbols *)
  CurrentSection : MCSection;
  Output : list (MCSection * Emitted)
}.

(** What section [Sec] holds. *)
Definition section_contents (Sec : MCSection) (OS : MCStreamer) : list Emitted :=
  snd <$> filter (λ p, fst p = Sec) (Output OS).

Definition section_size (Sec : MCSection) (OS : MCStreamer) : Z :=
  size_of (section_contents Sec OS).

Definition emit (e : Emitted) (OS : MCStreamer) : MCStreamer :=
  {| NextTempSymbol := NextTempSymbol OS;
     CurrentSection := CurrentSection OS;
     Output := Output OS ++ [(CurrentSection OS, e)] |}.

Definition createTempSymbol (OS : MCStreamer) : MCSymbol * MCStreamer :=
  (TempSymbol (NextTempSymbol OS),
   {| NextTempSymbol := S (NextTempSymbol OS);
      CurrentSection := CurrentSection OS;
      Output := Output OS |}).

Definition SwitchSection (Sec : MCSection) (OS : MCStreamer) : MCStreamer :=
  {| NextTempSymbol := NextTempSymbol OS;
     CurrentSection := Sec;
     Output := Output OS |}.

Definition EmitLabel (Sym : MCSymbol) : MCStreamer → MCStreamer := emit (Label Sym).
(** [EmitIntValue(uint64_t Value, unsigned Size)] *)
Definition EmitIntValue (Value Size : Z) : MCStreamer → MCStreamer :=
  emit (IntValue (to_uint64 Value) Size).
Definition EmitValue (Value : MCExpr) (Size : Z) : MCStreamer → MCStreamer :=
  emit (ExprValue Value Size).
Definition EmitSymbolValue (Sym : MCSymbol) (Size : Z) : MCStreamer → MCStreamer :=
  emit (SymbolValue Sym Size).
Definition EmitValueToAlignment (ByteAlignment : Z) (OS : MCStreamer) : MCStreamer :=
  let Offset := section_size (CurrentSection OS) OS in
  emit (Alignment ByteAlignment ((ByteAlignment - Offset mod ByteAlignment) mod ByteAlignment)) OS.
Definition AddBlankLine : MCStreamer → MCStreamer := emit BlankLine.

(** *** Recording a call site *)

(** The loop of [recordStackMapOpers] that moves large constants into the
    constant pool. *)
Fixpoint moveLargeConstants (Locations : LocationVec) (ConstPool : ConstantPool)
  : outcome (LocationVec * ConstantPool) :=
  match Locations with
  | [] => Ret ([], ConstPool)
  | Loc :: rest =>
      if bool_decide (LocType Loc = Constant) && negb (isInt32 (Offset Loc)) then
        _ ← assert (negb (to_uint64 (Offset Loc) =? DenseMapInfo_getEmptyKey) &&
                    negb (to_uint64 (Offset Loc) =? DenseMapInfo_getTombstoneKey));
        let '(ConstPool, Result) :=
          MapVector_insert (to_uint64 (Offset Loc), to_uint64 (Offset Loc)) ConstPool in
        let Loc := {| LocType := ConstantIndex; Size := Size Loc; Reg := Reg Loc;
                      Offset := Z.of_nat Result |} in
        '(rest, ConstPool) ← moveLargeConstants rest ConstPool;
        Ret (Loc :: rest, ConstPool)
      else
        '(rest, ConstPool) ← moveLargeConstants rest ConstPool;
        Ret (Loc :: rest, ConstPool)
  end.

(** [PatchPointOpers(&MI).hasDef()]: the member [HasDef], as the
    constructor initializes it from operand 0.  What else the constructor
    reads and checks (the calling convention, the leading defs) is in
    [PatchPointOpers_new]; [recordPatchPoint], the one caller in
    StackMaps.cpp that asks for the result, has constructed the object
    from the same instruction before the call. *)
Definition hasDef (MI : MachineInstr) : outcome bool :=
  MO ← deref MI 0;
  Ret (isReg MO && isDef MO && negb (isImplicit MO)).

Section Writer.

Variable std_sort : LiveOutVec → LiveOutVec.
Variable OpType_of_imm : Z → option OpType.

(** [StackMaps::recordStackMapOpers] on the writer [this] and the streamer
    [OS] behind [AP.OutStreamer]. *)
Definition recordStackMapOpers (AP : AsmPrinter) (MI : MachineInstr) (ID : Z)
    (MOI MOE : nat) (recordResult : bool) (this : StackMaps) (OS : MCStreamer)
  : outcome (StackMaps * MCStreamer) :=
  let '(MILabel, OS) := createTempSymbol OS in
  let OS := EmitLabel MILabel OS in
  let Locations : LocationVec := [] in
  let LiveOuts : LiveOutVec := [] in
  '(Locations, LiveOuts) ←
    (if recordResult then
       d ← hasDef MI;
       _ ← assert d;
       '(_, Locations, LiveOuts) ←
         parseOperand std_sort OpType_of_imm AP MI 0 1 Locations LiveOuts;
       Ret (Locations, LiveOuts)
     else Ret (Locations, LiveOuts));
  (* Parse operands. *)
  '(Locations, LiveOuts) ←
    parseOperands std_sort OpType_of_imm (S (length MI)) AP MI MOI MOE
                  Locations LiveOuts;
  (* Move large constants into the constant pool. *)
  '(Locations, ConstPool) ← moveLargeConstants Locations (ConstPool this);
  let CSOffsetExpr :=
    MCBinaryExpr_Sub (MCSymbolRefExpr MILabel)
                     (MCSymbolRefExpr (CurrentFnSymForSize AP)) in
  let CSInfos := CSInfos this ++
    [{| CSOffsetExpr := CSOffsetExpr; ID := to_uint64 ID;
        Locations := Locations; LiveOuts := LiveOuts |}] in
  (* Record the stack size of the current function. *)
  let DynamicFrameSize := hasVarSizedObjects AP || needsStackRealignment AP in
  let FnStackSize :=
    MapVector_assign (CurrentFnSym AP)
      (if DynamicFrameSize then UINT64_MAX else getStackSize AP)
      (FnStackSize this) in
  Ret ({| CSInfos := CSInfos; ConstPool := ConstPool; FnStackSize := FnStackSize |},
       OS).

End Writer.

(** *** Serialization *)

(** The encoding version; the constructor of [StackMaps] accepts no other. *)
Definition StackMapVersion : Z := 1.

(** [StackMaps::emitStackmapHeader] *)
Definition emitStackmapHeader (this : StackMaps) (OS : MCStreamer) : MCStreamer :=
  let OS := EmitIntValue StackMapVersion 1 OS in   (* Version. *)
  let OS := EmitIntValue 0 1 OS in                 (* Reserved. *)
  let OS := EmitIntValue 0 2 OS in                 (* Reserved. *)
  let OS := EmitIntValue (Z.of_nat (length (FnStackSize this))) 4 OS in
  let OS := EmitIntValue (Z.of_nat (length (ConstPool this))) 4 OS in
  EmitIntValue (Z.of_nat (length (CSInfos this))) 4 OS.

(** [StackMaps::emitFunctionFrameRecords] *)
Definition emitFunctionFrameRecords (this : StackMaps) (OS : MCStreamer) : MCStreamer :=
  foldl (λ OS FR,
           let OS := EmitSymbolValue (fst FR) 8 OS in
           EmitIntValue (snd FR) 8 OS)
        OS (FnStackSize this).

(** [StackMaps::emitConstantPoolEntries] *)
Definition emitConstantPoolEntries (this : StackMaps) (OS : MCStreamer) : MCStreamer :=
  foldl (λ OS ConstEntry, EmitIntValue (snd ConstEntry) 8 OS) OS (ConstPool this).

(** The body of the loop of [emitCallsiteEntries], for one call site. *)
Definition emitCallsiteEntry (OS : MCStreamer) (CSI : CallsiteInfo) : MCStreamer :=
  let CSLocs := Locations CSI in
  let LiveOuts := LiveOuts CSI in
  if (UINT16_MAX <? Z.of_nat (length CSLocs)) || (UINT16_MAX <? Z.of_nat (length LiveOuts))
  then
    let OS := EmitIntValue UINT64_MAX 8 OS in       (* Invalid ID. *)
    let OS := EmitValue (CSOffsetExpr CSI) 4 OS in
    let OS := EmitIntValue 0 2 OS in                (* Reserved. *)
    let OS := EmitIntValue 0 2 OS in                (* 0 locations. *)
    let OS := EmitIntValue 0 2 OS in                (* padding. *)
    let OS := EmitIntValue 0 2 OS in                (* 0 live-out registers. *)
    EmitIntValue 0 4 OS                             (* padding; continue *)
  else
    let OS := EmitIntValue (ID CSI) 8 OS in
    let OS := EmitValue (CSOffsetExpr CSI) 4 OS in
    (* Reserved for flags. *)
    let OS := EmitIntValue 0 2 OS in
    let OS := EmitIntValue (Z.of_nat (length CSLocs)) 2 OS in
    let OS :=
      foldl (λ OS Loc,
               let OS := EmitIntValue (LocationType_value (LocType Loc)) 1 OS in
               let OS := EmitIntValue (Size Loc) 1 OS in
               let OS := EmitIntValue (Reg Loc) 2 OS in
               EmitIntValue (Offset Loc) 4 OS)
            OS CSLocs in
    (* Num live-out registers and padding to align to 4 byte. *)
    let OS := EmitIntValue 0 2 OS in
    let OS := EmitIntValue (Z.of_nat (length LiveOuts)) 2 OS in
    let OS :=
      foldl (λ OS LO,
               let OS := EmitIntValue (LO_RegNo LO) 2 OS in
               let OS := EmitIntValue 0 1 OS in
               EmitIntValue (LO_Size LO) 1 OS)
            OS LiveOuts in
    (* Emit alignment to 8 byte. *)
    EmitValueToAlignment 8 OS.

(** [StackMaps::emitCallsiteEntries] *)
Definition emitCallsiteEntries (this : StackMaps) (OS : MCStreamer) : MCStreamer :=
  foldl emitCallsiteEntry OS (CSInfos this).

(** [StackMaps::serializeToStackMapSection] *)
Definition serializeToStackMapSection (this : StackMaps) (OS : MCStreamer)
  : outcome (StackMaps * MCStreamer) :=
  let empty {A} (l : list A) := bool_decide (l = []) in
  _ ← assert (negb (empty (CSInfos this)) ||
              (empty (CSInfos this) && empty (ConstPool this)));
  _ ← assert (negb (empty (CSInfos this)) ||
              (empty (CSInfos this) && empty (FnStackSize this)));
  (* Bail out if there's no stack map data. *)
  if empty (CSInfos this) then Ret (this, OS)
  else
    (* Create the section. *)
    let OS := SwitchSection StackMapSection OS in
    (* Emit a dummy symbol to force section inclusion. *)
    let OS := EmitLabel (NamedSymbol "__LLVM_StackMaps") OS in
    (* Serialize data. *)
    let OS := emitStackmapHeader this OS in
    let OS := emitFunctionFrameRecords this OS in
    let OS := emitConstantPoolEntries this OS in
    let OS := emitCallsiteEntries this OS in
    let OS := AddBlankLine OS in
    (* Clean up. *)
    Ret ({| CSInfos := []; ConstPool := []; FnStackSize := FnStackSize this |}, OS).

(** A newly constructed writer. *)
Definition empty_StackMaps : StackMaps :=
  {| CSInfos := []; ConstPool := []; FnStackSize := [] |}.

(** *** The records of the call-site table *)

(** The record that stands for a call site with too many locations or
    live-outs: [{id = UINT64_MAX, pc offset, flags = 0, num_locations = 0,
    padding = 0, num_live_outs = 0, padding32 = 0}]. *)
Definition sentinel_record (CSI : CallsiteInfo) : list Emitted :=
  [ IntValue UINT64_MAX 8; ExprValue (CSOffsetExpr CSI) 4; IntValue 0 2;
    IntValue 0 2; IntValue 0 2; IntValue 0 2; IntValue 0 4 ].

Definition Location_fields (Loc : Location) : list Emitted :=
  [ IntValue (to_uint64 (LocationType_value (LocType Loc))) 1;
    IntValue (to_uint64 (Size Loc)) 1;
    IntValue (to_uint64 (Reg Loc)) 2;
    IntValue (to_uint64 (Offset Loc)) 4 ].

Definition LiveOut_fields (LO : LiveOutReg) : list Emitted :=
  [ IntValue (to_uint64 (LO_RegNo LO)) 2; IntValue 0 1;
    IntValue (to_uint64 (LO_Size LO)) 1 ].

(** The contents of a call site, before the alignment that follows. *)
Definition callsite_record (CSI : CallsiteInfo) : list Emitted :=
  [ IntValue (to_uint64 (ID CSI)) 8; ExprValue (CSOffsetExpr CSI) 4;
    IntValue 0 2; IntValue (Z.of_nat (length (Locations CSI))) 2 ] ++
  (Locations CSI ≫= Location_fields) ++
  [ IntValue 0 2; IntValue (Z.of_nat (length (LiveOuts CSI))) 2 ] ++
  (LiveOuts CSI ≫= LiveOut_fields).

(** The streamer on which [serializeToStackMapSection] calls
    [emitCallsiteEntries]. *)
Definition before_callsite_entries (this : StackMaps) (OS : MCStreamer) : MCStreamer :=
  emitConstantPoolEntries this
    (emitFunctionFrameRecords this
       (emitStackmapHeader this
          (EmitLabel (NamedSymbol "__LLVM_StackMaps")
             (SwitchSection StackMapSection OS)))).

(** What a streamer function adds to the output. *)
Definition emitted_since (OS OS' : MCStreamer) : list (MCSection * Emitted) :=
  drop (length (Output OS)) (Output OS').

(** Emitting a sequence of entries, one after the other. *)
Definition emit_all (es : list Emitted) (OS : MCStreamer) : MCStreamer :=
  foldl (λ OS e, emit e OS) OS es.

(** The padding [EmitValueToAlignment(8)] inserts at offset [Offset]. *)
Definition padding_to_8 (Offset : Z) : Z := (8 - Offset mod 8) mod 8.

(** A call site beyond the limits of the 16-bit counts. *)
Definition overflows (CSI : CallsiteInfo) : Prop :=
  UINT16_MAX < Z.of_nat (length (Locations CSI)) ∨
  UINT16_MAX < Z.of_nat (length (LiveOuts CSI)).

(** *** The constant pool across call sites *)

(** A location the promotion loop moves into the constant pool. *)
Definition large_constant (Loc : Location) : Prop :=
  LocType Loc = Constant ∧ isInt32 (Offset Loc) = false.

(** The pools [recordStackMapOpers] builds: keys are distinct, and each
    key is stored as its own value. *)
Definition pool_wf (CP : ConstantPool) : Prop :=
  NoDup (fst <$> CP) ∧ Forall (λ KV, snd KV = fst KV) CP.

(** The entries of the pool for the 64-bit value [v]. *)
Definition pool_entries_for (v : Z) (CP : ConstantPool) : ConstantPool :=
  filter (λ KV, fst KV = to_uint64 v) CP.

(** The promotion loop, run for the location vectors of successive call
    sites. *)
Fixpoint moveLargeConstants_sites (sites : list LocationVec) (ConstPool : ConstantPool)
  : outcome (list LocationVec * ConstantPool) :=
  match sites with
  | [] => Ret ([], ConstPool)
  | Locations :: sites' =>
      '(Locations, ConstPool) ← moveLargeConstants Locations ConstPool;
      '(sites', ConstPool) ← moveLargeConstants_sites sites' ConstPool;
      Ret (Locations :: sites', ConstPool)
  end.

(** The arguments of one call of [recordStackMapOpers]. *)
Record RecordCall : Type := {
  call_AP : AsmPrinter;
  call_MI : MachineInstr;
  call_ID : Z;
  call_MOI : nat;
  call_MOE : nat;
  call_recordResult : bool
}.

Section Calls.

Variable std_sort : LiveOutVec → LiveOutVec.
Variable OpType_of_imm : Z → option OpType.

(** Successive calls of [recordStackMapOpers] on one writer. *)
Fixpoint recordCalls (calls : list RecordCall) (this : StackMaps) (OS : MCStreamer)
  : outcome (StackMaps * MCStreamer) :=
  match calls with
  | [] => Ret (this, OS)
  | c :: calls' =>
      '(this, OS) ← recordStackMapOpers std_sort OpType_of_imm
                      (call_AP c) (call_MI c) (call_ID c) (call_MOI c)
                      (call_MOE c) (call_recordResult c) this OS;
      recordCalls calls' this OS
  end.

(** What a call of [recordStackMapOpers] has in [Locations] and
    [LiveOuts] when it reaches the promotion loop: the location of the
    result, when it is recorded, and then those of the operands from [MOI]
    to [MOE].  Neither the writer nor the streamer is read for them. *)
Definition parsedOperands (AP : AsmPrinter) (MI : MachineInstr) (MOI MOE : nat)
    (recordResult : bool) : outcome (LocationVec * LiveOutVec) :=
  let Locations : LocationVec := [] in
  let LiveOuts : LiveOutVec := [] in
  '(Locations, LiveOuts) ←
    (if recordResult then
       d ← hasDef MI;
       _ ← assert d;
       '(_, Locations, LiveOuts) ←
         parseOperand std_sort OpType_of_imm AP MI 0 1 Locations LiveOuts;
       Ret (Locations, LiveOuts)
     else Ret (Locations, LiveOuts));
  parseOperands std_sort OpType_of_imm (S (length MI)) AP MI MOI MOE
                Locations LiveOuts.

Definition call_parsed (c : RecordCall) : outcome (LocationVec * LiveOutVec) :=
  parsedOperands (call_AP c) (call_MI c) (call_MOI c) (call_MOE c)
                 (call_recordResult c).

(** The writers a compilation can reach: calls of [recordStackMapOpers]
    and of [serializeToStackMapSection] on a new writer. *)
Inductive reachable : StackMaps → Prop :=
  | reachable_empty : reachable empty_StackMaps
  | reachable_record AP MI ID MOI MOE recordResult this OS this' OS' :
      reachable this →
      recordStackMapOpers std_sort OpType_of_imm AP MI ID MOI MOE recordResult
        this OS = Ret (this', OS') →
      reachable this'
  | reachable_serialize this OS this' OS' :
      reachable this →
      serializeToStackMapSection this OS = Ret (this', OS') →
      reachable this'.

End Calls.

(** How the promotion loop leaves the location [Loc0], given the pool
    [CP'] it ends with: a large constant becomes the index of its value in
    the pool, any other location is left as it is. *)
Definition promoted (CP' : ConstantPool) (Loc0 Loc' : Location) : Prop :=
  (large_constant Loc0 ∧
   ∃ idx, MapVector_find (to_uint64 (Offset Loc0)) CP' = Some idx ∧
          Loc' = {| LocType := ConstantIndex; Size := Size Loc0; Reg := Reg Loc0;
                    Offset := Z.of_nat idx |}) ∨
  (¬ large_constant Loc0 ∧ Loc' = Loc0).

(** *** The merge of live-out entries, by runs *)

(** The entry [LI] after one pass of the body of the inner loop on the
    entry [LII] of the same DWARF register number. *)
Definition absorb (TRI : TargetRegisterInfo) (LI LII : LiveOutReg) : LiveOutReg :=
  {| LO_Reg := if isSuperRegister TRI (LO_Reg LI) (LO_Reg LII)
               then LO_Reg LII else LO_Reg LI;
     LO_RegNo := LO_RegNo LI;
     LO_Size := Z.max (LO_Size LI) (LO_Size LII);
     LO_Valid := LO_Valid LI |}.

(** One run of the inner loop on the entries [rest] that follow [LI]: the
    entry [LI] becomes, the entries marked invalid, and the entries left
    from the first one of another DWARF register number on. *)
Fixpoint absorb_run (TRI : TargetRegisterInfo) (LI : LiveOutReg)
    (rest : list LiveOutReg) : LiveOutReg * list LiveOutReg * list LiveOutReg :=
  match rest with
  | [] => (LI, [], [])
  | LII :: rest' =>
      if decide (LO_RegNo LI ≠ LO_RegNo LII) then (LI, [], rest)
      else
        let '(LI', inv, rem) := absorb_run TRI (absorb TRI LI LII) rest' in
        (LI', MarkInvalid LII :: inv, rem)
  end.

(** The merged list: each run of equal DWARF register numbers, taken up
    by its first entry. *)
Fixpoint coalesce (TRI : TargetRegisterInfo) (LI : LiveOutReg)
    (rest : list LiveOutReg) : list LiveOutReg :=
  match rest with
  | [] => [LI]
  | LII :: rest' =>
      if decide (LO_RegNo LI ≠ LO_RegNo LII) then LI :: coalesce TRI LII rest'
      else coalesce TRI (absorb TRI LI LII) rest'
  end.

(** The entries of [LiveOuts] for the DWARF register number [RegNo]. *)
Definition run_of (RegNo : Z) (LiveOuts : LiveOutVec) : LiveOutVec :=
  filter (λ LO, LO_RegNo LO = RegNo) LiveOuts.

(** *** Registers of a live-out mask *)

(** Bit [Reg] of the mask: bit [Reg % 32] of the word [Reg / 32]. *)
Definition mask_bit (Mask : list Z) (Reg : Z) : bool :=
  match Mask !! Z.to_nat (Reg / 32) with
  | Some word => Z.land (Z.shiftr word (Reg mod 32)) 1 =? 1
  | None => false
  end.

(** [LO] is the live-out record created for a register of the mask. *)
Definition in_mask (TRI : TargetRegisterInfo) (Mask : list Z) (LO : LiveOutReg) : Prop :=
  ∃ Reg, 0 ≤ Reg < getNumRegs TRI ∧ mask_bit Mask Reg = true ∧
         createLiveOutReg Reg TRI = Ret LO.

(** The register [Reg] is, among the registers of the mask with the DWARF
    register number [RegNo], a super-register of all the others. *)
Definition widest_in_run (TRI : TargetRegisterInfo) (Mask : list Z)
    (RegNo Reg : Z) : Prop :=
  ∀ LO, in_mask TRI Mask LO → LO_RegNo LO = RegNo → LO_Reg LO ≠ Reg →
        isSuperRegister TRI (LO_Reg LO) Reg = true.

(** *** A sample register catalog

    Eight registers in the manner of x86-64: [AL = 1] and [AH = 2] (1
    byte), [AX = 3] (2 bytes), [EAX = 4] (4 bytes) and [RAX = 5] (8 bytes),
    which share the DWARF register number 0 of [RAX]; [EBX = 6] and
    [RBX = 7], with the DWARF register number 3 of [RBX]. *)
Definition sample_superRegs (Reg : Z) : list Z :=
  if Reg =? 1 then [3; 4; 5] else if Reg =? 2 then [3; 4; 5]
  else if Reg =? 3 then [4; 5] else if Reg =? 4 then [5]
  else if Reg =? 6 then [7] else [].

Definition sample_TRI : TargetRegisterInfo :=
  {| TRI_getDwarfRegNum := λ Reg, if Reg =? 5 then 0 else if Reg =? 7 then 3 else -1;
     superRegs := sample_superRegs;
     getMinimalPhysRegClass_getSize := λ Reg,
       if Reg <=? 2 then 1 else if Reg =? 3 then 2
       else if (Reg =? 4) || (Reg =? 6) then 4 else 8;
     getLLVMRegNum := λ RegNo, if RegNo =? 0 then 5 else 7;
     getSubRegIndex := λ Reg SubReg, if Reg =? SubReg then 0 else 1;
     getSubRegIdxOffset := λ Idx, 0;
     isSuperRegister := λ RegA RegB, bool_decide (RegB ∈ sample_superRegs RegA);
     isPhysicalRegister := λ Reg, 0 <? Reg;
     getNumRegs := 8 |}.

Definition sample_AP : AsmPrinter :=
  {| TRI := sample_TRI; getPointerSizeInBits := 64;
     CurrentFnSym := NamedSymbol "f"; CurrentFnSymForSize := NamedSymbol "f";
     hasVarSizedObjects := false; needsStackRealignment := false;
     getStackSize := 24 |}.

(** A sort for [LiveOutReg]s that orders by the DWARF register number. *)
Definition sample_sort : LiveOutVec → LiveOutVec := merge_sort LiveOutReg_le.

(** The numbering of the [OpType] enumerators in declaration order. *)
Definition sample_OpType_of_imm (Imm : Z) : option OpType :=
  if Imm =? 0 then Some DirectMemRefOp
  else if Imm =? 1 then Some IndirectMemRefOp
  else if Imm =? 2 then Some ConstantOp
  else None.

(** *** Operands taken by one call of [parseOperand] *)

Section Advance.

Variable OpType_of_imm : Z → option OpType.

(** The number of operands the logical operand led by [MO] spans. *)
Definition operands_spanned (MO : MachineOperand) : nat :=
  match MO with
  | MO_Immediate Imm =>
      match OpType_of_imm Imm with
      | Some DirectMemRefOp => 3
      | Some IndirectMemRefOp => 4
      | Some ConstantOp => 2
      | None => 1      (* not a tag: [parseOperand] does not return *)
      end
  | MO_Register _ _ _ _ _ => 1
  | MO_RegisterLiveOut _ => 1
  | MO_Other => 1
  end.

(** The register has a DWARF register number, its own or that of a
    super-register. *)
Definition has_DwarfRegNum (TRI : TargetRegisterInfo) (Reg : Z) : Prop :=
  ∃ RegNo, getDwarfRegNum Reg TRI = Ret RegNo.

(** The operand at [MOI] leads a logical operand of one of the shapes
    [parseOperand] accepts. *)
Inductive well_formed_operand (AP : AsmPrinter) (MI : MachineInstr) (MOI : nat) : Prop :=
  | wf_DirectMemRefOp Tag Reg d i ec sr Imm :
      MI !! MOI = Some (MO_Immediate Tag) →
      OpType_of_imm Tag = Some DirectMemRefOp →
      getPointerSizeInBits AP mod 8 = 0 →
      MI !! S MOI = Some (MO_Register Reg d i ec sr) →
      MI !! S (S MOI) = Some (MO_Immediate Imm) →
      has_DwarfRegNum (TRI AP) Reg →
      well_formed_operand AP MI MOI
  | wf_IndirectMemRefOp Tag Size Reg d i ec sr Imm :
      MI !! MOI = Some (MO_Immediate Tag) →
      OpType_of_imm Tag = Some IndirectMemRefOp →
      MI !! S MOI = Some (MO_Immediate Size) → 0 < Size →
      MI !! S (S MOI) = Some (MO_Register Reg d i ec sr) →
      MI !! S (S (S MOI)) = Some (MO_Immediate Imm) →
      has_DwarfRegNum (TRI AP) Reg →
      well_formed_operand AP MI MOI
  | wf_ConstantOp Tag Imm :
      MI !! MOI = Some (MO_Immediate Tag) →
      OpType_of_imm Tag = Some ConstantOp →
      MI !! S MOI = Some (MO_Immediate Imm) →
      well_formed_operand AP MI MOI
  | wf_implicit_register Reg d ec sr :
      MI !! MOI = Some (MO_Register Reg d true ec sr) →
      well_formed_operand AP MI MOI
  | wf_register Reg d ec :
      MI !! MOI = Some (MO_Register Reg d false ec 0) →
      isPhysicalRegister (TRI AP) Reg = true →
      has_DwarfRegNum (TRI AP) Reg →
      well_formed_operand AP MI MOI
  | wf_live_out_mask Mask :
      MI !! MOI = Some (MO_RegisterLiveOut (Some Mask)) →
      getNumRegs (TRI AP) ≤ 32 * Z.of_nat (length Mask) →
      (∀ Reg, 0 ≤ Reg < getNumRegs (TRI AP) → mask_bit Mask Reg = true →
              has_DwarfRegNum (TRI AP) Reg) →
      well_formed_operand AP MI MOI
  | wf_other :
      MI !! MOI = Some MO_Other →
      well_formed_operand AP MI MOI.

(** The operands from [MOI] up to [MOE] are a sequence of well-formed
    logical operands. *)
Inductive well_formed_range (AP : AsmPrinter) (MI : MachineInstr)
  : nat → nat → Prop :=
  | wf_range_end MOE : well_formed_range AP MI MOE MOE
  | wf_range_step MOI MOE MO :
      MOI ≠ MOE →
      well_formed_operand AP MI MOI →
      MI !! MOI = Some MO →
      well_formed_range AP MI (MOI + operands_spanned MO)%nat MOE →
      well_formed_range AP MI MOI MOE.

End Advance.

(** The kinds of location [parseOperand] creates. *)
Definition parsed_kind (Loc : Location) : Prop :=
  LocType Loc = Register ∨ LocType Loc = Direct ∨
  LocType Loc = Indirect ∨ LocType Loc = Constant.

(** The operand at [MOI] is a register for which [parseOperand] creates a
    location: not implicit, physical, without a sub-register index and
    with a DWARF register number. *)
Definition register_operand (AP : AsmPrinter) (MI : MachineInstr) (MOI : nat) : Prop :=
  ∃ Reg d ec,
    MI !! MOI = Some (MO_Register Reg d false ec 0) ∧
    isPhysicalRegister (TRI AP) Reg = true ∧
    has_DwarfRegNum (TRI AP) Reg.

(** *** A sample instruction and writer *)

Definition empty_streamer : MCStreamer :=
  {| NextTempSymbol := 0; CurrentSection := OtherSection 0; Output := [] |}.

(** A stackmap with id 1 and the live values: the constant
    [0x1_0000_0000], a spill slot of 8 bytes at [RBX - 16], the
    register [RAX], the constant 7, and a live-out mask of [AL], [EAX],
    [RAX] and [EBX]. *)
Definition sample_MI : MachineInstr :=
  [ MO_Immediate 1; MO_Immediate 0;
    MO_Immediate 2; MO_Immediate 4294967296;
    MO_Immediate 1; MO_Immediate 8; MO_Register 7 false false false 0;
    MO_Immediate (-16);
    MO_Register 5 false false false 0;
    MO_Immediate 2; MO_Immediate 7;
    MO_RegisterLiveOut (Some [114]) ].

Definition sample_call : RecordCall :=
  {| call_AP := sample_AP; call_MI := sample_MI; call_ID := 1;
     call_MOI := 2; call_MOE := 12; call_recordResult := false |}.

(** The writer and the streamer after the sample stackmap was recorded
    twice. *)
Definition sample_recorded : StackMaps * MCStreamer :=
  match recordCalls sample_sort sample_OpType_of_imm [sample_call; sample_call]
          empty_StackMaps empty_streamer with
  | Ret p => p
  | _ => (empty_StackMaps, empty_streamer)
  end.

(** A call site with 65536 locations. *)
Definition overflowing_CSI : CallsiteInfo :=
  {| CSOffsetExpr := MCBinaryExpr_Sub (MCSymbolRefExpr (TempSymbol 0))
                                      (MCSymbolRefExpr (NamedSymbol "f"));
     ID := 9;
     Locations := replicate (Z.to_nat 65536) (mkLocation Constant 8 0 0);
     LiveOuts := [] |}.

(** A call site with the single location [{Indirect, 8, 3, -16}], and a
    writer that holds it behind the call site that overflows. *)
Definition sample_CSI : CallsiteInfo :=
  {| CSOffsetExpr := MCBinaryExpr_Sub (MCSymbolRefExpr (TempSymbol 1))
                                      (MCSymbolRefExpr (NamedSymbol "f"));
     ID := 1;
     Locations := [mkLocation Indirect 8 3 (-16)];
     LiveOuts := [] |}.

Definition sample_writer : StackMaps :=
  {| CSInfos := [overflowing_CSI; sample_CSI]; ConstPool := [];
     FnStackSize := [(NamedSymbol "f", 24)] |}.

(** *** The frame table as a map *)

(** The value stored for the key [k], as [MapVector::lookup] finds it. *)
Definition MapVector_lookup {K} `{EqDecision K} (k : K) (M : MapVector K) : option Z :=
  i ← MapVector_find k M; snd <$> M !! i.

(** The stack size [recordStackMapOpers] stores for the current function. *)
Definition recorded_stack_size (AP : AsmPrinter) : Z :=
  if hasVarSizedObjects AP || needsStackRealignment AP
  then UINT64_MAX else getStackSize AP.

(** The call site [recordStackMapOpers] adds for the id [PatchPointID]
    when it found no live-out: its offset is that of the label, the next
    temporary symbol of [OS], from [CurrentFnSymForSize]. *)
Definition recorded_callsite (AP : AsmPrinter) (OS : MCStreamer)
    (PatchPointID : Z) (Locs : LocationVec) : CallsiteInfo :=
  {| CSOffsetExpr :=
       MCBinaryExpr_Sub (MCSymbolRefExpr (TempSymbol (NextTempSymbol OS)))
                        (MCSymbolRefExpr (CurrentFnSymForSize AP));
     ID := to_uint64 PatchPointID;
     Locations := Locs; LiveOuts := [] |}.

(** The writer and the streamer after the sample stackmap was recorded
    once, and after the serialization that follows. *)
Definition sample_recorded_once : StackMaps * MCStreamer :=
  match recordCalls sample_sort sample_OpType_of_imm [sample_call]
          empty_StackMaps empty_streamer with
  | Ret p => p
  | _ => (empty_StackMaps, empty_streamer)
  end.

Definition sample_serialized : StackMaps * MCStreamer :=
  match serializeToStackMapSection (fst sample_recorded_once)
          (snd sample_recorded_once) with
  | Ret p => p
  | _ => (empty_StackMaps, empty_streamer)
  end.

(** The locations [parseOperand] creates: a register, a direct or an
    indirect memory reference, or a constant of eight bytes without a
    register. *)
Definition parsed_location (Loc : Location) : Prop :=
  LocType Loc = Register ∨ LocType Loc = Direct ∨ LocType Loc = Indirect ∨
  (LocType Loc = Constant ∧ Reg Loc = 0 ∧ Size Loc = 8).

(** The locations of a recorded call site: a constant may have been moved
    into the constant pool. *)
Definition recorded_location (Loc : Location) : Prop :=
  LocType Loc = Register ∨ LocType Loc = Direct ∨ LocType Loc = Indirect ∨
  ((LocType Loc = Constant ∨ LocType Loc = ConstantIndex) ∧
   Reg Loc = 0 ∧ Size Loc = 8).

(** *** The entry points and [PatchPointOpers] *)

Inductive TargetOpcode : Type :=
  | STACKMAP | PATCHPOINT | STATEPOINT
  | OtherOpcode (n : nat).

Global Instance TargetOpcode_eq_dec : EqDecision TargetOpcode.
Proof. solve_decision. Defined.

Definition isEarlyClobber (MO : MachineOperand) : bool :=
  match MO with MO_Register _ _ _ ec _ => ec | _ => false end.

(** [std::next(MI.operands_begin(), n)]: an iterator beyond
    [MI.operands_end()] is undefined. *)
Definition operands_next (MI : MachineInstr) (n : nat) : outcome nat :=
  if decide (n ≤ length MI)%nat then Ret n else Undefined.

(** The members of a [PatchPointOpers] object. *)
Record PatchPointOpers : Type := {
  PPO_MI : MachineInstr;
  HasDef : bool;
  IsAnyReg : bool
}.

(** A scratch register: an implicit def that is early clobber. *)
Definition isScratch (MO : MachineOperand) : bool :=
  isReg MO && isDef MO && isImplicit MO && isEarlyClobber MO.

(** The loop of [getNextScratchIdx]:
    [while (ScratchIdx < e && !(...)) ++ScratchIdx]. *)
Fixpoint getNextScratchIdx_loop (fuel : nat) (MI : MachineInstr) (ScratchIdx : nat)
  : outcome nat :=
  match MI !! ScratchIdx with
  | Some MO =>                      (* ScratchIdx < e *)
      if negb (isScratch MO) then
        match fuel with
        | O => OutOfFuel
        | S fuel' => getNextScratchIdx_loop fuel' MI (S ScratchIdx)
        end
      else Ret ScratchIdx
  | None => Ret ScratchIdx
  end.

(** The loop of the constructor's check: the leading explicit defs. *)
Fixpoint CheckStartIdx_loop (fuel : nat) (MI : MachineInstr) (CheckStartIdx : nat)
  : outcome nat :=
  match MI !! CheckStartIdx with
  | Some MO =>
      if isReg MO && isDef MO && negb (isImplicit MO) then
        match fuel with
        | O => OutOfFuel
        | S fuel' => CheckStartIdx_loop fuel' MI (S CheckStartIdx)
        end
      else Ret CheckStartIdx
  | None => Ret CheckStartIdx
  end.

Section EntryPoints.

Variable std_sort : LiveOutVec → LiveOutVec.
Variable OpType_of_imm : Z → option OpType.

(** The members of [PatchPointOpers] and [StatepointOpers] that
    StackMaps.h and Statepoint.h define, and the enumerators they use. *)
Variable getMetaIdx : PatchPointOpers → nat → outcome nat.
Variable getMetaIdx_HasDef : bool → nat → outcome nat.
Variable getVarIdx : PatchPointOpers → outcome nat.
Variable getStackMapStartIdx : PatchPointOpers → outcome nat.
Variables IDPos NArgPos CCPos : nat.
Variable CallingConv_AnyReg : Z.
Variable StatepointOpers_getVarIdx : MachineInstr → outcome nat.
Variable StatepointOpers_getID : MachineInstr → outcome Z.

(** [PatchPointOpers::PatchPointOpers]; [getMetaIdx] is called while the
    object is initialized, when only [HasDef] is set. *)
Definition PatchPointOpers_new (MI : MachineInstr) : outcome PatchPointOpers :=
  MO ← deref MI 0;
  let HasDef := isReg MO && isDef MO && negb (isImplicit MO) in
  Idx ← getMetaIdx_HasDef HasDef CCPos;
  MO ← deref MI Idx;
  CC ← getImm MO;
  let IsAnyReg := CC =? CallingConv_AnyReg in
  let this := {| PPO_MI := MI; HasDef := HasDef; IsAnyReg := IsAnyReg |} in
  CheckStartIdx ← CheckStartIdx_loop (length MI) MI 0;
  MetaIdx ← getMetaIdx this 0;
  _ ← assert (bool_decide (MetaIdx = CheckStartIdx));
  Ret this.

(** [PatchPointOpers::getNextScratchIdx] *)
Definition getNextScratchIdx (this : PatchPointOpers) (StartIdx : nat) : outcome nat :=
  StartIdx ← (if decide (StartIdx = O) then getVarIdx this else Ret StartIdx);
  let e := length (PPO_MI this) in
  ScratchIdx ← getNextScratchIdx_loop e (PPO_MI this) StartIdx;
  _ ← assert (bool_decide (ScratchIdx ≠ e));
  Ret ScratchIdx.

(** [StackMaps::recordStackMap].  Modelled from the spec: the default of
    the parameter [recordResult], declared in StackMaps.h, is [false]. *)
Definition recordStackMap (AP : AsmPrinter) (Opcode : TargetOpcode)
    (MI : MachineInstr) (this : StackMaps) (OS : MCStreamer)
  : outcome (StackMaps * MCStreamer) :=
  _ ← assert (bool_decide (Opcode = STACKMAP));
  MO ← deref MI 0;
  ID ← getImm MO;
  MOI ← operands_next MI 2;
  recordStackMapOpers std_sort OpType_of_imm AP MI ID MOI (length MI) false this OS.

(** The check of [recordPatchPoint] that every argument of an anyregcc
    call is in a register: [for (i = 0; i != e; ++i) assert(...)]. *)
Fixpoint verify_anyregcc (Locations : LocationVec) (idxs : list nat) : outcome unit :=
  match idxs with
  | [] => Ret tt
  | i :: idxs' =>
      Loc ← defined (Locations !! i);
      _ ← assert (bool_decide (LocType Loc = Register));
      verify_anyregcc Locations idxs'
  end.

(** [StackMaps::recordPatchPoint] *)
Definition recordPatchPoint (AP : AsmPrinter) (Opcode : TargetOpcode)
    (MI : MachineInstr) (this : StackMaps) (OS : MCStreamer)
  : outcome (StackMaps * MCStreamer) :=
  _ ← assert (bool_decide (Opcode = PATCHPOINT));
  opers ← PatchPointOpers_new MI;
  Idx ← getMetaIdx opers IDPos;
  MO ← deref MI Idx;
  ID ← getImm MO;
  StartIdx ← getStackMapStartIdx opers;
  MOI ← operands_next MI StartIdx;
  '(this, OS) ← recordStackMapOpers std_sort OpType_of_imm AP MI ID MOI (length MI)
                  (IsAnyReg opers && HasDef opers) this OS;
  (* verify anyregcc *)
  CSI ← defined (last (CSInfos this));
  _ ← (if IsAnyReg opers then
         Idx ← getMetaIdx opers NArgPos;
         MO ← deref MI Idx;
         NArgs ← getImm MO;
         let NArgs := wrap32 NArgs in
         let e := if HasDef opers then wrap32 (NArgs + 1) else NArgs in
         verify_anyregcc (Locations CSI) (seq 0 (Z.to_nat e))
       else Ret tt);
  Ret (this, OS).

(** [StackMaps::recordStatepoint] *)
Definition recordStatepoint (AP : AsmPrinter) (Opcode : TargetOpcode)
    (MI : MachineInstr) (this : StackMaps) (OS : MCStreamer)
  : outcome (StackMaps * MCStreamer) :=
  _ ← assert (bool_decide (Opcode = STATEPOINT));
  StartIdx ← StatepointOpers_getVarIdx MI;
  ID ← StatepointOpers_getID MI;
  MOI ← operands_next MI StartIdx;
  recordStackMapOpers std_sort OpType_of_imm AP MI ID MOI (length MI) false this OS.

End EntryPoints.

(** The immediates of an instruction are [int64_t] values. *)
Definition immediates_int64 (MI : MachineInstr) : Prop :=
  ∀ Imm, MO_Immediate Imm ∈ MI → is_int64 Imm.

(** A STACKMAP with the id 7, no shadow bytes and the constant 42 as its
    only live value. *)
Definition stackmap_MI : MachineInstr :=
  [ MO_Immediate 7; MO_Immediate 0; MO_Immediate 2; MO_Immediate 42 ].

(** A PATCHPOINT of the calling convention [AnyReg] (13) with a def
    ([RAX]), the id 9, two arguments in [RAX] and [RBX], and a scratch
    register. *)
Definition patchpoint_MI : MachineInstr :=
  [ MO_Register 5 true false false 0;
    MO_Immediate 9; MO_Immediate 0; MO_Immediate 0; MO_Immediate 2;
    MO_Immediate 13;
    MO_Register 5 false false false 0; MO_Register 7 false false false 0;
    MO_Register 6 true true true 0 ].

Definition patchpoint_opers : PatchPointOpers :=
  {| PPO_MI := patchpoint_MI; HasDef := true; IsAnyReg := true |}.

(** The members of [PatchPointOpers] for the samples, with the meta
    operands ([IDPos = 0] up to [CCPos = 4], five in all) after the
    def. *)
Definition sample_getMetaIdx_HasDef (HasDef : bool) (Pos : nat) : outcome nat :=
  _ ← assert (bool_decide (Pos < 5)%nat);
  Ret ((if HasDef then 1 else 0) + Pos)%nat.

Definition sample_getMetaIdx (this : PatchPointOpers) : nat → outcome nat :=
  sample_getMetaIdx_HasDef (HasDef this).

Definition sample_getVarIdx (this : PatchPointOpers) : outcome nat :=
  Idx ← sample_getMetaIdx this 0;
  NArgIdx ← sample_getMetaIdx this 3;
  MO ← deref (PPO_MI this) NArgIdx;
  NArgs ← getImm MO;
  Ret (Idx + 5 + Z.to_nat NArgs)%nat.

Definition sample_getStackMapStartIdx (this : PatchPointOpers) : outcome nat :=
  if IsAnyReg this then Idx ← sample_getMetaIdx this 0; Ret (Idx + 5)%nat
  else sample_getVarIdx this.

(** A STATEPOINT whose deopt and gc operands, a register and a constant,
    start at operand 2. *)
Definition statepoint_MI : MachineInstr :=
  [ MO_Immediate 5; MO_Immediate 0;
    MO_Register 7 false false false 0; MO_Immediate 2; MO_Immediate 42 ].

(** The writer and the streamer after the sample PATCHPOINT was
    recorded. *)
Definition patchpoint_recorded : StackMaps * MCStreamer :=
  match recordPatchPoint sample_sort sample_OpType_of_imm
          sample_getMetaIdx sample_getMetaIdx_HasDef sample_getStackMapStartIdx
          0 3 4 13 sample_AP PATCHPOINT patchpoint_MI
          empty_StackMaps empty_streamer with
  | Ret p => p
  | _ => (empty_StackMaps, empty_streamer)
  end.

(** *** The layout of the stack map section *)

Definition header_fields (this : StackMaps) : list Emitted :=
  [ IntValue 1 1; IntValue 0 1; IntValue 0 2;
    IntValue (to_uint64 (Z.of_nat (length (FnStackSize this)))) 4;
    IntValue (to_uint64 (Z.of_nat (length (ConstPool this)))) 4;
    IntValue (to_uint64 (Z.of_nat (length (CSInfos this)))) 4 ].

Definition frame_record_fields (FR : MCSymbol * Z) : list Emitted :=
  [ SymbolValue (fst FR) 8; IntValue (to_uint64 (snd FR)) 8 ].

Definition constant_fields (ConstEntry : Z * Z) : list Emitted :=
  [ IntValue (to_uint64 (snd ConstEntry)) 8 ].

(** The entries of one call site that starts at [Offset] in the section:
    the sentinel record, or the contents and the alignment to 8 bytes. *)
Definition callsite_entry (Offset : Z) (CSI : CallsiteInfo) : list Emitted :=
  if decide (overflows CSI) then sentinel_record CSI
  else callsite_record CSI ++
       [Alignment 8 (padding_to_8 (Offset + size_of (callsite_record CSI)))].

Fixpoint callsite_entries (Offset : Z) (CSIs : list CallsiteInfo) : list Emitted :=
  match CSIs with
  | [] => []
  | CSI :: CSIs' =>
      callsite_entry Offset CSI ++
      callsite_entries (Offset + size_of (callsite_entry Offset CSI)) CSIs'
  end.

(** What a stack map section that starts at [Offset] holds for the writer
    [this]: the symbol that forces its inclusion, the header, the frame
    records, the constants and the call sites. *)
Definition section_image (Offset : Z) (this : StackMaps) : list Emitted :=
  [ Label (NamedSymbol "__LLVM_StackMaps") ] ++
  header_fields this ++
  (FnStackSize this ≫= frame_record_fields) ++
  (ConstPool this ≫= constant_fields) ++
  callsite_entries
    (Offset + 16 + 16 * Z.of_nat (length (FnStackSize this))
     + 8 * Z.of_nat (length (ConstPool this)))
    (CSInfos this) ++
  [ BlankLine ].

(** Another sort by the DWARF register number; it may leave entries
    that compare equal in another order than [sample_sort]. *)
Definition sample_sort_reversed (l : LiveOutVec) : LiveOutVec :=
  merge_sort LiveOutReg_le (reverse l).

End StackMaps.

(** ** From the emitted section to the buffer of the reader *)

Module ObjectFile.
Import StackMaps.

(** Modelled from the spec: the object-file streaming layer is external.
    The format is little-endian: an integer of [Size] bytes is written as
    its [Size] low bytes, low byte first.  A symbol value is the address
    [addr] of the symbol and an expression the value it resolves to at
    link time, both cut to the width of the field; an alignment is filled
    with zero bytes; a label and a blank line take no room. *)
Definition byte_of (v : Z) : Byte.byte :=
  default Byte.x00 (Byte.of_N (Z.to_N (v mod 256))).

Fixpoint le_encode (n : nat) (v : Z) : list Byte.byte :=
  match n with
  | O => []
  | S n' => byte_of v :: le_encode n' (v / 256)
  end.

Fixpoint MCExpr_value (addr : MCSymbol → Z) (e : MCExpr) : Z :=
  match e with
  | MCSymbolRefExpr Sym => addr Sym
  | MCBinaryExpr_Sub LHS RHS => MCExpr_value addr LHS - MCExpr_value addr RHS
  end.

Definition Emitted_bytes (addr : MCSymbol → Z) (e : Emitted) : list Byte.byte :=
  match e with
  | Label _ => []
  | IntValue Value Size => le_encode (Z.to_nat Size) Value
  | ExprValue Value Size => le_encode (Z.to_nat Size) (MCExpr_value addr Value)
  | SymbolValue Sym Size => le_encode (Z.to_nat Size) (addr Sym)
  | Alignment _ Padding => replicate (Z.to_nat Padding) Byte.x00
  | BlankLine => []
  end.

Definition section_bytes (addr : MCSymbol → Z) (es : list Emitted) : list Byte.byte :=
  es ≫= Emitted_bytes addr.

(** The bytes [bs] lie in the buffer from [offset] on. *)
Definition holds (buf : list Byte.byte) (offset : Z) (bs : list Byte.byte) : Prop :=
  ∃ pre post, buf = pre ++ bs ++ post ∧ Z.of_nat (length pre) = offset.

(** *** What the reader is to find *)

Definition LocationRecord_of (Loc : Location) : Reader.LocationRecord :=
  {| Reader.Type_ := LocationType_value (LocType Loc);
     Reader.SizeInBytes := wrap 8 (Size Loc);
     Reader.DwarfRegNum := wrap 16 (Reg Loc);
     Reader.Offset := Reader.to_int32 (wrap32 (Offset Loc)) |}.

(** A call site beyond the limits is read as the record that stands for
    it: the id [UINT64_MAX] and no location. *)
Definition StackMapRecord_of (addr : MCSymbol → Z) (CSI : CallsiteInfo)
  : Reader.StackMapRecord :=
  {| Reader.PatchPointID :=
       if decide (overflows CSI) then UINT64_MAX else to_uint64 (ID CSI);
     Reader.InstructionOffset := wrap32 (MCExpr_value addr (CSOffsetExpr CSI));
     Reader.ReservedFlags := 0;
     Reader.Locations :=
       if decide (overflows CSI) then [] else LocationRecord_of <$> Locations CSI |}.

Definition StackMapSizeRecord_of (addr : MCSymbol → Z) (FR : MCSymbol * Z)
  : Reader.StackMapSizeRecord :=
  {| Reader.FunctionAddr := to_uint64 (addr (fst FR));
     Reader.StackSize := to_uint64 (snd FR) |}.

Definition StackMapSection_of (addr : MCSymbol → Z) (this : StackMaps)
  : Reader.StackMapSection :=
  {| Reader.Version := 1; Reader.Reserved8 := 0; Reader.Reserved16 := 0;
     Reader.FnSizeRecords := StackMapSizeRecord_of addr <$> FnStackSize this;
     Reader.Constants := (λ ConstEntry, to_uint64 (snd ConstEntry)) <$> ConstPool this;
     Reader.Records := StackMapRecord_of addr <$> CSInfos this |}.

(** The call sites the reader can take: those beyond the limits, read as
    the record that stands for them, and those without live-outs. *)
Definition readable (CSI : CallsiteInfo) : Prop :=
  overflows CSI ∨ LiveOuts CSI = [].

(** Addresses for the symbols of the samples: the function at [0x1000],
    the label of the [n]-th call site 16 bytes after the one before. *)
Definition sample_addr (Sym : MCSymbol) : Z :=
  match Sym with
  | TempSymbol n => 4096 + 16 * (Z.of_nat n + 1)
  | NamedSymbol _ => 4096
  end.

(** The sample stackmap without its live-out mask, recorded through
    [recordStackMap] and serialized into an empty section; the bytes of
    that section. *)
Definition readable_MI : MachineInstr := take 11 sample_MI.

Definition readable_recorded : StackMaps * MCStreamer :=
  match recordStackMap sample_sort sample_OpType_of_imm sample_AP STACKMAP
          readable_MI empty_StackMaps empty_streamer with
  | Ret p => p
  | _ => (empty_StackMaps, empty_streamer)
  end.

Definition readable_serialized : StackMaps * MCStreamer :=
  match serializeToStackMapSection (fst readable_recorded) (snd readable_recorded) with
  | Ret p => p
  | _ => (empty_StackMaps, empty_streamer)
  end.

Definition readable_section_bytes : list Byte.byte :=
  section_bytes sample_addr (section_contents StackMapSection (snd readable_serialized)).

End ObjectFile.

(** * Properties *)

(** ** Outcomes and integers *)

Lemma bind_Ret_inv {A B} (m : outcome A) (f : A → outcome B) b :
  m ≫= f = Ret b → ∃ a, m = Ret a ∧ f a = Ret b.
Proof. destruct m; simpl; intros; try discriminate; eauto. Qed.

Lemma assert_Ret_inv b u : assert b = Ret u → b = true.
Proof. destruct b; [done|discriminate]. Qed.

Lemma assert_true b : b = true → assert b = Ret tt.
Proof. by intros ->. Qed.

Lemma defined_Ret_inv {A} (o : option A) a : defined o = Ret a → o = Some a.
Proof. destruct o; simpl; congruence. Qed.

(** Decompose a hypothesis [m ≫= f = Ret b] along the binds of [m]. *)
Ltac inv_outcome_step :=
  match goal with
  | H : (_ ≫= _) = Ret _ |- _ =>
      let a := fresh "a" in let Ha := fresh "Hstep" in
      apply bind_Ret_inv in H as (a & Ha & H); cbv beta in H
  | H : (let (_, _) := ?p in _) = Ret _ |- _ =>
      first [is_var p; destruct p | destruct p eqn:?]; cbv beta iota in H
  | H : assert _ = Ret _ |- _ => apply assert_Ret_inv in H
  | H : defined _ = Ret _ |- _ => apply defined_Ret_inv in H
  | H : Ret _ = Ret _ |- _ => injection H as H
  | H : mret _ = Ret _ |- _ => injection H as H
  end.
Ltac inv_outcome := repeat inv_outcome_step.

Lemma to_int64_to_uint64 x : is_int64 x → to_int64 (to_uint64 x) = x.
Proof.
  unfold is_int64, to_int64, to_uint64, wrap. intros H.
  rewrite Zplus_mod_idemp_l. rewrite Z.mod_small; lia.
Qed.

Lemma isInt32_spec x : isInt32 x = true ↔ INT32_MIN ≤ x ≤ INT32_MAX.
Proof. unfold isInt32. rewrite andb_true_iff, !Z.leb_le. tauto. Qed.

Lemma wrap32_small x : 0 ≤ x < 2 ^ 32 → wrap32 x = x.
Proof. intros. unfold wrap32, wrap. by rewrite Z.mod_small. Qed.

(** ** The reader *)

Module ReaderFacts.
Import Reader.

Lemma byte_val_range b : 0 ≤ byte_val b < 256.
Proof.
  unfold byte_val. pose proof (Byte.to_N_bounded b) as H.
  lia.
Qed.

Lemma le_decode_range bs : 0 ≤ le_decode bs < 256 ^ Z.of_nat (length bs).
Proof.
  induction bs as [|b bs IH]; simpl length; simpl le_decode; [simpl; lia|].
  pose proof (byte_val_range b).
  rewrite Nat2Z.inj_succ, Z.pow_succ_r by lia. lia.
Qed.

Lemma bytes_at_Some buf offset n :
  0 ≤ offset → 0 ≤ n → offset + n ≤ Z.of_nat (length buf) →
  bytes_at buf offset n = Some (take (Z.to_nat n) (drop (Z.to_nat offset) buf)).
Proof. intros. unfold bytes_at. rewrite bool_decide_eq_true_2; [done|lia]. Qed.

Lemma bytes_at_inv buf offset n bs :
  bytes_at buf offset n = Some bs →
  0 ≤ offset ∧ offset + n ≤ Z.of_nat (length buf) ∧
  bs = take (Z.to_nat n) (drop (Z.to_nat offset) buf).
Proof.
  unfold bytes_at. case_bool_decide; [|discriminate]. intros [= <-]. tauto.
Qed.

Lemma bytes_at_length buf offset n bs :
  0 ≤ n → bytes_at buf offset n = Some bs → length bs = Z.to_nat n.
Proof.
  intros Hn (? & ? & ->)%bytes_at_inv.
  rewrite length_take, length_drop. lia.
Qed.

Lemma bytes_at_lookup buf offset n bs (i : nat) :
  bytes_at buf offset n = Some bs → Z.of_nat i < n →
  bs !! i = buf !! (Z.to_nat offset + i)%nat.
Proof.
  intros (? & ? & ->)%bytes_at_inv Hi.
  rewrite lookup_take_lt by lia. by rewrite lookup_drop.
Qed.

(** Buffers that agree on [[offset, offset + n)] hold the same bytes there. *)
Lemma bytes_at_agree buf buf' offset n :
  length buf' = length buf → 0 ≤ n →
  (∀ i : nat, offset ≤ Z.of_nat i < offset + n → buf' !! i = buf !! i) →
  bytes_at buf' offset n = bytes_at buf offset n.
Proof.
  intros Hlen Hn Hagree. unfold bytes_at. rewrite Hlen.
  case_bool_decide as Hb; [|done]. f_equal.
  apply list_eq. intros i.
  destruct (decide (i < Z.to_nat n)%nat) as [Hi|Hi].
  - rewrite !lookup_take_lt, !lookup_drop by lia. apply Hagree. lia.
  - rewrite !lookup_take_ge by lia. done.
Qed.

Lemma sizeof_pos T : 1 ≤ sizeof T ≤ 8.
Proof. destruct T; simpl; lia. Qed.

(** [parse_primitive] within the buffer. *)
Lemma parse_primitive_in_bounds T buf offset len :
  Z.of_nat (length buf) = len → len < 2 ^ 32 →
  0 ≤ offset → offset + sizeof T ≤ len →
  parse_primitive T (Some buf) offset len =
    Ret (le_decode (take (Z.to_nat (sizeof T)) (drop (Z.to_nat offset) buf)),
         offset + sizeof T).
Proof.
  intros Hlen Hmax Hoff Hfit. pose proof (sizeof_pos T).
  unfold parse_primitive, load.
  rewrite (assert_true (_ && _ && _)).
  2:{ rewrite !andb_true_iff, !Z.leb_le, bool_decide_eq_true. split_and!; eauto; lia. }
  simpl.
  rewrite (assert_true (_ <? _)) by (apply Z.ltb_lt; lia). simpl.
  rewrite bytes_at_Some by lia. simpl.
  rewrite wrap32_small by lia.
  rewrite (assert_true (_ <=? _)) by (apply Z.leb_le; lia). done.
Qed.

(** C8. For a buffer [buf] of length [len] and an offset with
    [offset + sizeof(T) ≤ len], [parse_primitive<T>] returns normally (none
    of its assertions fails, and the check [offset < len] that precedes the
    read holds); the value is the one represented by the [sizeof(T)] bytes
    of [buf] at [offset .. offset + sizeof(T) - 1], it fits [T], the
    offset advances by exactly [sizeof(T)], and no other byte is read: a
    buffer that agrees with [buf] on those bytes gives the same result. *)
Theorem C8_parse_primitive_in_bounds T (buf : list Byte.byte) (offset len : Z) :
  Z.of_nat (length buf) = len → len < 2 ^ 32 →
  0 ≤ offset → offset + sizeof T ≤ len →
  ∃ bs,
    bytes_at buf offset (sizeof T) = Some bs ∧
    length bs = Z.to_nat (sizeof T) ∧
    (∀ i : nat, Z.of_nat i < sizeof T → bs !! i = buf !! (Z.to_nat offset + i)%nat) ∧
    offset < len ∧
    parse_primitive T (Some buf) offset len = Ret (le_decode bs, offset + sizeof T) ∧
    0 ≤ le_decode bs < 2 ^ (8 * sizeof T) ∧
    ∀ buf' : list Byte.byte,
      length buf' = length buf →
      (∀ i : nat, offset ≤ Z.of_nat i < offset + sizeof T → buf' !! i = buf !! i) →
      parse_primitive T (Some buf') offset len = Ret (le_decode bs, offset + sizeof T).
Proof.
  intros Hlen Hmax Hoff Hfit. pose proof (sizeof_pos T) as Hsz.
  eexists. split; [apply bytes_at_Some; lia|].
  assert (Hbs : bytes_at buf offset (sizeof T) =
    Some (take (Z.to_nat (sizeof T)) (drop (Z.to_nat offset) buf)))
    by (apply bytes_at_Some; lia).
  split; [eapply bytes_at_length; [|done]; lia|].
  split; [intros i Hi; by eapply bytes_at_lookup|].
  split; [lia|].
  split; [by apply parse_primitive_in_bounds|].
  split.
  - pose proof (le_decode_range (take (Z.to_nat (sizeof T)) (drop (Z.to_nat offset) buf))) as Hr.
    erewrite (bytes_at_length _ _ _ _ _ Hbs) in Hr.
    rewrite Z2Nat.id in Hr by lia.
    replace (2 ^ (8 * sizeof T)) with (256 ^ sizeof T); [done|].
    change 256 with (2 ^ 8). rewrite <- Z.pow_mul_r by lia. done.
  - intros buf' Hlen' Hagree.
    rewrite parse_primitive_in_bounds by lia.
    pose proof (bytes_at_agree buf buf' offset (sizeof T) Hlen' ltac:(lia) Hagree) as Heq.
    rewrite Hbs, bytes_at_Some in Heq by lia. by injection Heq as ->.
  Unshelve. lia.
Qed.

(** *** Parsing against a buffer of known length *)

Section Buffer.

Variable buf : list Byte.byte.
Local Abbreviation len := (Z.of_nat (length buf)).
Hypothesis Hmax : len < 2 ^ 32.

Lemma read_inv T offset v :
  read T buf offset = Some v →
  0 ≤ offset ∧ offset + sizeof T ≤ len ∧
  bytes_at buf offset (sizeof T) =
    Some (take (Z.to_nat (sizeof T)) (drop (Z.to_nat offset) buf)) ∧
  v = le_decode (take (Z.to_nat (sizeof T)) (drop (Z.to_nat offset) buf)).
Proof.
  unfold read. destruct (bytes_at _ _ _) as [bs|] eqn:Hbs; [|discriminate].
  intros [= <-]. pose proof (bytes_at_inv _ _ _ _ Hbs) as (? & ? & ->).
  split_and!; try done; lia.
Qed.

Lemma parse_primitive_Ret_iff T offset v offset' :
  parse_primitive T (Some buf) offset len = Ret (v, offset') ↔
  read T buf offset = Some v ∧ offset' = offset + sizeof T.
Proof.
  pose proof (sizeof_pos T) as Hsz. split.
  - intros H. unfold parse_primitive, load in H. inv_outcome. simplify_eq.
    match goal with Hb : bytes_at _ _ _ = Some _ |- _ =>
      pose proof (bytes_at_inv _ _ _ _ Hb) as (? & ? & _);
      unfold read; rewrite Hb end.
    split; [done|]. apply wrap32_small. lia.
  - intros [Hr ->]. apply read_inv in Hr as (? & ? & _ & ->).
    by apply parse_primitive_in_bounds.
Qed.

(** Where the value is in the buffer, [parse_primitive] returns it. *)
Lemma parse_primitive_read T offset v :
  read T buf offset = Some v →
  parse_primitive T (Some buf) offset len = Ret (v, offset + sizeof T).
Proof. intros. by apply parse_primitive_Ret_iff. Qed.

Lemma location_at_inv offset L :
  location_at buf offset = Some L →
  0 ≤ offset ∧ offset + 8 ≤ len ∧
  ∃ bs, bytes_at buf offset sizeof_LocationRecord = Some bs ∧
        L = LocationRecord_of_bytes bs.
Proof.
  unfold location_at.
  destruct (bytes_at _ _ _) as [bs|] eqn:Hbs; [|discriminate].
  intros [= <-]. pose proof (bytes_at_inv _ _ _ _ Hbs) as (? & ? & ->).
  unfold sizeof_LocationRecord in *. split_and!; try lia. eauto.
Qed.

Lemma LocationRecord_parse_Ret_iff offset L offset' :
  LocationRecord_parse (Some buf) offset len = Ret (L, offset') ↔
  location_at buf offset = Some L ∧ Type_ L ≤ 5 ∧ offset' = offset + 8.
Proof.
  split.
  - intros H. unfold LocationRecord_parse in H. inv_outcome. simplify_eq.
    match goal with Hb : bytes_at _ _ _ = Some _ |- _ =>
      pose proof (bytes_at_inv _ _ _ _ Hb) as (? & ? & _);
      unfold location_at; rewrite Hb end.
    unfold sizeof_LocationRecord in *.
    split_and!; [done|by apply Z.leb_le|]. apply wrap32_small. lia.
  - intros (HL & Hty & ->).
    apply location_at_inv in HL as (? & ? & bs & Hbs & ->).
    unfold LocationRecord_parse.
    rewrite assert_true by (apply Z.leb_le; unfold sizeof_LocationRecord; lia).
    simpl. rewrite Hbs. simpl.
    rewrite assert_true by (by apply Z.leb_le). simpl.
    unfold sizeof_LocationRecord. rewrite wrap32_small by lia. done.
Qed.

Lemma parse_Locations_Ret_iff n offset Ls offset' :
  parse_Locations n (Some buf) offset len = Ret (Ls, offset') ↔
  length Ls = n ∧ locations_at buf offset Ls ∧
  offset' = offset + 8 * Z.of_nat n.
Proof.
  unfold locations_at. revert offset Ls offset'. induction n as [|n IH]; intros offset Ls offset'; simpl.
  - split.
    + intros [= <- <-]. split_and!; [done| |lia]. intros i L Hi. done.
    + intros (Hl & _ & ->). destruct Ls; [|done]. do 2 f_equal. lia.
  - split.
    + intros H. inv_outcome. simplify_eq.
      match goal with Hb : LocationRecord_parse _ _ _ = Ret _ |- _ =>
        apply LocationRecord_parse_Ret_iff in Hb as (HL & Hty & ->) end.
      match goal with Hb : parse_Locations _ _ _ _ = Ret _ |- _ =>
        apply IH in Hb as (Hlen' & Hall & ->) end.
      split_and!; [simpl; lia| |lia].
      intros [|i] L'; simpl.
      * intros [= <-]. by rewrite Z.mul_0_r, Z.add_0_r.
      * intros Hi. apply Hall in Hi as [Hi ?]. split; [|done].
        rewrite <- Hi. f_equal. lia.
    + intros (Hl & Hall & ->). destruct Ls as [|L Ls']; [done|].
      injection Hl as Hl.
      destruct (Hall O L eq_refl) as [HL Hty].
      rewrite Z.mul_0_r, Z.add_0_r in HL.
      rewrite (proj2 (LocationRecord_parse_Ret_iff offset L (offset + 8))) by done.
      simpl.
      rewrite (proj2 (IH (offset + 8) Ls' (offset + 8 + 8 * Z.of_nat n))).
      * simpl. do 2 f_equal. lia.
      * split_and!; [done| |done]. intros i L' Hi.
        destruct (Hall (S i) L' Hi) as [Hi' ?]. split; [|done].
        rewrite <- Hi'. f_equal. lia.
Qed.

Lemma read_in_bounds T offset :
  0 ≤ offset → offset + sizeof T ≤ len → is_Some (read T buf offset).
Proof.
  intros. pose proof (sizeof_pos T). unfold read.
  rewrite bytes_at_Some by lia. by eexists.
Qed.

Lemma read_nonneg T offset v : read T buf offset = Some v → 0 ≤ v.
Proof.
  intros (_ & _ & _ & ->)%read_inv.
  apply le_decode_range.
Qed.

(** The four leading reads of [StackMapRecord::parse]. *)
Lemma StackMapRecord_parse_header offset id pc flags n :
  read uint64_t buf offset = Some id →
  read uint32_t buf (offset + 8) = Some pc →
  read uint16_t buf (offset + 12) = Some flags →
  read uint16_t buf (offset + 14) = Some n →
  StackMapRecord_parse (Some buf) offset len =
    (_ ← assert (0 =? flags);
     '(Locations, offset) ← parse_Locations (Z.to_nat n) (Some buf) (offset + 16) len;
     '(Padding16, offset) ← parse_primitive uint16_t (Some buf) offset len;
     _ ← assert (Padding16 =? 0);
     '(NumLiveOuts, offset) ← parse_primitive uint16_t (Some buf) offset len;
     _ ← assert (NumLiveOuts =? 0);
     Ret ({| PatchPointID := id; InstructionOffset := pc;
             ReservedFlags := flags; Locations := Locations |},
          if negb (offset mod 8 =? 0) then wrap32 (offset + (8 - offset mod 8))
          else offset)).
Proof.
  intros Hid Hpc Hfl Hn. unfold StackMapRecord_parse.
  rewrite (parse_primitive_read _ _ _ Hid). simpl.
  rewrite (parse_primitive_read _ _ _ Hpc). simpl.
  replace (offset + 8 + 4) with (offset + 12) by lia.
  rewrite (parse_primitive_read _ _ _ Hfl). simpl.
  replace (offset + 12 + 2) with (offset + 14) by lia.
  rewrite (parse_primitive_read _ _ _ Hn). simpl.
  replace (offset + 14 + 2) with (offset + 16) by lia. done.
Qed.

Lemma skip_padding_eq offset :
  (if negb (offset mod 8 =? 0) then wrap32 (offset + (8 - offset mod 8)) else offset)
  = skip_padding offset.
Proof.
  unfold skip_padding. destruct (Z.eqb_spec (offset mod 8) 0); simpl;
    case_decide; done.
Qed.

(** C7. Against a buffer of [len] bytes, [StackMapRecord::parse] returns
    the record [R] and the offset [offset'] exactly when the buffer holds,
    from [offset] on and in this order: the id (u64), the pc offset (u32),
    flags (u16) equal to 0, the number of locations (u16), that many 8-byte
    location records, a padding (u16) equal to 0 and a number of live-outs
    (u16) equal to 0, and [offset'] is the offset behind these fields moved
    to the next 8-byte boundary: [8 − (offset mod 8)] is added exactly when
    [offset mod 8 ≠ 0].  Non-zero flags, a non-zero padding and a non-zero
    number of live-outs each fail an assertion. *)
Theorem C7_StackMapRecord_parse_layout (offset : Z) :
  (∀ R offset',
     StackMapRecord_parse (Some buf) offset len = Ret (R, offset') ↔
     record_at buf offset R offset') ∧
  (∀ o, skip_padding o = if decide (o mod 8 ≠ 0) then wrap32 (o + (8 - o mod 8)) else o) ∧
  (∀ flags,
     0 ≤ offset → offset + 16 ≤ len →
     read uint16_t buf (offset + 12) = Some flags → flags ≠ 0 →
     StackMapRecord_parse (Some buf) offset len = AssertionFailure) ∧
  (∀ Ls pad,
     0 ≤ offset → offset + 16 ≤ len →
     read uint16_t buf (offset + 12) = Some 0 →
     read uint16_t buf (offset + 14) = Some (Z.of_nat (length Ls)) →
     locations_at buf (offset + 16) Ls →
     read uint16_t buf (offset + 16 + 8 * Z.of_nat (length Ls)) = Some pad →
     pad ≠ 0 →
     StackMapRecord_parse (Some buf) offset len = AssertionFailure) ∧
  (∀ Ls nlo,
     0 ≤ offset → offset + 16 ≤ len →
     read uint16_t buf (offset + 12) = Some 0 →
     read uint16_t buf (offset + 14) = Some (Z.of_nat (length Ls)) →
     locations_at buf (offset + 16) Ls →
     read uint16_t buf (offset + 16 + 8 * Z.of_nat (length Ls)) = Some 0 →
     read uint16_t buf (offset + 18 + 8 * Z.of_nat (length Ls)) = Some nlo →
     nlo ≠ 0 →
     StackMapRecord_parse (Some buf) offset len = AssertionFailure).
Proof.
  assert (Hhdr : 0 ≤ offset → offset + 16 ≤ len →
    ∃ id pc, read uint64_t buf offset = Some id ∧
             read uint32_t buf (offset + 8) = Some pc).
  { intros. destruct (read_in_bounds uint64_t offset) as [id ?]; [simpl; lia..|].
    destruct (read_in_bounds uint32_t (offset + 8)) as [pc ?]; [simpl; lia..|].
    eauto. }
  assert (Hlocs : ∀ Ls, locations_at buf (offset + 16) Ls →
    parse_Locations (Z.to_nat (Z.of_nat (length Ls))) (Some buf) (offset + 16) len
    = Ret (Ls, offset + 16 + 8 * Z.of_nat (length Ls))).
  { intros Ls HLs. apply parse_Locations_Ret_iff.
    rewrite Nat2Z.id. split_and!; done. }
  split_and!.
  - intros R offset'. split.
    + intros H. unfold StackMapRecord_parse in H. inv_outcome. simplify_eq.
      repeat match goal with
      | Hp : parse_primitive _ _ _ _ = Ret _ |- _ =>
          apply parse_primitive_Ret_iff in Hp as [? ->]
      | Hp : parse_Locations _ _ _ _ = Ret _ |- _ =>
          apply parse_Locations_Ret_iff in Hp as (? & ? & ->)
      | Hp : (_ =? _) = true |- _ => apply Z.eqb_eq in Hp
      end.
      subst. simpl sizeof in *.
      match goal with Hn : read uint16_t buf (offset + 8 + 4 + 2) = Some ?n |- _ =>
        pose proof (read_nonneg _ _ _ Hn) as Hnn end.
      unfold record_at; simpl. rewrite skip_padding_eq.
      match goal with Hl : length _ = Z.to_nat _ |- _ => rewrite Hl in * end.
      rewrite !Z2Nat.id by done.
      split_and!; try done;
        try match goal with
        | Hr : read ?T _ ?o = Some ?v |- read ?T _ ?o' = Some ?v' =>
            replace o' with o by lia; replace v' with v by lia; exact Hr
        | Hl : locations_at _ ?o _ |- locations_at _ ?o' _ =>
            replace o' with o by lia; exact Hl
        end.
      f_equal. lia.
    + intros (Hid & Hpc & Hfl & Hfl0 & Hn & HLs & Hpad & Hnlo & ->).
      rewrite (StackMapRecord_parse_header _ _ _ _ _ Hid Hpc Hfl Hn). simpl.
      rewrite Hlocs by done. simpl.
      rewrite (parse_primitive_read _ _ _ Hpad). simpl.
      replace (offset + 16 + 8 * Z.of_nat (length (Locations R)) + 2)
        with (offset + 18 + 8 * Z.of_nat (length (Locations R))) by lia.
      rewrite (parse_primitive_read _ _ _ Hnlo). simpl.
      rewrite skip_padding_eq. destruct R; simpl in *; subst.
      do 3 f_equal. lia.
  - done.
  - intros flags Ho Hl Hfl Hne.
    destruct (Hhdr Ho Hl) as (id & pc & Hid & Hpc).
    destruct (read_in_bounds uint16_t (offset + 14)) as [n Hn]; [simpl; lia..|].
    rewrite (StackMapRecord_parse_header _ _ _ _ _ Hid Hpc Hfl Hn).
    destruct (Z.eqb_spec 0 flags); [congruence|done].
  - intros Ls pad Ho Hl Hfl Hn HLs Hpad Hne.
    destruct (Hhdr Ho Hl) as (id & pc & Hid & Hpc).
    rewrite (StackMapRecord_parse_header _ _ _ _ _ Hid Hpc Hfl Hn). simpl.
    rewrite Hlocs by done. simpl.
    rewrite (parse_primitive_read _ _ _ Hpad). simpl.
    destruct (Z.eqb_spec pad 0); [congruence|done].
  - intros Ls nlo Ho Hl Hfl Hn HLs Hpad Hnlo Hne.
    destruct (Hhdr Ho Hl) as (id & pc & Hid & Hpc).
    rewrite (StackMapRecord_parse_header _ _ _ _ _ Hid Hpc Hfl Hn). simpl.
    rewrite Hlocs by done. simpl.
    rewrite (parse_primitive_read _ _ _ Hpad). simpl.
    replace (offset + 16 + 8 * Z.of_nat (length Ls) + 2)
      with (offset + 18 + 8 * Z.of_nat (length Ls)) by lia.
    rewrite (parse_primitive_read _ _ _ Hnlo). simpl.
    destruct (Z.eqb_spec nlo 0); [congruence|done].
Qed.

End Buffer.

(** *** The frame records *)

Section FrameRecords.

Variable buf : list Byte.byte.
Local Abbreviation len := (Z.of_nat (length buf)).
Hypothesis Hmax : len < 2 ^ 32.

Lemma parse_FnSizeRecords_Ret_iff n offset Fs offset' :
  parse_FnSizeRecords n (Some buf) offset len = Ret (Fs, offset') ↔
  length Fs = n ∧ frame_records_at buf offset Fs ∧
  offset' = offset + 16 * Z.of_nat n.
Proof.
  unfold frame_records_at. revert offset Fs offset'.
  induction n as [|n IH]; intros offset Fs offset'; simpl.
  - split.
    + intros [= <- <-]. split_and!; [done| |lia]. intros i F Hi. done.
    + intros (Hl & _ & ->). destruct Fs; [|done]. do 2 f_equal. lia.
  - split.
    + intros H. inv_outcome. simplify_eq.
      repeat match goal with
      | Hp : parse_primitive _ _ _ _ = Ret _ |- _ =>
          apply (parse_primitive_Ret_iff buf Hmax) in Hp as [? ->]
      | Hp : parse_FnSizeRecords _ _ _ _ = Ret _ |- _ =>
          apply IH in Hp as (Hlen' & Hall & ->)
      end.
      simpl sizeof in *.
      split_and!; [simpl; lia| |lia].
      intros [|i] F; simpl.
      * intros [= <-]. simpl. rewrite Z.mul_0_r, Z.add_0_r. done.
      * intros Hi. apply Hall in Hi as [Ha Hs]. split.
        -- rewrite <- Ha. f_equal. lia.
        -- rewrite <- Hs. f_equal. lia.
    + intros (Hl & Hall & ->). destruct Fs as [|F Fs']; [done|].
      injection Hl as Hl.
      destruct (Hall O F eq_refl) as [Ha Hs].
      rewrite Z.mul_0_r, Z.add_0_r in Ha, Hs.
      rewrite (parse_primitive_read buf Hmax _ _ _ Ha). simpl.
      rewrite (parse_primitive_read buf Hmax _ _ _ Hs). simpl.
      rewrite (proj2 (IH (offset + 8 + 8) Fs' (offset + 8 + 8 + 16 * Z.of_nat n))).
      * simpl. destruct F. do 2 f_equal. lia.
      * split_and!; [done| |done]. intros i F' Hi.
        destruct (Hall (S i) F' Hi) as [Ha' Hs']. split.
        -- rewrite <- Ha'. f_equal. lia.
        -- rewrite <- Hs'. f_equal. lia.
Qed.

(** C6, amended. [StackMapSection::parse] reads each function frame
    record as a u64 function address followed by a u64 stack size, 16
    bytes per record: the loop over the frame records returns [Fs] and
    [offset'] exactly when the buffer holds the records of [Fs] in that
    layout from [offset] on and [offset'] is [16 * NumFuncs] further; and
    when the section parse returns, the records it has appended are the
    [NumFuncs] (the u32 at [offset + 4]) records laid out from
    [offset + 16] on. *)
Theorem C6_frame_records_are_16_bytes (offset : Z) :
  (∀ n Fs offset',
     parse_FnSizeRecords n (Some buf) offset len = Ret (Fs, offset') ↔
     length Fs = n ∧ frame_records_at buf offset Fs ∧
     offset' = offset + 16 * Z.of_nat n) ∧
  (∀ this S offset',
     StackMapSection_parse this (Some buf) offset len = Ret (S, offset') →
     ∃ NumFuncs Fs,
       read uint32_t buf (offset + 4) = Some NumFuncs ∧
       FnSizeRecords S = FnSizeRecords this ++ Fs ∧
       Z.of_nat (length Fs) = NumFuncs ∧
       frame_records_at buf (offset + 16) Fs).
Proof.
  split; [intros; apply parse_FnSizeRecords_Ret_iff|].
  intros this S offset' H. unfold StackMapSection_parse in H.
  inv_outcome. simplify_eq.
  repeat match goal with
  | Hp : parse_primitive _ _ _ _ = Ret _ |- _ =>
      apply (parse_primitive_Ret_iff buf Hmax) in Hp as [? ->]
  | Hp : parse_FnSizeRecords _ _ _ _ = Ret _ |- _ =>
      apply parse_FnSizeRecords_Ret_iff in Hp as (? & ? & ->)
  end.
  simpl sizeof in *.
  match goal with Hr : read uint32_t buf (offset + 1 + 1 + 2) = Some ?n |- _ =>
    exists n; pose proof (read_nonneg buf _ _ _ Hr) end.
  eexists. simpl. split_and!; [|done| |].
  - match goal with Hr : read _ _ ?o = Some ?v |- read _ _ ?o' = Some ?v =>
      replace o' with o by lia; exact Hr end.
  - lia.
  - match goal with Hl : frame_records_at _ ?o _ |- frame_records_at _ ?o' _ =>
      replace o' with o by lia; exact Hl end.
Qed.

End FrameRecords.

(** C6 as stated fails.  On a section whose single frame record is in the
    reduced format (two 4-byte fields), the reduced-format reader returns
    the record [{0x40, 0x18}] and stops at offset 24, while
    [StackMapSection::parse] takes the 8 bytes for the address alone and
    fails its bounds assertion on the stack size. *)
Lemma C6_reduced_format_counterexample :
  StackMapSection_parse_reduced empty_section (Some reduced_section_bytes) 0 24
    = Ret ({| Version := 1; Reserved8 := 0; Reserved16 := 0;
              FnSizeRecords := [{| FunctionAddr := 64; StackSize := 24 |}];
              Constants := []; Records := [] |}, 24) ∧
  StackMapSection_parse empty_section (Some reduced_section_bytes) 0 24
    = AssertionFailure ∧
  StackMapSection_parse empty_section (Some reduced_section_bytes) 0 24
    ≠ StackMapSection_parse_reduced empty_section (Some reduced_section_bytes) 0 24.
Proof. split_and!; [vm_compute; reflexivity..|vm_compute; discriminate]. Qed.

(** *** The theorems at sample buffers *)

Lemma C8_parse_primitive_witness :
  parse_primitive uint16_t (Some (bytes [0x34; 0x12; 0xff]%N)) 0 3 = Ret (0x1234, 2).
Proof.
  destruct (C8_parse_primitive_in_bounds uint16_t (bytes [0x34; 0x12; 0xff]%N) 0 3)
    as (bs & Hbs & _ & _ & _ & Hp & _);
    [reflexivity|reflexivity|lia|simpl; lia|].
  vm_compute in Hbs. injection Hbs as <-. exact Hp.
Defined.

Lemma C7_StackMapRecord_parse_witness :
  StackMapRecord_parse (Some sample_record_bytes) 0 32 = Ret (sample_record, 32).
Proof.
  apply (proj1 (C7_StackMapRecord_parse_layout sample_record_bytes
                  ltac:(reflexivity) 0)).
  unfold record_at.
  split_and!;
    lazymatch goal with
    | |- locations_at _ _ _ => idtac
    | |- _ => vm_compute; reflexivity
    end.
  intros [|[|i]] L; simpl; [|discriminate..].
  intros [= <-]. split; [vm_compute; reflexivity|simpl; lia].
Defined.

Lemma C6_frame_records_witness :
  frame_records_at full_section_bytes 16 [{| FunctionAddr := 64; StackSize := 24 |}].
Proof.
  apply (proj1 (C6_frame_records_are_16_bytes full_section_bytes
                  ltac:(reflexivity) 16) 1%nat _ 32).
  vm_compute. reflexivity.
Defined.

End ReaderFacts.

(** ** The writer *)

Module StackMapsFacts.
Import StackMaps.

(** *** The stream emitter *)

Lemma Output_emit e OS : Output (emit e OS) = Output OS ++ [(CurrentSection OS, e)].
Proof. done. Qed.

Lemma CurrentSection_emit e OS : CurrentSection (emit e OS) = CurrentSection OS.
Proof. done. Qed.

Lemma emit_all_app es1 es2 OS :
  emit_all (es1 ++ es2) OS = emit_all es2 (emit_all es1 OS).
Proof. unfold emit_all. apply foldl_app. Qed.

Lemma CurrentSection_emit_all es OS :
  CurrentSection (emit_all es OS) = CurrentSection OS.
Proof.
  revert OS. induction es as [|e es IH]; intros OS; [done|].
  change (emit_all (e :: es) OS) with (emit_all es (emit e OS)).
  by rewrite IH.
Qed.

Lemma Output_emit_all es OS :
  Output (emit_all es OS) = Output OS ++ ((λ e, (CurrentSection OS, e)) <$> es).
Proof.
  revert OS. induction es as [|e es IH]; intros OS.
  - simpl. by rewrite app_nil_r.
  - change (emit_all (e :: es) OS) with (emit_all es (emit e OS)).
    rewrite IH, Output_emit, CurrentSection_emit, <- app_assoc. done.
Qed.

Lemma size_of_app es1 es2 : size_of (es1 ++ es2) = size_of es1 + size_of es2.
Proof. induction es1 as [|e es1 IH]; simpl; [done|]. rewrite IH. lia. Qed.

Lemma size_of_singleton e : size_of [e] = Emitted_size e.
Proof. simpl. lia. Qed.

Lemma section_size_emit Sec e OS :
  section_size Sec (emit e OS) =
  section_size Sec OS + (if decide (CurrentSection OS = Sec) then Emitted_size e else 0).
Proof.
  unfold section_size, section_contents. rewrite Output_emit.
  rewrite filter_app, fmap_app, size_of_app. f_equal.
  rewrite filter_cons, filter_nil. simpl.
  repeat case_decide; simpl; try done; lia.
Qed.

Lemma section_size_emit_all Sec es OS :
  section_size Sec (emit_all es OS) =
  section_size Sec OS + (if decide (CurrentSection OS = Sec) then size_of es else 0).
Proof.
  revert OS. induction es as [|e es IH]; intros OS.
  - simpl. case_decide; lia.
  - change (emit_all (e :: es) OS) with (emit_all es (emit e OS)).
    rewrite IH, section_size_emit, CurrentSection_emit.
    case_decide; simpl; lia.
Qed.

Lemma EmitValueToAlignment_8 OS :
  EmitValueToAlignment 8 OS =
  emit (Alignment 8 (padding_to_8 (section_size (CurrentSection OS) OS))) OS.
Proof. done. Qed.

(** *** The call-site table *)

Lemma emit_Location_fields Locs OS :
  foldl (λ OS Loc,
           let OS := EmitIntValue (LocationType_value (LocType Loc)) 1 OS in
           let OS := EmitIntValue (Size Loc) 1 OS in
           let OS := EmitIntValue (Reg Loc) 2 OS in
           EmitIntValue (Offset Loc) 4 OS) OS Locs
  = emit_all (Locs ≫= Location_fields) OS.
Proof.
  revert OS. induction Locs as [|Loc Locs IH]; intros OS; [done|].
  simpl foldl. rewrite IH.
  change ((Loc :: Locs) ≫= Location_fields)
    with (Location_fields Loc ++ (Locs ≫= Location_fields)).
  by rewrite emit_all_app.
Qed.

Lemma emit_LiveOut_fields LOs OS :
  foldl (λ OS LO,
           let OS := EmitIntValue (LO_RegNo LO) 2 OS in
           let OS := EmitIntValue 0 1 OS in
           EmitIntValue (LO_Size LO) 1 OS) OS LOs
  = emit_all (LOs ≫= LiveOut_fields) OS.
Proof.
  revert OS. induction LOs as [|LO LOs IH]; intros OS; [done|].
  simpl foldl. rewrite IH.
  change ((LO :: LOs) ≫= LiveOut_fields)
    with (LiveOut_fields LO ++ (LOs ≫= LiveOut_fields)).
  by rewrite emit_all_app.
Qed.

Lemma to_uint64_small x : 0 ≤ x < 2 ^ 64 → to_uint64 x = x.
Proof. intros. unfold to_uint64, wrap. by rewrite Z.mod_small. Qed.

Lemma emitCallsiteEntry_sentinel OS CSI :
  overflows CSI →
  emitCallsiteEntry OS CSI = emit_all (sentinel_record CSI) OS.
Proof.
  intros Hov. unfold emitCallsiteEntry.
  replace (_ || _) with true; [done|].
  symmetry. apply orb_true_iff. rewrite !Z.ltb_lt. exact Hov.
Qed.

Lemma emitCallsiteEntry_real OS CSI :
  ¬ overflows CSI →
  emitCallsiteEntry OS CSI =
    EmitValueToAlignment 8 (emit_all (callsite_record CSI) OS).
Proof.
  intros Hov. unfold emitCallsiteEntry.
  replace (_ || _) with false.
  2:{ symmetry. apply orb_false_iff. rewrite !Z.ltb_ge.
      unfold overflows in Hov. lia. }
  rewrite emit_Location_fields, emit_LiveOut_fields.
  unfold callsite_record. rewrite !emit_all_app. unfold EmitIntValue.
  rewrite !(to_uint64_small (Z.of_nat _)); [done|..];
    unfold overflows, UINT16_MAX in Hov; lia.
Qed.

Lemma CurrentSection_emitCallsiteEntry OS CSI :
  CurrentSection (emitCallsiteEntry OS CSI) = CurrentSection OS.
Proof.
  destruct (decide (overflows CSI)) as [Hov|Hov].
  - by rewrite emitCallsiteEntry_sentinel, CurrentSection_emit_all.
  - rewrite emitCallsiteEntry_real by done.
    by rewrite EmitValueToAlignment_8, CurrentSection_emit, CurrentSection_emit_all.
Qed.

Lemma CurrentSection_emitCallsiteEntries CSIs OS :
  CurrentSection (foldl emitCallsiteEntry OS CSIs) = CurrentSection OS.
Proof.
  revert OS. induction CSIs as [|CSI CSIs IH]; intros OS; [done|].
  simpl. by rewrite IH, CurrentSection_emitCallsiteEntry.
Qed.

Lemma emitted_since_app OS OS' es :
  Output OS' = Output OS ++ es → emitted_since OS OS' = es.
Proof. unfold emitted_since. intros ->. by rewrite drop_app_length. Qed.

Lemma Output_emitCallsiteEntry OS CSI :
  Output (emitCallsiteEntry OS CSI) =
  Output OS ++ ((λ e, (CurrentSection OS, e)) <$>
    if decide (overflows CSI) then sentinel_record CSI
    else callsite_record CSI ++
         [Alignment 8 (padding_to_8 (section_size (CurrentSection OS) OS
                                     + size_of (callsite_record CSI)))]).
Proof.
  case_decide as Hov.
  - by rewrite emitCallsiteEntry_sentinel, Output_emit_all.
  - rewrite emitCallsiteEntry_real by done.
    rewrite EmitValueToAlignment_8, Output_emit, Output_emit_all.
    rewrite CurrentSection_emit_all, section_size_emit_all.
    rewrite decide_True by done.
    by rewrite fmap_app, <- app_assoc.
Qed.

Lemma Output_emitCallsiteEntries_prefix CSIs OS :
  ∃ es, Output (foldl emitCallsiteEntry OS CSIs) = Output OS ++ es.
Proof.
  revert OS. induction CSIs as [|CSI CSIs IH]; intros OS.
  - exists []. by rewrite app_nil_r.
  - simpl. destruct (IH (emitCallsiteEntry OS CSI)) as [es ->].
    rewrite Output_emitCallsiteEntry, <- app_assoc. eauto.
Qed.

(** C3. In the loop of [emitCallsiteEntries] over the call sites
    [pre ++ CSI :: post], what is emitted for [CSI] is, when its locations
    or its live-outs number more than 65535, the sentinel record
    [{id = UINT64_MAX (u64), pc-offset expression (u32), flags = 0 (u16),
    num_locations = 0 (u16), padding = 0 (u16), num_live_outs = 0 (u16),
    padding = 0 (u32)}] and nothing else; otherwise its real contents,
    followed by the alignment to 8 bytes. *)
Theorem C3_overflow_sentinel OS pre CSI post CP FS :
  let this := {| CSInfos := pre ++ CSI :: post; ConstPool := CP; FnStackSize := FS |} in
  let OS1 := foldl emitCallsiteEntry OS pre in
  let OS2 := emitCallsiteEntry OS1 CSI in
  let tag := λ e, (CurrentSection OS, e) in
  emitCallsiteEntries this OS = foldl emitCallsiteEntry OS2 post ∧
  (∃ es, Output (emitCallsiteEntries this OS) =
           Output OS1 ++ emitted_since OS1 OS2 ++ es) ∧
  (overflows CSI →
     emitted_since OS1 OS2 = tag <$>
       [ IntValue UINT64_MAX 8; ExprValue (CSOffsetExpr CSI) 4; IntValue 0 2;
         IntValue 0 2; IntValue 0 2; IntValue 0 2; IntValue 0 4 ]) ∧
  (¬ overflows CSI →
     emitted_since OS1 OS2 = tag <$>
       (callsite_record CSI ++
        [Alignment 8 (padding_to_8 (section_size (CurrentSection OS) OS1
                                    + size_of (callsite_record CSI)))])).
Proof.
  intros this OS1 OS2 tag. subst this OS2 tag.
  assert (Hcur : CurrentSection OS1 = CurrentSection OS)
    by apply CurrentSection_emitCallsiteEntries.
  pose proof (Output_emitCallsiteEntry OS1 CSI) as Hout. rewrite Hcur in Hout.
  unfold emitCallsiteEntries. simpl. rewrite foldl_app. simpl. fold OS1.
  clearbody OS1.
  split_and!.
  - done.
  - destruct (Output_emitCallsiteEntries_prefix post (emitCallsiteEntry OS1 CSI))
      as [es ->].
    exists es. rewrite (emitted_since_app _ _ _ Hout).
    rewrite Hout, <- app_assoc. done.
  - intros Hov. rewrite decide_True in Hout by done.
    by apply emitted_since_app.
  - intros Hov. rewrite decide_False in Hout by done.
    by apply emitted_since_app.
Qed.

(** *** Sizes *)

Lemma size_of_Location_fields Locs :
  size_of (Locs ≫= Location_fields) = 8 * Z.of_nat (length Locs).
Proof.
  induction Locs as [|Loc Locs IH]; [done|].
  change ((Loc :: Locs) ≫= Location_fields)
    with (Location_fields Loc ++ (Locs ≫= Location_fields)).
  rewrite size_of_app, IH. simpl. lia.
Qed.

Lemma size_of_LiveOut_fields LOs :
  size_of (LOs ≫= LiveOut_fields) = 4 * Z.of_nat (length LOs).
Proof.
  induction LOs as [|LO LOs IH]; [done|].
  change ((LO :: LOs) ≫= LiveOut_fields)
    with (LiveOut_fields LO ++ (LOs ≫= LiveOut_fields)).
  rewrite size_of_app, IH. simpl. lia.
Qed.

Lemma size_of_callsite_record CSI :
  size_of (callsite_record CSI) =
  20 + 8 * Z.of_nat (length (Locations CSI)) + 4 * Z.of_nat (length (LiveOuts CSI)).
Proof.
  unfold callsite_record.
  rewrite !size_of_app, size_of_Location_fields, size_of_LiveOut_fields.
  simpl. lia.
Qed.

Lemma padding_to_8_aligns x : (x + padding_to_8 x) mod 8 = 0.
Proof. unfold padding_to_8. Z.div_mod_to_equations. lia. Qed.

Lemma padding_to_8_range x : 0 ≤ padding_to_8 x < 8.
Proof. unfold padding_to_8. Z.div_mod_to_equations. lia. Qed.

(** One call-site entry takes the section from a multiple of 8 to a
    multiple of 8. *)
Lemma section_size_emitCallsiteEntry OS CSI :
  section_size (CurrentSection OS) OS mod 8 = 0 →
  section_size (CurrentSection OS) (emitCallsiteEntry OS CSI) mod 8 = 0.
Proof.
  intros Hal. destruct (decide (overflows CSI)) as [Hov|Hov].
  - rewrite emitCallsiteEntry_sentinel, section_size_emit_all by done.
    rewrite decide_True by done. simpl. Z.div_mod_to_equations. lia.
  - rewrite emitCallsiteEntry_real by done.
    rewrite EmitValueToAlignment_8, section_size_emit, CurrentSection_emit_all.
    rewrite decide_True by done. simpl. apply padding_to_8_aligns.
Qed.

Lemma section_size_emitCallsiteEntries CSIs OS :
  section_size (CurrentSection OS) OS mod 8 = 0 →
  section_size (CurrentSection OS) (foldl emitCallsiteEntry OS CSIs) mod 8 = 0.
Proof.
  revert OS. induction CSIs as [|CSI CSIs IH]; intros OS Hal; [done|].
  simpl. rewrite <- (CurrentSection_emitCallsiteEntry OS CSI).
  apply IH. rewrite CurrentSection_emitCallsiteEntry.
  by apply section_size_emitCallsiteEntry.
Qed.

Lemma section_size_SwitchSection Sec Sec' OS :
  section_size Sec (SwitchSection Sec' OS) = section_size Sec OS.
Proof. done. Qed.

Lemma emitFunctionFrameRecords_size Sec FS CSIs CP OS :
  let this := {| CSInfos := CSIs; ConstPool := CP; FnStackSize := FS |} in
  CurrentSection (emitFunctionFrameRecords this OS) = CurrentSection OS ∧
  section_size Sec (emitFunctionFrameRecords this OS) =
  section_size Sec OS +
  (if decide (CurrentSection OS = Sec) then 16 * Z.of_nat (length FS) else 0).
Proof.
  unfold emitFunctionFrameRecords. simpl. revert OS.
  induction FS as [|FR FS IH]; intros OS.
  - simpl. split; [done|]. case_decide; lia.
  - simpl foldl. destruct (IH (EmitIntValue FR.2 8 (EmitSymbolValue FR.1 8 OS)))
      as [-> ->].
    split; [done|].
    unfold EmitIntValue, EmitSymbolValue.
    rewrite !section_size_emit, !CurrentSection_emit.
    case_decide; simpl length; simpl Emitted_size; lia.
Qed.

Lemma emitConstantPoolEntries_size Sec FS CSIs CP OS :
  let this := {| CSInfos := CSIs; ConstPool := CP; FnStackSize := FS |} in
  CurrentSection (emitConstantPoolEntries this OS) = CurrentSection OS ∧
  section_size Sec (emitConstantPoolEntries this OS) =
  section_size Sec OS +
  (if decide (CurrentSection OS = Sec) then 8 * Z.of_nat (length CP) else 0).
Proof.
  unfold emitConstantPoolEntries. simpl. revert OS.
  induction CP as [|C CP IH]; intros OS.
  - simpl. split; [done|]. case_decide; lia.
  - simpl foldl. destruct (IH (EmitIntValue C.2 8 OS)) as [-> ->].
    split; [done|].
    unfold EmitIntValue. rewrite !section_size_emit, !CurrentSection_emit.
    case_decide; simpl length; simpl Emitted_size; lia.
Qed.

(** The header, the frame table and the constant pool take 16, 16 per
    function and 8 per constant bytes: the call-site table starts on a
    multiple of 8 when the section did. *)
Lemma before_callsite_entries_size this OS :
  CurrentSection (before_callsite_entries this OS) = StackMapSection ∧
  section_size StackMapSection (before_callsite_entries this OS) =
  section_size StackMapSection OS + 16
  + 16 * Z.of_nat (length (FnStackSize this))
  + 8 * Z.of_nat (length (ConstPool this)).
Proof.
  destruct this as [CSIs CP FS]. unfold before_callsite_entries.
  set (OS0 := emitStackmapHeader _ _).
  destruct (emitFunctionFrameRecords_size StackMapSection FS CSIs CP OS0)
    as [Hc1 Hs1].
  destruct (emitConstantPoolEntries_size StackMapSection FS CSIs CP
              (emitFunctionFrameRecords
                 {| CSInfos := CSIs; ConstPool := CP; FnStackSize := FS |} OS0))
    as [Hc2 Hs2].
  rewrite Hc2, Hs2, Hc1, Hs1. simpl. split; [done|].
  unfold OS0, emitStackmapHeader, EmitIntValue, EmitLabel.
  rewrite !section_size_emit, !CurrentSection_emit. simpl.
  rewrite section_size_SwitchSection. lia.
Qed.

Lemma fmap_snd_tag (Sec : MCSection) (es : list Emitted) :
  snd <$> ((λ e, (Sec, e)) <$> es) = es.
Proof. induction es as [|e es IH]; [done|]. rewrite !fmap_cons. by f_equal. Qed.

Lemma serializeToStackMapSection_nonempty this OS :
  CSInfos this ≠ [] →
  serializeToStackMapSection this OS =
    Ret ({| CSInfos := []; ConstPool := []; FnStackSize := FnStackSize this |},
         AddBlankLine (emitCallsiteEntries this (before_callsite_entries this OS))).
Proof.
  intros Hne. unfold serializeToStackMapSection.
  rewrite bool_decide_eq_false_2 by done. done.
Qed.

(** The whole table takes the section from a multiple of 8 to a multiple
    of 8. *)
Lemma serialized_section_aligned this OS :
  section_size StackMapSection OS mod 8 = 0 →
  section_size StackMapSection
    (AddBlankLine (emitCallsiteEntries this (before_callsite_entries this OS)))
  mod 8 = 0.
Proof.
  intros Hal.
  destruct (before_callsite_entries_size this OS) as [Hc0 Hs0].
  set (OS0 := before_callsite_entries this OS) in *.
  assert (Hal0 : section_size (CurrentSection OS0) OS0 mod 8 = 0).
  { rewrite Hc0, Hs0. Z.div_mod_to_equations. lia. }
  pose proof (section_size_emitCallsiteEntries (CSInfos this) OS0 Hal0) as H.
  rewrite Hc0 in H.
  unfold AddBlankLine. rewrite section_size_emit. cbn [Emitted_size].
  unfold emitCallsiteEntries.
  destruct (decide (CurrentSection (foldl emitCallsiteEntry OS0 (CSInfos this))
                    = StackMapSection));
    rewrite Z.add_0_r; done.
Qed.

(** C4. When [serializeToStackMapSection] runs on a stack map section
    whose size is a multiple of 8 (an empty one, or one left by earlier
    serializations), the bytes [emitCallsiteEntries] emits for each
    recorded call site, on the sentinel path (24 bytes) as on the normal
    path, all go to that section and number a multiple of 8; and the
    section ends on a multiple of 8 again. *)
Theorem C4_callsite_record_size_multiple_of_8 this OS pre CSI post :
  CSInfos this = pre ++ CSI :: post →
  section_size StackMapSection OS mod 8 = 0 →
  let OS0 := before_callsite_entries this OS in
  let OS1 := foldl emitCallsiteEntry OS0 pre in
  let OS2 := emitCallsiteEntry OS1 CSI in
  let OS3 := emitCallsiteEntries this OS0 in
  serializeToStackMapSection this OS =
    Ret ({| CSInfos := []; ConstPool := []; FnStackSize := FnStackSize this |},
         AddBlankLine OS3) ∧
  OS3 = foldl emitCallsiteEntry OS2 post ∧
  Forall (λ p, fst p = StackMapSection) (emitted_since OS1 OS2) ∧
  size_of (snd <$> emitted_since OS1 OS2) mod 8 = 0 ∧
  (overflows CSI → size_of (snd <$> emitted_since OS1 OS2) = 24) ∧
  (¬ overflows CSI →
     20 + 8 * Z.of_nat (length (Locations CSI))
        + 4 * Z.of_nat (length (LiveOuts CSI))
     ≤ size_of (snd <$> emitted_since OS1 OS2)
     < 28 + 8 * Z.of_nat (length (Locations CSI))
          + 4 * Z.of_nat (length (LiveOuts CSI))) ∧
  section_size StackMapSection (AddBlankLine OS3) mod 8 = 0.
Proof.
  intros HCS Hal OS0 OS1 OS2 OS3.
  destruct (before_callsite_entries_size this OS) as [Hc0 Hs0]. fold OS0 in Hc0, Hs0.
  assert (Hal0 : section_size (CurrentSection OS0) OS0 mod 8 = 0).
  { rewrite Hc0, Hs0. Z.div_mod_to_equations. lia. }
  assert (Hc1 : CurrentSection OS1 = StackMapSection).
  { unfold OS1. by rewrite CurrentSection_emitCallsiteEntries. }
  assert (Hal1 : section_size StackMapSection OS1 mod 8 = 0).
  { pose proof (section_size_emitCallsiteEntries pre OS0 Hal0) as H.
    by rewrite Hc0 in H. }
  assert (Hal3 : section_size StackMapSection OS3 mod 8 = 0).
  { pose proof (section_size_emitCallsiteEntries (CSInfos this) OS0 Hal0) as H.
    by rewrite Hc0 in H. }
  pose proof (Output_emitCallsiteEntry OS1 CSI) as Hout.
  apply emitted_since_app in Hout. fold OS2 in Hout. rewrite Hc1 in Hout.
  rewrite Hout, fmap_snd_tag.
  pose proof (padding_to_8_range (section_size StackMapSection OS1
                                  + size_of (callsite_record CSI))) as Hpr.
  pose proof (padding_to_8_aligns (section_size StackMapSection OS1
                                   + size_of (callsite_record CSI))) as Hpa.
  pose proof (size_of_callsite_record CSI) as Hsz.
  split_and!.
  - apply serializeToStackMapSection_nonempty. rewrite HCS. by destruct pre.
  - unfold OS3, OS2, OS1, emitCallsiteEntries. rewrite HCS, foldl_app. done.
  - apply Forall_fmap, Forall_true. done.
  - case_decide; [simpl; Z.div_mod_to_equations; lia|].
    rewrite size_of_app, size_of_singleton. cbn [Emitted_size].
    Z.div_mod_to_equations. lia.
  - intros Hov. rewrite decide_True by done. done.
  - intros Hov. rewrite decide_False by done.
    rewrite size_of_app, size_of_singleton. cbn [Emitted_size]. lia.
  - unfold AddBlankLine. rewrite section_size_emit. cbn [Emitted_size].
    destruct (decide (CurrentSection OS3 = StackMapSection));
      rewrite Z.add_0_r; done.
Qed.

(** C5. On a writer with at least one recorded call site,
    [serializeToStackMapSection] returns normally and leaves [CSInfos] and
    [ConstPool] empty and [FnStackSize] as it was. *)
Theorem C5_serialize_clears_callsites_and_pool this OS :
  CSInfos this ≠ [] →
  ∃ this' OS',
    serializeToStackMapSection this OS = Ret (this', OS') ∧
    CSInfos this' = [] ∧ ConstPool this' = [] ∧
    FnStackSize this' = FnStackSize this.
Proof.
  intros Hne. do 2 eexists.
  split; [by apply serializeToStackMapSection_nonempty|]. done.
Qed.

(** *** The constant pool *)

Section MapVectorFacts.

Context {K : Type} `{EqDecision K}.
Implicit Types (M : MapVector K) (k : K).

Lemma MapVector_find_Some k M i :
  MapVector_find k M = Some i → ∃ v, M !! i = Some (k, v).
Proof.
  revert i. induction M as [|[k' v'] M IH]; intros i; simpl; [done|].
  case_decide as Hk.
  - intros [= <-]. subst. eauto.
  - destruct (MapVector_find k M) as [j|]; simpl; [|done].
    intros [= <-]. by apply IH.
Qed.

Lemma MapVector_find_None k M :
  MapVector_find k M = None ↔ k ∉ fst <$> M.
Proof.
  induction M as [|[k' v'] M IH]; simpl.
  - split; [|done]. intros _. apply not_elem_of_nil.
  - rewrite not_elem_of_cons. case_decide as Hk.
    + split; [done|]. intros [Hne _]. by subst.
    + destruct (MapVector_find k M) as [j|]; simpl.
      * split; [done|]. intros [_ Hn]. by apply IH in Hn.
      * split; [|done]. intros _. split; [done|]. by apply IH.
Qed.

Lemma MapVector_find_app_l k M M' i :
  MapVector_find k M = Some i → MapVector_find k (M ++ M') = Some i.
Proof.
  revert i. induction M as [|[k' v'] M IH]; intros i; simpl; [done|].
  case_decide; [done|].
  destruct (MapVector_find k M) as [j|]; simpl; [|done].
  intros [= <-]. by rewrite (IH j).
Qed.

Lemma MapVector_find_snoc k v M :
  MapVector_find k M = None →
  MapVector_find k (M ++ [(k, v)]) = Some (length M).
Proof.
  induction M as [|[k' v'] M IH]; simpl.
  - intros _. by rewrite decide_True.
  - case_decide; [done|].
    destruct (MapVector_find k M) as [j|]; simpl; [done|].
    intros _. by rewrite IH.
Qed.

(** [insert] appends at most the given pair, and returns the position at
    which the key is found from then on. *)
Lemma MapVector_insert_spec k v M M' i :
  MapVector_insert (k, v) M = (M', i) →
  MapVector_find k M' = Some i ∧
  (M' = M ∧ k ∈ fst <$> M ∨ M' = M ++ [(k, v)] ∧ k ∉ fst <$> M).
Proof.
  unfold MapVector_insert. simpl.
  destruct (MapVector_find k M) as [j|] eqn:Hf; intros [= <- <-].
  - split; [done|]. left. split; [done|].
    destruct (decide (k ∈ fst <$> M)) as [|Hn]; [done|].
    apply MapVector_find_None in Hn. congruence.
  - split; [by apply MapVector_find_snoc|]. right. split; [done|].
    by apply MapVector_find_None.
Qed.

(** With distinct keys, a key is found where it is stored. *)
Lemma MapVector_find_lookup k v M i :
  NoDup (fst <$> M) → M !! i = Some (k, v) → MapVector_find k M = Some i.
Proof.
  revert i. induction M as [|[k' v'] M IH]; intros i Hnd Hi; [done|].
  rewrite fmap_cons in Hnd. apply NoDup_cons in Hnd as [Hk' Hnd].
  destruct i as [|i]; simpl in *.
  - injection Hi as -> ->. by rewrite decide_True.
  - case_decide as Hk.
    + subst. exfalso. apply Hk'.
      apply list_elem_of_fmap. exists (k, v). split; [done|].
      by eapply list_elem_of_lookup_2.
    + by rewrite (IH i).
Qed.

End MapVectorFacts.

Lemma filter_none {A} (P : A → Prop) `{∀ x, Decision (P x)} (l : list A) :
  Forall (λ x, ¬ P x) l → filter P l = [].
Proof.
  induction 1 as [|x l Hx _ IH]; [done|]. by rewrite filter_cons_False.
Qed.

Lemma pool_wf_nil : pool_wf [].
Proof. split; [apply NoDup_nil_2|apply Forall_nil_2]. Qed.

Lemma pool_wf_snoc CP u :
  pool_wf CP → u ∉ fst <$> CP → pool_wf (CP ++ [(u, u)]).
Proof.
  intros [Hnd Hv] Hu. split.
  - rewrite fmap_app. apply NoDup_app. split_and!; [done| |apply NoDup_singleton].
    intros x Hx. simpl. rewrite list_elem_of_singleton. intros ->. done.
  - apply Forall_app. split; [done|]. by apply Forall_singleton.
Qed.

Lemma pool_wf_lookup CP u i :
  pool_wf CP → MapVector_find u CP = Some i → CP !! i = Some (u, u).
Proof.
  intros [_ Hv] Hf. destruct (MapVector_find_Some _ _ _ Hf) as [v Hi].
  rewrite Forall_lookup in Hv. specialize (Hv _ _ Hi). simpl in Hv. by subst.
Qed.

Lemma promoted_app CP ext Loc0 Loc' :
  promoted CP Loc0 Loc' → promoted (CP ++ ext) Loc0 Loc'.
Proof.
  intros [(Hl & idx & Hf & ->)|[Hn ->]]; [left|right]; [|done].
  split; [done|]. exists idx. split; [|done]. by apply MapVector_find_app_l.
Qed.

Lemma large_constant_dec Loc :
  (bool_decide (LocType Loc = Constant) && negb (isInt32 (Offset Loc))) = true
  ↔ large_constant Loc.
Proof.
  unfold large_constant.
  rewrite andb_true_iff, bool_decide_eq_true, negb_true_iff. done.
Qed.

(** What the promotion loop returns. *)
Lemma moveLargeConstants_spec Locs CP Locs' CP' :
  pool_wf CP →
  moveLargeConstants Locs CP = Ret (Locs', CP') →
  pool_wf CP' ∧
  (∃ ext, CP' = CP ++ ext ∧
     ∀ KV, KV ∈ ext →
       ∃ Loc, Loc ∈ Locs ∧ large_constant Loc ∧
              KV = (to_uint64 (Offset Loc), to_uint64 (Offset Loc))) ∧
  Forall2 (promoted CP') Locs Locs'.
Proof.
  revert CP Locs' CP'. induction Locs as [|Loc Locs IH]; intros CP Locs' CP' Hwf; simpl.
  - intros [= <- <-]. split_and!; [done| |constructor].
    exists []. rewrite app_nil_r. split; [done|]. intros KV HKV.
    by apply elem_of_nil in HKV.
  - destruct (bool_decide _ && negb _) eqn:Hlarge.
    + apply large_constant_dec in Hlarge.
      intros H. inv_outcome. simplify_eq.
      match goal with Hins : MapVector_insert _ CP = (?M, ?i) |- _ =>
        rename M into CP1; rename i into Result;
        apply MapVector_insert_spec in Hins as [Hfind Hcase] end.
      assert (Hwf1 : pool_wf CP1).
      { destruct Hcase as [[-> _]|[-> Hnew]]; [done|]. by apply pool_wf_snoc. }
      match goal with Hr : moveLargeConstants _ _ = Ret _ |- _ =>
        destruct (IH _ _ _ Hwf1 Hr) as (Hwf' & (ext & -> & Hext) & Hall) end.
      split_and!; [done| |].
      * destruct Hcase as [[-> _]|[-> Hnew]].
        -- exists ext. split; [done|]. intros KV HKV.
           destruct (Hext _ HKV) as (L & ? & ? & ?). exists L.
           split_and!; [by right|done..].
        -- eexists. rewrite <- app_assoc. split; [done|].
           intros KV [->%list_elem_of_singleton|HKV]%elem_of_app.
           ++ exists Loc. split_and!; [by left|done..].
           ++ destruct (Hext _ HKV) as (L & ? & ? & ?). exists L.
              split_and!; [by right|done..].
      * constructor; [|done]. left. split; [done|]. exists Result.
        split; [|done]. by apply MapVector_find_app_l.
    + assert (Hn : ¬ large_constant Loc).
      { intros Hl%large_constant_dec. congruence. }
      intros H. inv_outcome. simplify_eq.
      match goal with Hr : moveLargeConstants _ _ = Ret _ |- _ =>
        destruct (IH _ _ _ Hwf Hr) as (Hwf' & (ext & -> & Hext) & Hall) end.
      split_and!; [done| |].
      * exists ext. split; [done|]. intros KV HKV.
        destruct (Hext _ HKV) as (L & ? & ? & ?). exists L.
        split_and!; [by right|done..].
      * constructor; [|done]. by right.
Qed.

(** A large constant of 64 bits is none of the reserved keys: the
    assertion of the promotion loop holds, and the loop returns. *)
Lemma large_constant_not_reserved x :
  is_int64 x → isInt32 x = false →
  to_uint64 x ≠ DenseMapInfo_getEmptyKey ∧
  to_uint64 x ≠ DenseMapInfo_getTombstoneKey.
Proof.
  unfold is_int64, isInt32, INT32_MIN, INT32_MAX, to_uint64, wrap,
    DenseMapInfo_getEmptyKey, DenseMapInfo_getTombstoneKey, to_uint64, wrap.
  intros Hr Hn. apply andb_false_iff in Hn.
  rewrite !Z.leb_gt in Hn.
  change (0 mod 2 ^ 64) with 0. change (-1 mod 2 ^ 64) with (2 ^ 64 - 1).
  change (2 ^ 64) with 18446744073709551616 in *.
  change (2 ^ 63) with 9223372036854775808 in *.
  change (2 ^ 31) with 2147483648 in *.
  Z.div_mod_to_equations. lia.
Qed.

Lemma moveLargeConstants_returns Locs CP :
  Forall (λ Loc, is_int64 (Offset Loc)) Locs →
  ∃ Locs' CP', moveLargeConstants Locs CP = Ret (Locs', CP').
Proof.
  intros Hall. revert CP. induction Hall as [|Loc Locs H64 _ IH]; intros CP; simpl.
  - eauto.
  - destruct (bool_decide _ && negb _) eqn:Hlarge.
    + apply large_constant_dec in Hlarge. destruct Hlarge as [_ Hn].
      destruct (large_constant_not_reserved _ H64 Hn) as [He Ht].
      rewrite assert_true.
      2:{ apply andb_true_iff. rewrite !negb_true_iff, !Z.eqb_neq. done. }
      simpl. destruct (MapVector_insert _ CP) as [CP1 Result].
      destruct (IH CP1) as (Locs' & CP' & ->). simpl. eauto.
    + destruct (IH CP) as (Locs' & CP' & ->). simpl. eauto.
Qed.

(** *** The merge loops *)

Section Merge.

Local Open Scope nat_scope.

Variable TRI : TargetRegisterInfo.

Lemma absorb_run_length LI rest :
  let '(LI', inv, rem) := absorb_run TRI LI rest in
  length inv + length rem = length rest.
Proof.
  revert LI. induction rest as [|LII rest IH]; intros LI; simpl; [done|].
  case_decide; [done|].
  specialize (IH (absorb TRI LI LII)).
  destruct (absorb_run _ _ _) as [[LI' inv] rem]. simpl. lia.
Qed.

Lemma merge_inner_exit fuel LiveOuts I II :
  II = length LiveOuts → merge_inner TRI fuel LiveOuts I II = Ret (LiveOuts, I).
Proof. intros ->. destruct fuel; simpl; by rewrite decide_True. Qed.

Lemma merge_inner_step fuel LiveOuts I II LI LII :
  II ≠ length LiveOuts →
  LiveOuts !! I = Some LI → LiveOuts !! II = Some LII → I ≠ II →
  merge_inner TRI (S fuel) LiveOuts I II =
    if decide (LO_RegNo LI ≠ LO_RegNo LII) then Ret (LiveOuts, pred II)
    else merge_inner TRI fuel
           (<[II := MarkInvalid LII]> (<[I := absorb TRI LI LII]> LiveOuts))
           I (S II).
Proof.
  intros Hne HI HII Hdist. simpl. rewrite decide_False by done.
  rewrite HI, HII. simpl. case_decide; [done|].
  assert (HI' : I < length LiveOuts) by (by eapply lookup_lt_Some).
  rewrite list_lookup_insert_eq by done.
  rewrite list_lookup_insert_ne, HII by done. simpl.
  unfold absorb. destruct (isSuperRegister _ _ _).
  - rewrite list_lookup_insert_ne by done.
    rewrite list_lookup_insert_ne, HII by done. simpl.
    by rewrite list_insert_insert_eq.
  - rewrite list_lookup_insert_ne, HII by done. done.
Qed.

(** The inner loop, entered at [II] with the entries [mid] between [I]
    and [II] already passed: it performs [absorb_run] on what follows. *)
Lemma merge_inner_absorb_run rest done LI mid fuel :
  length rest ≤ fuel →
  merge_inner TRI fuel (done ++ LI :: mid ++ rest)
              (length done) (length done + 1 + length mid) =
  let '(LI', inv, rem) := absorb_run TRI LI rest in
  Ret (done ++ LI' :: mid ++ inv ++ rem,
       match rem with
       | [] => length done
       | _ => length done + length mid + length inv
       end).
Proof.
  revert done LI mid fuel.
  induction rest as [|LII rest IH]; intros done LI mid fuel Hfuel.
  - rewrite merge_inner_exit; [done|].
    rewrite !app_nil_r, length_app. simpl. lia.
  - destruct fuel as [|fuel]; [simpl in Hfuel; lia|].
    assert (HI : ∀ X l, (done ++ X :: l) !! length done = Some X).
    { intros. by apply list_lookup_middle. }
    assert (HII : ∀ X Y, (done ++ X :: mid ++ Y :: rest)
                          !! (length done + 1 + length mid) = Some Y).
    { intros. rewrite <- Nat.add_assoc.
      rewrite lookup_app_r by lia.
      replace (length done + (1 + length mid) - length done) with (S (length mid)) by lia.
      simpl. by apply list_lookup_middle. }
    assert (HinsI : ∀ X Y l, <[length done := Y]> (done ++ X :: l) = done ++ Y :: l).
    { intros. replace (length done) with (length done + 0) at 1 by lia.
      by rewrite insert_app_r. }
    assert (HinsII : ∀ X Y Z, <[length done + 1 + length mid := Z]>
                                (done ++ X :: mid ++ Y :: rest)
                              = done ++ X :: mid ++ Z :: rest).
    { intros. rewrite <- Nat.add_assoc, insert_app_r. f_equal.
      simpl. f_equal. replace (length mid) with (length mid + 0) at 1 by lia.
      by rewrite insert_app_r. }
    rewrite (merge_inner_step _ _ _ _ LI LII); [|..|apply HI|apply HII|lia].
    2:{ rewrite length_app. simpl. rewrite length_app. simpl. lia. }
    simpl absorb_run. case_decide as Hne.
    + simpl. do 2 f_equal. lia.
    + rewrite HinsI, HinsII.
      specialize (IH done (absorb TRI LI LII) (mid ++ [MarkInvalid LII]) fuel).
      rewrite <- !app_assoc, length_app in IH. simpl in IH.
      replace (S (length done + 1 + length mid))
        with (length done + 1 + (length mid + 1)) by lia.
      rewrite IH by (simpl in Hfuel; lia).
      destruct (absorb_run _ _ _) as [[LI' inv] rem]. simpl.
      rewrite <- !app_assoc. simpl.
      do 2 f_equal. destruct rem; lia.
Qed.

Lemma merge_outer_exit fuel LiveOuts I :
  I = length LiveOuts → merge_outer TRI fuel LiveOuts I = Ret LiveOuts.
Proof. intros ->. destruct fuel; simpl; by rewrite decide_True. Qed.

Lemma merge_outer_step fuel LiveOuts I :
  I ≠ length LiveOuts →
  merge_outer TRI (S fuel) LiveOuts I =
    '(LiveOuts, I') ← merge_inner TRI (length LiveOuts) LiveOuts I (S I);
    merge_outer TRI fuel LiveOuts (S I').
Proof. intros Hne. simpl. by rewrite decide_False. Qed.

Lemma absorb_Valid LI LII : LO_Valid (absorb TRI LI LII) = LO_Valid LI.
Proof. done. Qed.

Lemma absorb_RegNo LI LII : LO_RegNo (absorb TRI LI LII) = LO_RegNo LI.
Proof. done. Qed.

Lemma absorb_run_spec LI rest :
  let '(LI', inv, rem) := absorb_run TRI LI rest in
  LO_Valid LI' = LO_Valid LI ∧
  Forall (λ LO, LO_Valid LO = false) inv ∧
  (∃ pre, rest = pre ++ rem ∧ length inv = length pre) ∧
  coalesce TRI LI rest =
    match rem with
    | [] => [LI']
    | LII :: rem' => LI' :: coalesce TRI LII rem'
    end.
Proof.
  revert LI. induction rest as [|LII rest IH]; intros LI; simpl.
  - split_and!; [done|constructor| |done]. by exists [].
  - case_decide as Hne.
    + split_and!; [done|constructor| |done]. by exists [].
    + specialize (IH (absorb TRI LI LII)).
      destruct (absorb_run _ _ _) as [[LI' inv] rem].
      destruct IH as (Hv & Hinv & (pre & -> & Hlen) & Hco).
      split_and!; [done|by constructor| |done].
      exists (LII :: pre). simpl. by rewrite Hlen.
Qed.

(** Past the last run the outer loop walks over entries that are marked
    invalid, and leaves them so. *)
Lemma merge_outer_invalid n rest done fuel :
  length rest ≤ n → length rest ≤ fuel →
  Forall (λ LO, LO_Valid LO = false) rest →
  ∃ rest', merge_outer TRI fuel (done ++ rest) (length done) = Ret (done ++ rest') ∧
           length rest' = length rest ∧
           Forall (λ LO, LO_Valid LO = false) rest'.
Proof.
  revert rest done fuel.
  induction n as [|n IH]; intros rest done fuel Hn Hfuel Hinv.
  - destruct rest; [|simpl in Hn; lia].
    exists []. rewrite merge_outer_exit; [done|]. rewrite length_app. simpl. lia.
  - destruct rest as [|LI rest0].
    { exists []. rewrite merge_outer_exit; [done|]. rewrite length_app. simpl. lia. }
    destruct fuel as [|fuel]; [simpl in Hfuel; lia|].
    rewrite merge_outer_step by (rewrite length_app; simpl; lia).
    pose proof (merge_inner_absorb_run rest0 done LI []
                  (length (done ++ LI :: rest0))) as Hin.
    simpl in Hin. rewrite Nat.add_0_r in Hin.
    replace (length done + 1) with (S (length done)) in Hin by lia.
    rewrite Hin by (rewrite length_app; simpl; lia). clear Hin.
    pose proof (absorb_run_spec LI rest0) as Hspec.
    destruct (absorb_run TRI LI rest0) as [[LI' inv] rem].
    destruct Hspec as (Hv & Hinv' & (pre & -> & Hlen) & _).
    apply Forall_cons in Hinv as [HLI Hinv].
    apply Forall_app in Hinv as [_ Hrem].
    simpl in Hn, Hfuel. rewrite length_app in Hn, Hfuel.
    simpl. destruct rem as [|x rem'].
    + rewrite app_nil_r.
      destruct (IH inv (done ++ [LI']) fuel) as (rest' & Hr & Hl & Hi);
        [lia|lia|done|].
      rewrite length_app in Hr. simpl in Hr.
      replace (S (length done)) with (length done + 1) by lia.
      rewrite <- app_assoc in Hr. simpl in Hr. rewrite Hr.
      exists (LI' :: rest'). rewrite <- app_assoc. split_and!; [done| |].
      * simpl. rewrite length_app. simpl. lia.
      * constructor; [congruence|done].
    + destruct (IH (x :: rem') (done ++ LI' :: inv) fuel) as (rest' & Hr & Hl & Hi);
        [simpl in *; lia|simpl in *; lia|done|].
      rewrite length_app in Hr. simpl in Hr.
      replace (S (length done + 0 + length inv)) with (length done + S (length inv)) by lia.
      rewrite <- app_assoc in Hr. simpl in Hr. rewrite Hr.
      exists (LI' :: inv ++ rest'). rewrite <- app_assoc. split_and!; [done| |].
      * simpl. rewrite !length_app. simpl in *. lia.
      * constructor; [congruence|]. apply Forall_app. done.
Qed.

(** On valid entries the outer loop leaves, as the valid entries, the
    runs merged. *)
Lemma merge_outer_valid n rest0 LI done fuel :
  length (LI :: rest0) ≤ n → length (LI :: rest0) ≤ fuel →
  Forall (λ LO, LO_Valid LO = true) (LI :: rest0) →
  ∃ rest', merge_outer TRI fuel (done ++ LI :: rest0) (length done)
             = Ret (done ++ rest') ∧
           filter (λ LO, IsInvalid LO = false) rest' = coalesce TRI LI rest0.
Proof.
  revert rest0 LI done fuel.
  induction n as [|n IH]; intros rest0 LI done fuel Hn Hfuel Hval;
    [simpl in Hn; lia|].
  destruct fuel as [|fuel]; [simpl in Hfuel; lia|].
  rewrite merge_outer_step by (rewrite length_app; simpl; lia).
  pose proof (merge_inner_absorb_run rest0 done LI []
                (length (done ++ LI :: rest0))) as Hin.
  simpl in Hin. rewrite Nat.add_0_r in Hin.
  replace (length done + 1) with (S (length done)) in Hin by lia.
  rewrite Hin by (rewrite length_app; simpl; lia). clear Hin.
  pose proof (absorb_run_spec LI rest0) as Hspec.
  destruct (absorb_run TRI LI rest0) as [[LI' inv] rem].
  destruct Hspec as (Hv & Hinv' & (pre & -> & Hlen) & ->).
  apply Forall_cons in Hval as [HLI Hval].
  apply Forall_app in Hval as [_ Hrem].
  simpl in Hn, Hfuel. rewrite length_app in Hn, Hfuel.
  assert (Hfi : ∀ l, Forall (λ LO, LO_Valid LO = false) l →
                     filter (λ LO, IsInvalid LO = false) l = []).
  { intros l Hl. induction Hl as [|y l Hy _ IHl]; [done|].
    rewrite filter_cons_False; [done|]. unfold IsInvalid. by rewrite Hy. }
  assert (HvLI' : IsInvalid LI' = false).
  { unfold IsInvalid. by rewrite Hv, HLI. }
  simpl. destruct rem as [|x rem'].
  - rewrite app_nil_r.
    destruct (merge_outer_invalid (length inv) inv (done ++ [LI']) fuel)
      as (rest' & Hr & Hl & Hi); [lia|lia|done|].
    rewrite length_app in Hr. simpl in Hr.
    replace (S (length done)) with (length done + 1) by lia.
    rewrite <- app_assoc in Hr. simpl in Hr. rewrite Hr.
    exists (LI' :: rest'). rewrite <- app_assoc. split; [done|].
    rewrite filter_cons_True by done. by rewrite Hfi.
  - destruct (IH rem' x (done ++ LI' :: inv) fuel) as (rest' & Hr & Hf);
      [simpl in *; lia|simpl in *; lia|done|].
    rewrite length_app in Hr. simpl in Hr.
    replace (S (length done + 0 + length inv)) with (length done + S (length inv)) by lia.
    rewrite <- app_assoc in Hr. simpl in Hr. rewrite Hr.
    exists (LI' :: inv ++ rest'). rewrite <- app_assoc. split; [done|].
    rewrite filter_cons_True by done. rewrite filter_app, Hfi, Hf by done. done.
Qed.

(** The merge of [parseRegisterLiveOutMask], from the sorted vector to
    the vector returned: no access is out of range, the loops end within
    the bound of the model, and the entries left are the runs merged. *)
Lemma merge_outer_coalesce LiveOuts :
  Forall (λ LO, LO_Valid LO = true) LiveOuts →
  ∃ LiveOuts',
    merge_outer TRI (length LiveOuts) LiveOuts 0 = Ret LiveOuts' ∧
    filter (λ LO, IsInvalid LO = false) LiveOuts' =
      match LiveOuts with
      | [] => []
      | LI :: rest => coalesce TRI LI rest
      end.
Proof.
  intros Hval. destruct LiveOuts as [|LI rest].
  - exists []. split; [by apply merge_outer_exit|done].
  - destruct (merge_outer_valid (length (LI :: rest)) rest LI []
                (length (LI :: rest))) as (rest' & Hr & Hf); [done..|].
    exists rest'. split; [exact Hr|exact Hf].
Qed.

(** *** Runs of a sorted vector *)

Local Open Scope Z_scope.

Lemma foldl_absorb_RegNo h t : LO_RegNo (foldl (absorb TRI) h t) = LO_RegNo h.
Proof. revert h. induction t as [|x t IH]; intros h; simpl; [done|]. by rewrite IH. Qed.

Lemma foldl_absorb_Valid h t : LO_Valid (foldl (absorb TRI) h t) = LO_Valid h.
Proof. revert h. induction t as [|x t IH]; intros h; simpl; [done|]. by rewrite IH. Qed.

(** The size left is the maximum over the run. *)
Lemma foldl_absorb_Size h t :
  (∀ x, x ∈ h :: t → LO_Size x ≤ LO_Size (foldl (absorb TRI) h t)) ∧
  (∃ x, x ∈ h :: t ∧ LO_Size x = LO_Size (foldl (absorb TRI) h t)).
Proof.
  revert h. induction t as [|y t IH]; intros h; simpl.
  - split.
    + intros x ->%list_elem_of_singleton. lia.
    + exists h. split; [by left|done].
  - destruct (IH (absorb TRI h y)) as [Hle (x & Hx & Heq)]. split.
    + intros z Hz.
      assert (LO_Size (absorb TRI h y) ≤ LO_Size (foldl (absorb TRI) (absorb TRI h y) t))
        as Hhy by (apply Hle; by left).
      simpl in Hhy.
      apply elem_of_cons in Hz as [->|Hz]; [lia|].
      apply elem_of_cons in Hz as [->|Hz]; [lia|].
      apply Hle. by right.
    + apply elem_of_cons in Hx as [->|Hx].
      * simpl in Heq. destruct (Z.max_spec (LO_Size h) (LO_Size y)) as [[_ Hm]|[_ Hm]];
          rewrite Hm in Heq.
        -- exists y. split; [right; by left|done].
        -- exists h. split; [by left|done].
      * exists x. split; [by do 2 right|done].
Qed.

(** The register left is one of the run. *)
Lemma foldl_absorb_Reg_in h t :
  ∃ x, x ∈ h :: t ∧ LO_Reg x = LO_Reg (foldl (absorb TRI) h t).
Proof.
  revert h. induction t as [|y t IH]; intros h; simpl.
  - exists h. split; [by left|done].
  - destruct (IH (absorb TRI h y)) as (x & Hx & Heq).
    apply elem_of_cons in Hx as [->|Hx].
    + simpl in Heq. destruct (isSuperRegister _ _ _).
      * exists y. split; [right; by left|done].
      * exists h. split; [by left|done].
    + exists x. split; [by do 2 right|done].
Qed.

(** When a register of the run is a super-register of all the others,
    it is the register left. *)
Lemma foldl_absorb_Reg_widest h t m :
  (∀ a b, isSuperRegister TRI a b = true → isSuperRegister TRI b a = false) →
  m ∈ h :: t →
  (∀ c, c ∈ h :: t → LO_Reg c ≠ LO_Reg m →
        isSuperRegister TRI (LO_Reg c) (LO_Reg m) = true) →
  LO_Reg (foldl (absorb TRI) h t) = LO_Reg m.
Proof.
  intros Hasym Hm Hsup.
  assert (Hirr : ∀ a, isSuperRegister TRI a a = false).
  { intros a. destruct (isSuperRegister TRI a a) eqn:E; [|done].
    by rewrite (Hasym _ _ E) in E. }
  (* the register held is the widest one, or one it is a super-register of *)
  assert (Hgen : ∀ t h,
    (LO_Reg h = LO_Reg m ∨
     isSuperRegister TRI (LO_Reg h) (LO_Reg m) = true ∧ m ∈ t) →
    (∀ c, c ∈ t → LO_Reg c ≠ LO_Reg m →
          isSuperRegister TRI (LO_Reg c) (LO_Reg m) = true) →
    LO_Reg (foldl (absorb TRI) h t) = LO_Reg m).
  { clear h t Hm Hsup. induction t as [|y t IH]; intros h Hh Hsup; simpl.
    - destruct Hh as [?|[_ Hin]]; [done|]. by apply elem_of_nil in Hin.
    - apply IH; [|intros c Hc; apply Hsup; by right].
      simpl. destruct Hh as [Heq|[Hhm Hin]].
      + left. rewrite Heq.
        destruct (isSuperRegister TRI (LO_Reg m) (LO_Reg y)) eqn:E; [|done].
        destruct (decide (LO_Reg y = LO_Reg m)) as [|Hne]; [done|].
        exfalso. pose proof (Hsup y ltac:(by left) Hne) as Hym.
        by rewrite (Hasym _ _ E) in Hym.
      + destruct (decide (LO_Reg y = LO_Reg m)) as [Hy|Hy].
        * left. rewrite Hy, Hhm. done.
        * apply elem_of_cons in Hin as [->|Hin]; [done|].
          right. split; [|done].
          destruct (isSuperRegister TRI (LO_Reg h) (LO_Reg y)); [|done].
          apply Hsup; [by left|done]. }
  apply Hgen.
  - destruct (decide (LO_Reg h = LO_Reg m)) as [|Hne]; [by left|].
    right. split; [apply Hsup; [by left|done]|].
    apply elem_of_cons in Hm as [->|Hm]; done.
  - intros c Hc. apply Hsup. by right.
Qed.

Lemma run_of_cons_eq LI rest :
  run_of (LO_RegNo LI) (LI :: rest) = LI :: run_of (LO_RegNo LI) rest.
Proof. unfold run_of. by rewrite filter_cons_True. Qed.

Lemma run_of_cons_ne k LI rest :
  LO_RegNo LI ≠ k → run_of k (LI :: rest) = run_of k rest.
Proof. intros. unfold run_of. by rewrite filter_cons_False. Qed.

Lemma run_of_above k rest :
  Forall (λ x, k < LO_RegNo x) rest → run_of k rest = [].
Proof.
  induction 1 as [|x rest Hx _ IH]; [done|].
  rewrite run_of_cons_ne by lia. done.
Qed.

(** Each entry of the merged list stands for its run: it is the first
    entry of the run after the others were merged into it. *)
Lemma coalesce_run rest LI e :
  StronglySorted LiveOutReg_le (LI :: rest) →
  e ∈ coalesce TRI LI rest →
  ∃ h t, run_of (LO_RegNo e) (LI :: rest) = h :: t ∧
         e = foldl (absorb TRI) h t.
Proof.
  revert LI. induction rest as [|LII rest IH]; intros LI Hs He; simpl in He.
  - apply list_elem_of_singleton in He as ->.
    exists LI, []. by rewrite run_of_cons_eq.
  - apply StronglySorted_cons in Hs as [Hle Hs].
    pose proof Hle as Hle'. apply Forall_cons in Hle' as [HLII Hrest].
    unfold LiveOutReg_le in HLII.
    case_decide as Hne.
    + apply elem_of_cons in He as [->|He].
      * exists LI, []. split; [|done].
        rewrite run_of_cons_eq. f_equal. apply run_of_above.
        pose proof Hs as [Hle2 _]%StronglySorted_cons.
        constructor; [lia|].
        eapply Forall_impl; [exact Hle2|]. unfold LiveOutReg_le. simpl. lia.
      * destruct (IH _ Hs He) as (h & t & Hrun & ->).
        exists h, t. split; [|done].
        rewrite run_of_cons_ne; [done|].
        assert (Hh : h ∈ run_of (LO_RegNo (foldl (absorb TRI) h t)) (LII :: rest))
          by (rewrite Hrun; by left).
        apply list_elem_of_filter in Hh as [Hk Hh]. rewrite <- Hk.
        apply StronglySorted_cons in Hs as [Hle2 _].
        apply elem_of_cons in Hh as [->|Hh]; [lia|].
        rewrite Forall_forall in Hle2. specialize (Hle2 _ Hh).
        unfold LiveOutReg_le in Hle2. lia.
    + rename Hne into Heq.
      assert (Hs' : StronglySorted LiveOutReg_le (absorb TRI LI LII :: rest)).
      { apply StronglySorted_cons. split; [|by apply StronglySorted_cons in Hs as [_ ?]].
        eapply Forall_impl; [exact Hrest|]. unfold LiveOutReg_le. by simpl. }
      destruct (IH _ Hs' He) as (h & t & Hrun & ->).
      rewrite foldl_absorb_RegNo in *.
      destruct (decide (LO_RegNo h = LO_RegNo LI)) as [Hk|Hk].
      * rewrite Hk in *.
        change (LO_RegNo LI) with (LO_RegNo (absorb TRI LI LII)) in Hrun at 1.
        rewrite run_of_cons_eq in Hrun. injection Hrun as <- <-.
        exists LI, (LII :: run_of (LO_RegNo LI) rest). split; [|done].
        rewrite run_of_cons_eq. f_equal.
        rewrite Heq at 1. rewrite run_of_cons_eq. by rewrite Heq.
      * rewrite run_of_cons_ne in Hrun by (simpl; congruence).
        exists h, t. split; [|done].
        rewrite !run_of_cons_ne by congruence. done.
Qed.

(** The merged list is strictly increasing in the DWARF register
    number. *)
Lemma coalesce_sorted rest LI :
  StronglySorted LiveOutReg_le (LI :: rest) →
  StronglySorted LiveOutReg_lt (coalesce TRI LI rest) ∧
  Forall (λ e, LO_RegNo LI ≤ LO_RegNo e) (coalesce TRI LI rest).
Proof.
  revert LI. induction rest as [|LII rest IH]; intros LI Hs; simpl.
  - split; [repeat constructor|]. constructor; [lia|constructor].
  - apply StronglySorted_cons in Hs as [Hle Hs].
    pose proof Hle as Hle'. apply Forall_cons in Hle' as [HLII Hrest].
    unfold LiveOutReg_le in HLII.
    case_decide as Hne.
    + destruct (IH _ Hs) as [Hss Hge]. split.
      * apply StronglySorted_cons. split; [|done].
        eapply Forall_impl; [exact Hge|]. unfold LiveOutReg_lt. simpl. lia.
      * constructor; [lia|]. eapply Forall_impl; [exact Hge|]. simpl. lia.
    + destruct (IH (absorb TRI LI LII)) as [Hss Hge]; [|by split].
      apply StronglySorted_cons.
      split; [|by apply StronglySorted_cons in Hs as [_ ?]].
      eapply Forall_impl; [exact Hrest|]. unfold LiveOutReg_le. by simpl.
Qed.

(** Every DWARF register number of the vector is kept. *)
Lemma coalesce_covers rest LI x :
  x ∈ LI :: rest → ∃ e, e ∈ coalesce TRI LI rest ∧ LO_RegNo e = LO_RegNo x.
Proof.
  assert (Hgen : ∀ k rest LI,
    (∃ y, y ∈ LI :: rest ∧ LO_RegNo y = k) →
    ∃ e, e ∈ coalesce TRI LI rest ∧ LO_RegNo e = k).
  { clear. intros k rest. induction rest as [|LII rest IH]; intros LI (y & Hy & Hk); simpl.
    - apply list_elem_of_singleton in Hy as ->. exists LI. split; [by left|done].
    - case_decide as Hne.
      + apply elem_of_cons in Hy as [->|Hy].
        * exists LI. split; [by left|done].
        * destruct (IH LII) as (e & He & Hk'); [by exists y|].
          exists e. split; [by right|done].
      + apply IH.
        apply elem_of_cons in Hy as [->|Hy];
          [|apply elem_of_cons in Hy as [->|Hy]].
        * exists (absorb TRI LI LII). split; [by left|done].
        * exists (absorb TRI LI LII). split; [by left|]. simpl. congruence.
        * exists y. split; [by right|done]. }
  intros Hx. apply Hgen. by exists x.
Qed.

End Merge.

(** *** The live-out mask *)

Lemma createLiveOutReg_Valid Reg TRI LO :
  createLiveOutReg Reg TRI = Ret LO → LO_Valid LO = true ∧ LO_Reg LO = Reg.
Proof.
  unfold createLiveOutReg. intros H. inv_outcome. by subst.
Qed.

Lemma mask_bit_word Mask Reg word :
  Mask !! Z.to_nat (Reg / 32) = Some word →
  mask_bit Mask Reg = (Z.land (Z.shiftr word (Reg mod 32)) 1 =? 1).
Proof. unfold mask_bit. by intros ->. Qed.

(** The first loop of [parseRegisterLiveOutMask] appends the records of
    the registers whose bit is set. *)
Lemma collectLiveOuts_spec TRI Mask Regs acc :
  (∀ Reg, Reg ∈ Regs → 0 ≤ Reg / 32 < Z.of_nat (length Mask)) →
  (∀ Reg, Reg ∈ Regs → mask_bit Mask Reg = true →
          ∃ LO, createLiveOutReg Reg TRI = Ret LO) →
  ∃ new,
    collectLiveOuts TRI Mask Regs acc = Ret (acc ++ new) ∧
    (∀ LO, LO ∈ new ↔
           ∃ Reg, Reg ∈ Regs ∧ mask_bit Mask Reg = true ∧
                  createLiveOutReg Reg TRI = Ret LO) ∧
    Forall (λ LO, LO_Valid LO = true) new.
Proof.
  revert acc. induction Regs as [|Reg Regs IH]; intros acc Hin Hdw; simpl.
  - exists []. rewrite app_nil_r. split_and!; [done| |constructor].
    intros LO. split; [by intros ?%elem_of_nil|].
    intros (? & ?%elem_of_nil & _). done.
  - destruct (Hin Reg ltac:(by left)) as [Hlo Hhi].
    destruct (lookup_lt_is_Some_2 Mask (Z.to_nat (Reg / 32)) ltac:(lia)) as [word Hw].
    rewrite Hw. simpl. pose proof (mask_bit_word _ _ _ Hw) as Hbit.
    assert (Hin' : ∀ R, R ∈ Regs → 0 ≤ R / 32 < Z.of_nat (length Mask))
      by (intros; apply Hin; by right).
    assert (Hdw' : ∀ R, R ∈ Regs → mask_bit Mask R = true →
                        ∃ LO, createLiveOutReg R TRI = Ret LO)
      by (intros; apply Hdw; [by right|done]).
    destruct (Z.land _ _ =? 1) eqn:Hb.
    + destruct (Hdw Reg ltac:(by left) Hbit) as [LO0 HLO0].
      rewrite HLO0. simpl.
      destruct (IH (acc ++ [LO0]) Hin' Hdw') as (new & -> & Hmem & Hval).
      exists (LO0 :: new). rewrite <- app_assoc. split_and!; [done| |].
      * intros LO. rewrite elem_of_cons, Hmem. split.
        -- intros [->|(R & HR & ? & ?)]; [exists Reg|exists R];
             (split_and!; [by (left + right)|done..]).
        -- intros (R & [->|HR]%elem_of_cons & Hb' & HR').
           ++ left. congruence.
           ++ right. by exists R.
      * constructor; [|done]. by apply createLiveOutReg_Valid in HLO0 as [? _].
    + destruct (IH acc Hin' Hdw') as (new & -> & Hmem & Hval).
      exists new. split_and!; [done| |done].
      intros LO. rewrite Hmem. split.
      * intros (R & HR & ? & ?). exists R. split_and!; [by right|done..].
      * intros (R & [->|HR]%elem_of_cons & Hb' & HR'); [congruence|by exists R].
Qed.

Section LiveOutMask.

(** [std::sort] returns the elements it is given, in ascending order of
    [operator<]. *)
Variable std_sort : LiveOutVec → LiveOutVec.
Hypothesis std_sort_Permutation : ∀ l, std_sort l ≡ₚ l.
Hypothesis std_sort_sorted : ∀ l, StronglySorted LiveOutReg_le (std_sort l).

(** What [parseRegisterLiveOutMask] returns, on a mask that covers the
    registers of the catalog and sets the bits of registers with a DWARF
    register number only. *)
Lemma parseRegisterLiveOutMask_spec AP Mask :
  getNumRegs (TRI AP) ≤ 32 * Z.of_nat (length Mask) →
  (∀ Reg, 0 ≤ Reg < getNumRegs (TRI AP) → mask_bit Mask Reg = true →
          ∃ RegNo, getDwarfRegNum Reg (TRI AP) = Ret RegNo) →
  ∃ LiveOuts,
    parseRegisterLiveOutMask std_sort AP (Some Mask) = Ret LiveOuts ∧
    StronglySorted LiveOutReg_lt LiveOuts ∧
    (∀ LO, in_mask (TRI AP) Mask LO →
           ∃ e, e ∈ LiveOuts ∧ LO_RegNo e = LO_RegNo LO) ∧
    (∀ e, e ∈ LiveOuts →
       ∃ h t, e = foldl (absorb (TRI AP)) h t ∧ LO_Valid h = true ∧
              ∀ LO, LO ∈ h :: t ↔
                    in_mask (TRI AP) Mask LO ∧ LO_RegNo LO = LO_RegNo e).
Proof.
  intros Hlen Hdw. unfold parseRegisterLiveOutMask. simpl.
  assert (Hcreate : ∀ Reg, 0 ≤ Reg < getNumRegs (TRI AP) →
    mask_bit Mask Reg = true → ∃ LO, createLiveOutReg Reg (TRI AP) = Ret LO).
  { intros Reg HR Hb. destruct (Hdw Reg HR Hb) as [RegNo HRegNo].
    unfold createLiveOutReg. rewrite HRegNo. simpl. eauto. }
  destruct (collectLiveOuts_spec (TRI AP) Mask (seqZ 0 (getNumRegs (TRI AP))) [])
    as (cands & -> & Hmem & Hval).
  { intros Reg HR%elem_of_seqZ. Z.div_mod_to_equations. lia. }
  { intros Reg HR%elem_of_seqZ. apply Hcreate. lia. }
  simpl.
  assert (Hcands : ∀ LO, LO ∈ cands ↔ in_mask (TRI AP) Mask LO).
  { intros LO. rewrite Hmem. unfold in_mask. split.
    - intros (R & HR%elem_of_seqZ & ? & ?). exists R. split_and!; [lia..|done|done].
    - intros (R & HR & ? & ?). exists R. split_and!; [|done..].
      apply elem_of_seqZ. lia. }
  assert (Hval' : Forall (λ LO, LO_Valid LO = true) (std_sort cands)).
  { rewrite Forall_forall in Hval. apply Forall_forall. intros LO HLO.
    apply Hval. by rewrite <- (std_sort_Permutation cands). }
  destruct (merge_outer_coalesce (TRI AP) _ Hval') as (LiveOuts' & -> & Hf).
  simpl. eexists. split; [done|]. rewrite Hf.
  pose proof (std_sort_sorted cands) as Hs.
  assert (Hsorted_mem : ∀ LO, LO ∈ std_sort cands ↔ in_mask (TRI AP) Mask LO).
  { intros LO. by rewrite (std_sort_Permutation cands). }
  destruct (std_sort cands) as [|LI rest] eqn:Hsort.
  - split_and!; [constructor| |by intros ? ?%elem_of_nil].
    intros LO HLO%Hsorted_mem. by apply elem_of_nil in HLO.
  - split_and!.
    + by apply coalesce_sorted.
    + intros LO HLO%Hsorted_mem. by apply coalesce_covers.
    + intros e He. destruct (coalesce_run _ _ _ _ Hs He) as (h & t & Hrun & ->).
      exists h, t. split; [done|]. split.
      * rewrite Forall_forall in Hval'. apply Hval'.
        assert (Hh : h ∈ run_of (LO_RegNo (foldl (absorb (TRI AP)) h t)) (LI :: rest))
          by (rewrite Hrun; by left).
        by apply list_elem_of_filter in Hh as [_ ?].
      * intros LO. rewrite <- Hrun. unfold run_of.
        rewrite list_elem_of_filter, Hsorted_mem. tauto.
Qed.

End LiveOutMask.

Global Instance LiveOutReg_le_trans : Transitive LiveOutReg_le.
Proof. intros a b c. unfold LiveOutReg_le. lia. Qed.

Global Instance LiveOutReg_le_total : Total LiveOutReg_le.
Proof. intros a b. unfold LiveOutReg_le. lia. Qed.

Lemma sample_sort_Permutation l : sample_sort l ≡ₚ l.
Proof. apply merge_sort_Permutation. Qed.

Lemma sample_sort_sorted l : StronglySorted LiveOutReg_le (sample_sort l).
Proof. apply StronglySorted_merge_sort; apply _. Qed.

(** C1, amended. Let [std_sort] sort by the DWARF register number, and
    let the mask cover the registers of the catalog and set bits of
    registers with a DWARF register number only.  Then
    [parseRegisterLiveOutMask] returns a sequence that is strictly
    increasing in [dwarf_reg], hence with at most one entry per DWARF
    register number, and with an entry for every DWARF register number of
    the mask.  The size of each entry is the maximum size over the mask
    registers sharing its DWARF register number; its physical register is
    one of these registers, and when the super-register relation of the
    catalog is asymmetric and one of these registers is a super-register
    of all the others, it is that register. *)
Theorem C1_live_outs_merged
    (std_sort : LiveOutVec → LiveOutVec) (AP : AsmPrinter) (Mask : list Z) :
  (∀ l, std_sort l ≡ₚ l) →
  (∀ l, StronglySorted LiveOutReg_le (std_sort l)) →
  getNumRegs (TRI AP) ≤ 32 * Z.of_nat (length Mask) →
  (∀ Reg, 0 ≤ Reg < getNumRegs (TRI AP) → mask_bit Mask Reg = true →
          ∃ RegNo, getDwarfRegNum Reg (TRI AP) = Ret RegNo) →
  ∃ LiveOuts,
    parseRegisterLiveOutMask std_sort AP (Some Mask) = Ret LiveOuts ∧
    StronglySorted LiveOutReg_lt LiveOuts ∧
    (∀ LO, in_mask (TRI AP) Mask LO →
           ∃ e, e ∈ LiveOuts ∧ LO_RegNo e = LO_RegNo LO) ∧
    (∀ e, e ∈ LiveOuts →
       (∀ LO, in_mask (TRI AP) Mask LO → LO_RegNo LO = LO_RegNo e →
              LO_Size LO ≤ LO_Size e) ∧
       (∃ LO, in_mask (TRI AP) Mask LO ∧ LO_RegNo LO = LO_RegNo e ∧
              LO_Size LO = LO_Size e) ∧
       (∃ LO, in_mask (TRI AP) Mask LO ∧ LO_RegNo LO = LO_RegNo e ∧
              LO_Reg LO = LO_Reg e) ∧
       ((∀ a b, isSuperRegister (TRI AP) a b = true →
                isSuperRegister (TRI AP) b a = false) →
        ∀ LO, in_mask (TRI AP) Mask LO → LO_RegNo LO = LO_RegNo e →
              widest_in_run (TRI AP) Mask (LO_RegNo e) (LO_Reg LO) →
              LO_Reg e = LO_Reg LO)).
Proof.
  intros Hperm Hsorted Hlen Hdw.
  destruct (parseRegisterLiveOutMask_spec std_sort Hperm Hsorted AP Mask Hlen Hdw)
    as (LiveOuts & Hret & Hss & Hcov & Hruns).
  exists LiveOuts. split_and!; [done..|].
  intros e He. destruct (Hruns e He) as (h & t & -> & Hvalid & Hmem).
  set (e := foldl (absorb (TRI AP)) h t) in *.
  destruct (foldl_absorb_Size (TRI AP) h t) as [Hmax (x & Hx & Hxs)].
  destruct (foldl_absorb_Reg_in (TRI AP) h t) as (y & Hy & Hyr).
  split_and!.
  - intros LO HLO Hk. apply Hmax. apply Hmem. done.
  - exists x. apply Hmem in Hx as [? ?]. done.
  - exists y. apply Hmem in Hy as [? ?]. done.
  - intros Hasym LO HLO Hk Hwidest.
    apply (foldl_absorb_Reg_widest (TRI AP) h t LO Hasym).
    + apply Hmem. done.
    + intros c [Hc Hck]%Hmem Hne. by apply Hwidest.
Qed.

(** Two registers of the sample catalog that share a DWARF register
    number, neither a super-register of the other: [AL] and [AH]. *)
Lemma sample_in_mask_AL_AH :
  in_mask sample_TRI [6] (mkLiveOutReg 1 0 1) ∧
  in_mask sample_TRI [6] (mkLiveOutReg 2 0 1).
Proof.
  split; [exists 1|exists 2]; (split; [vm_compute; split; congruence|]);
    split; vm_compute; reflexivity.
Qed.

(** C1 as stated fails.  For the mask of [AL] and [AH], which share the
    DWARF register number 0, the entry returned holds [AL] with size 1;
    [AL] is not a super-register of [AH], which is in the same run, and
    no register of the run is a super-register of the others. *)
Lemma C1_no_super_register_counterexample :
  parseRegisterLiveOutMask sample_sort sample_AP (Some [6]) =
    Ret [{| LO_Reg := 1; LO_RegNo := 0; LO_Size := 1; LO_Valid := true |}] ∧
  in_mask sample_TRI [6] (mkLiveOutReg 2 0 1) ∧
  isSuperRegister sample_TRI 2 1 = false ∧
  ¬ widest_in_run sample_TRI [6] 0 1 ∧
  ¬ widest_in_run sample_TRI [6] 0 2.
Proof.
  destruct sample_in_mask_AL_AH as [HAL HAH].
  split_and!; [vm_compute; reflexivity|done|vm_compute; reflexivity| |].
  - intros H. specialize (H _ HAH eq_refl). simpl in H.
    assert (Hf : isSuperRegister sample_TRI 2 1 = false) by (vm_compute; reflexivity).
    rewrite H in Hf; [discriminate|lia].
  - intros H. specialize (H _ HAL eq_refl). simpl in H.
    assert (Hf : isSuperRegister sample_TRI 1 2 = false) by (vm_compute; reflexivity).
    rewrite H in Hf; [discriminate|lia].
Qed.

(** *** Operand parsing *)

Section Merge_returns.

Local Open Scope nat_scope.
Variable TRI : TargetRegisterInfo.

(** The merge loops end within the bound of the model, whatever the
    vector. *)
Lemma merge_outer_returns n rest done fuel :
  length rest ≤ n → length rest ≤ fuel →
  ∃ rest', merge_outer TRI fuel (done ++ rest) (length done) = Ret (done ++ rest').
Proof.
  revert rest done fuel.
  induction n as [|n IH]; intros rest done fuel Hn Hfuel.
  - destruct rest; [|simpl in Hn; lia].
    exists []. rewrite merge_outer_exit; [done|]. rewrite length_app. simpl. lia.
  - destruct rest as [|LI rest0].
    { exists []. rewrite merge_outer_exit; [done|]. rewrite length_app. simpl. lia. }
    destruct fuel as [|fuel]; [simpl in Hfuel; lia|].
    rewrite merge_outer_step by (rewrite length_app; simpl; lia).
    pose proof (merge_inner_absorb_run TRI rest0 done LI []
                  (length (done ++ LI :: rest0))) as Hin.
    simpl in Hin. rewrite Nat.add_0_r in Hin.
    replace (length done + 1) with (S (length done)) in Hin by lia.
    rewrite Hin by (rewrite length_app; simpl; lia). clear Hin.
    pose proof (absorb_run_length TRI LI rest0) as Hl.
    destruct (absorb_run TRI LI rest0) as [[LI' inv] rem].
    simpl in Hn, Hfuel.
    simpl. destruct rem as [|x rem'].
    + rewrite app_nil_r. simpl in Hl.
      destruct (IH inv (done ++ [LI']) fuel) as (rest' & Hr); [lia|lia|].
      rewrite length_app in Hr. simpl in Hr.
      replace (S (length done)) with (length done + 1) by lia.
      rewrite <- app_assoc in Hr. simpl in Hr. rewrite Hr.
      exists (LI' :: rest'). by rewrite <- app_assoc.
    + destruct (IH (x :: rem') (done ++ LI' :: inv) fuel) as (rest' & Hr);
        [simpl in *; lia|simpl in *; lia|].
      rewrite length_app in Hr. simpl in Hr.
      replace (S (length done + 0 + length inv)) with (length done + S (length inv)) by lia.
      rewrite <- app_assoc in Hr. simpl in Hr. rewrite Hr.
      exists (LI' :: inv ++ rest'). by rewrite <- app_assoc.
Qed.

End Merge_returns.

Lemma bind_not_OutOfFuel {A B} (m : outcome A) (f : A → outcome B) :
  m ≠ OutOfFuel → (∀ a, f a ≠ OutOfFuel) → m ≫= f ≠ OutOfFuel.
Proof. intros Hm Hf. destruct m; simpl; [apply Hf|done..]. Qed.

Lemma assert_not_OutOfFuel b : assert b ≠ OutOfFuel.
Proof. by destruct b. Qed.

Lemma defined_not_OutOfFuel {A} (o : option A) : defined o ≠ OutOfFuel.
Proof. by destruct o. Qed.

Lemma getImm_not_OutOfFuel MO : getImm MO ≠ OutOfFuel.
Proof. by destruct MO. Qed.

Lemma getReg_not_OutOfFuel MO : getReg MO ≠ OutOfFuel.
Proof. by destruct MO. Qed.

Lemma getDwarfRegNum_not_OutOfFuel Reg TRI : getDwarfRegNum Reg TRI ≠ OutOfFuel.
Proof.
  unfold getDwarfRegNum.
  apply bind_not_OutOfFuel; [apply assert_not_OutOfFuel|done].
Qed.

Lemma collectLiveOuts_not_OutOfFuel TRI Mask Regs acc :
  collectLiveOuts TRI Mask Regs acc ≠ OutOfFuel.
Proof.
  revert acc. induction Regs as [|Reg Regs IH]; intros acc; simpl; [done|].
  destruct (Mask !! _); simpl; [|done].
  destruct (_ =? 1); [|apply IH].
  unfold createLiveOutReg, getDwarfRegNum, assert.
  destruct (0 <=? _); simpl; [apply IH|done].
Qed.

Section Parse.

Variable std_sort : LiveOutVec → LiveOutVec.
Variable OpType_of_imm : Z → option OpType.

Lemma parseRegisterLiveOutMask_not_OutOfFuel AP Mask :
  parseRegisterLiveOutMask std_sort AP Mask ≠ OutOfFuel.
Proof.
  unfold parseRegisterLiveOutMask. destruct Mask as [Mask|]; simpl; [|done].
  pose proof (collectLiveOuts_not_OutOfFuel (TRI AP) Mask
                (seqZ 0 (getNumRegs (TRI AP))) []) as Hc.
  destruct (collectLiveOuts _ _ _ _) as [cands| | |]; simpl; try done.
  destruct (merge_outer_returns (TRI AP) (length (std_sort cands)) (std_sort cands)
              [] (length (std_sort cands))) as (rest' & Hr); [done..|].
  simpl in Hr. by rewrite Hr.
Qed.

(** One call of [parseOperand] that returns: the operand at [MOI] leads a
    logical operand that lies within the instruction, the iterator
    returned is behind it, and at most one location, of a parsed kind, is
    appended. *)
Lemma parseOperand_Ret AP MI MOI MOE Locs LiveOuts MOI' Locs' LiveOuts' :
  parseOperand std_sort OpType_of_imm AP MI MOI MOE Locs LiveOuts
    = Ret (MOI', Locs', LiveOuts') →
  ∃ MO, MI !! MOI = Some MO ∧
        MOI' = (MOI + operands_spanned OpType_of_imm MO)%nat ∧
        (MOI' ≤ length MI)%nat ∧
        (∀ Imm, MO = MO_Immediate Imm → is_Some (OpType_of_imm Imm)) ∧
        (Locs' = Locs ∨ ∃ Loc, Locs' = Locs ++ [Loc] ∧ parsed_kind Loc).
Proof.
  unfold parseOperand, deref. intros H.
  destruct (MI !! MOI) as [MO|] eqn:HMO; simpl in H; [|discriminate].
  exists MO. split; [done|].
  pose proof (lookup_lt_Some _ _ _ HMO) as Hlt.
  unfold parsed_kind.
  destruct MO as [Imm|Reg d i ec sr|Mask|]; simpl in H; simpl operands_spanned.
  - destruct (OpType_of_imm Imm) as [[| |]|] eqn:HOp; [..|discriminate];
      inv_outcome; simplify_eq;
      repeat match goal with
      | Hl : _ !! _ = Some _ |- _ => apply lookup_lt_Some in Hl
      end;
      (split_and!; [lia|lia|intros ? [= <-]; rewrite HOp; by eexists|]);
      right; eexists; (split; [done|]); simpl; tauto.
  - destruct i; simpl in H.
    + injection H as <- <- <-. split_and!; [lia|lia|done|by left].
    + inv_outcome. simplify_eq.
      split_and!; [lia|lia|done|]. right. eexists. split; [done|]. simpl. tauto.
  - inv_outcome. simplify_eq. split_and!; [lia|lia|done|by left].
  - injection H as <- <- <-. split_and!; [lia|lia|done|by left].
Qed.

Lemma parseOperand_not_OutOfFuel AP MI MOI MOE Locs LiveOuts :
  parseOperand std_sort OpType_of_imm AP MI MOI MOE Locs LiveOuts ≠ OutOfFuel.
Proof.
  unfold parseOperand, deref.
  apply bind_not_OutOfFuel; [apply defined_not_OutOfFuel|]. intros MO.
  destruct (isImm MO).
  { apply bind_not_OutOfFuel; [apply getImm_not_OutOfFuel|]. intros Imm.
    destruct (OpType_of_imm Imm) as [[| |]|]; [..|done];
      repeat first
        [ done
        | apply assert_not_OutOfFuel
        | apply defined_not_OutOfFuel
        | apply getImm_not_OutOfFuel
        | apply getReg_not_OutOfFuel
        | apply getDwarfRegNum_not_OutOfFuel
        | apply bind_not_OutOfFuel; [|intros ?] ]. }
  destruct (isReg MO).
  { destruct (isImplicit MO); [done|].
    repeat first
      [ done
      | apply assert_not_OutOfFuel
      | apply getReg_not_OutOfFuel
      | apply getDwarfRegNum_not_OutOfFuel
      | apply bind_not_OutOfFuel; [|intros ?] ]. }
  destruct (isRegLiveOut MO); [|done].
  apply bind_not_OutOfFuel; [apply parseRegisterLiveOutMask_not_OutOfFuel|done].
Qed.

Lemma parseRegisterLiveOutMask_returns AP Mask :
  getNumRegs (TRI AP) ≤ 32 * Z.of_nat (length Mask) →
  (∀ Reg, 0 ≤ Reg < getNumRegs (TRI AP) → mask_bit Mask Reg = true →
          has_DwarfRegNum (TRI AP) Reg) →
  ∃ LiveOuts, parseRegisterLiveOutMask std_sort AP (Some Mask) = Ret LiveOuts.
Proof.
  intros Hlen Hdw. unfold parseRegisterLiveOutMask. simpl.
  destruct (collectLiveOuts_spec (TRI AP) Mask (seqZ 0 (getNumRegs (TRI AP))) [])
    as (cands & -> & _).
  { intros Reg HR%elem_of_seqZ. Z.div_mod_to_equations. lia. }
  { intros Reg HR%elem_of_seqZ Hb. destruct (Hdw Reg ltac:(lia) Hb) as [RegNo HRegNo].
    unfold createLiveOutReg. rewrite HRegNo. simpl. eauto. }
  simpl.
  destruct (merge_outer_returns (TRI AP) (length (std_sort cands)) (std_sort cands)
              [] (length (std_sort cands))) as (rest' & Hr); [done..|].
  simpl in Hr. rewrite Hr. simpl. eauto.
Qed.

(** On a well-formed logical operand [parseOperand] returns. *)
Lemma parseOperand_returns AP MI MOI MOE Locs LiveOuts :
  well_formed_operand OpType_of_imm AP MI MOI →
  ∃ MOI' Locs' LiveOuts',
    parseOperand std_sort OpType_of_imm AP MI MOI MOE Locs LiveOuts
      = Ret (MOI', Locs', LiveOuts').
Proof.
  unfold parseOperand, deref.
  intros [Tag Reg d i ec sr Imm H0 HOp Hptr H1 H2 [RegNo Hd]
         |Tag Size Reg d i ec sr Imm H0 HOp H1 HSize H2 H3 [RegNo Hd]
         |Tag Imm H0 HOp H1
         |Reg d ec sr H0
         |Reg d ec H0 Hphys [RegNo Hd]
         |Mask H0 Hlen Hdw
         |H0]; rewrite H0; simpl.
  - rewrite HOp, assert_true by (by apply Z.eqb_eq). simpl.
    rewrite H1. simpl. rewrite H2. simpl. rewrite Hd. simpl. eauto.
  - rewrite HOp, H1. simpl. rewrite assert_true by (by apply Z.ltb_lt). simpl.
    rewrite H2. simpl. rewrite H3. simpl. rewrite Hd. simpl. eauto.
  - rewrite HOp, H1. simpl. eauto.
  - eauto.
  - rewrite Hphys. simpl. rewrite Hd. simpl. eauto.
  - destruct (parseRegisterLiveOutMask_returns AP Mask Hlen Hdw) as [LOs ->].
    simpl. eauto.
  - eauto.
Qed.

Lemma parseOperands_exit fuel AP MI MOE Locs LiveOuts :
  parseOperands std_sort OpType_of_imm fuel AP MI MOE MOE Locs LiveOuts
    = Ret (Locs, LiveOuts).
Proof. destruct fuel; simpl; by rewrite decide_True. Qed.

Lemma parseOperands_step fuel AP MI MOI MOE Locs LiveOuts :
  MOI ≠ MOE →
  parseOperands std_sort OpType_of_imm (S fuel) AP MI MOI MOE Locs LiveOuts =
    '(MOI, Locs, LiveOuts) ←
       parseOperand std_sort OpType_of_imm AP MI MOI MOE Locs LiveOuts;
    parseOperands std_sort OpType_of_imm fuel AP MI MOI MOE Locs LiveOuts.
Proof. intros. simpl. by rewrite decide_False. Qed.

Lemma operands_spanned_pos MO : (1 ≤ operands_spanned OpType_of_imm MO)%nat.
Proof.
  destruct MO as [Imm| | |]; simpl; [|lia..].
  destruct (OpType_of_imm Imm) as [[| |]|]; lia.
Qed.

(** The loop over the operands ends within [length MI - MOI + 1] rounds,
    and any bound beyond that gives the same outcome. *)
Lemma parseOperands_fuel AP MI MOE fuel fuel' MOI Locs LiveOuts :
  (length MI - MOI < fuel)%nat → (length MI - MOI < fuel')%nat →
  parseOperands std_sort OpType_of_imm fuel AP MI MOI MOE Locs LiveOuts ≠ OutOfFuel ∧
  parseOperands std_sort OpType_of_imm fuel' AP MI MOI MOE Locs LiveOuts =
  parseOperands std_sort OpType_of_imm fuel AP MI MOI MOE Locs LiveOuts.
Proof.
  revert fuel' MOI Locs LiveOuts.
  induction fuel as [|fuel IH]; intros fuel' MOI Locs LiveOuts Hf Hf'; [lia|].
  destruct fuel' as [|fuel']; [lia|].
  destruct (decide (MOI = MOE)) as [->|Hne].
  { rewrite !parseOperands_exit. done. }
  rewrite !parseOperands_step by done.
  pose proof (parseOperand_not_OutOfFuel AP MI MOI MOE Locs LiveOuts) as Hno.
  destruct (parseOperand _ _ _ _ _ _ _ _) as [[[MOI' Locs'] LiveOuts']| | |] eqn:Hp;
    simpl; try done.
  apply parseOperand_Ret in Hp as (MO & HMO & -> & Hle & _).
  pose proof (operands_spanned_pos MO).
  apply IH; lia.
Qed.

(** What the loop appends is of the parsed kinds. *)
Lemma parseOperands_Ret fuel AP MI MOI MOE Locs LiveOuts Locs' LiveOuts' :
  parseOperands std_sort OpType_of_imm fuel AP MI MOI MOE Locs LiveOuts
    = Ret (Locs', LiveOuts') →
  ∃ new, Locs' = Locs ++ new ∧ Forall parsed_kind new.
Proof.
  revert MOI Locs LiveOuts.
  induction fuel as [|fuel IH]; intros MOI Locs LiveOuts; simpl;
    (case_decide; [intros [= <- <-]; exists []; by rewrite app_nil_r|]);
    [done|].
  intros Hret. inv_outcome.
  match goal with Hp : parseOperand _ _ _ _ _ _ _ _ = Ret _ |- _ =>
    apply parseOperand_Ret in Hp as (MO & _ & _ & _ & _ & Hl) end.
  match goal with Hp : parseOperands _ _ _ _ _ _ _ _ _ = Ret _ |- _ =>
    apply IH in Hp as (new & -> & Hnew) end.
  destruct Hl as [->|(Loc & -> & HLoc)].
  - by exists new.
  - exists (Loc :: new). rewrite <- app_assoc. split; [done|]. by constructor.
Qed.

(** On a well-formed range the loop returns. *)
Lemma parseOperands_returns AP MI MOI MOE :
  well_formed_range OpType_of_imm AP MI MOI MOE →
  ∀ fuel Locs LiveOuts, (length MI - MOI < fuel)%nat →
  ∃ Locs' LiveOuts',
    parseOperands std_sort OpType_of_imm fuel AP MI MOI MOE Locs LiveOuts
      = Ret (Locs', LiveOuts').
Proof.
  induction 1 as [MOE|MOI MOE MO Hne Hwf HMO _ IH]; intros fuel Locs LiveOuts Hf.
  - rewrite parseOperands_exit. eauto.
  - destruct fuel as [|fuel]; [lia|].
    rewrite parseOperands_step by done.
    destruct (parseOperand_returns AP MI MOI MOE Locs LiveOuts Hwf)
      as (MOI' & Locs' & LiveOuts' & Hp).
    rewrite Hp. simpl.
    apply parseOperand_Ret in Hp as (MO' & HMO' & -> & Hle & _).
    assert (MO' = MO) as -> by congruence.
    pose proof (operands_spanned_pos MO).
    apply IH. lia.
Qed.

Lemma hasDef_not_OutOfFuel MI : hasDef MI ≠ OutOfFuel.
Proof.
  unfold hasDef. apply bind_not_OutOfFuel; [apply defined_not_OutOfFuel|done].
Qed.

Lemma moveLargeConstants_not_OutOfFuel Locs CP :
  moveLargeConstants Locs CP ≠ OutOfFuel.
Proof.
  revert CP. induction Locs as [|Loc Locs IH]; intros CP; simpl; [done|].
  destruct (_ && _).
  - apply bind_not_OutOfFuel; [apply assert_not_OutOfFuel|]. intros _.
    destruct (MapVector_insert _ _) as [CP1 Result].
    apply bind_not_OutOfFuel; [apply IH|]. by intros [? ?].
  - apply bind_not_OutOfFuel; [apply IH|]. by intros [? ?].
Qed.

Lemma recordStackMapOpers_not_OutOfFuel AP MI ID MOI MOE recordResult this OS :
  recordStackMapOpers std_sort OpType_of_imm AP MI ID MOI MOE recordResult this OS
    ≠ OutOfFuel.
Proof.
  unfold recordStackMapOpers. simpl.
  apply bind_not_OutOfFuel.
  { destruct recordResult; [|done].
    apply bind_not_OutOfFuel; [apply hasDef_not_OutOfFuel|]. intros d.
    apply bind_not_OutOfFuel; [apply assert_not_OutOfFuel|]. intros _.
    apply bind_not_OutOfFuel; [apply parseOperand_not_OutOfFuel|].
    by intros [[? ?] ?]. }
  intros [Locs LiveOuts].
  apply bind_not_OutOfFuel.
  { apply (parseOperands_fuel AP MI MOE (S (length MI)) (S (length MI))); lia. }
  intros [Locs' LiveOuts'].
  apply bind_not_OutOfFuel; [apply moveLargeConstants_not_OutOfFuel|].
  by intros [? ?].
Qed.

(** What a call of [recordStackMapOpers] that returns has done. *)
Lemma recordStackMapOpers_Ret AP MI ID MOI MOE recordResult this OS this' OS' :
  recordStackMapOpers std_sort OpType_of_imm AP MI ID MOI MOE recordResult this OS
    = Ret (this', OS') →
  ∃ Locs0 Locs LiveOuts,
    Forall parsed_kind Locs0 ∧
    moveLargeConstants Locs0 (ConstPool this) = Ret (Locs, ConstPool this') ∧
    CSInfos this' = CSInfos this ++
      [{| CSOffsetExpr :=
            MCBinaryExpr_Sub (MCSymbolRefExpr (TempSymbol (NextTempSymbol OS)))
                             (MCSymbolRefExpr (CurrentFnSymForSize AP));
          ID := to_uint64 ID; Locations := Locs; LiveOuts := LiveOuts |}] ∧
    FnStackSize this' =
      MapVector_assign (CurrentFnSym AP)
        (if hasVarSizedObjects AP || needsStackRealignment AP
         then UINT64_MAX else getStackSize AP) (FnStackSize this) ∧
    OS' = EmitLabel (TempSymbol (NextTempSymbol OS)) (snd (createTempSymbol OS)).
Proof.
  unfold recordStackMapOpers, createTempSymbol. cbv beta iota zeta.
  intros H. inv_outcome. simplify_eq.
  match goal with Hp : parseOperands _ _ _ _ _ _ _ _ _ = Ret _ |- _ =>
    apply parseOperands_Ret in Hp as (new & -> & Hnew) end.
  match goal with Hm : moveLargeConstants ?L _ = Ret _ |- _ =>
    exists L end.
  do 2 eexists. split_and!; [|done..].
  apply Forall_app. split; [|done].
  destruct recordResult; inv_outcome; simplify_eq; [|constructor].
  match goal with Hp : parseOperand _ _ _ _ _ _ _ _ = Ret _ |- _ =>
    apply parseOperand_Ret in Hp as (MO & _ & _ & _ & _ & Hl) end.
  destruct Hl as [->|(Loc & -> & HLoc)]; [constructor|].
  by apply Forall_singleton.
Qed.

(** C10. A call of [parseOperand] that returns was given a position
    that is not the end, and returns a position strictly beyond it and not
    beyond the end: 1 further for a register, a register-live-out-mask (or
    any other non-immediate) operand, 2 for [ConstantOp], 3 for
    [DirectMemRefOp] and 4 for [IndirectMemRefOp]; on a well-formed logical
    operand the call does return.  Hence the operand loop of
    [recordStackMapOpers] ends within [length MI - MOI + 1] rounds, with
    the same outcome for every larger bound and with a result on a
    well-formed operand range, and [recordStackMapOpers] never exhausts
    the bound it gives the loop. *)
Theorem C10_parseOperand_advances (AP : AsmPrinter) (MI : MachineInstr) :
  (∀ MOI MOE Locs LiveOuts MOI' Locs' LiveOuts',
     parseOperand std_sort OpType_of_imm AP MI MOI MOE Locs LiveOuts
       = Ret (MOI', Locs', LiveOuts') →
     ∃ MO, MI !! MOI = Some MO ∧
           MOI' = (MOI + operands_spanned OpType_of_imm MO)%nat ∧
           (MOI < MOI' ≤ length MI)%nat) ∧
  (∀ MOI MOE Locs LiveOuts,
     well_formed_operand OpType_of_imm AP MI MOI →
     ∃ MOI' Locs' LiveOuts',
       parseOperand std_sort OpType_of_imm AP MI MOI MOE Locs LiveOuts
         = Ret (MOI', Locs', LiveOuts')) ∧
  (∀ MO,
     match MO with
     | MO_Immediate Imm =>
         (OpType_of_imm Imm = Some ConstantOp →
          operands_spanned OpType_of_imm MO = 2%nat) ∧
         (OpType_of_imm Imm = Some DirectMemRefOp →
          operands_spanned OpType_of_imm MO = 3%nat) ∧
         (OpType_of_imm Imm = Some IndirectMemRefOp →
          operands_spanned OpType_of_imm MO = 4%nat)
     | _ => operands_spanned OpType_of_imm MO = 1%nat
     end) ∧
  (∀ fuel MOI MOE Locs LiveOuts,
     (length MI - MOI < fuel)%nat →
     parseOperands std_sort OpType_of_imm fuel AP MI MOI MOE Locs LiveOuts
       ≠ OutOfFuel ∧
     ∀ fuel', (length MI - MOI < fuel')%nat →
       parseOperands std_sort OpType_of_imm fuel' AP MI MOI MOE Locs LiveOuts =
       parseOperands std_sort OpType_of_imm fuel AP MI MOI MOE Locs LiveOuts) ∧
  (∀ fuel MOI MOE Locs LiveOuts,
     well_formed_range OpType_of_imm AP MI MOI MOE →
     (length MI - MOI < fuel)%nat →
     ∃ Locs' LiveOuts',
       parseOperands std_sort OpType_of_imm fuel AP MI MOI MOE Locs LiveOuts
         = Ret (Locs', LiveOuts')) ∧
  (∀ ID MOI MOE recordResult this OS,
     recordStackMapOpers std_sort OpType_of_imm AP MI ID MOI MOE recordResult
       this OS ≠ OutOfFuel).
Proof.
  split_and!.
  - intros MOI MOE Locs LiveOuts MOI' Locs' LiveOuts' Hp.
    apply parseOperand_Ret in Hp as (MO & HMO & -> & Hle & _).
    exists MO. pose proof (operands_spanned_pos MO). split_and!; [done..|lia|lia].
  - intros. by apply parseOperand_returns.
  - intros [Imm| | |]; simpl; [|done..].
    split_and!; by intros ->.
  - intros fuel MOI MOE Locs LiveOuts Hf. split.
    + by apply (parseOperands_fuel AP MI MOE fuel fuel).
    + intros fuel' Hf'. by apply parseOperands_fuel.
  - intros fuel MOI MOE Locs LiveOuts Hwf Hf. by apply parseOperands_returns.
  - intros. apply recordStackMapOpers_not_OutOfFuel.
Qed.

(** *** The constant pool of a writer *)

Lemma serializeToStackMapSection_Ret this OS this' OS' :
  serializeToStackMapSection this OS = Ret (this', OS') →
  this' = this ∨
  this' = {| CSInfos := []; ConstPool := []; FnStackSize := FnStackSize this |}.
Proof.
  unfold serializeToStackMapSection. intros H. inv_outcome.
  destruct (bool_decide (CSInfos this = [])); injection H as <- <-; eauto.
Qed.

(** Every writer that can be reached has a well-formed pool. *)
Lemma reachable_pool_wf this :
  reachable std_sort OpType_of_imm this → pool_wf (ConstPool this).
Proof.
  induction 1 as [|AP MI ID MOI MOE rr this OS this' OS' _ IH Hrec
                  |this OS this' OS' _ IH Hser].
  - apply pool_wf_nil.
  - apply recordStackMapOpers_Ret in Hrec as (Locs0 & Locs & LOs & _ & Hm & _).
    by apply (moveLargeConstants_spec _ _ _ _ IH) in Hm as [? _].
  - apply serializeToStackMapSection_Ret in Hser as [->| ->]; [done|].
    apply pool_wf_nil.
Qed.

(** C2. When [recordStackMapOpers] returns on a writer that can be
    reached, the call site it has appended comes from the locations
    parsed, [Locs0], by the promotion loop, and in it every location of
    kind Constant has an offset in [INT32_MIN, INT32_MAX], and every
    location of kind ConstantIndex stands at the place of a parsed
    Constant whose value does not fit 32 bits, has an offset in
    [0, constant_pool.len), and the pool holds at that index the 64-bit
    value of that constant. *)
Theorem C2_constants_after_recording
    AP MI ID MOI MOE recordResult this OS this' OS' :
  reachable std_sort OpType_of_imm this →
  recordStackMapOpers std_sort OpType_of_imm AP MI ID MOI MOE recordResult this OS
    = Ret (this', OS') →
  ∃ CSI Locs0,
    CSInfos this' = CSInfos this ++ [CSI] ∧
    Forall parsed_kind Locs0 ∧
    moveLargeConstants Locs0 (ConstPool this) = Ret (Locations CSI, ConstPool this') ∧
    ∀ (i : nat) Loc, Locations CSI !! i = Some Loc →
      (LocType Loc = Constant → INT32_MIN ≤ Offset Loc ≤ INT32_MAX) ∧
      (LocType Loc = ConstantIndex →
         ∃ Loc0,
           Locs0 !! i = Some Loc0 ∧ LocType Loc0 = Constant ∧
           isInt32 (Offset Loc0) = false ∧
           0 ≤ Offset Loc < Z.of_nat (length (ConstPool this')) ∧
           snd <$> ConstPool this' !! Z.to_nat (Offset Loc)
             = Some (to_uint64 (Offset Loc0)) ∧
           (is_int64 (Offset Loc0) →
            to_int64 <$> (snd <$> ConstPool this' !! Z.to_nat (Offset Loc))
              = Some (Offset Loc0))).
Proof.
  intros Hreach Hrec. pose proof (reachable_pool_wf _ Hreach) as Hwf.
  apply recordStackMapOpers_Ret in Hrec
    as (Locs0 & Locs & LOs & Hkinds & Hm & HCS & _).
  eexists. exists Locs0. split_and!; [exact HCS|done|done|]. simpl.
  destruct (moveLargeConstants_spec _ _ _ _ Hwf Hm) as (Hwf' & _ & Hall).
  intros i Loc Hi.
  destruct (Forall2_lookup_r _ _ _ _ _ Hall Hi) as (Loc0 & Hi0 & Hprom).
  rewrite Forall_lookup in Hkinds. specialize (Hkinds _ _ Hi0).
  destruct Hprom as [([HC Hlarge] & idx & Hfind & ->)|[Hn ->]]; simpl.
  - split; [done|]. intros _. exists Loc0.
    pose proof (pool_wf_lookup _ _ _ Hwf' Hfind) as Hlk.
    pose proof (lookup_lt_Some _ _ _ Hlk).
    rewrite Nat2Z.id, Hlk. simpl.
    split_and!; [done..|lia|lia|done|].
    intros H64. by rewrite to_int64_to_uint64.
  - split.
    + intros HC. apply isInt32_spec.
      destruct (isInt32 (Offset Loc0)) eqn:E; [done|]. by destruct Hn.
    + intros HCI. unfold parsed_kind in Hkinds. rewrite HCI in Hkinds.
      by destruct Hkinds as [|[|[|]]].
Qed.

(** *** Interning across call sites *)

Lemma moveLargeConstants_sites_spec sites CP sites' CP' :
  pool_wf CP →
  moveLargeConstants_sites sites CP = Ret (sites', CP') →
  pool_wf CP' ∧ (∃ ext, CP' = CP ++ ext) ∧
  Forall2 (Forall2 (promoted CP')) sites sites'.
Proof.
  revert CP sites' CP'.
  induction sites as [|Locs sites IH]; intros CP sites' CP' Hwf; simpl.
  - intros [= <- <-]. split_and!; [done| |constructor].
    exists []. by rewrite app_nil_r.
  - intros Hret. inv_outcome. simplify_eq.
    match goal with Hm : moveLargeConstants _ _ = Ret _ |- _ =>
      destruct (moveLargeConstants_spec _ _ _ _ Hwf Hm)
        as (Hwf1 & (ext1 & -> & _) & Hall1) end.
    match goal with Hm : moveLargeConstants_sites _ _ = Ret _ |- _ =>
      destruct (IH _ _ _ Hwf1 Hm) as (Hwf' & (ext2 & ->) & Hall2) end.
    split_and!; [done| |].
    + exists (ext1 ++ ext2). by rewrite app_assoc.
    + constructor; [|done].
      eapply Forall2_impl; [exact Hall1|]. intros ? ?. apply promoted_app.
Qed.

(** [recordStackMapOpers] is the parse of the operands, then the
    promotion loop on the locations parsed and the update of the writer. *)
Lemma recordStackMapOpers_parsedOperands AP MI ID MOI MOE recordResult this OS :
  recordStackMapOpers std_sort OpType_of_imm AP MI ID MOI MOE recordResult this OS =
  '(Locs0, LiveOuts0) ←
    parsedOperands std_sort OpType_of_imm AP MI MOI MOE recordResult;
  '(Locs, CP) ← moveLargeConstants Locs0 (ConstPool this);
  Ret ({| CSInfos := CSInfos this ++
            [{| CSOffsetExpr :=
                  MCBinaryExpr_Sub
                    (MCSymbolRefExpr (TempSymbol (NextTempSymbol OS)))
                    (MCSymbolRefExpr (CurrentFnSymForSize AP));
                ID := to_uint64 ID; Locations := Locs; LiveOuts := LiveOuts0 |}];
          ConstPool := CP;
          FnStackSize :=
            MapVector_assign (CurrentFnSym AP)
              (if hasVarSizedObjects AP || needsStackRealignment AP
               then UINT64_MAX else getStackSize AP) (FnStackSize this) |},
       EmitLabel (TempSymbol (NextTempSymbol OS)) (snd (createTempSymbol OS))).
Proof.
  unfold recordStackMapOpers, parsedOperands, createTempSymbol.
  cbv beta iota zeta.
  destruct recordResult; cbn [mbind outcome_bind].
  - destruct (hasDef MI) as [[|]| | |]; try reflexivity.
    cbn [assert mbind outcome_bind].
    destruct (parseOperand _ _ _ _ _ _ _ _) as [[[? ?] ?]| | |]; reflexivity.
  - reflexivity.
Qed.


(** The call sites [recordCalls] appends, call by call: the locations of
    each are those its call has parsed, taken through the promotion loop
    on the pool the calls before have left. *)
Lemma recordCalls_parsed calls : ∀ this OS this' OS',
  recordCalls std_sort OpType_of_imm calls this OS = Ret (this', OS') →
  ∃ sites new,
    CSInfos this' = CSInfos this ++ new ∧
    Forall2 (λ c Locs0, ∃ LiveOuts0,
               call_parsed std_sort OpType_of_imm c = Ret (Locs0, LiveOuts0))
            calls sites ∧
    moveLargeConstants_sites sites (ConstPool this)
      = Ret (Locations <$> new, ConstPool this').
Proof.
  induction calls as [|c calls IH]; intros this OS this' OS'; simpl.
  - intros [= <- <-]. exists [], []. rewrite app_nil_r.
    split_and!; [done|constructor|done].
  - intros Hret. rewrite recordStackMapOpers_parsedOperands in Hret.
    inv_outcome. simplify_eq.
    apply IH in Hret as (sites & new & HCS' & Hps & Hms).
    cbn [CSInfos ConstPool] in *.
    match goal with Hp : parsedOperands _ _ _ _ _ _ _ = Ret (?L, ?LO) |- _ =>
      exists (L :: sites); eexists (_ :: new); split_and! end.
    + rewrite HCS', <- app_assoc. done.
    + constructor; [|done]. eexists. eassumption.
    + cbn [moveLargeConstants_sites fmap list_fmap Locations].
      match goal with Hm : moveLargeConstants _ _ = Ret _ |- _ => rewrite Hm end.
      cbn [mbind outcome_bind]. rewrite Hms. done.
Qed.

Lemma pool_entries_for_unique v CP i :
  NoDup (fst <$> CP) → MapVector_find (to_uint64 v) CP = Some i →
  length (pool_entries_for v CP) = 1%nat.
Proof.
  unfold pool_entries_for. revert i.
  induction CP as [|[k w] CP IH]; intros i Hnd; simpl; [done|].
  rewrite fmap_cons in Hnd. apply NoDup_cons in Hnd as [Hk Hnd].
  case_decide as Hkv.
  - intros _. subst k. rewrite filter_cons_True by done. simpl. f_equal.
    apply length_zero_iff_nil. apply filter_none.
    apply Forall_forall. intros [k' w'] Hin. simpl. intros ->.
    apply Hk. apply list_elem_of_fmap. by exists (to_uint64 v, w').
  - destruct (MapVector_find _ CP) as [j|] eqn:Hf; simpl; [|done].
    intros _. rewrite filter_cons_False by done. by apply (IH j).
Qed.

(** A pool of distinct keys has at most one entry for a value. *)
Lemma pool_entries_for_le v CP :
  NoDup (fst <$> CP) → (length (pool_entries_for v CP) ≤ 1)%nat.
Proof.
  intros Hnd.
  destruct (MapVector_find (to_uint64 v) CP) as [i|] eqn:Hf.
  - by rewrite (pool_entries_for_unique _ _ _ Hnd Hf).
  - apply MapVector_find_None in Hf.
    replace (pool_entries_for v CP) with (@nil (Z * Z)); [simpl; lia|].
    symmetry. apply filter_none.
    apply Forall_forall. intros [k w] Hin. simpl. intros ->.
    apply Hf. apply list_elem_of_fmap. by exists (to_uint64 v, w).
Qed.

(** C9. Over any sequence of calls of [recordStackMapOpers] on a writer
    that can be reached, each call appends one call site, with as many
    locations as the call has parsed, and there is one index [idx] for
    the 64-bit value [v] outside the signed 32-bit range: wherever a call
    has parsed a constant [v], at location [j], the call site of that
    call has at [j] the ConstantIndex location with the offset [idx],
    whatever the number of such promotions; the pool then holds [v] at
    [idx] and has exactly one entry for [v], where it had none or that
    very entry before.  The pool never has more than one entry for [v]. *)
Theorem C9_interning_idempotent calls this OS this' OS' (v : Z) :
  reachable std_sort OpType_of_imm this →
  isInt32 v = false →
  recordCalls std_sort OpType_of_imm calls this OS = Ret (this', OS') →
  ∃ new (idx : nat),
    CSInfos this' = CSInfos this ++ new ∧
    length new = length calls ∧
    (length (pool_entries_for v (ConstPool this')) ≤ 1)%nat ∧
    ∀ s c, calls !! s = Some c →
      ∃ Locs0 LiveOuts0 CSI,
        call_parsed std_sort OpType_of_imm c = Ret (Locs0, LiveOuts0) ∧
        new !! s = Some CSI ∧
        length (Locations CSI) = length Locs0 ∧
        ∀ j Loc0,
          Locs0 !! j = Some Loc0 → LocType Loc0 = Constant → Offset Loc0 = v →
          Locations CSI !! j =
            Some {| LocType := ConstantIndex; Size := Size Loc0; Reg := Reg Loc0;
                    Offset := Z.of_nat idx |} ∧
          ConstPool this' !! idx = Some (to_uint64 v, to_uint64 v) ∧
          length (pool_entries_for v (ConstPool this')) = 1%nat ∧
          (length (pool_entries_for v (ConstPool this)) = 0%nat ∨
           ConstPool this !! idx = Some (to_uint64 v, to_uint64 v) ∧
           length (pool_entries_for v (ConstPool this)) = 1%nat).
Proof.
  intros Hreach Hv Hret. pose proof (reachable_pool_wf _ Hreach) as Hwf.
  apply recordCalls_parsed in Hret as (sites & new & HCS & Hps & Hms).
  destruct (moveLargeConstants_sites_spec _ _ _ _ Hwf Hms)
    as (Hwf' & (ext & Hext) & Hall).
  exists new, (default 0%nat (MapVector_find (to_uint64 v) (ConstPool this'))).
  pose proof (Forall2_length _ _ _ Hps) as Hlen1.
  pose proof (Forall2_length _ _ _ Hall) as Hlen2.
  rewrite length_fmap in Hlen2.
  split_and!; [done|lia|by apply pool_entries_for_le, Hwf'|].
  intros s c Hs.
  destruct (Forall2_lookup_l _ _ _ _ _ Hps Hs) as (Locs0 & Hs0 & LiveOuts0 & Hp).
  destruct (Forall2_lookup_l _ _ _ _ _ Hall Hs0) as (Locs & Hs' & HL).
  apply list_lookup_fmap_Some in Hs' as (CSI & -> & HCSI).
  exists Locs0, LiveOuts0, CSI.
  split_and!; [done|done|symmetry; by eapply Forall2_length|].
  intros j Loc0 Hj HC HO.
  destruct (Forall2_lookup_l _ _ _ _ _ HL Hj) as (Loc & Hj' & Hprom).
  rewrite Hj'.
  destruct Hprom as [(_ & idx & Hfind & ->)|[Hn _]];
    [|exfalso; apply Hn; split; congruence].
  rewrite HO in Hfind. rewrite Hfind. simpl.
  split_and!; [done|by apply pool_wf_lookup| |].
  - destruct Hwf' as [Hnd _]. by eapply pool_entries_for_unique.
  - destruct (MapVector_find (to_uint64 v) (ConstPool this)) as [i|] eqn:Hf0.
    + right. rewrite Hext in Hfind.
      rewrite (MapVector_find_app_l _ _ ext _ Hf0) in Hfind.
      injection Hfind as <-.
      split; [by apply pool_wf_lookup|].
      destruct Hwf as [Hnd _]. by eapply pool_entries_for_unique.
    + left. apply MapVector_find_None in Hf0.
      apply length_zero_iff_nil. apply filter_none.
      apply Forall_forall. intros [k w] Hin. simpl. intros ->.
      apply Hf0. apply list_elem_of_fmap. by exists (to_uint64 v, w).
Qed.

End Parse.

(** *** The theorems at the sample writer *)

Lemma sample_mask_has_DwarfRegNum Reg :
  0 ≤ Reg < getNumRegs (TRI sample_AP) → mask_bit [114] Reg = true →
  ∃ RegNo, getDwarfRegNum Reg (TRI sample_AP) = Ret RegNo.
Proof.
  intros HR Hb. simpl in HR.
  assert (Hcases : Reg = 0 ∨ Reg = 1 ∨ Reg = 2 ∨ Reg = 3 ∨ Reg = 4 ∨ Reg = 5 ∨
                   Reg = 6 ∨ Reg = 7) by lia.
  destruct Hcases as [->|[->|[->|[->|[->|[->|[->| ->]]]]]]];
    first [ by vm_compute in Hb | eexists; vm_compute; reflexivity ].
Qed.

Lemma C1_live_outs_witness :
  ∃ LiveOuts,
    parseRegisterLiveOutMask sample_sort sample_AP (Some [114]) = Ret LiveOuts ∧
    StronglySorted LiveOutReg_lt LiveOuts.
Proof.
  destruct (C1_live_outs_merged sample_sort sample_AP [114]
              sample_sort_Permutation sample_sort_sorted
              ltac:(simpl; lia) sample_mask_has_DwarfRegNum)
    as (LiveOuts & Hret & Hsorted & _).
  exists LiveOuts. split; [exact Hret|exact Hsorted].
Defined.

Lemma C3_overflow_sentinel_witness :
  emitted_since empty_streamer (emitCallsiteEntry empty_streamer overflowing_CSI) =
    (λ e, (OtherSection 0, e)) <$>
      [ IntValue UINT64_MAX 8; ExprValue (CSOffsetExpr overflowing_CSI) 4;
        IntValue 0 2; IntValue 0 2; IntValue 0 2; IntValue 0 2; IntValue 0 4 ].
Proof.
  assert (Hov : overflows overflowing_CSI).
  { left.
    change (Locations overflowing_CSI)
      with (replicate (Z.to_nat 65536) (mkLocation Constant 8 0 0)).
    rewrite length_replicate, Z2Nat.id by lia. unfold UINT16_MAX. lia. }
  exact (proj1 (proj2 (proj2
           (C3_overflow_sentinel empty_streamer [] overflowing_CSI [] [] []))) Hov).
Defined.

Lemma C4_callsite_record_size_witness :
  let OS0 := before_callsite_entries sample_writer empty_streamer in
  let OS1 := foldl emitCallsiteEntry OS0 [overflowing_CSI] in
  size_of (snd <$> emitted_since OS1 (emitCallsiteEntry OS1 sample_CSI)) mod 8 = 0.
Proof.
  exact (proj1 (proj2 (proj2 (proj2
           (C4_callsite_record_size_multiple_of_8 sample_writer empty_streamer
              [overflowing_CSI] sample_CSI [] eq_refl eq_refl))))).
Defined.

Lemma C5_serialize_clears_witness :
  ∃ this' OS',
    serializeToStackMapSection (fst sample_recorded) (snd sample_recorded)
      = Ret (this', OS') ∧
    CSInfos this' = [] ∧ ConstPool this' = [] ∧
    FnStackSize this' = FnStackSize (fst sample_recorded).
Proof.
  apply C5_serialize_clears_callsites_and_pool. vm_compute. discriminate.
Defined.

Lemma sample_recordCalls :
  recordCalls sample_sort sample_OpType_of_imm [sample_call; sample_call]
    empty_StackMaps empty_streamer = Ret sample_recorded.
Proof. vm_compute. reflexivity. Qed.

Lemma C2_constants_witness :
  ∃ this1 OS1 CSI Locs0,
    recordStackMapOpers sample_sort sample_OpType_of_imm sample_AP sample_MI 1
      2 12 false empty_StackMaps empty_streamer = Ret (this1, OS1) ∧
    CSInfos this1 = [CSI] ∧
    moveLargeConstants Locs0 [] = Ret (Locations CSI, ConstPool this1) ∧
    ∀ (i : nat) Loc, Locations CSI !! i = Some Loc →
      LocType Loc = Constant → INT32_MIN ≤ Offset Loc ≤ INT32_MAX.
Proof.
  destruct (recordStackMapOpers sample_sort sample_OpType_of_imm sample_AP
              sample_MI 1 2 12 false empty_StackMaps empty_streamer)
    as [[this1 OS1]| | |] eqn:Hrec; [|vm_compute in Hrec; discriminate..].
  destruct (C2_constants_after_recording sample_sort sample_OpType_of_imm
              sample_AP sample_MI 1 2%nat 12%nat false empty_StackMaps
              empty_streamer this1 OS1
              (reachable_empty sample_sort sample_OpType_of_imm) Hrec)
    as (CSI & Locs0 & HCS & _ & Hm & Hall).
  exists this1, OS1, CSI, Locs0. split_and!; [reflexivity|exact HCS|exact Hm|].
  intros i Loc Hi. apply (Hall i Loc Hi).
Defined.

Lemma C9_interning_witness :
  ∃ (idx : nat) CSI0 CSI1,
    CSInfos (fst sample_recorded) = [CSI0; CSI1] ∧
    Locations CSI0 !! 0%nat =
      Some {| LocType := ConstantIndex; Size := 8; Reg := 0;
              Offset := Z.of_nat idx |} ∧
    Locations CSI1 !! 0%nat =
      Some {| LocType := ConstantIndex; Size := 8; Reg := 0;
              Offset := Z.of_nat idx |} ∧
    ConstPool (fst sample_recorded) !! idx = Some (4294967296, 4294967296) ∧
    length (pool_entries_for 4294967296 (ConstPool (fst sample_recorded))) = 1%nat.
Proof.
  destruct (C9_interning_idempotent sample_sort sample_OpType_of_imm
              [sample_call; sample_call] empty_StackMaps empty_streamer
              (fst sample_recorded) (snd sample_recorded) 4294967296
              (reachable_empty sample_sort sample_OpType_of_imm)
              ltac:(reflexivity))
    as (new & idx & HCS & Hlen & _ & Hall).
  { rewrite sample_recordCalls. by destruct sample_recorded. }
  destruct (Hall 0%nat sample_call eq_refl)
    as (Locs0 & LiveOuts0 & CSI0 & Hp0 & Hn0 & _ & H0).
  destruct (Hall 1%nat sample_call eq_refl)
    as (Locs1 & LiveOuts1 & CSI1 & Hp1 & Hn1 & _ & H1).
  vm_compute in Hp0. injection Hp0 as <- _.
  vm_compute in Hp1. injection Hp1 as <- _.
  destruct (H0 0%nat _ eq_refl eq_refl eq_refl) as (HL0 & Hpool & Hone & _).
  destruct (H1 0%nat _ eq_refl eq_refl eq_refl) as (HL1 & _).
  exists idx, CSI0, CSI1. split_and!; [|exact HL0|exact HL1|exact Hpool|exact Hone].
  rewrite HCS. destruct new as [|a [|b [|]]]; try discriminate.
  by injection Hn0 as ->; injection Hn1 as ->.
Defined.

Lemma C10_parseOperand_witness :
  ∃ Locs' LiveOuts',
    parseOperands sample_sort sample_OpType_of_imm 13 sample_AP sample_MI 2 12 [] []
      = Ret (Locs', LiveOuts') ∧
    parseOperands sample_sort sample_OpType_of_imm 13 sample_AP sample_MI 2 12 [] []
      = parseOperands sample_sort sample_OpType_of_imm 11 sample_AP sample_MI 2 12 [] [].
Proof.
  destruct (C10_parseOperand_advances sample_sort sample_OpType_of_imm
              sample_AP sample_MI) as (_ & _ & _ & Hfuel & _ & _).
  destruct (Hfuel 11%nat 2%nat 12%nat [] [] ltac:(simpl; lia)) as [_ Hsame].
  destruct (parseOperands sample_sort sample_OpType_of_imm 13 sample_AP
              sample_MI 2 12 [] []) as [[Locs' LiveOuts']| | |] eqn:Hp;
    [|vm_compute in Hp; discriminate..].
  exists Locs', LiveOuts'. split; [reflexivity|].
  rewrite <- Hp. apply Hsame. simpl. lia.
Defined.

(** *** The stack map section between serializations *)

(** Recording a call site emits a label only: no section grows. *)
Lemma recordStackMapOpers_section_size
    std_sort OpType_of_imm AP MI ID MOI MOE recordResult this OS this' OS' Sec :
  recordStackMapOpers std_sort OpType_of_imm AP MI ID MOI MOE recordResult this OS
    = Ret (this', OS') →
  section_size Sec OS' = section_size Sec OS.
Proof.
  intros (_ & _ & _ & _ & _ & _ & _ & ->)%recordStackMapOpers_Ret.
  unfold EmitLabel. rewrite section_size_emit. simpl.
  change (section_size Sec {| NextTempSymbol := S (NextTempSymbol OS);
                              CurrentSection := CurrentSection OS;
                              Output := Output OS |})
    with (section_size Sec OS).
  destruct (decide (CurrentSection OS = Sec)); lia.
Qed.

(** A serialization leaves the stack map section on a multiple of 8 when
    it found it so. *)
Lemma serializeToStackMapSection_aligned this OS this' OS' :
  section_size StackMapSection OS mod 8 = 0 →
  serializeToStackMapSection this OS = Ret (this', OS') →
  section_size StackMapSection OS' mod 8 = 0.
Proof.
  intros Hal Hser. destruct (CSInfos this) as [|CSI post] eqn:HCS.
  - unfold serializeToStackMapSection in Hser. rewrite HCS in Hser.
    rewrite (bool_decide_eq_true_2 (@nil CallsiteInfo = [])) in Hser by done.
    inv_outcome. by simplify_eq.
  - rewrite serializeToStackMapSection_nonempty in Hser by (by rewrite HCS).
    injection Hser as _ <-. by apply serialized_section_aligned.
Qed.

(** *** The scenarios of the specification *)

Example scenario_constant_in_range :
  fst <$> recordStackMapOpers sample_sort sample_OpType_of_imm sample_AP
    [MO_Immediate 7; MO_Immediate 0; MO_Immediate 2; MO_Immediate 42]
    7 2 4 false empty_StackMaps empty_streamer
  = Ret {| CSInfos :=
             [{| CSOffsetExpr :=
                   MCBinaryExpr_Sub (MCSymbolRefExpr (TempSymbol 0))
                                    (MCSymbolRefExpr (NamedSymbol "f"));
                 ID := 7;
                 Locations := [{| LocType := Constant; Size := 8; Reg := 0;
                                  Offset := 42 |}];
                 LiveOuts := [] |}];
           ConstPool := [];
           FnStackSize := [(NamedSymbol "f", 24)] |}.
Proof. vm_compute. reflexivity. Qed.

Example scenario_large_constant :
  (λ p, (Locations <$> CSInfos (fst p), ConstPool (fst p))) <$>
    recordStackMapOpers sample_sort sample_OpType_of_imm sample_AP
      [MO_Immediate 9; MO_Immediate 0; MO_Immediate 2; MO_Immediate 4294967296]
      9 2 4 false empty_StackMaps empty_streamer
  = Ret ([[{| LocType := ConstantIndex; Size := 8; Reg := 0; Offset := 0 |}]],
         [(4294967296, 4294967296)]).
Proof. vm_compute. reflexivity. Qed.

Example scenario_indirect_spill_slot :
  (λ p, Locations <$> CSInfos (fst p)) <$>
    recordStackMapOpers sample_sort sample_OpType_of_imm sample_AP
      [MO_Immediate 1; MO_Immediate 0; MO_Immediate 1; MO_Immediate 8;
       MO_Register 7 false false false 0; MO_Immediate (-16)]
      1 2 6 false empty_StackMaps empty_streamer
  = Ret [[{| LocType := Indirect; Size := 8; Reg := 3; Offset := -16 |}]].
Proof. vm_compute. reflexivity. Qed.

Example scenario_live_out_coalescing :
  parseRegisterLiveOutMask sample_sort sample_AP (Some [48]) =
    Ret [{| LO_Reg := 5; LO_RegNo := 0; LO_Size := 8; LO_Valid := true |}].
Proof. vm_compute. reflexivity. Qed.

Example scenario_truncated_operand :
  recordStackMapOpers sample_sort sample_OpType_of_imm sample_AP
    [MO_Immediate 1; MO_Immediate 0; MO_Immediate 2]
    1 2 3 false empty_StackMaps empty_streamer
  = Undefined.
Proof. vm_compute. reflexivity. Qed.

End StackMapsFacts.

(** ** The reader's validation and look-up *)

Module InspectorFacts.
Import Reader.

(** *** Values and lengths a successful parse yields *)

Lemma parse_primitive_range T data offset len v offset' :
  parse_primitive T data offset len = Ret (v, offset') →
  0 ≤ v < 256 ^ sizeof T.
Proof.
  intros H. unfold parse_primitive, load in H. inv_outcome. simplify_eq.
  pose proof (ReaderFacts.sizeof_pos T).
  assert (0 ≤ sizeof T) as Hn by lia.
  lazymatch goal with Hb : bytes_at _ _ _ = Some ?bs |- _ =>
    pose proof (ReaderFacts.bytes_at_length _ _ _ _ Hn Hb) as Hl;
    pose proof (ReaderFacts.le_decode_range bs) as Hr end.
  rewrite Hl, Z2Nat.id in Hr by lia. done.
Qed.

Lemma LocationRecord_parse_Type data offset len L offset' :
  LocationRecord_parse data offset len = Ret (L, offset') → Type_ L ≤ 5.
Proof.
  intros H. unfold LocationRecord_parse in H. inv_outcome. simplify_eq.
  by apply Z.leb_le.
Qed.

Lemma parse_Locations_Forall n data offset len Ls offset' :
  parse_Locations n data offset len = Ret (Ls, offset') →
  length Ls = n ∧ Forall (λ L, Type_ L ≤ 5) Ls.
Proof.
  revert offset Ls offset'. induction n as [|n IH]; intros offset Ls offset' H.
  - injection H as <- _. by split.
  - cbn [parse_Locations] in H. inv_outcome. simplify_eq.
    match goal with Hr : parse_Locations _ _ _ _ = Ret _ |- _ =>
      apply IH in Hr as [<- ?] end.
    split; [done|]. constructor; [|done].
    by eapply LocationRecord_parse_Type.
Qed.

Lemma StackMapRecord_parse_verified data offset len R offset' :
  StackMapRecord_parse data offset len = Ret (R, offset') →
  ReservedFlags R = 0 ∧ 0 ≤ InstructionOffset R < 2 ^ 32 ∧
  Z.of_nat (length (Locations R)) < 65536 ∧
  Forall (λ L, Type_ L ≤ 5) (Locations R).
Proof.
  intros H. unfold StackMapRecord_parse in H. inv_outcome. simplify_eq. simpl.
  repeat match goal with Hp : parse_primitive _ _ _ _ = Ret _ |- _ =>
    apply parse_primitive_range in Hp end.
  match goal with Hr : parse_Locations _ _ _ _ = Ret _ |- _ =>
    apply parse_Locations_Forall in Hr as [Hlen ?] end.
  match goal with Hf : (0 =? _) = true |- _ => apply Z.eqb_eq in Hf end.
  simpl in *. split_and!; try done; lia.
Qed.

Lemma parse_Records_verified n data offset len Rs offset' :
  parse_Records n data offset len = Ret (Rs, offset') →
  length Rs = n ∧
  Forall (λ R, ReservedFlags R = 0 ∧ 0 ≤ InstructionOffset R < 2 ^ 32 ∧
               Z.of_nat (length (Locations R)) < 65536 ∧
               Forall (λ L, Type_ L ≤ 5) (Locations R)) Rs.
Proof.
  revert offset Rs offset'. induction n as [|n IH]; intros offset Rs offset' H.
  - injection H as <- _. by split.
  - cbn [parse_Records] in H. inv_outcome. simplify_eq.
    match goal with Hr : parse_Records _ _ _ _ = Ret _ |- _ =>
      apply IH in Hr as [<- ?] end.
    split; [done|]. constructor; [|done].
    by eapply StackMapRecord_parse_verified.
Qed.

(** What [StackMapSection::parse] establishes for the section it returns. *)
Lemma StackMapSection_parse_verified this data offset len S offset' :
  StackMapSection_parse this data offset len = Ret (S, offset') →
  Version S = 1 ∧ Reserved8 S = 0 ∧ Reserved16 S = 0 ∧
  Z.of_nat (length (Records S)) < 2 ^ 32 ∧
  Forall (λ R, ReservedFlags R = 0 ∧ 0 ≤ InstructionOffset R < 2 ^ 32 ∧
               Z.of_nat (length (Locations R)) < 65536 ∧
               Forall (λ L, Type_ L ≤ 5) (Locations R)) (Records S).
Proof.
  intros H. unfold StackMapSection_parse in H. inv_outcome. simplify_eq. simpl.
  repeat match goal with Hf : (_ =? _) = true |- _ => apply Z.eqb_eq in Hf end.
  match goal with Hr : parse_Records _ _ _ _ = Ret _ |- _ =>
    apply parse_Records_verified in Hr as [Hlen ?] end.
  repeat match goal with Hp : parse_primitive _ _ _ _ = Ret _ |- _ =>
    apply parse_primitive_range in Hp end.
  simpl in *. split_and!; try done. lia.
Qed.

(** *** The loops of [verify] *)

Lemma assert_andb a b : (assert a ≫= λ _, assert b) = assert (a && b).
Proof. by destruct a, b. Qed.

Lemma wrap_small bits x : 0 ≤ x < 2 ^ bits → wrap bits x = x.
Proof. intros. unfold wrap. by rewrite Z.mod_small. Qed.

Lemma verify_Locations_spec Locs (k : nat) : ∀ fuel (j : nat),
  Z.of_nat (length Locs) < 65536 →
  length Locs = (j + k)%nat → (k ≤ fuel)%nat →
  verify_Locations fuel Locs (Z.of_nat j) = assert (forallb location_ok (drop j Locs)).
Proof.
  induction k as [|k IH]; intros fuel j Hmax Hlen Hfuel.
  - rewrite drop_ge by lia. destruct fuel; simpl;
      (destruct (Z.ltb_spec (Z.of_nat j) (Z.of_nat (length Locs))); [lia|done]).
  - destruct fuel as [|fuel]; [lia|]. cbn [verify_Locations].
    destruct (Z.ltb_spec (Z.of_nat j) (Z.of_nat (length Locs))); [|lia].
    rewrite Nat2Z.id.
    destruct (lookup_lt_is_Some_2 Locs j) as [L HL]; [lia|].
    rewrite HL. simpl.
    rewrite (drop_S _ _ _ HL). cbn [forallb].
    rewrite wrap_small by (change (2 ^ 16) with 65536; lia).
    replace (Z.of_nat j + 1) with (Z.of_nat (S j)) by lia.
    rewrite IH by lia. unfold location_ok at 2.
    by destruct (Type_ L <=? 5).
Qed.

Lemma verify_Records_spec Recs (k : nat) : ∀ fuel (i : nat),
  Z.of_nat (length Recs) < 2 ^ 32 →
  Forall (λ R, Z.of_nat (length (Locations R)) < 65536) Recs →
  length Recs = (i + k)%nat → (k ≤ fuel)%nat →
  verify_Records fuel Recs (Z.of_nat i) = assert (forallb record_ok (drop i Recs)).
Proof.
  induction k as [|k IH]; intros fuel i Hmax Hlocs Hlen Hfuel.
  - rewrite drop_ge by lia. destruct fuel; simpl;
      (destruct (Z.ltb_spec (Z.of_nat i) (Z.of_nat (length Recs))); [lia|done]).
  - destruct fuel as [|fuel]; [lia|]. cbn [verify_Records].
    destruct (Z.ltb_spec (Z.of_nat i) (Z.of_nat (length Recs))); [|lia].
    rewrite Nat2Z.id.
    destruct (lookup_lt_is_Some_2 Recs i) as [R HR]; [lia|].
    rewrite HR. cbn [defined mbind outcome_bind].
    rewrite (drop_S _ _ _ HR). cbn [forallb].
    rewrite wrap32_small by lia.
    replace (Z.of_nat i + 1) with (Z.of_nat (S i)) by lia.
    rewrite IH; [|lia|done|lia|lia].
    rewrite (verify_Locations_spec _ (length (Locations R)) _ 0%nat);
      [|exact (Forall_lookup_1 _ _ _ _ Hlocs HR)|done|done].
    rewrite drop_0. unfold record_ok at 2.
    destruct (0 =? ReservedFlags R); [|done].
    by destruct (forallb location_ok (Locations R)), (forallb record_ok _).
Qed.

(** *** The search loops *)

Lemma hasRecordForRelPC_loop_spec Recs RelPC (k : nat) : ∀ fuel (i : nat),
  Z.of_nat (length Recs) < 2 ^ 32 →
  length Recs = (i + k)%nat → (k ≤ fuel)%nat →
  hasRecordForRelPC_loop fuel Recs RelPC (Z.of_nat i) =
    Ret (bool_decide (Exists (at_RelPC RelPC) (drop i Recs))).
Proof.
  induction k as [|k IH]; intros fuel i Hmax Hlen Hfuel.
  - rewrite drop_ge by lia.
    rewrite bool_decide_eq_false_2 by (by intros ?%Exists_nil).
    destruct fuel; cbn [hasRecordForRelPC_loop];
      (destruct (Z.ltb_spec (Z.of_nat i) (Z.of_nat (length Recs))); [lia|done]).
  - destruct fuel as [|fuel]; [lia|]. cbn [hasRecordForRelPC_loop].
    destruct (Z.ltb_spec (Z.of_nat i) (Z.of_nat (length Recs))); [|lia].
    rewrite Nat2Z.id.
    destruct (lookup_lt_is_Some_2 Recs i) as [R HR]; [lia|].
    rewrite HR. cbn [defined mbind outcome_bind].
    rewrite (drop_S _ _ _ HR).
    destruct (Z.eqb_spec (InstructionOffset R) RelPC) as [Heq|Hne].
    + by rewrite bool_decide_eq_true_2 by (by left).
    + rewrite wrap32_small by lia.
      replace (Z.of_nat i + 1) with (Z.of_nat (S i)) by lia.
      rewrite IH by lia. f_equal. apply bool_decide_ext.
      rewrite Exists_cons. unfold at_RelPC at 2. tauto.
Qed.

Lemma findRecordForRelPC_loop_spec Recs RelPC (k : nat) : ∀ fuel (i : nat),
  Z.of_nat (length Recs) < 2 ^ 32 →
  length Recs = (i + k)%nat → (k ≤ fuel)%nat →
  findRecordForRelPC_loop fuel Recs RelPC (Z.of_nat i) =
    match list_find (at_RelPC RelPC) (drop i Recs) with
    | Some (_, R) => Ret R
    | None => AssertionFailure
    end.
Proof.
  induction k as [|k IH]; intros fuel i Hmax Hlen Hfuel.
  - rewrite drop_ge by lia. destruct fuel; simpl;
      (destruct (Z.ltb_spec (Z.of_nat i) (Z.of_nat (length Recs))); [lia|done]).
  - destruct fuel as [|fuel]; [lia|]. cbn [findRecordForRelPC_loop].
    destruct (Z.ltb_spec (Z.of_nat i) (Z.of_nat (length Recs))); [|lia].
    rewrite Nat2Z.id.
    destruct (lookup_lt_is_Some_2 Recs i) as [R HR]; [lia|].
    rewrite HR. cbn [defined mbind outcome_bind].
    rewrite (drop_S _ _ _ HR). cbn [list_find].
    destruct (Z.eqb_spec (InstructionOffset R) RelPC) as [Heq|Hne].
    + by rewrite decide_True.
    + rewrite decide_False by done.
      rewrite wrap32_small by lia.
      replace (Z.of_nat i + 1) with (Z.of_nat (S i)) by lia.
      rewrite IH by lia.
      by destruct (list_find _ _) as [[? ?]|].
Qed.

(** *** [verify], [hasRecordForRelPC] and [findRecordForRelPC] *)

Lemma StackMapSection_verify_parsed this data offset len S offset' :
  StackMapSection_parse this data offset len = Ret (S, offset') →
  StackMapSection_verify S = Ret tt.
Proof.
  intros (HV & _ & _ & Hmax & HRs)%StackMapSection_parse_verified.
  unfold StackMapSection_verify. rewrite HV. cbn [Z.eqb Pos.eqb assert mbind outcome_bind].
  rewrite (verify_Records_spec _ (length (Records S)) _ 0%nat);
    [|done| |done|done].
  - rewrite drop_0. apply assert_true, Is_true_true, forallb_True.
    eapply Forall_impl; [exact HRs|]. intros R (HF & _ & _ & HL). cbn beta.
    unfold record_ok. rewrite HF. cbn [Z.eqb andb]. apply forallb_True.
    eapply Forall_impl; [exact HL|]. intros L HT. cbn beta.
    unfold location_ok. by apply Is_true_true, Z.leb_le.
  - eapply Forall_impl; [exact HRs|]. by intros R (_ & _ & ? & _).
Qed.

(** X1. A section that [StackMapSection::parse] returns passes
    [StackMapSection::verify]: the version, the flags of every record and
    the kind of every location were checked while parsing, and the 16-bit
    and 32-bit counters of [verify] do not wrap on it. *)
Theorem verify_after_parse this data offset len S offset' :
  StackMapSection_parse this data offset len = Ret (S, offset') →
  StackMapSection_verify S = Ret tt.
Proof. apply StackMapSection_verify_parsed. Qed.

(** X2. [hasRecordForRelPC] returns, on a section of fewer than [2^32]
    records, whether some record has the relative PC as its instruction
    offset; it reads no element outside [Records] and does not loop. *)
Theorem hasRecordForRelPC_spec this RelPC :
  Z.of_nat (length (Records this)) < 2 ^ 32 →
  ∃ b, hasRecordForRelPC this RelPC = Ret b ∧
       (b = true ↔ ∃ R, R ∈ Records this ∧ InstructionOffset R = RelPC).
Proof.
  intros Hmax. eexists. split.
  - unfold hasRecordForRelPC.
    by rewrite (hasRecordForRelPC_loop_spec _ _ (length (Records this)) _ 0%nat).
  - rewrite drop_0, bool_decide_eq_true, Exists_exists. done.
Qed.

(** X3. [findRecordForRelPC] returns, on a section of fewer than [2^32]
    records, the first record whose instruction offset is the relative
    PC; it reaches [llvm_unreachable] exactly when [hasRecordForRelPC]
    returns false. *)
Theorem findRecordForRelPC_first this RelPC :
  Z.of_nat (length (Records this)) < 2 ^ 32 →
  (∀ R, findRecordForRelPC this RelPC = Ret R ↔
        ∃ i : nat, Records this !! i = Some R ∧ InstructionOffset R = RelPC ∧
          ∀ (j : nat) R', Records this !! j = Some R' → (j < i)%nat →
                          InstructionOffset R' ≠ RelPC) ∧
  (findRecordForRelPC this RelPC = AssertionFailure ↔
   hasRecordForRelPC this RelPC = Ret false) ∧
  (hasRecordForRelPC this RelPC = Ret true ↔
   ∃ R, findRecordForRelPC this RelPC = Ret R).
Proof.
  intros Hmax. unfold findRecordForRelPC, hasRecordForRelPC.
  rewrite (findRecordForRelPC_loop_spec _ _ (length (Records this)) _ 0%nat)
    by done.
  rewrite (hasRecordForRelPC_loop_spec _ _ (length (Records this)) _ 0%nat)
    by done.
  rewrite drop_0.
  destruct (list_find (at_RelPC RelPC) (Records this)) as [[i R0]|] eqn:Hfind.
  - apply list_find_Some in Hfind as (Hi & HR0 & Hfirst).
    assert (Exists (at_RelPC RelPC) (Records this)) as Hex.
    { apply Exists_exists. exists R0. split; [by eapply list_elem_of_lookup_2|done]. }
    rewrite bool_decide_eq_true_2 by done. split_and!.
    + intros R. split.
      * intros [= <-]. exists i. split_and!; [done|done|].
        intros j R' Hj Hlt. by apply (Hfirst j R').
      * intros (i' & Hi' & HR & Hfirst'). f_equal.
        destruct (Nat.lt_trichotomy i i') as [Hlt|[->|Hlt]].
        -- by destruct (Hfirst' i R0 Hi Hlt).
        -- congruence.
        -- by destruct (Hfirst i' R Hi' Hlt).
    + split; discriminate.
    + split; [by eexists|done].
  - apply list_find_None in Hfind.
    rewrite bool_decide_eq_false_2
      by (rewrite <- Forall_Exists_neg; done).
    split_and!.
    + intros R. split; [discriminate|].
      intros (i & Hi & HR & _). exfalso.
      by apply (Forall_lookup_1 _ _ _ _ Hfind Hi).
    + done.
    + split; [discriminate|]. by intros [? ?].
Qed.

(** *** The theorems at the sample section *)

Lemma verify_after_parse_witness :
  StackMapSection_verify sample_section = Ret tt.
Proof.
  apply (verify_after_parse empty_section (Some sample_section_bytes) 0 72
           sample_section 72).
  vm_compute. reflexivity.
Defined.

Lemma hasRecordForRelPC_witness :
  ∃ b, hasRecordForRelPC sample_section 16 = Ret b ∧
       (b = true ↔ ∃ R, R ∈ Records sample_section ∧ InstructionOffset R = 16).
Proof. apply (hasRecordForRelPC_spec sample_section 16). vm_compute. reflexivity. Defined.

Lemma findRecordForRelPC_witness :
  findRecordForRelPC sample_section 16 = Ret sample_record ∧
  (findRecordForRelPC sample_section 17 = AssertionFailure ↔
   hasRecordForRelPC sample_section 17 = Ret false).
Proof.
  split.
  - apply (findRecordForRelPC_first sample_section 16); [vm_compute; reflexivity|].
    exists 0%nat. split_and!; [reflexivity|reflexivity|]. intros j R' _ Hj. lia.
  - apply (findRecordForRelPC_first sample_section 17). vm_compute. reflexivity.
Defined.

End InspectorFacts.

(** ** The writer: operands, call sites and the frame table *)

Module RecorderFacts.
Import StackMaps StackMapsFacts.

(** *** DWARF register numbers *)

Lemma getDwarfRegNum_loop_found TRI pre R post R0 SRs :
  R0 :: SRs = pre ++ R :: post →
  Forall (λ r, TRI_getDwarfRegNum TRI r < 0) pre →
  0 ≤ TRI_getDwarfRegNum TRI R →
  getDwarfRegNum_loop TRI SRs (TRI_getDwarfRegNum TRI R0) = TRI_getDwarfRegNum TRI R.
Proof.
  revert R0 SRs. induction pre as [|p pre IH]; intros R0 SRs Heq Hpre HR.
  - injection Heq as -> ->. destruct post; simpl; [done|].
    by destruct (Z.ltb_spec (TRI_getDwarfRegNum TRI R) 0); [lia|].
  - injection Heq as -> ->. apply Forall_cons in Hpre as [Hp Hpre].
    destruct pre as [|p' pre]; simpl in *.
    + destruct (Z.ltb_spec (TRI_getDwarfRegNum TRI p) 0); [|lia].
      by apply (IH R post).
    + destruct (Z.ltb_spec (TRI_getDwarfRegNum TRI p) 0); [|lia].
      by apply (IH p' (pre ++ R :: post)).
Qed.

Lemma getDwarfRegNum_loop_none TRI R0 SRs :
  Forall (λ r, TRI_getDwarfRegNum TRI r < 0) (R0 :: SRs) →
  getDwarfRegNum_loop TRI SRs (TRI_getDwarfRegNum TRI R0) < 0.
Proof.
  revert R0. induction SRs as [|SR SRs IH]; intros R0 [H0 H]%Forall_cons.
  - done.
  - simpl. destruct (Z.ltb_spec (TRI_getDwarfRegNum TRI R0) 0); [|lia].
    by apply IH.
Qed.

Lemma chain_first_valid TRI (chain : list Z) :
  Forall (λ r, TRI_getDwarfRegNum TRI r < 0) chain ∨
  ∃ pre R post, chain = pre ++ R :: post ∧
    Forall (λ r, TRI_getDwarfRegNum TRI r < 0) pre ∧
    0 ≤ TRI_getDwarfRegNum TRI R.
Proof.
  induction chain as [|r chain IH]; [by left|].
  destruct (Z.lt_ge_cases (TRI_getDwarfRegNum TRI r) 0) as [Hr|Hr].
  - destruct IH as [IH|(pre & R & post & -> & Hpre & HR)].
    + left. by constructor.
    + right. exists (r :: pre), R, post. split_and!; [done| |done].
      by constructor.
  - right. by exists [], r, chain.
Qed.

(** X4. [getDwarfRegNum] returns the DWARF register number of the first
    register that has one (a number that is not negative) in the chain
    made of the register and its super-registers, in the order of the
    iterator; it fails its assertion exactly when no register of the
    chain has one. *)
Theorem getDwarfRegNum_first_valid Reg TRI :
  (∀ RegNo, getDwarfRegNum Reg TRI = Ret RegNo ↔
     ∃ pre R post, Reg :: superRegs TRI Reg = pre ++ R :: post ∧
       Forall (λ r, TRI_getDwarfRegNum TRI r < 0) pre ∧
       TRI_getDwarfRegNum TRI R = RegNo ∧ 0 ≤ RegNo) ∧
  (getDwarfRegNum Reg TRI = AssertionFailure ↔
     Forall (λ r, TRI_getDwarfRegNum TRI r < 0) (Reg :: superRegs TRI Reg)).
Proof.
  unfold getDwarfRegNum.
  destruct (chain_first_valid TRI (Reg :: superRegs TRI Reg))
    as [Hnone|(pre & R & post & Heq & Hpre & HR)].
  - pose proof (getDwarfRegNum_loop_none _ _ _ Hnone) as Hlt.
    destruct (Z.leb_spec 0 (getDwarfRegNum_loop TRI (superRegs TRI Reg)
                              (TRI_getDwarfRegNum TRI Reg))); [lia|].
    cbn [assert mbind outcome_bind]. split; [|done].
    intros RegNo. split; [discriminate|].
    intros (pre & R & post & Heq & _ & <- & HR). exfalso.
    rewrite Heq in Hnone. apply Forall_app in Hnone as [_ Hn].
    apply Forall_cons in Hn as [Hn _]. lia.
  - rewrite (getDwarfRegNum_loop_found _ _ _ _ _ _ Heq Hpre HR).
    destruct (Z.leb_spec 0 (TRI_getDwarfRegNum TRI R)); [|lia].
    cbn [assert mbind outcome_bind]. split.
    + intros RegNo. split.
      * intros [= <-]. by exists pre, R, post.
      * intros (pre' & R' & post' & Heq' & Hpre' & <- & HR'). f_equal.
        transitivity (getDwarfRegNum_loop TRI (superRegs TRI Reg)
                        (TRI_getDwarfRegNum TRI Reg));
          [symmetry|]; by eapply getDwarfRegNum_loop_found.
    + split; [discriminate|]. intros Hnone. exfalso.
      rewrite Heq in Hnone. apply Forall_app in Hnone as [_ Hn].
      apply Forall_cons in Hn as [Hn _]. lia.
Qed.

(** *** The frame table *)

Section MapVectorAssign.

Context {K : Type} `{EqDecision K}.
Implicit Types (M : MapVector K) (k : K).

Lemma MapVector_find_keys k M M' :
  fst <$> M = fst <$> M' → MapVector_find k M = MapVector_find k M'.
Proof.
  revert M'. induction M as [|[k0 v0] M IH]; intros [|[k1 v1] M'] Heq;
    try done. simpl in *. injection Heq as -> Heq. by rewrite (IH M').
Qed.

Lemma MapVector_assign_keys k v M :
  fst <$> MapVector_assign k v M =
    if decide (k ∈ fst <$> M) then fst <$> M else (fst <$> M) ++ [k].
Proof.
  unfold MapVector_assign.
  destruct (MapVector_insert (k, 0) M) as [M' i] eqn:Hins.
  apply MapVector_insert_spec in Hins as [Hfind [[-> Hin]|[-> Hnin]]].
  - rewrite decide_True by done.
    apply MapVector_find_Some in Hfind as [v0 Hi].
    rewrite list_fmap_insert. cbn [fst]. apply list_insert_id.
    by rewrite list_lookup_fmap, Hi.
  - rewrite decide_False by done.
    rewrite list_fmap_insert. cbn [fst].
    rewrite list_insert_id; [by rewrite fmap_app|].
    rewrite list_lookup_fmap.
    apply MapVector_find_Some in Hfind as [v0 Hi]. by rewrite Hi.
Qed.

Lemma MapVector_lookup_assign k v M :
  MapVector_lookup k (MapVector_assign k v M) = Some v.
Proof.
  unfold MapVector_lookup, MapVector_assign.
  destruct (MapVector_insert (k, 0) M) as [M' i] eqn:Hins.
  apply MapVector_insert_spec in Hins as [Hfind _].
  rewrite (MapVector_find_keys k _ M'), Hfind.
  - simpl. apply MapVector_find_Some in Hfind as [v0 Hi].
    rewrite list_lookup_insert_eq by (by eapply lookup_lt_Some). done.
  - rewrite list_fmap_insert. cbn [fst]. apply list_insert_id.
    apply MapVector_find_Some in Hfind as [v0 Hi].
    by rewrite list_lookup_fmap, Hi.
Qed.

Lemma MapVector_lookup_snoc_ne k k' v M :
  k ≠ k' → MapVector_lookup k (M ++ [(k', v)]) = MapVector_lookup k M.
Proof.
  intros Hne. unfold MapVector_lookup.
  destruct (MapVector_find k M) as [i|] eqn:Hfind.
  - rewrite (MapVector_find_app_l _ _ _ _ Hfind). simpl.
    apply MapVector_find_Some in Hfind as [v0 Hi].
    by rewrite lookup_app_l by (by eapply lookup_lt_Some).
  - assert (MapVector_find k (M ++ [(k', v)]) = None) as ->; [|done].
    apply MapVector_find_None. rewrite fmap_app.
    apply MapVector_find_None in Hfind.
    apply not_elem_of_app. split; [done|].
    cbn [fmap list_fmap fst]. by rewrite list_elem_of_singleton.
Qed.

Lemma MapVector_lookup_assign_ne k k' v M :
  k ≠ k' → MapVector_lookup k (MapVector_assign k' v M) = MapVector_lookup k M.
Proof.
  intros Hne. unfold MapVector_assign.
  destruct (MapVector_insert (k', 0) M) as [M' i] eqn:Hins.
  apply MapVector_insert_spec in Hins as [Hfind Hcases].
  apply MapVector_find_Some in Hfind as [v0 Hi].
  assert (MapVector_lookup k (<[i := (k', v)]> M') = MapVector_lookup k M')
    as ->.
  { unfold MapVector_lookup.
    rewrite (MapVector_find_keys k (<[i := (k', v)]> M') M').
    - destruct (MapVector_find k M') as [j|] eqn:Hj; [|done]. simpl.
      apply MapVector_find_Some in Hj as [vj Hj].
      rewrite list_lookup_insert_ne; [done|]. intros ->. congruence.
    - rewrite list_fmap_insert. cbn [fst]. apply list_insert_id.
      by rewrite list_lookup_fmap, Hi. }
  destruct Hcases as [[-> _]|[-> _]]; [done|].
  by apply MapVector_lookup_snoc_ne.
Qed.

End MapVectorAssign.

Section Recording.

Variable std_sort : LiveOutVec → LiveOutVec.
Variable OpType_of_imm : Z → option OpType.

Local Abbreviation reachable := (reachable std_sort OpType_of_imm).
Local Abbreviation recordStackMapOpers :=
  (recordStackMapOpers std_sort OpType_of_imm).

Lemma MapVector_assign_nonempty {K} `{EqDecision K} (k : K) v (M : MapVector K) :
  MapVector_assign k v M ≠ [].
Proof.
  intros Heq. pose proof (MapVector_lookup_assign k v M) as Hl.
  by rewrite Heq in Hl.
Qed.

Lemma MapVector_assign_NoDup {K} `{EqDecision K} (k : K) v (M : MapVector K) :
  NoDup (fst <$> M) → NoDup (fst <$> MapVector_assign k v M).
Proof.
  intros Hnd. rewrite MapVector_assign_keys. case_decide; [done|].
  apply NoDup_app. split_and!; [done| |apply NoDup_singleton].
  intros x Hx ->%list_elem_of_singleton. done.
Qed.

(** What holds of every writer a compilation can reach: the functions of
    the frame table are distinct, a writer with a call site has a frame
    record, and a writer without call sites has no constants. *)
Lemma reachable_tables this :
  reachable this →
  NoDup (fst <$> FnStackSize this) ∧
  (CSInfos this ≠ [] → FnStackSize this ≠ []) ∧
  (CSInfos this = [] → ConstPool this = []).
Proof.
  induction 1 as [|AP MI ID MOI MOE rr this OS this' OS' _ IH Hrec
                  |this OS this' OS' _ IH Hser].
  - split_and!; [constructor|done|done].
  - destruct IH as (Hnd & _ & _).
    apply recordStackMapOpers_Ret in Hrec
      as (Locs0 & Locs & LOs & _ & _ & HCS & HFS & _).
    rewrite HCS, HFS. split_and!.
    + by apply MapVector_assign_NoDup.
    + intros _. apply MapVector_assign_nonempty.
    + intros Heq. by apply app_eq_nil in Heq as [_ ?].
  - apply serializeToStackMapSection_Ret in Hser as [->| ->]; [done|].
    destruct IH as (Hnd & _ & _). simpl. split_and!; done.
Qed.

(** X5. After [recordStackMapOpers] on a writer that can be reached, the
    frame table maps the current function to [UINT64_MAX] when its frame
    is dynamic and to its stack size otherwise; the entries of all other
    functions are as before; the functions of the table stay distinct and
    in the order in which they were first recorded. *)
Theorem frame_table_after_recording AP MI ID MOI MOE recordResult this OS this' OS' :
  reachable this →
  recordStackMapOpers AP MI ID MOI MOE recordResult this OS = Ret (this', OS') →
  MapVector_lookup (CurrentFnSym AP) (FnStackSize this')
    = Some (recorded_stack_size AP) ∧
  (∀ f, f ≠ CurrentFnSym AP →
        MapVector_lookup f (FnStackSize this') = MapVector_lookup f (FnStackSize this)) ∧
  NoDup (fst <$> FnStackSize this') ∧
  fst <$> FnStackSize this' =
    if decide (CurrentFnSym AP ∈ fst <$> FnStackSize this)
    then fst <$> FnStackSize this
    else (fst <$> FnStackSize this) ++ [CurrentFnSym AP].
Proof.
  intros (Hnd & _ & _)%reachable_tables Hrec.
  apply recordStackMapOpers_Ret in Hrec
    as (Locs0 & Locs & LOs & _ & _ & _ & HFS & _).
  rewrite HFS. fold (recorded_stack_size AP). split_and!.
  - apply MapVector_lookup_assign.
  - intros f Hf. by apply MapVector_lookup_assign_ne.
  - by apply MapVector_assign_NoDup.
  - apply MapVector_assign_keys.
Qed.

(** X6. On a writer that can be reached, [serializeToStackMapSection]
    returns unless the writer has frame records and no call site: with a
    call site it emits the section; with neither call sites nor frame
    records it returns at once and emits nothing; with frame records and
    no call site it fails its second assertion. *)
Theorem serialize_returns_iff this OS :
  reachable this →
  (CSInfos this ≠ [] →
     ∃ OS', serializeToStackMapSection this OS =
              Ret ({| CSInfos := []; ConstPool := [];
                      FnStackSize := FnStackSize this |}, OS')) ∧
  (CSInfos this = [] → FnStackSize this = [] →
     serializeToStackMapSection this OS = Ret (this, OS)) ∧
  (CSInfos this = [] → FnStackSize this ≠ [] →
     serializeToStackMapSection this OS = AssertionFailure).
Proof.
  intros (_ & _ & Hpool)%reachable_tables. split_and!.
  - intros HCS. eexists. by apply serializeToStackMapSection_nonempty.
  - intros HCS HFS. unfold serializeToStackMapSection.
    rewrite HCS, HFS, (Hpool HCS). done.
  - intros HCS HFS. unfold serializeToStackMapSection.
    rewrite HCS, (Hpool HCS). cbn.
    rewrite bool_decide_eq_false_2 by done. done.
Qed.

(** X7. A second [serializeToStackMapSection] that follows a first one
    with call sites, with no call site recorded in between, fails the
    assertion on the frame table: the first call clears the call sites
    and the constant pool but leaves the frame records. *)
Theorem serialize_again_fails this OS this' OS' OS'' :
  reachable this → CSInfos this ≠ [] →
  serializeToStackMapSection this OS = Ret (this', OS') →
  serializeToStackMapSection this' OS'' = AssertionFailure.
Proof.
  intros (_ & Hfn & _)%reachable_tables HCS Hser.
  rewrite serializeToStackMapSection_nonempty in Hser by done.
  injection Hser as <- _. unfold serializeToStackMapSection. cbn.
  rewrite bool_decide_eq_false_2 by (by apply Hfn). done.
Qed.

(** X8. [recordStackMapOpers] emits the label of the call site, a new
    temporary symbol, at the current position of the current section and
    nothing else: no section changes its size.  The offset expression of
    the call site it records is that label minus [CurrentFnSymForSize],
    and the call sites recorded before are left as they were. *)
Theorem recording_emits_label AP MI PatchPointID MOI MOE recordResult this OS this' OS' :
  recordStackMapOpers AP MI PatchPointID MOI MOE recordResult this OS = Ret (this', OS') →
  let MILabel := TempSymbol (NextTempSymbol OS) in
  Output OS' = Output OS ++ [(CurrentSection OS, Label MILabel)] ∧
  CurrentSection OS' = CurrentSection OS ∧
  NextTempSymbol OS' = S (NextTempSymbol OS) ∧
  (∀ Sec, section_size Sec OS' = section_size Sec OS) ∧
  ∃ CSI, CSInfos this' = CSInfos this ++ [CSI] ∧
         ID CSI = to_uint64 PatchPointID ∧
         CSOffsetExpr CSI =
           MCBinaryExpr_Sub (MCSymbolRefExpr MILabel)
                            (MCSymbolRefExpr (CurrentFnSymForSize AP)).
Proof.
  intros Hrec MILabel.
  apply recordStackMapOpers_Ret in Hrec
    as (Locs0 & Locs & LOs & _ & _ & HCS & _ & ->).
  split_and!; try done.
  - intros Sec. unfold EmitLabel. rewrite section_size_emit. simpl.
    unfold section_size, section_contents. simpl.
    destruct (decide _); lia.
  - eexists. split; [exact HCS|done].
Qed.

End Recording.

(** *** The locations of recorded call sites *)

Section Locations.

Variable std_sort : LiveOutVec → LiveOutVec.
Variable OpType_of_imm : Z → option OpType.

Lemma parseOperand_Ret_location AP MI MOI MOE Locs LiveOuts MOI' Locs' LiveOuts' :
  parseOperand std_sort OpType_of_imm AP MI MOI MOE Locs LiveOuts
    = Ret (MOI', Locs', LiveOuts') →
  Locs' = Locs ∨ ∃ Loc, Locs' = Locs ++ [Loc] ∧ parsed_location Loc.
Proof.
  unfold parseOperand, deref. intros H.
  destruct (MI !! MOI) as [MO|] eqn:HMO; simpl in H; [|discriminate].
  unfold parsed_location.
  destruct MO as [Imm|Reg d i ec sr|Mask|]; simpl in H.
  - destruct (OpType_of_imm Imm) as [[| |]|] eqn:HOp; [..|discriminate];
      inv_outcome; simplify_eq;
      right; eexists; (split; [done|]); simpl; tauto.
  - destruct i; simpl in H.
    + injection H as <- <- <-. by left.
    + inv_outcome. simplify_eq. right. eexists. split; [done|]. simpl. tauto.
  - inv_outcome. simplify_eq. by left.
  - injection H as <- <- <-. by left.
Qed.

Lemma parseOperands_Ret_location fuel AP MI MOI MOE Locs LiveOuts Locs' LiveOuts' :
  parseOperands std_sort OpType_of_imm fuel AP MI MOI MOE Locs LiveOuts
    = Ret (Locs', LiveOuts') →
  ∃ new, Locs' = Locs ++ new ∧ Forall parsed_location new.
Proof.
  revert MOI Locs LiveOuts.
  induction fuel as [|fuel IH]; intros MOI Locs LiveOuts; simpl;
    (case_decide; [intros [= <- <-]; exists []; by rewrite app_nil_r|]);
    [done|].
  intros Hret. inv_outcome.
  match goal with Hp : parseOperand _ _ _ _ _ _ _ _ = Ret _ |- _ =>
    apply parseOperand_Ret_location in Hp as Hl end.
  match goal with Hp : parseOperands _ _ _ _ _ _ _ _ _ = Ret _ |- _ =>
    apply IH in Hp as (new & -> & Hnew) end.
  destruct Hl as [->|(Loc & -> & HLoc)].
  - by exists new.
  - exists (Loc :: new). rewrite <- app_assoc. split; [done|]. by constructor.
Qed.

Lemma moveLargeConstants_recorded Locs CP Locs' CP' :
  Forall parsed_location Locs →
  moveLargeConstants Locs CP = Ret (Locs', CP') →
  Forall recorded_location Locs'.
Proof.
  revert CP Locs' CP'. induction Locs as [|Loc Locs IH]; intros CP Locs' CP' HF H.
  - injection H as <- _. constructor.
  - apply Forall_cons in HF as [HLoc HF]. cbn [moveLargeConstants] in H.
    destruct (bool_decide (LocType Loc = Constant) && negb (isInt32 (Offset Loc)))
      eqn:Hlarge.
    + apply andb_true_iff in Hlarge as [HC%bool_decide_eq_true _].
      inv_outcome. simplify_eq.
      match goal with Hm : moveLargeConstants _ _ = Ret _ |- _ =>
        apply IH in Hm; [|done] end.
      constructor; [|done]. unfold recorded_location. simpl.
      destruct HLoc as [?|[?|[?|(_ & ? & ?)]]]; try congruence. tauto.
    + inv_outcome. simplify_eq.
      match goal with Hm : moveLargeConstants _ _ = Ret _ |- _ =>
        apply IH in Hm; [|done] end.
      constructor; [|done]. unfold recorded_location, parsed_location in *. tauto.
Qed.

Lemma recordStackMapOpers_locations
    AP MI PatchPointID MOI MOE recordResult this OS this' OS' :
  recordStackMapOpers std_sort OpType_of_imm AP MI PatchPointID MOI MOE
    recordResult this OS = Ret (this', OS') →
  ∃ CSI, CSInfos this' = CSInfos this ++ [CSI] ∧
         Forall recorded_location (Locations CSI).
Proof.
  unfold recordStackMapOpers, createTempSymbol. cbv beta iota zeta.
  intros H. inv_outcome. simplify_eq.
  match goal with Hp : parseOperands _ _ _ _ _ _ _ _ _ = Ret _ |- _ =>
    apply parseOperands_Ret_location in Hp as (new & -> & Hnew) end.
  eexists. split; [done|]. simpl.
  match goal with Hm : moveLargeConstants _ _ = Ret _ |- _ =>
    eapply moveLargeConstants_recorded; [|exact Hm] end.
  apply Forall_app. split; [|done].
  destruct recordResult; inv_outcome; simplify_eq; [|constructor].
  match goal with Hp : parseOperand _ _ _ _ _ _ _ _ = Ret _ |- _ =>
    apply parseOperand_Ret_location in Hp as Hl end.
  destruct Hl as [->|(Loc & -> & HLoc)]; [constructor|].
  by apply Forall_singleton.
Qed.

(** X9. In every call site of a writer that can be reached, each location
    is a register, a direct or an indirect memory reference, a constant
    or an index into the constant pool, never unprocessed; and a constant
    or a pool index has the DWARF register number 0 and the size 8. *)
Theorem recorded_locations_kinds this :
  reachable std_sort OpType_of_imm this →
  ∀ CSI Loc, CSI ∈ CSInfos this → Loc ∈ Locations CSI →
    LocType Loc ≠ Unprocessed ∧
    (LocType Loc = Constant ∨ LocType Loc = ConstantIndex →
     Reg Loc = 0 ∧ Size Loc = 8).
Proof.
  intros Hreach.
  assert (Forall (λ CSI, Forall recorded_location (Locations CSI)) (CSInfos this))
    as Hall.
  { induction Hreach as [|AP MI ID MOI MOE rr this OS this' OS' _ IH Hrec
                         |this OS this' OS' _ IH Hser].
    - constructor.
    - apply recordStackMapOpers_locations in Hrec as (CSI & -> & HCSI).
      apply Forall_app. split; [done|]. by apply Forall_singleton.
    - apply serializeToStackMapSection_Ret in Hser as [->| ->]; [done|].
      constructor. }
  intros CSI Loc HCSI HLoc.
  rewrite Forall_forall in Hall. specialize (Hall CSI HCSI).
  rewrite Forall_forall in Hall. specialize (Hall Loc HLoc).
  unfold recorded_location in Hall. split.
  - destruct Hall as [?|[?|[?|([?|?] & _)]]]; congruence.
  - intros HC. destruct Hall as [?|[?|[?|(_ & ? & ?)]]]; [| | |done];
      destruct HC; congruence.
Qed.

End Locations.

(** *** The theorems at the sample writer *)

Lemma sample_recorded_once_eq :
  recordStackMapOpers sample_sort sample_OpType_of_imm sample_AP sample_MI 1 2 12
    false empty_StackMaps empty_streamer
  = Ret (fst sample_recorded_once, snd sample_recorded_once).
Proof. vm_compute. reflexivity. Qed.

Lemma sample_recorded_once_reachable :
  reachable sample_sort sample_OpType_of_imm (fst sample_recorded_once).
Proof.
  eapply reachable_record; [apply reachable_empty|].
  apply sample_recorded_once_eq.
Qed.

Lemma frame_table_after_recording_witness :
  MapVector_lookup (NamedSymbol "f") (FnStackSize (fst sample_recorded_once))
    = Some 24 ∧
  NoDup (fst <$> FnStackSize (fst sample_recorded_once)).
Proof.
  pose proof (frame_table_after_recording sample_sort sample_OpType_of_imm
                sample_AP sample_MI 1 2 12 false empty_StackMaps empty_streamer
                (fst sample_recorded_once) (snd sample_recorded_once)
                (reachable_empty _ _) sample_recorded_once_eq)
    as (H1 & _ & H3 & _).
  split; [exact H1|exact H3].
Defined.

Lemma serialize_returns_iff_witness :
  ∃ OS', serializeToStackMapSection (fst sample_recorded_once) empty_streamer =
           Ret ({| CSInfos := []; ConstPool := [];
                   FnStackSize := FnStackSize (fst sample_recorded_once) |}, OS').
Proof.
  apply (serialize_returns_iff sample_sort sample_OpType_of_imm
           (fst sample_recorded_once) empty_streamer
           sample_recorded_once_reachable).
  vm_compute. discriminate.
Defined.

Lemma serialize_again_fails_witness :
  serializeToStackMapSection (fst sample_serialized) (snd sample_serialized)
    = AssertionFailure.
Proof.
  apply (serialize_again_fails sample_sort sample_OpType_of_imm
           (fst sample_recorded_once) (snd sample_recorded_once)
           (fst sample_serialized) (snd sample_serialized)
           (snd sample_serialized) sample_recorded_once_reachable).
  - vm_compute. discriminate.
  - vm_compute. reflexivity.
Defined.

Lemma recording_emits_label_witness :
  Output (snd sample_recorded_once) = [(OtherSection 0, Label (TempSymbol 0))] ∧
  NextTempSymbol (snd sample_recorded_once) = 1%nat.
Proof.
  pose proof (recording_emits_label sample_sort sample_OpType_of_imm
                sample_AP sample_MI 1 2 12 false empty_StackMaps empty_streamer
                (fst sample_recorded_once) (snd sample_recorded_once)
                sample_recorded_once_eq) as (H1 & _ & H3 & _).
  split; [exact H1|exact H3].
Defined.

Lemma recorded_locations_kinds_witness :
  LocType {| LocType := ConstantIndex; Size := 8; Reg := 0; Offset := 0 |}
    ≠ Unprocessed ∧
  (ConstantIndex = Constant ∨ ConstantIndex = ConstantIndex → 0 = 0 ∧ 8 = 8).
Proof.
  eapply (recorded_locations_kinds sample_sort sample_OpType_of_imm
            (fst sample_recorded_once) sample_recorded_once_reachable _
            {| LocType := ConstantIndex; Size := 8; Reg := 0; Offset := 0 |}).
  - eapply (list_elem_of_lookup_2 _ 0%nat). reflexivity.
  - eapply (list_elem_of_lookup_2 _ 0%nat). reflexivity.
Defined.

End RecorderFacts.

(** ** The entry points *)

Module EntryPointFacts.
Import StackMaps StackMapsFacts.

Section Frame.

Variable std_sort : LiveOutVec → LiveOutVec.
Variable OpType_of_imm : Z → option OpType.

(** [parseOperand] reads no operand before the one its iterator is at. *)
Lemma parseOperand_agree AP MI MI' MOI MOE Locs LiveOuts :
  (∀ i, (MOI ≤ i)%nat → MI' !! i = MI !! i) →
  parseOperand std_sort OpType_of_imm AP MI' MOI MOE Locs LiveOuts =
  parseOperand std_sort OpType_of_imm AP MI MOI MOE Locs LiveOuts.
Proof.
  intros Hagree. unfold parseOperand, deref. cbv zeta.
  rewrite (Hagree MOI), (Hagree (S MOI)), (Hagree (S (S MOI))),
    (Hagree (S (S (S MOI)))) by lia.
  done.
Qed.

Lemma parseOperands_agree AP MI MI' MOE fuel : ∀ MOI Locs LiveOuts,
  (∀ i, (MOI ≤ i)%nat → MI' !! i = MI !! i) →
  parseOperands std_sort OpType_of_imm fuel AP MI' MOI MOE Locs LiveOuts =
  parseOperands std_sort OpType_of_imm fuel AP MI MOI MOE Locs LiveOuts.
Proof.
  induction fuel as [|fuel IH]; intros MOI Locs LiveOuts Hagree; simpl;
    (case_decide; [done|]); [done|].
  rewrite (parseOperand_agree _ MI MI') by done.
  destruct (parseOperand _ _ _ MI _ _ _ _) as [[[MOI' Locs'] LiveOuts']| | |] eqn:Hp;
    try done.
  cbn [mbind outcome_bind].
  apply IH. intros i Hi. apply Hagree.
  apply parseOperand_Ret in Hp as (MO & _ & -> & _). lia.
Qed.

Lemma recordStackMapOpers_agree AP MI MI' PatchPointID MOI MOE this OS :
  length MI' = length MI →
  (∀ i, (MOI ≤ i)%nat → MI' !! i = MI !! i) →
  recordStackMapOpers std_sort OpType_of_imm AP MI' PatchPointID MOI MOE false this OS =
  recordStackMapOpers std_sort OpType_of_imm AP MI PatchPointID MOI MOE false this OS.
Proof.
  intros Hlen Hagree. unfold recordStackMapOpers. cbv zeta.
  destruct (createTempSymbol OS) as [MILabel OS1].
  cbn [mbind outcome_bind mret outcome_ret].
  by rewrite Hlen, (parseOperands_agree _ MI MI').
Qed.

(** X10. With [recordResult] false, [recordStackMapOpers] reads no
    operand before [MOI]: on two instructions with the same number of
    operands that agree from [MOI] on, it behaves the same, whether it
    returns or fails. *)
Theorem recordStackMapOpers_frame AP MI MI' PatchPointID MOI MOE this OS :
  length MI' = length MI →
  (∀ i, (MOI ≤ i)%nat → MI' !! i = MI !! i) →
  recordStackMapOpers std_sort OpType_of_imm AP MI' PatchPointID MOI MOE false this OS =
  recordStackMapOpers std_sort OpType_of_imm AP MI PatchPointID MOI MOE false this OS.
Proof. apply recordStackMapOpers_agree. Qed.

(** The constants [parseOperand] creates are immediates of the
    instruction. *)
Lemma parseOperand_Ret_constant AP MI MOI MOE Locs LiveOuts MOI' Locs' LiveOuts' :
  parseOperand std_sort OpType_of_imm AP MI MOI MOE Locs LiveOuts
    = Ret (MOI', Locs', LiveOuts') →
  Locs' = Locs ∨
  ∃ Loc, Locs' = Locs ++ [Loc] ∧
         (LocType Loc = Constant → MO_Immediate (Offset Loc) ∈ MI).
Proof.
  unfold parseOperand, deref. intros H.
  destruct (MI !! MOI) as [MO|] eqn:HMO; simpl in H; [|discriminate].
  destruct MO as [Imm|Reg d i ec sr|Mask|]; simpl in H.
  - destruct (OpType_of_imm Imm) as [[| |]|] eqn:HOp; [..|discriminate];
      inv_outcome; simplify_eq;
      right; eexists; (split; [done|]); simpl; try done.
    intros _.
    match goal with Hl : MI !! _ = Some ?MO, Hi : getImm ?MO = Ret _ |- _ =>
      destruct MO; try discriminate; injection Hi as ->;
      by eapply list_elem_of_lookup_2 end.
  - destruct i; simpl in H.
    + injection H as <- <- <-. by left.
    + inv_outcome. simplify_eq. right. eexists. split; [done|]. done.
  - inv_outcome. simplify_eq. by left.
  - injection H as <- <- <-. by left.
Qed.

Lemma parseOperands_Ret_constant fuel AP MI MOI MOE Locs LiveOuts Locs' LiveOuts' :
  parseOperands std_sort OpType_of_imm fuel AP MI MOI MOE Locs LiveOuts
    = Ret (Locs', LiveOuts') →
  ∃ new, Locs' = Locs ++ new ∧
    Forall (λ Loc, LocType Loc = Constant → MO_Immediate (Offset Loc) ∈ MI) new.
Proof.
  revert MOI Locs LiveOuts.
  induction fuel as [|fuel IH]; intros MOI Locs LiveOuts; simpl;
    (case_decide; [intros [= <- <-]; exists []; by rewrite app_nil_r|]);
    [done|].
  intros Hret. inv_outcome.
  match goal with Hp : parseOperand _ _ _ _ _ _ _ _ = Ret _ |- _ =>
    apply parseOperand_Ret_constant in Hp as Hl end.
  match goal with Hp : parseOperands _ _ _ _ _ _ _ _ _ = Ret _ |- _ =>
    apply IH in Hp as (new & -> & Hnew) end.
  destruct Hl as [->|(Loc & -> & HLoc)].
  - by exists new.
  - exists (Loc :: new). rewrite <- app_assoc. split; [done|]. by constructor.
Qed.

(** The promotion loop returns when the constants are 64-bit values. *)
Lemma moveLargeConstants_returns_constants Locs CP :
  Forall (λ Loc, LocType Loc = Constant → is_int64 (Offset Loc)) Locs →
  ∃ Locs' CP', moveLargeConstants Locs CP = Ret (Locs', CP').
Proof.
  intros Hall. revert CP. induction Hall as [|Loc Locs H64 _ IH]; intros CP; simpl.
  - eauto.
  - destruct (bool_decide _ && negb _) eqn:Hlarge.
    + apply large_constant_dec in Hlarge. destruct Hlarge as [HC Hn].
      destruct (large_constant_not_reserved _ (H64 HC) Hn) as [He Ht].
      rewrite assert_true.
      2:{ apply andb_true_iff. rewrite !negb_true_iff, !Z.eqb_neq. done. }
      simpl. destruct (MapVector_insert _ CP) as [CP1 Result].
      destruct (IH CP1) as (Locs' & CP' & ->). simpl. eauto.
    + destruct (IH CP) as (Locs' & CP' & ->). simpl. eauto.
Qed.

(** On operands that are well formed from [MOI] up to [MOE],
    [recordStackMapOpers] without a result returns. *)
Lemma recordStackMapOpers_returns AP MI PatchPointID MOI MOE this OS :
  immediates_int64 MI →
  well_formed_range OpType_of_imm AP MI MOI MOE →
  ∃ this' OS',
    recordStackMapOpers std_sort OpType_of_imm AP MI PatchPointID MOI MOE false
      this OS = Ret (this', OS').
Proof.
  intros Himm Hwf. unfold recordStackMapOpers. cbv zeta.
  destruct (createTempSymbol OS) as [MILabel OS1].
  cbn [mbind outcome_bind mret outcome_ret].
  destruct (parseOperands_returns std_sort OpType_of_imm AP MI MOI MOE Hwf
              (S (length MI)) [] []) as (Locs & LOs & Hp); [lia|].
  rewrite Hp. cbn [mbind outcome_bind].
  apply parseOperands_Ret_constant in Hp as (new & -> & Hnew).
  destruct (moveLargeConstants_returns_constants new (ConstPool this))
    as (Locs' & CP' & Hm).
  { eapply Forall_impl; [exact Hnew|]. intros Loc HL HC. by apply Himm, HL. }
  cbn [app]. rewrite Hm. cbn [mbind outcome_bind]. eauto.
Qed.

(** X11. [recordStackMap] on a STACKMAP whose operand 0 is an immediate
    and whose operands from the third on are well formed returns: it
    records one more call site, with operand 0 as its id.  Operand 1, the
    number of shadow bytes, is not read; on another opcode the call fails
    its assertion. *)
Theorem recordStackMap_returns AP MI PatchPointID this OS :
  MI !! 0%nat = Some (MO_Immediate PatchPointID) →
  (2 ≤ length MI)%nat →
  immediates_int64 MI →
  well_formed_range OpType_of_imm AP MI 2 (length MI) →
  ∃ this' OS' CSI,
    recordStackMap std_sort OpType_of_imm AP STACKMAP MI this OS = Ret (this', OS') ∧
    CSInfos this' = CSInfos this ++ [CSI] ∧
    ID CSI = to_uint64 PatchPointID ∧
    (∀ shadow,
       recordStackMap std_sort OpType_of_imm AP STACKMAP (<[1%nat := shadow]> MI)
         this OS = Ret (this', OS')) ∧
    (∀ Opcode, Opcode ≠ STACKMAP →
       recordStackMap std_sort OpType_of_imm AP Opcode MI this OS = AssertionFailure).
Proof.
  intros H0 Hlen Himm Hwf.
  destruct (recordStackMapOpers_returns AP MI PatchPointID 2 (length MI) this OS
              Himm Hwf) as (this' & OS' & Hrec).
  assert (recordStackMap std_sort OpType_of_imm AP STACKMAP MI this OS
          = Ret (this', OS')) as Hret.
  { unfold recordStackMap, deref, operands_next. rewrite H0.
    rewrite decide_True by lia. exact Hrec. }
  pose proof Hrec as Hrec'.
  apply recordStackMapOpers_Ret in Hrec' as (L0 & L & LO & _ & _ & HCS & _).
  exists this', OS'. eexists. split_and!; [done|exact HCS|done| |].
  - intros shadow. unfold recordStackMap, deref, operands_next.
    rewrite list_lookup_insert_ne by lia. rewrite H0.
    rewrite decide_True by (rewrite length_insert; lia).
    rewrite length_insert.
    change (bool_decide (STACKMAP = STACKMAP)) with true.
    cbn [assert mbind outcome_bind defined getImm].
    rewrite <- Hrec. apply recordStackMapOpers_agree.
    + by rewrite length_insert.
    + intros i Hi. rewrite list_lookup_insert_ne by lia. done.
  - intros Opcode HOp. unfold recordStackMap.
    by rewrite bool_decide_eq_false_2.
Qed.

End Frame.

Lemma stackmap_MI_well_formed :
  well_formed_range sample_OpType_of_imm sample_AP stackmap_MI 2 4.
Proof.
  eapply (wf_range_step _ _ _ 2 4 (MO_Immediate 2)); [lia| |done|].
  - by eapply wf_ConstantOp.
  - apply wf_range_end.
Qed.

Lemma recordStackMap_returns_witness :
  ∃ this' OS' CSI,
    recordStackMap sample_sort sample_OpType_of_imm sample_AP STACKMAP stackmap_MI
      empty_StackMaps empty_streamer = Ret (this', OS') ∧
    CSInfos this' = [CSI] ∧ ID CSI = 7.
Proof.
  destruct (recordStackMap_returns sample_sort sample_OpType_of_imm sample_AP
              stackmap_MI 7 empty_StackMaps empty_streamer)
    as (this' & OS' & CSI & H1 & H2 & H3 & _).
  - reflexivity.
  - simpl. lia.
  - intros Imm HImm. unfold stackmap_MI in HImm.
    repeat (apply elem_of_cons in HImm as [[= ->]|HImm]; [vm_compute; split; congruence|]).
    by apply elem_of_nil in HImm.
  - apply stackmap_MI_well_formed.
  - exists this', OS', CSI. split_and!; [exact H1|exact H2|exact H3].
Defined.

(** *** Scratch registers of a patchpoint *)

Lemma getNextScratchIdx_loop_spec MI (k : nat) : ∀ fuel S0,
  (S0 + k = length MI)%nat → (k ≤ fuel)%nat →
  getNextScratchIdx_loop fuel MI S0 =
    Ret (match list_find (λ MO, isScratch MO = true) (drop S0 MI) with
         | Some (i, _) => (S0 + i)%nat
         | None => length MI
         end).
Proof.
  induction k as [|k IH]; intros fuel S0 Hlen Hfuel.
  - rewrite drop_ge by lia. cbn [list_find].
    destruct fuel; cbn [getNextScratchIdx_loop];
      rewrite lookup_ge_None_2 by lia; f_equal; lia.
  - destruct (lookup_lt_is_Some_2 MI S0) as [MO HMO]; [lia|].
    rewrite (drop_S _ _ _ HMO). cbn [list_find].
    destruct fuel as [|fuel]; [lia|]. cbn [getNextScratchIdx_loop]. rewrite HMO.
    destruct (isScratch MO) eqn:Hs; cbn [negb].
    + rewrite decide_True by done. f_equal. lia.
    + rewrite decide_False by done. rewrite IH by lia.
      destruct (list_find _ (drop (S S0) MI)) as [[i ?]|]; simpl; f_equal; lia.
Qed.

Lemma getNextScratchIdx_loop_beyond MI fuel S0 :
  (length MI < S0)%nat → getNextScratchIdx_loop fuel MI S0 = Ret S0.
Proof.
  intros. destruct fuel; cbn [getNextScratchIdx_loop];
    by rewrite lookup_ge_None_2 by lia.
Qed.

Section Scratch.

Variable getVarIdx : PatchPointOpers → outcome nat.

(** X12. [getNextScratchIdx] scans the operands from the start index on
    (from [getVarIdx()] when the start index is 0) and returns the index
    of the first implicit early-clobber register def; it fails its
    assertion when the scan reaches the end of the operands without one.
    A start index beyond the number of operands is returned as it is. *)
Theorem getNextScratchIdx_first this StartIdx S0 :
  (StartIdx ≠ O ∧ S0 = StartIdx) ∨ (StartIdx = O ∧ getVarIdx this = Ret S0) →
  (∀ r, getNextScratchIdx getVarIdx this StartIdx = Ret r ↔
        ((∃ MO, PPO_MI this !! r = Some MO ∧ isScratch MO = true) ∧
         (S0 ≤ r)%nat ∧
         (∀ j MO, (S0 ≤ j < r)%nat → PPO_MI this !! j = Some MO →
                  isScratch MO = false)) ∨
        ((length (PPO_MI this) < S0)%nat ∧ r = S0)) ∧
  (getNextScratchIdx getVarIdx this StartIdx = AssertionFailure ↔
     (S0 ≤ length (PPO_MI this))%nat ∧
     ∀ j MO, (S0 ≤ j)%nat → PPO_MI this !! j = Some MO → isScratch MO = false).
Proof.
  intros Hstart. set (MI := PPO_MI this).
  assert (getNextScratchIdx getVarIdx this StartIdx =
          ScratchIdx ← getNextScratchIdx_loop (length MI) MI S0;
          _ ← assert (bool_decide (ScratchIdx ≠ length MI));
          Ret ScratchIdx) as ->.
  { unfold getNextScratchIdx. fold MI.
    destruct Hstart as [[Hne ->]|[-> HV]].
    - by rewrite decide_False.
    - rewrite decide_True by done. by rewrite HV. }
  destruct (decide (length MI < S0)%nat) as [Hbeyond|Hin].
  - rewrite getNextScratchIdx_loop_beyond by done.
    cbn [mbind outcome_bind]. rewrite bool_decide_eq_true_2 by lia.
    cbn [assert mbind outcome_bind]. split.
    + intros r. split.
      * intros [= <-]. by right.
      * intros [((MO & HMO & _) & Hle & _)|[_ ->]]; [|done].
        apply lookup_lt_Some in HMO. lia.
    + split; [discriminate|]. intros [? _]. lia.
  - rewrite (getNextScratchIdx_loop_spec MI (length MI - S0)) by lia.
    cbn [mbind outcome_bind].
    destruct (list_find (λ MO, isScratch MO = true) (drop S0 MI))
      as [[i MO]|] eqn:Hfind.
    + apply list_find_Some in Hfind as (Hi & Hs & Hfirst).
      rewrite lookup_drop in Hi.
      pose proof (lookup_lt_Some _ _ _ Hi) as Hlt.
      rewrite bool_decide_eq_true_2 by lia.
      cbn [assert mbind outcome_bind]. split.
      * intros r. split.
        -- intros [= <-]. left. split_and!; [by exists MO|lia|].
           intros j MO' Hj HMO'.
           specialize (Hfirst (j - S0)%nat MO').
           rewrite lookup_drop in Hfirst.
           replace (S0 + (j - S0))%nat with j in Hfirst by lia.
           destruct (isScratch MO'); [|done].
           exfalso. apply Hfirst; [done|lia|done].
        -- intros [((MO' & HMO' & Hs') & Hle & Hfirst')|[? _]]; [|lia].
           f_equal. destruct (Nat.lt_trichotomy (S0 + i) r) as [Hlt'|[->|Hlt']];
             [|done|].
           ++ specialize (Hfirst' (S0 + i)%nat MO ltac:(lia) Hi). congruence.
           ++ exfalso. apply (Hfirst (r - S0)%nat MO'); [|lia|done].
              rewrite lookup_drop. by replace (S0 + (r - S0))%nat with r by lia.
      * split; [discriminate|]. intros [_ Hnone].
        specialize (Hnone (S0 + i)%nat MO ltac:(lia) Hi). congruence.
    + apply list_find_None in Hfind.
      rewrite bool_decide_eq_false_2 by (intros Hc; by apply Hc).
      cbn [assert mbind outcome_bind]. split.
      * intros r. split; [discriminate|].
        intros [((MO & HMO & Hs) & Hle & _)|[? _]]; [|lia]. exfalso.
        rewrite Forall_forall in Hfind. apply (Hfind MO); [|done].
        apply list_elem_of_lookup. exists (r - S0)%nat.
        rewrite lookup_drop. by replace (S0 + (r - S0))%nat with r by lia.
      * split; [|done]. intros _. split; [lia|].
        intros j MO Hj HMO. destruct (isScratch MO) eqn:Hs; [|done]. exfalso.
        rewrite Forall_forall in Hfind. apply (Hfind MO); [|done].
        apply list_elem_of_lookup. exists (j - S0)%nat.
        rewrite lookup_drop. by replace (S0 + (j - S0))%nat with j by lia.
Qed.

End Scratch.

Lemma getNextScratchIdx_first_witness :
  getNextScratchIdx sample_getVarIdx patchpoint_opers 1 = Ret 8%nat.
Proof.
  apply (getNextScratchIdx_first sample_getVarIdx patchpoint_opers 1 1).
  - left. split; [discriminate|reflexivity].
  - left. split_and!.
    + eexists. split; reflexivity.
    + lia.
    + intros j MO Hj HMO.
      do 8 (destruct j as [|j]; [injection HMO as <-; reflexivity|]). lia.
Defined.

(** *** Statepoints and patchpoints *)

Section Statepoint.

Variable std_sort : LiveOutVec → LiveOutVec.
Variable OpType_of_imm : Z → option OpType.
Variable StatepointOpers_getVarIdx : MachineInstr → outcome nat.
Variable StatepointOpers_getID : MachineInstr → outcome Z.

Local Abbreviation recordStatepoint :=
  (recordStatepoint std_sort OpType_of_imm
     StatepointOpers_getVarIdx StatepointOpers_getID).

(** X13. [recordStatepoint] on a STATEPOINT whose operands are well
    formed from the index [getVarIdx()] gives up to the end returns: it
    records one more call site, with [getID()] as its id and without a
    result; when that index is the number of operands the call site has
    neither locations nor live-outs.  On another opcode the call fails
    its assertion. *)
Theorem recordStatepoint_returns AP MI StartIdx PatchPointID this OS :
  StatepointOpers_getVarIdx MI = Ret StartIdx →
  StatepointOpers_getID MI = Ret PatchPointID →
  (StartIdx ≤ length MI)%nat →
  immediates_int64 MI →
  well_formed_range OpType_of_imm AP MI StartIdx (length MI) →
  ∃ this' OS' CSI,
    recordStatepoint AP STATEPOINT MI this OS = Ret (this', OS') ∧
    CSInfos this' = CSInfos this ++ [CSI] ∧
    ID CSI = to_uint64 PatchPointID ∧
    (StartIdx = length MI → Locations CSI = [] ∧ LiveOuts CSI = []) ∧
    (∀ Opcode, Opcode ≠ STATEPOINT →
       recordStatepoint AP Opcode MI this OS = AssertionFailure).
Proof.
  intros HV HID Hlen Himm Hwf.
  destruct (recordStackMapOpers_returns std_sort OpType_of_imm AP MI PatchPointID
              StartIdx (length MI) this OS Himm Hwf) as (this' & OS' & Hrec).
  assert (recordStatepoint AP STATEPOINT MI this OS = Ret (this', OS')) as Hret.
  { unfold StackMaps.recordStatepoint, operands_next. rewrite HV, HID.
    change (bool_decide (STATEPOINT = STATEPOINT)) with true.
    cbn [assert mbind outcome_bind].
    rewrite decide_True by lia. exact Hrec. }
  exists this', OS'.
  assert (∃ CSI, CSInfos this' = CSInfos this ++ [CSI] ∧
            ID CSI = to_uint64 PatchPointID ∧
            (StartIdx = length MI → Locations CSI = [] ∧ LiveOuts CSI = []))
    as (CSI & HCS & HId & Hempty).
  { clear Hret. unfold recordStackMapOpers in Hrec. cbv zeta in Hrec.
    destruct (createTempSymbol OS) as [MILabel OS1].
    cbn [mbind outcome_bind mret outcome_ret] in Hrec.
    inv_outcome. simplify_eq. eexists. split_and!; [done|done|].
    intros ->. cbn [Locations LiveOuts].
    match goal with Hp : parseOperands _ _ _ _ _ _ _ _ _ = Ret _ |- _ =>
      rewrite parseOperands_exit in Hp; injection Hp as <- <- end.
    match goal with Hm : moveLargeConstants [] _ = Ret _ |- _ =>
      injection Hm as <- _ end.
    done. }
  exists CSI. split_and!; try done.
  intros Opcode HOp. unfold StackMaps.recordStatepoint.
  by rewrite bool_decide_eq_false_2.
Qed.

End Statepoint.

Lemma statepoint_MI_well_formed :
  well_formed_range sample_OpType_of_imm sample_AP statepoint_MI 2 5.
Proof.
  eapply (wf_range_step _ _ _ 2 5 (MO_Register 7 false false false 0));
    [lia| |done|].
  { eapply wf_register; [done|done|]. by exists 3. }
  eapply (wf_range_step _ _ _ 3 5 (MO_Immediate 2)); [lia| |done|].
  { by eapply wf_ConstantOp. }
  apply wf_range_end.
Qed.

Lemma recordStatepoint_returns_witness :
  ∃ this' OS' CSI,
    recordStatepoint sample_sort sample_OpType_of_imm
      (λ _, Ret 2%nat) (λ MI, MO ← deref MI 0; getImm MO)
      sample_AP STATEPOINT statepoint_MI empty_StackMaps empty_streamer
      = Ret (this', OS') ∧
    CSInfos this' = [CSI] ∧ ID CSI = 5.
Proof.
  destruct (recordStatepoint_returns sample_sort sample_OpType_of_imm
              (λ _, Ret 2%nat) (λ MI, MO ← deref MI 0; getImm MO)
              sample_AP statepoint_MI 2 5 empty_StackMaps empty_streamer)
    as (this' & OS' & CSI & H1 & H2 & H3 & _).
  - reflexivity.
  - reflexivity.
  - simpl. lia.
  - intros Imm HImm. unfold statepoint_MI in HImm.
    repeat (apply elem_of_cons in HImm as [HImm|HImm];
            [try discriminate; injection HImm as ->; vm_compute; split; congruence|]).
    by apply elem_of_nil in HImm.
  - apply statepoint_MI_well_formed.
  - exists this', OS', CSI. split_and!; [exact H1|exact H2|exact H3].
Defined.

Section PatchPoint.

Variable std_sort : LiveOutVec → LiveOutVec.
Variable OpType_of_imm : Z → option OpType.
Variable getMetaIdx : PatchPointOpers → nat → outcome nat.
Variable getMetaIdx_HasDef : bool → nat → outcome nat.
Variable getStackMapStartIdx : PatchPointOpers → outcome nat.
Variables IDPos NArgPos CCPos : nat.
Variable CallingConv_AnyReg : Z.

Local Abbreviation PatchPointOpers_new :=
  (PatchPointOpers_new getMetaIdx getMetaIdx_HasDef CCPos CallingConv_AnyReg).
Local Abbreviation recordPatchPoint :=
  (recordPatchPoint std_sort OpType_of_imm getMetaIdx getMetaIdx_HasDef
     getStackMapStartIdx IDPos NArgPos CCPos CallingConv_AnyReg).

(** [PatchPointOpers(&MI).hasDef()] in [recordStackMapOpers]: on an
    instruction for which the constructor has returned, as it has in
    [recordPatchPoint], it is the member [HasDef] of that object. *)
Lemma hasDef_PatchPointOpers_new MI opers :
  PatchPointOpers_new MI = Ret opers →
  hasDef MI = Ret (HasDef opers) ∧ PPO_MI opers = MI.
Proof.
  intros H. unfold StackMaps.PatchPointOpers_new in H. inv_outcome.
  match goal with Hb : _ = opers |- _ => rewrite <- Hb end. cbn [HasDef PPO_MI].
  unfold hasDef.
  match goal with Hd : deref MI 0 = Ret _ |- _ => rewrite Hd end. done.
Qed.

(** [parseOperand] on a register operand adds its location. *)
Lemma parseOperand_register AP MI MOI MOE Locs LiveOuts R d ec RegNo :
  MI !! MOI = Some (MO_Register R d false ec 0) →
  isPhysicalRegister (TRI AP) R = true →
  getDwarfRegNum R (TRI AP) = Ret RegNo →
  ∃ Loc, LocType Loc = Register ∧ Reg Loc = wrap 16 RegNo ∧
    parseOperand std_sort OpType_of_imm AP MI MOI MOE Locs LiveOuts
      = Ret (S MOI, Locs ++ [Loc], LiveOuts).
Proof.
  intros HMO Hphys HRegNo.
  unfold parseOperand, deref. rewrite HMO.
  cbn [defined mbind outcome_bind isImm isReg isImplicit getReg getSubReg].
  rewrite Hphys. cbn [assert mbind outcome_bind Z.eqb]. rewrite HRegNo.
  cbn [mbind outcome_bind]. eexists. split_and!; [| |reflexivity]; reflexivity.
Qed.

(** The operand loop on [k] register operands: their locations come
    first. *)
Lemma parseOperands_registers AP MI MOE k :
  ∀ fuel MOI Locs LiveOuts Locs' LiveOuts',
  (∀ i, (i < k)%nat → register_operand AP MI (MOI + i)) →
  (MOI + k ≤ MOE)%nat →
  parseOperands std_sort OpType_of_imm fuel AP MI MOI MOE Locs LiveOuts
    = Ret (Locs', LiveOuts') →
  ∃ regs rest, Locs' = Locs ++ regs ++ rest ∧ length regs = k ∧
               Forall (λ Loc, LocType Loc = Register) regs.
Proof.
  induction k as [|k IH]; intros fuel MOI Locs LiveOuts Locs' LiveOuts' Hregs Hle Hp.
  - apply parseOperands_Ret in Hp as (new & -> & _). by exists [], new.
  - destruct fuel as [|fuel].
    { simpl in Hp. rewrite decide_False in Hp by lia. done. }
    rewrite parseOperands_step in Hp by lia.
    destruct (Hregs 0%nat ltac:(lia)) as (R & d & ec & HMO & Hphys & RegNo & HRegNo).
    rewrite Nat.add_0_r in HMO.
    destruct (parseOperand_register AP MI MOI MOE Locs LiveOuts _ _ _ _
                HMO Hphys HRegNo) as (Loc & HLoc & _ & Hpo).
    rewrite Hpo in Hp. cbn [mbind outcome_bind] in Hp.
    apply IH in Hp as (regs & rest & -> & Hlen & Hall); [|..|lia].
    + exists (Loc :: regs), rest. rewrite <- app_assoc. cbn [app length].
      split_and!; [done|by rewrite Hlen|by constructor].
    + intros i Hi. replace (S MOI + i)%nat with (MOI + S i)%nat by lia.
      apply Hregs. lia.
Qed.

(** The promotion loop leaves the registers where they are. *)
Lemma moveLargeConstants_registers Locs : ∀ CP Locs' CP',
  moveLargeConstants Locs CP = Ret (Locs', CP') →
  ∀ i Loc, Locs !! i = Some Loc → LocType Loc = Register → Locs' !! i = Some Loc.
Proof.
  induction Locs as [|Loc0 Locs IH]; intros CP Locs' CP' H i Loc Hi HR; [done|].
  cbn [moveLargeConstants] in H.
  destruct (bool_decide (LocType Loc0 = Constant)) eqn:HC; cbn [andb] in H.
  - apply bool_decide_eq_true in HC.
    destruct i as [|i]; [injection Hi as ->; congruence|].
    destruct (negb _); inv_outcome; simplify_eq; cbn [lookup list_lookup];
      by eapply IH.
  - inv_outcome. simplify_eq. destruct i as [|i]; [done|].
    cbn [lookup list_lookup]. by eapply IH.
Qed.

(** The check of the anyregcc arguments passes on registers. *)
Lemma verify_anyregcc_registers Locs idxs :
  (∀ i, i ∈ idxs → ∃ Loc, Locs !! i = Some Loc ∧ LocType Loc = Register) →
  verify_anyregcc Locs idxs = Ret tt.
Proof.
  induction idxs as [|j idxs IH]; intros H; [done|].
  cbn [verify_anyregcc].
  destruct (H j) as (Loc & -> & HLoc); [by left|].
  cbn [defined mbind outcome_bind]. rewrite bool_decide_eq_true_2 by done.
  cbn [assert mbind outcome_bind]. apply IH. intros i Hi. apply H. by right.
Qed.


(** [recordStackMapOpers] on well-formed operands that start with [k]
    registers, with or without the result: it returns, and the locations
    of the result and of these registers come first in the call site. *)
Lemma recordStackMapOpers_registers AP MI PatchPointID MOI k recordResult this OS :
  immediates_int64 MI →
  well_formed_range OpType_of_imm AP MI MOI (length MI) →
  (∀ i, (i < k)%nat → register_operand AP MI (MOI + i)) →
  (recordResult = true → hasDef MI = Ret true ∧ register_operand AP MI 0) →
  ∃ this' OS' CSI,
    recordStackMapOpers std_sort OpType_of_imm AP MI PatchPointID MOI (length MI)
      recordResult this OS = Ret (this', OS') ∧
    CSInfos this' = CSInfos this ++ [CSI] ∧
    ID CSI = to_uint64 PatchPointID ∧
    ∀ i, (i < k + (if recordResult then 1 else 0))%nat →
         ∃ Loc, Locations CSI !! i = Some Loc ∧ LocType Loc = Register.
Proof.
  intros Himm Hwf Hregs Hres.
  assert (MOI + k ≤ length MI)%nat as Hle.
  { destruct k as [|k]; [|specialize (Hregs k ltac:(lia));
      destruct Hregs as (? & ? & ? & HMO%lookup_lt_Some & _); lia].
    rewrite Nat.add_0_r. inversion Hwf as [|? ? ? _ _ HMO _]; [lia|].
    apply lookup_lt_Some in HMO. lia. }
  assert (∃ pre, (recordResult = true →
                    hasDef MI = Ret true ∧
                    parseOperand std_sort OpType_of_imm AP MI 0 1 [] []
                      = Ret (1%nat, pre, [])) ∧
                 (recordResult = false → pre = []) ∧
                 length pre = (if recordResult then 1 else 0)%nat ∧
                 Forall (λ Loc, LocType Loc = Register) pre)
    as (pre & Hpre & Hpre0 & Hlpre & HpreR).
  { destruct recordResult.
    - destruct (Hres eq_refl) as (Hd & R & d & ec & HMO & Hphys & RegNo & HRegNo).
      destruct (parseOperand_register AP MI 0 1 [] [] _ _ _ _ HMO Hphys HRegNo)
        as (Loc & HLoc & _ & Hpo).
      exists [Loc]. split_and!; [done|done|done|by constructor].
    - exists []. split_and!; [done|done|done|constructor]. }
  destruct (parseOperands_returns std_sort OpType_of_imm AP MI MOI (length MI) Hwf
              (S (length MI)) pre []) as (Locs0 & LOs & Hp); [lia|].
  assert (parsedOperands std_sort OpType_of_imm AP MI MOI (length MI) recordResult
          = Ret (Locs0, LOs)) as Hparsed.
  { unfold parsedOperands. cbv zeta. destruct recordResult.
    - destruct (Hpre eq_refl) as [-> ->]. cbn [assert mbind outcome_bind]. exact Hp.
    - rewrite (Hpre0 eq_refl) in Hp. exact Hp. }
  destruct (parseOperands_registers AP MI (length MI) k _ _ _ _ _ _ Hregs Hle Hp)
    as (regs & rest & HLocs0 & Hlregs & HregsR).
  destruct (parseOperands_Ret_constant _ _ _ _ _ _ _ _ _ _ _ Hp)
    as (new & HLocs0' & Hnew).
  destruct (moveLargeConstants_returns_constants Locs0 (ConstPool this))
    as (Locs & CP' & Hm).
  { rewrite HLocs0'. apply Forall_app. split.
    - eapply Forall_impl; [exact HpreR|]. intros Loc HL HC. congruence.
    - eapply Forall_impl; [exact Hnew|]. intros Loc HL HC. by apply Himm, HL. }
  rewrite recordStackMapOpers_parsedOperands, Hparsed. cbn [mbind outcome_bind].
  rewrite Hm. cbn [mbind outcome_bind].
  do 3 eexists. split_and!; [reflexivity|reflexivity|reflexivity|].
  cbn [Locations]. intros i Hi.
  assert (∃ Loc, Locs0 !! i = Some Loc ∧ LocType Loc = Register) as (Loc & HiL & HR).
  { rewrite HLocs0, app_assoc.
    assert (i < length (pre ++ regs))%nat as Hi' by (rewrite length_app; lia).
    rewrite lookup_app_l by done.
    destruct (lookup_lt_is_Some_2 _ _ Hi') as [Loc HLoc]. exists Loc. split; [done|].
    assert (Forall (λ Loc, LocType Loc = Register) (pre ++ regs)) as HF
      by (apply Forall_app; done).
    by eapply (Forall_lookup_1 _ _ _ _ HF). }
  exists Loc. split; [|done].
  by eapply moveLargeConstants_registers.
Qed.


(** X14. [recordPatchPoint] on a PATCHPOINT for which the constructor of
    [PatchPointOpers] returns, whose meta operand at [IDPos] is an
    immediate and whose operands are well formed from
    [getStackMapStartIdx()] up to the end returns: it records one more
    call site, with that immediate as its id.  For the calling convention
    [AnyReg], when the [NArgs] operands from [getStackMapStartIdx()] on
    (and the def, when there is one) are registers that [parseOperand]
    records, the location of the def and those of the arguments come
    first in the call site and are registers, so that the check of the
    anyregcc arguments does not fail.  On another opcode the call fails its
    assertion. *)
Theorem recordPatchPoint_returns
    AP MI opers Idx PatchPointID StartIdx NArgIdx NArgs this OS :
  PatchPointOpers_new MI = Ret opers →
  getMetaIdx opers IDPos = Ret Idx →
  MI !! Idx = Some (MO_Immediate PatchPointID) →
  getStackMapStartIdx opers = Ret StartIdx →
  (StartIdx ≤ length MI)%nat →
  immediates_int64 MI →
  well_formed_range OpType_of_imm AP MI StartIdx (length MI) →
  (IsAnyReg opers = true →
     getMetaIdx opers NArgPos = Ret NArgIdx ∧
     MI !! NArgIdx = Some (MO_Immediate NArgs) ∧
     (∀ i, Z.of_nat i < wrap32 NArgs → register_operand AP MI (StartIdx + i)) ∧
     (HasDef opers = true → register_operand AP MI 0)) →
  ∃ this' OS' CSI,
    recordPatchPoint AP PATCHPOINT MI this OS = Ret (this', OS') ∧
    CSInfos this' = CSInfos this ++ [CSI] ∧
    ID CSI = to_uint64 PatchPointID ∧
    (IsAnyReg opers = true →
     ∀ i, Z.of_nat i < wrap32 NArgs + (if HasDef opers then 1 else 0) →
          ∃ Loc, Locations CSI !! i = Some Loc ∧ LocType Loc = Register) ∧
    (∀ Opcode, Opcode ≠ PATCHPOINT →
       recordPatchPoint AP Opcode MI this OS = AssertionFailure).
Proof.
  intros Hnew HIdx HID HStart Hle Himm Hwf HAny.
  destruct (hasDef_PatchPointOpers_new _ _ Hnew) as [Hdef _].
  set (k := if IsAnyReg opers then Z.to_nat (wrap32 NArgs) else 0%nat).
  assert (0 ≤ wrap32 NArgs) as HN
    by (unfold wrap32, wrap; apply Z.mod_pos_bound; lia).
  destruct (recordStackMapOpers_registers AP MI PatchPointID StartIdx k
              (IsAnyReg opers && HasDef opers) this OS Himm Hwf)
    as (this' & OS' & CSI & Hrec & HCS & HIDCSI & HregsR).
  { intros i Hi. unfold k in Hi. destruct (IsAnyReg opers); [|lia].
    destruct (HAny eq_refl) as (_ & _ & Hargs & _). apply Hargs. lia. }
  { intros [Ha Hd]%andb_true_iff. rewrite Hd in Hdef. split; [done|].
    destruct (HAny Ha) as (_ & _ & _ & H0). by apply H0. }
  assert (IsAnyReg opers = true →
          ∀ i, Z.of_nat i < wrap32 NArgs + (if HasDef opers then 1 else 0) →
               ∃ Loc, Locations CSI !! i = Some Loc ∧ LocType Loc = Register)
    as Hfirst.
  { intros Ha i Hi. apply HregsR. unfold k. rewrite Ha. cbn [andb].
    destruct (HasDef opers); lia. }
  exists this', OS', CSI. split_and!; [|done|done|done|].
  - unfold StackMaps.recordPatchPoint.
    rewrite bool_decide_eq_true_2 by done. cbn [assert mbind outcome_bind].
    rewrite Hnew. cbn [mbind outcome_bind]. rewrite HIdx. cbn [mbind outcome_bind].
    unfold deref. rewrite HID. cbn [defined getImm mbind outcome_bind].
    rewrite HStart. cbn [mbind outcome_bind].
    unfold operands_next. rewrite decide_True by done. cbn [mbind outcome_bind].
    rewrite Hrec. cbn [mbind outcome_bind].
    rewrite HCS, last_snoc. cbn [defined mbind outcome_bind].
    destruct (IsAnyReg opers) eqn:Ha; [|done].
    destruct (HAny eq_refl) as (HNIdx & HNArgs & _).
    rewrite HNIdx. cbn [mbind outcome_bind].
    rewrite HNArgs. cbn [defined getImm mbind outcome_bind].
    rewrite verify_anyregcc_registers; [done|].
    intros i Hi%elem_of_seq. apply (Hfirst eq_refl).
    destruct (HasDef opers); cbv beta iota zeta in Hi; [|lia].
    assert (wrap32 (wrap32 NArgs + 1) ≤ wrap32 NArgs + 1); [|lia].
    change (wrap32 (wrap32 NArgs + 1)) with ((wrap32 NArgs + 1) mod 2 ^ 32).
    apply Z.mod_le; lia.
  - intros Opcode HOp. unfold StackMaps.recordPatchPoint.
    by rewrite bool_decide_eq_false_2.
Qed.

End PatchPoint.

(** The sample PATCHPOINT: the def and the two arguments are recorded as
    registers. *)
Example scenario_patchpoint_anyreg :
  LocType <$> (CSInfos (fst patchpoint_recorded) ≫= Locations)
    = [Register; Register; Register].
Proof. vm_compute. reflexivity. Qed.

Lemma patchpoint_MI_well_formed :
  well_formed_range sample_OpType_of_imm sample_AP patchpoint_MI 6 9.
Proof.
  eapply (wf_range_step _ _ _ 6 9 (MO_Register 5 false false false 0));
    [lia| |done|].
  { eapply wf_register; [done|done|]. eexists. vm_compute. reflexivity. }
  eapply (wf_range_step _ _ _ 7 9 (MO_Register 7 false false false 0));
    [lia| |done|].
  { eapply wf_register; [done|done|]. eexists. vm_compute. reflexivity. }
  eapply (wf_range_step _ _ _ 8 9 (MO_Register 6 true true true 0));
    [lia| |done|].
  { by eapply wf_implicit_register. }
  apply wf_range_end.
Qed.

Lemma patchpoint_MI_register (MOI : nat) (R : Z) (d : bool) :
  patchpoint_MI !! MOI = Some (MO_Register R d false false 0) →
  register_operand sample_AP patchpoint_MI MOI.
Proof.
  intros HMO. exists R, d, false.
  destruct MOI as [|[|[|[|[|[|[|[|[|]]]]]]]]]; simplify_eq/=;
    (split_and!; [done|done|eexists; vm_compute; reflexivity]).
Qed.

Lemma recordPatchPoint_returns_witness :
  ∃ this' OS' CSI,
    recordPatchPoint sample_sort sample_OpType_of_imm
      sample_getMetaIdx sample_getMetaIdx_HasDef sample_getStackMapStartIdx
      0 3 4 13 sample_AP PATCHPOINT patchpoint_MI empty_StackMaps empty_streamer
      = Ret (this', OS') ∧
    CSInfos this' = CSInfos empty_StackMaps ++ [CSI] ∧
    ID CSI = to_uint64 9 ∧
    (IsAnyReg patchpoint_opers = true →
     ∀ i, Z.of_nat i < wrap32 2 + (if HasDef patchpoint_opers then 1 else 0) →
          ∃ Loc, Locations CSI !! i = Some Loc ∧ LocType Loc = Register) ∧
    (∀ Opcode, Opcode ≠ PATCHPOINT →
       recordPatchPoint sample_sort sample_OpType_of_imm
         sample_getMetaIdx sample_getMetaIdx_HasDef sample_getStackMapStartIdx
         0 3 4 13 sample_AP Opcode patchpoint_MI empty_StackMaps empty_streamer
       = AssertionFailure).
Proof.
  apply (recordPatchPoint_returns sample_sort sample_OpType_of_imm
           sample_getMetaIdx sample_getMetaIdx_HasDef sample_getStackMapStartIdx
           0 3 4 13 sample_AP patchpoint_MI patchpoint_opers 1 9 6 4 2
           empty_StackMaps empty_streamer).
  - vm_compute. reflexivity.
  - reflexivity.
  - reflexivity.
  - reflexivity.
  - simpl. lia.
  - intros Imm HImm. unfold patchpoint_MI in HImm.
    repeat (apply elem_of_cons in HImm as [HImm|HImm];
            [first [discriminate HImm
                   |injection HImm as ->; vm_compute; split; congruence]|]).
    by apply elem_of_nil in HImm.
  - apply patchpoint_MI_well_formed.
  - intros _. split_and!; [reflexivity|reflexivity| |].
    + intros i Hi. change (wrap32 2) with 2 in Hi.
      destruct i as [|[|i]]; [| |lia]; by eapply patchpoint_MI_register.
    + intros _. by eapply patchpoint_MI_register.
Defined.

End EntryPointFacts.

(** ** The section the writer emits *)

Module LayoutFacts.
Import StackMaps StackMapsFacts.

Lemma emit_all_nil OS : emit_all [] OS = OS.
Proof. done. Qed.

Lemma emit_all_cons e es OS : emit_all (e :: es) OS = emit_all es (emit e OS).
Proof. done. Qed.

Lemma emitStackmapHeader_emit_all this OS :
  emitStackmapHeader this OS = emit_all (header_fields this) OS.
Proof. done. Qed.

Lemma emitFunctionFrameRecords_emit_all this OS :
  emitFunctionFrameRecords this OS =
    emit_all (FnStackSize this ≫= frame_record_fields) OS.
Proof.
  unfold emitFunctionFrameRecords. generalize (FnStackSize this) as FS.
  intros FS. revert OS. induction FS as [|FR FS IH]; intros OS; [done|].
  cbn [foldl]. rewrite IH. done.
Qed.

Lemma emitConstantPoolEntries_emit_all this OS :
  emitConstantPoolEntries this OS =
    emit_all (ConstPool this ≫= constant_fields) OS.
Proof.
  unfold emitConstantPoolEntries. generalize (ConstPool this) as CP.
  intros CP. revert OS. induction CP as [|CE CP IH]; intros OS; [done|].
  cbn [foldl]. rewrite IH. done.
Qed.

Lemma emitCallsiteEntry_emit_all OS CSI :
  emitCallsiteEntry OS CSI =
    emit_all (callsite_entry (section_size (CurrentSection OS) OS) CSI) OS.
Proof.
  unfold callsite_entry. case_decide as Hov.
  - by apply emitCallsiteEntry_sentinel.
  - rewrite emitCallsiteEntry_real by done.
    rewrite emit_all_app, EmitValueToAlignment_8.
    rewrite CurrentSection_emit_all, section_size_emit_all.
    by rewrite decide_True.
Qed.

Lemma emitCallsiteEntries_emit_all CSIs OS :
  foldl emitCallsiteEntry OS CSIs =
    emit_all (callsite_entries (section_size (CurrentSection OS) OS) CSIs) OS.
Proof.
  revert OS. induction CSIs as [|CSI CSIs IH]; intros OS; [done|].
  cbn [foldl callsite_entries]. rewrite IH, emitCallsiteEntry_emit_all.
  rewrite emit_all_app, CurrentSection_emit_all, section_size_emit_all.
  by rewrite decide_True.
Qed.

Lemma size_of_header_fields this : size_of (header_fields this) = 16.
Proof. done. Qed.

Lemma size_of_frame_records (FS : FnStackSizeMap) :
  size_of (FS ≫= frame_record_fields) = 16 * Z.of_nat (length FS).
Proof.
  induction FS as [|FR FS IH]; [done|].
  cbn [mbind list_bind]. rewrite size_of_app, IH. cbn [length].
  unfold frame_record_fields, size_of. simpl. lia.
Qed.

Lemma size_of_constants (CP : ConstantPool) :
  size_of (CP ≫= constant_fields) = 8 * Z.of_nat (length CP).
Proof.
  induction CP as [|CE CP IH]; [done|].
  cbn [mbind list_bind]. rewrite size_of_app, IH. cbn [length].
  unfold constant_fields, size_of. simpl. lia.
Qed.

(** The streamer after a serialization: what was emitted, where. *)
Lemma serialized_emit_all this OS :
  AddBlankLine (emitCallsiteEntries this (before_callsite_entries this OS)) =
  emit_all (section_image (section_size StackMapSection OS) this)
           (SwitchSection StackMapSection OS).
Proof.
  unfold section_image, before_callsite_entries, emitCallsiteEntries,
    AddBlankLine, EmitLabel.
  rewrite emitCallsiteEntries_emit_all.
  rewrite emitConstantPoolEntries_emit_all, emitFunctionFrameRecords_emit_all,
    emitStackmapHeader_emit_all.
  set (OS0 := SwitchSection StackMapSection OS).
  assert (section_size StackMapSection OS0 = section_size StackMapSection OS)
    as <- by done.
  assert (CurrentSection OS0 = StackMapSection) as HCS by done.
  rewrite !CurrentSection_emit_all, CurrentSection_emit, HCS.
  rewrite !section_size_emit_all, !CurrentSection_emit_all, CurrentSection_emit,
    section_size_emit, HCS.
  rewrite !decide_True by done.
  rewrite size_of_header_fields, size_of_frame_records, size_of_constants.
  cbn [Emitted_size].
  rewrite !emit_all_app. cbn [emit_all foldl].
  repeat f_equal. lia.
Qed.

Lemma section_contents_emit_all Sec es OS :
  section_contents Sec (emit_all es OS) =
  section_contents Sec OS ++ (if decide (CurrentSection OS = Sec) then es else []).
Proof.
  unfold section_contents. rewrite Output_emit_all, filter_app, fmap_app. f_equal.
  case_decide as HSec.
  - induction es as [|e es IH]; [done|].
    cbn [fmap list_fmap]. rewrite filter_cons_True by done.
    cbn [fmap list_fmap snd]. f_equal. exact IH.
  - induction es as [|e es IH]; [done|].
    cbn [fmap list_fmap]. rewrite filter_cons_False by done. exact IH.
Qed.

Lemma NextTempSymbol_emit_all es OS :
  NextTempSymbol (emit_all es OS) = NextTempSymbol OS.
Proof.
  revert OS. induction es as [|e es IH]; intros OS; [done|].
  rewrite emit_all_cons, IH. done.
Qed.

(** The outcome of a serialization with call sites. *)
Lemma serialized_streamer this OS :
  CSInfos this ≠ [] →
  serializeToStackMapSection this OS =
    Ret ({| CSInfos := []; ConstPool := []; FnStackSize := FnStackSize this |},
         emit_all (section_image (section_size StackMapSection OS) this)
                  (SwitchSection StackMapSection OS)).
Proof.
  intros HCS. rewrite serializeToStackMapSection_nonempty by done.
  by rewrite serialized_emit_all.
Qed.

(** X15. [serializeToStackMapSection] on a writer with call sites switches
    to the stack map section and emits into it, in this order, the symbol
    [__LLVM_StackMaps], the header (version 1, two reserved zero fields,
    the numbers of functions, constants and call sites), a frame record
    per function and the constants, both in insertion order, a record per
    call site and a blank line.  Nothing is emitted into another section,
    and no temporary symbol is created. *)
Theorem serialize_layout this OS :
  CSInfos this ≠ [] →
  ∃ this' OS',
    serializeToStackMapSection this OS = Ret (this', OS') ∧
    CurrentSection OS' = StackMapSection ∧
    NextTempSymbol OS' = NextTempSymbol OS ∧
    Output OS' = Output OS ++
      ((λ e, (StackMapSection, e)) <$>
         section_image (section_size StackMapSection OS) this) ∧
    section_contents StackMapSection OS' =
      section_contents StackMapSection OS ++
      section_image (section_size StackMapSection OS) this ∧
    (∀ Sec, Sec ≠ StackMapSection →
            section_contents Sec OS' = section_contents Sec OS).
Proof.
  intros HCS. do 2 eexists. split; [by apply serialized_streamer|].
  split_and!.
  - by rewrite CurrentSection_emit_all.
  - by rewrite NextTempSymbol_emit_all.
  - by rewrite Output_emit_all.
  - rewrite section_contents_emit_all. by rewrite decide_True.
  - intros Sec HSec. rewrite section_contents_emit_all.
    rewrite decide_False by (cbn; congruence). by rewrite app_nil_r.
Qed.

Lemma serialize_layout_witness :
  ∃ this' OS',
    serializeToStackMapSection (fst sample_recorded_once) (snd sample_recorded_once)
      = Ret (this', OS') ∧
    CurrentSection OS' = StackMapSection ∧
    section_contents StackMapSection OS' =
      section_image 0 (fst sample_recorded_once).
Proof.
  destruct (serialize_layout (fst sample_recorded_once) (snd sample_recorded_once))
    as (this' & OS' & H1 & H2 & _ & _ & H5 & _).
  - vm_compute. discriminate.
  - exists this', OS'. split_and!; [exact H1|exact H2|exact H5].
Defined.

End LayoutFacts.

(** ** The reader on the section the writer emits *)

Module RoundTripFacts.
Import StackMaps StackMapsFacts ObjectFile.

(** *** Little-endian encoding *)

Lemma byte_val_byte_of v : Reader.byte_val (byte_of v) = v mod 256.
Proof.
  unfold Reader.byte_val, byte_of.
  pose proof (Z.mod_pos_bound v 256 ltac:(lia)) as Hr.
  destruct (Byte.of_N (Z.to_N (v mod 256))) as [b|] eqn:Hb; simpl.
  - apply Byte.to_of_N in Hb. rewrite Hb. lia.
  - apply Byte.of_N_None_iff in Hb. lia.
Qed.

Lemma length_le_encode n v : length (le_encode n v) = n.
Proof. revert v. induction n as [|n IH]; intros v; simpl; [done|]. by rewrite IH. Qed.

Lemma le_decode_le_encode n v :
  Reader.le_decode (le_encode n v) = v mod 256 ^ Z.of_nat n.
Proof.
  revert v. induction n as [|n IH]; intros v.
  - simpl. by rewrite Z.mod_1_r.
  - cbn [le_encode Reader.le_decode]. rewrite byte_val_byte_of, IH.
    rewrite Nat2Z.inj_succ, Z.pow_succ_r by lia.
    rewrite Z.rem_mul_r by lia. done.
Qed.

Lemma le_decode_zeros n : Reader.le_decode (replicate n Byte.x00) = 0.
Proof. induction n as [|n IH]; simpl; [done|]. rewrite IH. done. Qed.

(** *** Bytes in a buffer *)

Lemma holds_app buf offset bs1 bs2 :
  holds buf offset (bs1 ++ bs2) ↔
  holds buf offset bs1 ∧ holds buf (offset + Z.of_nat (length bs1)) bs2.
Proof.
  unfold holds. split.
  - intros (pre & post & -> & <-). split.
    + exists pre, (bs2 ++ post). by rewrite <- app_assoc.
    + exists (pre ++ bs1), post. rewrite <- !app_assoc.
      split; [done|]. rewrite length_app. lia.
  - intros [(pre & post & -> & <-) (pre' & post' & Heq & Hlen)].
    assert (pre' = pre ++ bs1) as ->.
    { apply (f_equal (take (length pre'))) in Heq.
      rewrite take_app_length in Heq.
      assert (length pre' = length (pre ++ bs1)) as Hl
        by (rewrite length_app; lia).
      rewrite Hl, app_assoc, take_app_length in Heq. done. }
    rewrite <- !app_assoc in Heq. do 2 apply app_inv_head in Heq.
    exists pre, post'. split; [|done]. by rewrite Heq, <- app_assoc.
Qed.

Lemma holds_nil buf offset :
  0 ≤ offset ≤ Z.of_nat (length buf) → holds buf offset [].
Proof.
  intros H. exists (take (Z.to_nat offset) buf), (drop (Z.to_nat offset) buf).
  split; [cbn [app]; by rewrite take_drop|]. rewrite length_take. lia.
Qed.

Lemma holds_bytes_at buf offset bs :
  holds buf offset bs →
  Reader.bytes_at buf offset (Z.of_nat (length bs)) = Some bs.
Proof.
  intros (pre & post & -> & <-).
  rewrite ReaderFacts.bytes_at_Some; [|lia|lia|rewrite !length_app; lia].
  f_equal. rewrite !Nat2Z.id, drop_app_length, take_app_length. done.
Qed.

Lemma holds_bounds buf offset bs :
  holds buf offset bs →
  0 ≤ offset ∧ offset + Z.of_nat (length bs) ≤ Z.of_nat (length buf).
Proof. intros (pre & post & -> & <-). rewrite !length_app. lia. Qed.

Lemma mod_uint64_mod x (k : Z) :
  0 ≤ k ≤ 8 → to_uint64 x mod 256 ^ k = x mod 256 ^ k.
Proof.
  intros Hk. unfold to_uint64, wrap. apply Z.mod_mod_divide.
  exists (256 ^ (8 - k)). rewrite <- Z.pow_add_r by lia.
  replace (8 - k + k) with 8 by lia. done.
Qed.

Lemma LocationRecord_of_bytes_fields a b c d :
  Reader.LocationRecord_of_bytes
    (le_encode 1 a ++ le_encode 1 b ++ le_encode 2 c ++ le_encode 4 d) =
  {| Reader.Type_ := a mod 256; Reader.SizeInBytes := b mod 256;
     Reader.DwarfRegNum := c mod 256 ^ 2;
     Reader.Offset := Reader.to_int32 (d mod 256 ^ 4) |}.
Proof.
  unfold Reader.LocationRecord_of_bytes.
  pose proof (le_decode_le_encode 1 a) as Ha.
  pose proof (le_decode_le_encode 1 b) as Hb.
  pose proof (le_decode_le_encode 2 c) as Hc.
  pose proof (le_decode_le_encode 4 d) as Hd.
  cbn [le_encode app take drop] in *.
  rewrite Ha, Hb, Hc, Hd. done.
Qed.

Section Bytes.

Variable addr : MCSymbol → Z.

(** The locations the reader finds for a call site. *)
Local Abbreviation read_Locations CSI :=
  (if decide (overflows CSI) then [] else Locations CSI).

Lemma section_bytes_app es1 es2 :
  section_bytes addr (es1 ++ es2) = section_bytes addr es1 ++ section_bytes addr es2.
Proof. unfold section_bytes. apply bind_app. Qed.

Lemma section_bytes_cons e es :
  section_bytes addr (e :: es) = Emitted_bytes addr e ++ section_bytes addr es.
Proof. done. Qed.

Lemma length_Location_bytes Loc :
  length (section_bytes addr (Location_fields Loc)) = 8%nat.
Proof.
  unfold section_bytes, Location_fields. cbn [mbind list_bind Emitted_bytes].
  by rewrite !length_app, !length_le_encode.
Qed.

Lemma callsite_entry_size offset CSI :
  offset mod 8 = 0 → readable CSI →
  size_of (callsite_entry offset CSI) =
    24 + 8 * Z.of_nat (length (read_Locations CSI)).
Proof.
  intros Hal Hrd. unfold callsite_entry. case_decide as Hov; [done|].
  destruct Hrd as [?|HLO]; [done|].
  rewrite size_of_app, size_of_callsite_record, HLO, size_of_singleton.
  cbn [Emitted_size length]. unfold padding_to_8.
  Z.div_mod_to_equations. lia.
Qed.

Lemma callsite_entry_bytes offset CSI :
  offset mod 8 = 0 → readable CSI →
  section_bytes addr (callsite_entry offset CSI) =
    le_encode 8 (if decide (overflows CSI) then UINT64_MAX else to_uint64 (ID CSI)) ++
    le_encode 4 (MCExpr_value addr (CSOffsetExpr CSI)) ++ le_encode 2 0 ++
    le_encode 2 (Z.of_nat (length (read_Locations CSI))) ++
    section_bytes addr (read_Locations CSI ≫= Location_fields) ++
    le_encode 2 0 ++ le_encode 2 0 ++ replicate 4 Byte.x00.
Proof.
  intros Hal Hrd. unfold callsite_entry. case_decide as Hov; [done|].
  destruct Hrd as [?|HLO]; [done|].
  rewrite section_bytes_app, size_of_callsite_record, HLO.
  unfold callsite_record. rewrite HLO.
  rewrite !section_bytes_app. cbn [length mbind list_bind app].
  rewrite !section_bytes_cons. cbn [Emitted_bytes].
  assert (padding_to_8 (offset + (20 + 8 * Z.of_nat (length (Locations CSI))
                                  + 4 * Z.of_nat 0)) = 4) as ->.
  { unfold padding_to_8. Z.div_mod_to_equations. lia. }
  change (section_bytes addr []) with (@nil Byte.byte).
  change (Z.to_nat 8) with 8%nat. change (Z.to_nat 4) with 4%nat.
  change (Z.to_nat 2) with 2%nat. change (Z.of_nat 0) with 0.
  by rewrite !app_nil_r, <- !app_assoc.
Qed.

Lemma callsite_entry_length offset CSI :
  offset mod 8 = 0 → readable CSI →
  Z.of_nat (length (section_bytes addr (callsite_entry offset CSI))) =
    size_of (callsite_entry offset CSI).
Proof.
  intros Hal Hrd. rewrite callsite_entry_bytes, callsite_entry_size by done.
  rewrite !length_app, !length_le_encode, length_replicate.
  assert (∀ Ls, length (section_bytes addr (Ls ≫= Location_fields))
                = (8 * length Ls)%nat) as ->.
  { induction Ls as [|L Ls IH]; [done|].
    cbn [mbind list_bind]. rewrite section_bytes_app, length_app, IH,
      length_Location_bytes. simpl. lia. }
  lia.
Qed.

Lemma callsite_entries_length CSIs : ∀ offset,
  offset mod 8 = 0 → Forall readable CSIs →
  Z.of_nat (length (section_bytes addr (callsite_entries offset CSIs))) =
    size_of (callsite_entries offset CSIs) ∧
  24 * Z.of_nat (length CSIs) ≤ size_of (callsite_entries offset CSIs) ∧
  (offset + size_of (callsite_entries offset CSIs)) mod 8 = 0.
Proof.
  induction CSIs as [|CSI CSIs IH]; intros offset Hal Hrd.
  - simpl. split_and!; [done|lia|by rewrite Z.add_0_r].
  - apply Forall_cons in Hrd as [Hrd Hrds]. cbn [callsite_entries length].
    rewrite section_bytes_app, length_app, size_of_app, Nat2Z.inj_add.
    rewrite callsite_entry_length by done.
    pose proof (callsite_entry_size offset CSI Hal Hrd) as Hsz.
    destruct (IH (offset + size_of (callsite_entry offset CSI))) as (-> & Hge & Hal');
      [rewrite Hsz; Z.div_mod_to_equations; lia|done|].
    split_and!; [done|lia|].
    by rewrite Z.add_assoc.
Qed.

Lemma length_Emitted_bytes e :
  0 ≤ Emitted_size e →
  Z.of_nat (length (Emitted_bytes addr e)) = Emitted_size e.
Proof.
  destruct e; cbn [Emitted_bytes Emitted_size length]; intros H;
    rewrite ?length_le_encode, ?length_replicate; lia.
Qed.

Lemma length_section_bytes es :
  Forall (λ e, 0 ≤ Emitted_size e) es →
  Z.of_nat (length (section_bytes addr es)) = size_of es.
Proof.
  induction 1 as [|e es He _ IH]; [done|].
  rewrite section_bytes_cons, length_app, Nat2Z.inj_add, IH,
    length_Emitted_bytes by done.
  done.
Qed.

Ltac sizes_nonneg :=
  repeat (apply Forall_cons; split; [cbn [Emitted_size]; lia|]); apply Forall_nil_2.

Lemma callsite_record_nonneg CSI :
  Forall (λ e, 0 ≤ Emitted_size e) (callsite_record CSI).
Proof.
  unfold callsite_record. rewrite !Forall_app. split_and!.
  - sizes_nonneg.
  - induction (Locations CSI) as [|L Ls IH]; [constructor|].
    cbn [mbind list_bind]. apply Forall_app. split; [|done].
    sizes_nonneg.
  - sizes_nonneg.
  - induction (LiveOuts CSI) as [|L Ls IH]; [constructor|].
    cbn [mbind list_bind]. apply Forall_app. split; [|done].
    sizes_nonneg.
Qed.

Lemma callsite_entry_nonneg offset CSI :
  Forall (λ e, 0 ≤ Emitted_size e) (callsite_entry offset CSI) ∧
  20 ≤ size_of (callsite_entry offset CSI).
Proof.
  unfold callsite_entry. case_decide.
  - split; [unfold sentinel_record; sizes_nonneg|simpl; lia].
  - pose proof (padding_to_8_range (offset + size_of (callsite_record CSI))).
    split.
    + apply Forall_app. split; [apply callsite_record_nonneg|].
      sizes_nonneg.
    + rewrite size_of_app, size_of_callsite_record, size_of_singleton.
      cbn [Emitted_size].
      match goal with |- context [padding_to_8 ?z] =>
        pose proof (padding_to_8_range z) end.
      lia.
Qed.

Lemma callsite_entries_nonneg CSIs : ∀ offset,
  Forall (λ e, 0 ≤ Emitted_size e) (callsite_entries offset CSIs) ∧
  20 * Z.of_nat (length CSIs) ≤ size_of (callsite_entries offset CSIs).
Proof.
  induction CSIs as [|CSI CSIs IH]; intros offset; [by split|].
  cbn [callsite_entries length].
  destruct (callsite_entry_nonneg offset CSI) as [H1 H2].
  destruct (IH (offset + size_of (callsite_entry offset CSI))) as [H3 H4].
  split; [by apply Forall_app|]. rewrite size_of_app. lia.
Qed.

Lemma section_image_nonneg base this :
  Forall (λ e, 0 ≤ Emitted_size e) (section_image base this).
Proof.
  unfold section_image. rewrite !Forall_app. split_and!.
  - sizes_nonneg.
  - sizes_nonneg.
  - induction (FnStackSize this) as [|FR FS IH]; [constructor|].
    cbn [mbind list_bind]. apply Forall_app. split; [|done].
    sizes_nonneg.
  - induction (ConstPool this) as [|CE CP IH]; [constructor|].
    cbn [mbind list_bind]. apply Forall_app. split; [|done].
    sizes_nonneg.
  - apply callsite_entries_nonneg.
  - sizes_nonneg.
Qed.

End Bytes.

Section Buffer.

Variable addr : MCSymbol → Z.
Variable buf : list Byte.byte.
Local Abbreviation len := (Z.of_nat (length buf)).
Hypothesis Hmax : len < 2 ^ 32.

Lemma parse_primitive_holds T v offset :
  holds buf offset (le_encode (Z.to_nat (Reader.sizeof T)) v) →
  Reader.parse_primitive T (Some buf) offset len =
    Ret (v mod 256 ^ Reader.sizeof T, offset + Reader.sizeof T).
Proof.
  intros Hh. pose proof (ReaderFacts.sizeof_pos T) as Hsz.
  apply (ReaderFacts.parse_primitive_read buf Hmax).
  unfold Reader.read. apply holds_bytes_at in Hh.
  rewrite length_le_encode, Z2Nat.id in Hh by lia. rewrite Hh. simpl.
  rewrite le_decode_le_encode, Z2Nat.id by lia. done.
Qed.

Lemma LocationRecord_parse_holds Loc offset :
  holds buf offset (section_bytes addr (Location_fields Loc)) →
  Reader.LocationRecord_parse (Some buf) offset len =
    Ret (LocationRecord_of Loc, offset + 8).
Proof.
  intros Hh. apply (ReaderFacts.LocationRecord_parse_Ret_iff buf Hmax).
  assert (section_bytes addr (Location_fields Loc) =
          le_encode 1 (to_uint64 (LocationType_value (LocType Loc))) ++
          le_encode 1 (to_uint64 (Size Loc)) ++
          le_encode 2 (to_uint64 (Reg Loc)) ++
          le_encode 4 (to_uint64 (Offset Loc))) as Hbs.
  { unfold section_bytes, Location_fields. cbn [mbind list_bind Emitted_bytes].
    by rewrite app_nil_r. }
  rewrite Hbs in Hh. apply holds_bytes_at in Hh.
  rewrite !length_app, !length_le_encode in Hh.
  unfold Reader.location_at, Reader.sizeof_LocationRecord.
  change (Z.of_nat (1 + (1 + (2 + 4)))) with 8 in Hh. rewrite Hh.
  cbn [fmap option_fmap option_map]. rewrite LocationRecord_of_bytes_fields.
  change 256 with (256 ^ 1) at 1 2.
  rewrite !mod_uint64_mod by lia.
  assert (0 ≤ LocationType_value (LocType Loc) ≤ 5) as Hty
    by (destruct (LocType Loc); simpl; lia).
  split_and!; [|simpl; lia|done].
  f_equal. unfold LocationRecord_of, wrap32, wrap.
  change (256 ^ 1) with (2 ^ 8). change (256 ^ 2) with (2 ^ 16).
  change (256 ^ 4) with (2 ^ 32). f_equal.
  change (2 ^ 8) with 256. rewrite Z.mod_small; [done|lia].
Qed.

Lemma parse_Locations_holds Locs : ∀ offset,
  holds buf offset (section_bytes addr (Locs ≫= Location_fields)) →
  Reader.parse_Locations (length Locs) (Some buf) offset len =
    Ret (LocationRecord_of <$> Locs, offset + 8 * Z.of_nat (length Locs)).
Proof.
  induction Locs as [|Loc Locs IH]; intros offset Hh.
  - simpl. do 2 f_equal. lia.
  - cbn [mbind list_bind] in Hh. rewrite section_bytes_app in Hh.
    apply holds_app in Hh as [H1 H2]. rewrite length_Location_bytes in H2.
    change (Z.of_nat 8) with 8 in H2.
    cbn [length Reader.parse_Locations].
    rewrite (LocationRecord_parse_holds _ _ H1). cbn [mbind outcome_bind].
    rewrite (IH _ H2). cbn [mbind outcome_bind fmap list_fmap].
    do 2 f_equal. lia.
Qed.

(** A stack map record as the writer lays it out, with its four bytes of
    padding, is read back. *)
Lemma StackMapRecord_parse_fields id pc (Ls : list Location) offset :
  holds buf offset
    (le_encode 8 id ++ le_encode 4 pc ++ le_encode 2 0 ++
     le_encode 2 (Z.of_nat (length Ls)) ++
     section_bytes addr (Ls ≫= Location_fields) ++
     le_encode 2 0 ++ le_encode 2 0 ++ replicate 4 Byte.x00) →
  offset mod 8 = 0 → Z.of_nat (length Ls) ≤ 65535 →
  Reader.StackMapRecord_parse (Some buf) offset len =
    Ret ({| Reader.PatchPointID := to_uint64 id;
            Reader.InstructionOffset := wrap32 pc;
            Reader.ReservedFlags := 0;
            Reader.Locations := LocationRecord_of <$> Ls |},
         offset + 24 + 8 * Z.of_nat (length Ls)).
Proof.
  intros Hh Hal Hn.
  pose proof (holds_bounds _ _ _ Hh) as [Hlo Hhi].
  rewrite !length_app, !length_le_encode, length_replicate in Hhi.
  assert (length (section_bytes addr (Ls ≫= Location_fields)) = (8 * length Ls)%nat)
    as HlenLs.
  { clear. induction Ls as [|L Ls IH]; [done|].
    cbn [mbind list_bind]. rewrite section_bytes_app, length_app, IH,
      length_Location_bytes. simpl. lia. }
  rewrite HlenLs in Hhi.
  apply holds_app in Hh as [Hid Hh]. rewrite length_le_encode in Hh.
  apply holds_app in Hh as [Hpc Hh]. rewrite length_le_encode in Hh.
  apply holds_app in Hh as [Hfl Hh]. rewrite length_le_encode in Hh.
  apply holds_app in Hh as [Hnl Hh]. rewrite length_le_encode in Hh.
  apply holds_app in Hh as [Hls Hh]. rewrite HlenLs in Hh.
  apply holds_app in Hh as [Hpd Hh]. rewrite length_le_encode in Hh.
  apply holds_app in Hh as [Hlo' _].
  rewrite Nat2Z.inj_mul in Hpd, Hlo'.
  change (Z.of_nat 8) with 8 in *. change (Z.of_nat 4) with 4 in *.
  change (Z.of_nat 2) with 2 in *.
  unfold Reader.StackMapRecord_parse.
  rewrite (parse_primitive_holds Reader.uint64_t id offset Hid).
  cbn [mbind outcome_bind Reader.sizeof].
  rewrite (parse_primitive_holds Reader.uint32_t pc _ Hpc).
  cbn [mbind outcome_bind Reader.sizeof].
  rewrite (parse_primitive_holds Reader.uint16_t 0 _ Hfl).
  cbn [mbind outcome_bind Reader.sizeof].
  rewrite (parse_primitive_holds Reader.uint16_t _ _ Hnl).
  cbn [mbind outcome_bind Reader.sizeof].
  change (0 mod 256 ^ 2) with 0. cbn [Z.eqb assert mbind outcome_bind].
  change (256 ^ 2) with 65536.
  rewrite (Z.mod_small (Z.of_nat (length Ls)) 65536) by lia. rewrite Nat2Z.id.
  rewrite (parse_Locations_holds Ls _ Hls).
  cbn [mbind outcome_bind].
  rewrite (parse_primitive_holds Reader.uint16_t 0 _ Hpd).
  cbn [mbind outcome_bind Reader.sizeof].
  change (0 mod 256 ^ 2) with 0. cbn [Z.eqb assert mbind outcome_bind].
  rewrite (parse_primitive_holds Reader.uint16_t 0 _ Hlo').
  cbn [mbind outcome_bind Reader.sizeof].
  change (0 mod 256 ^ 2) with 0. cbn [Z.eqb assert mbind outcome_bind].
  set (o := offset + 8 + 4 + 2 + 2 + 8 * Z.of_nat (length Ls) + 2 + 2).
  assert (o mod 8 = 4) as Ho by (unfold o; Z.div_mod_to_equations; lia).
  rewrite Ho. cbn [Z.eqb Pos.eqb negb].
  rewrite wrap32_small by (unfold o in *; lia).
  replace (o + (8 - 4)) with (offset + 24 + 8 * Z.of_nat (length Ls))
    by (unfold o; lia).
  change (256 ^ 8) with (2 ^ 64). change (256 ^ 4) with (2 ^ 32). reflexivity.
Qed.

Lemma StackMapRecord_parse_callsite offset CSI :
  holds buf offset (section_bytes addr (callsite_entry offset CSI)) →
  offset mod 8 = 0 → readable CSI →
  Reader.StackMapRecord_parse (Some buf) offset len =
    Ret (StackMapRecord_of addr CSI, offset + size_of (callsite_entry offset CSI)).
Proof.
  intros Hh Hal Hrd.
  rewrite callsite_entry_bytes in Hh by done.
  rewrite callsite_entry_size by done.
  rewrite (StackMapRecord_parse_fields _ _ _ _ Hh Hal).
  - unfold StackMapRecord_of. f_equal. f_equal; [|lia]. f_equal.
    + case_decide; [done|]. unfold to_uint64, wrap. by rewrite Z.mod_mod.
    + by case_decide.
  - case_decide as Hov; [simpl; lia|].
    unfold overflows, UINT16_MAX in Hov. lia.
Qed.

Lemma parse_Records_holds CSIs : ∀ offset,
  holds buf offset (section_bytes addr (callsite_entries offset CSIs)) →
  offset mod 8 = 0 → Forall readable CSIs →
  Reader.parse_Records (length CSIs) (Some buf) offset len =
    Ret (StackMapRecord_of addr <$> CSIs,
         offset + size_of (callsite_entries offset CSIs)).
Proof.
  induction CSIs as [|CSI CSIs IH]; intros offset Hh Hal Hrd.
  - simpl. do 2 f_equal. lia.
  - apply Forall_cons in Hrd as [Hrd Hrds].
    cbn [callsite_entries] in Hh. rewrite section_bytes_app in Hh.
    apply holds_app in Hh as [H1 H2].
    rewrite callsite_entry_length in H2 by done.
    cbn [length Reader.parse_Records].
    rewrite (StackMapRecord_parse_callsite _ _ H1 Hal Hrd).
    cbn [mbind outcome_bind].
    rewrite (IH _ H2); [|
      rewrite callsite_entry_size by done; Z.div_mod_to_equations; lia|done].
    cbn [mbind outcome_bind fmap list_fmap callsite_entries].
    rewrite size_of_app. do 2 f_equal. lia.
Qed.

Lemma parse_FnSizeRecords_holds (FS : FnStackSizeMap) : ∀ offset,
  holds buf offset (section_bytes addr (FS ≫= frame_record_fields)) →
  Reader.parse_FnSizeRecords (length FS) (Some buf) offset len =
    Ret (StackMapSizeRecord_of addr <$> FS, offset + 16 * Z.of_nat (length FS)).
Proof.
  induction FS as [|FR FS IH]; intros offset Hh.
  - simpl. do 2 f_equal. lia.
  - cbn [mbind list_bind] in Hh. unfold frame_record_fields at 1 in Hh.
    cbn [app] in Hh. rewrite !section_bytes_cons in Hh. cbn [Emitted_bytes] in Hh.
    change (Z.to_nat 8) with 8%nat in Hh.
    apply holds_app in Hh as [H1 Hh]. apply holds_app in Hh as [H2 Hh].
    rewrite !length_le_encode in Hh. rewrite length_le_encode in H2.
    change (Z.of_nat 8) with 8 in *.
    cbn [length Reader.parse_FnSizeRecords].
    rewrite (parse_primitive_holds Reader.uint64_t _ _ H1).
    cbn [mbind outcome_bind Reader.sizeof].
    rewrite (parse_primitive_holds Reader.uint64_t _ _ H2).
    cbn [mbind outcome_bind Reader.sizeof].
    rewrite (IH _ Hh). cbn [mbind outcome_bind fmap list_fmap].
    f_equal. f_equal; [|lia]. f_equal. unfold StackMapSizeRecord_of.
    change (256 ^ 8) with (2 ^ 64). f_equal.
    unfold to_uint64, wrap. by rewrite Z.mod_mod.
Qed.

Lemma parse_Constants_holds (CP : ConstantPool) : ∀ offset,
  holds buf offset (section_bytes addr (CP ≫= constant_fields)) →
  Reader.parse_Constants (length CP) (Some buf) offset len =
    Ret ((λ ConstEntry, to_uint64 (snd ConstEntry)) <$> CP,
         offset + 8 * Z.of_nat (length CP)).
Proof.
  induction CP as [|CE CP IH]; intros offset Hh.
  - simpl. do 2 f_equal. lia.
  - cbn [mbind list_bind] in Hh. unfold constant_fields at 1 in Hh.
    cbn [app] in Hh. rewrite !section_bytes_cons in Hh. cbn [Emitted_bytes] in Hh.
    change (Z.to_nat 8) with 8%nat in Hh.
    apply holds_app in Hh as [H1 Hh].
    rewrite !length_le_encode in Hh.
    change (Z.of_nat 8) with 8 in *.
    cbn [length Reader.parse_Constants].
    rewrite (parse_primitive_holds Reader.uint64_t _ _ H1).
    cbn [mbind outcome_bind Reader.sizeof].
    rewrite (IH _ Hh). cbn [mbind outcome_bind fmap list_fmap].
    f_equal. f_equal; [|lia]. f_equal.
    change (256 ^ 8) with (2 ^ 64).
    unfold to_uint64, wrap. by rewrite Z.mod_mod.
Qed.

(** A record with live-outs fails the reader's assertion. *)
Lemma StackMapRecord_parse_fields_rejects id pc (Ls : list Location) m rest offset :
  holds buf offset
    (le_encode 8 id ++ le_encode 4 pc ++ le_encode 2 0 ++
     le_encode 2 (Z.of_nat (length Ls)) ++
     section_bytes addr (Ls ≫= Location_fields) ++
     le_encode 2 0 ++ le_encode 2 m ++ rest) →
  Z.of_nat (length Ls) ≤ 65535 → 0 < m ≤ 65535 →
  Reader.StackMapRecord_parse (Some buf) offset len = AssertionFailure.
Proof.
  intros Hh Hn Hm.
  assert (length (section_bytes addr (Ls ≫= Location_fields)) = (8 * length Ls)%nat)
    as HlenLs.
  { clear. induction Ls as [|L Ls IH]; [done|].
    cbn [mbind list_bind]. rewrite section_bytes_app, length_app, IH,
      length_Location_bytes. simpl. lia. }
  apply holds_app in Hh as [Hid Hh]. rewrite length_le_encode in Hh.
  apply holds_app in Hh as [Hpc Hh]. rewrite length_le_encode in Hh.
  apply holds_app in Hh as [Hfl Hh]. rewrite length_le_encode in Hh.
  apply holds_app in Hh as [Hnl Hh]. rewrite length_le_encode in Hh.
  apply holds_app in Hh as [Hls Hh]. rewrite HlenLs in Hh.
  apply holds_app in Hh as [Hpd Hh]. rewrite length_le_encode in Hh.
  apply holds_app in Hh as [Hlo' _].
  rewrite Nat2Z.inj_mul in Hpd, Hlo'.
  change (Z.of_nat 8) with 8 in *. change (Z.of_nat 4) with 4 in *.
  change (Z.of_nat 2) with 2 in *.
  unfold Reader.StackMapRecord_parse.
  rewrite (parse_primitive_holds Reader.uint64_t id offset Hid).
  cbn [mbind outcome_bind Reader.sizeof].
  rewrite (parse_primitive_holds Reader.uint32_t pc _ Hpc).
  cbn [mbind outcome_bind Reader.sizeof].
  rewrite (parse_primitive_holds Reader.uint16_t 0 _ Hfl).
  cbn [mbind outcome_bind Reader.sizeof].
  rewrite (parse_primitive_holds Reader.uint16_t _ _ Hnl).
  cbn [mbind outcome_bind Reader.sizeof].
  change (0 mod 256 ^ 2) with 0. cbn [Z.eqb assert mbind outcome_bind].
  change (256 ^ 2) with 65536.
  rewrite (Z.mod_small (Z.of_nat (length Ls)) 65536) by lia. rewrite Nat2Z.id.
  rewrite (parse_Locations_holds Ls _ Hls).
  cbn [mbind outcome_bind].
  rewrite (parse_primitive_holds Reader.uint16_t 0 _ Hpd).
  cbn [mbind outcome_bind Reader.sizeof].
  change (0 mod 256 ^ 2) with 0. cbn [Z.eqb assert mbind outcome_bind].
  rewrite (parse_primitive_holds Reader.uint16_t m _ Hlo').
  cbn [mbind outcome_bind Reader.sizeof].
  change (256 ^ 2) with 65536. rewrite (Z.mod_small m 65536) by lia.
  destruct (Z.eqb_spec m 0) as [->|_]; [lia|done].
Qed.

Lemma StackMapRecord_parse_rejects offset CSI :
  holds buf offset (section_bytes addr (callsite_entry offset CSI)) →
  ¬ overflows CSI → LiveOuts CSI ≠ [] →
  Reader.StackMapRecord_parse (Some buf) offset len = AssertionFailure.
Proof.
  intros Hh Hov HLO. unfold callsite_entry in Hh.
  rewrite decide_False in Hh by done.
  unfold callsite_record in Hh. rewrite !section_bytes_app in Hh.
  cbn [app] in Hh. rewrite !section_bytes_cons in Hh.
  cbn [Emitted_bytes] in Hh.
  change (section_bytes addr []) with (@nil Byte.byte) in Hh.
  change (Z.to_nat 8) with 8%nat in Hh. change (Z.to_nat 4) with 4%nat in Hh.
  change (Z.to_nat 2) with 2%nat in Hh.
  rewrite !app_nil_r, <- !app_assoc in Hh.
  unfold overflows, UINT16_MAX in Hov.
  apply Decidable.not_or in Hov as [Hn Hm].
  eapply StackMapRecord_parse_fields_rejects; [exact Hh|clear Hh; lia|clear Hh].
  destruct (LiveOuts CSI); [done|]. cbn [length] in *. lia.
Qed.

Lemma parse_Records_rejects pre CSI post : ∀ offset,
  holds buf offset
    (section_bytes addr (callsite_entries offset (pre ++ CSI :: post))) →
  offset mod 8 = 0 → Forall readable pre →
  ¬ overflows CSI → LiveOuts CSI ≠ [] →
  Reader.parse_Records (length (pre ++ CSI :: post)) (Some buf) offset len
    = AssertionFailure.
Proof.
  induction pre as [|R pre IH]; intros offset Hh Hal Hrd Hov HLO.
  - cbn [app callsite_entries] in Hh. rewrite section_bytes_app in Hh.
    apply holds_app in Hh as [H1 _].
    cbn [app length Reader.parse_Records].
    by rewrite (StackMapRecord_parse_rejects _ _ H1 Hov HLO).
  - apply Forall_cons in Hrd as [HR Hrd].
    cbn [app callsite_entries] in Hh. rewrite section_bytes_app in Hh.
    apply holds_app in Hh as [H1 H2].
    rewrite callsite_entry_length in H2 by done.
    cbn [app length Reader.parse_Records].
    rewrite (StackMapRecord_parse_callsite _ _ H1 Hal HR).
    cbn [mbind outcome_bind].
    rewrite (IH _ H2); [done| |done|done|done].
    rewrite callsite_entry_size by done. Z.div_mod_to_equations. lia.
Qed.

(** Up to the records, the reader takes the section the writer lays out
    from [base] on: the header, the frame records and the constants. *)
Lemma StackMapSection_parse_upto_records S0 this base :
  holds buf base (section_bytes addr (section_image base this)) →
  let offset :=
    base + 16 + 16 * Z.of_nat (length (FnStackSize this))
    + 8 * Z.of_nat (length (ConstPool this)) in
  holds buf offset (section_bytes addr (callsite_entries offset (CSInfos this))) ∧
  Reader.StackMapSection_parse S0 (Some buf) base len =
    '(Rs, offset) ← Reader.parse_Records (length (CSInfos this)) (Some buf) offset len;
    Ret ({| Reader.Version := 1; Reader.Reserved8 := 0; Reader.Reserved16 := 0;
            Reader.FnSizeRecords :=
              Reader.FnSizeRecords S0 ++ (StackMapSizeRecord_of addr <$> FnStackSize this);
            Reader.Constants :=
              Reader.Constants S0 ++
              ((λ ConstEntry, to_uint64 (snd ConstEntry)) <$> ConstPool this);
            Reader.Records := Rs |}, offset).
Proof.
  intros Hh.
  set (F := Z.of_nat (length (FnStackSize this))).
  set (C := Z.of_nat (length (ConstPool this))).
  set (N := Z.of_nat (length (CSInfos this))).
  intros offset.
  destruct (callsite_entries_nonneg (CSInfos this) offset) as [HnnCS HgeCS].
  pose proof (length_section_bytes addr _ HnnCS) as HlenCS.
  unfold section_image in Hh. rewrite !section_bytes_app in Hh.
  change (section_bytes addr [Label (NamedSymbol "__LLVM_StackMaps")])
    with (@nil Byte.byte) in Hh.
  change (section_bytes addr [BlankLine]) with (@nil Byte.byte) in Hh.
  rewrite app_nil_r in Hh. cbn [app] in Hh. fold F C offset in Hh.
  pose proof (holds_bounds _ _ _ Hh) as [Hlo Hhi].
  apply holds_app in Hh as [Hhd Hh].
  apply holds_app in Hh as [Hfr Hh].
  apply holds_app in Hh as [Hcp Hcs].
  assert (∀ FS : FnStackSizeMap,
            length (section_bytes addr (FS ≫= frame_record_fields))
            = (16 * length FS)%nat) as HlenF.
  { induction FS as [|FR FS IH]; [done|].
    cbn [mbind list_bind]. rewrite section_bytes_app, length_app, IH.
    unfold frame_record_fields. rewrite !section_bytes_cons.
    cbn [Emitted_bytes]. rewrite !length_app, !length_le_encode. simpl. lia. }
  assert (∀ CP : ConstantPool,
            length (section_bytes addr (CP ≫= constant_fields))
            = (8 * length CP)%nat) as HlenC.
  { induction CP as [|CE CP IH]; [done|].
    cbn [mbind list_bind]. rewrite section_bytes_app, length_app, IH.
    unfold constant_fields. rewrite !section_bytes_cons.
    cbn [Emitted_bytes]. rewrite !length_app, !length_le_encode. simpl. lia. }
  assert (length (section_bytes addr (header_fields this)) = 16%nat) as HlenH.
  { unfold header_fields. rewrite !section_bytes_cons. cbn [Emitted_bytes].
    by rewrite !length_app, !length_le_encode. }
  rewrite !length_app, HlenH, HlenF, HlenC in Hhi.
  rewrite HlenH in Hfr. rewrite HlenH, HlenF in Hcp.
  rewrite HlenH, HlenF, HlenC in Hcs.
  rewrite !Nat2Z.inj_add, !Nat2Z.inj_mul, HlenCS in Hhi.
  rewrite Nat2Z.inj_mul in Hcp. rewrite !Nat2Z.inj_mul in Hcs.
  change (Z.of_nat 16) with 16 in *. change (Z.of_nat 8) with 8 in *.
  fold F C in Hhi, Hcp, Hcs. fold offset in Hcs.
  split; [exact Hcs|].
  unfold header_fields in Hhd. rewrite !section_bytes_cons in Hhd.
  cbn [Emitted_bytes] in Hhd. fold F C N in Hhd.
  change (section_bytes addr []) with (@nil Byte.byte) in Hhd.
  rewrite app_nil_r in Hhd.
  change (Z.to_nat 1) with 1%nat in Hhd. change (Z.to_nat 2) with 2%nat in Hhd.
  change (Z.to_nat 4) with 4%nat in Hhd.
  apply holds_app in Hhd as [Hv Hhd]. apply holds_app in Hhd as [Hr8 Hhd].
  apply holds_app in Hhd as [Hr16 Hhd]. apply holds_app in Hhd as [HF Hhd].
  apply holds_app in Hhd as [HC HN].
  rewrite !length_le_encode in *.
  change (Z.of_nat 1) with 1 in *. change (Z.of_nat 2) with 2 in *.
  change (Z.of_nat 4) with 4 in *.
  unfold Reader.StackMapSection_parse.
  rewrite (parse_primitive_holds Reader.uint8_t 1 _ Hv).
  cbn [mbind outcome_bind Reader.sizeof].
  rewrite (parse_primitive_holds Reader.uint8_t 0 _ Hr8).
  cbn [mbind outcome_bind Reader.sizeof].
  rewrite (parse_primitive_holds Reader.uint16_t 0 _ Hr16).
  cbn [mbind outcome_bind Reader.sizeof].
  change (1 mod 256 ^ 1) with 1. change (0 mod 256 ^ 1) with 0.
  change (0 mod 256 ^ 2) with 0. cbn [Z.eqb Pos.eqb assert mbind outcome_bind].
  rewrite (parse_primitive_holds Reader.uint32_t _ _ HF).
  cbn [mbind outcome_bind Reader.sizeof].
  rewrite (parse_primitive_holds Reader.uint32_t _ _ HC).
  cbn [mbind outcome_bind Reader.sizeof].
  rewrite (parse_primitive_holds Reader.uint32_t _ _ HN).
  cbn [mbind outcome_bind Reader.sizeof].
  rewrite !mod_uint64_mod by lia. change (256 ^ 4) with (2 ^ 32).
  rewrite (Z.mod_small F), (Z.mod_small C), (Z.mod_small N)
    by (unfold F, C, N, offset in *; lia).
  unfold F, C, N, offset in *. rewrite !Nat2Z.id.
  replace (base + 1 + 1 + 2 + 4 + 4 + 4) with (base + 16) by lia.
  rewrite (parse_FnSizeRecords_holds (FnStackSize this) _ Hfr).
  cbn [mbind outcome_bind].
  rewrite (parse_Constants_holds (ConstPool this) _ Hcp).
  cbn [mbind outcome_bind]. done.
Qed.

(** The section the writer lays out from [base] on is read back: the
    frame records and the constants are appended to those the section
    object holds, the records replace its records. *)
Lemma StackMapSection_parse_image S0 this base :
  holds buf base (section_bytes addr (section_image base this)) →
  base mod 8 = 0 → Forall readable (CSInfos this) →
  Reader.StackMapSection_parse S0 (Some buf) base len =
    Ret ({| Reader.Version := 1; Reader.Reserved8 := 0; Reader.Reserved16 := 0;
            Reader.FnSizeRecords :=
              Reader.FnSizeRecords S0 ++ (StackMapSizeRecord_of addr <$> FnStackSize this);
            Reader.Constants :=
              Reader.Constants S0 ++
              ((λ ConstEntry, to_uint64 (snd ConstEntry)) <$> ConstPool this);
            Reader.Records := StackMapRecord_of addr <$> CSInfos this |},
         base + size_of (section_image base this)).
Proof.
  intros Hh Hal Hrd.
  destruct (StackMapSection_parse_upto_records S0 this base Hh) as [Hcs ->].
  rewrite (parse_Records_holds (CSInfos this) _ Hcs);
    [|Z.div_mod_to_equations; lia|done].
  cbn [mbind outcome_bind]. do 2 f_equal.
  unfold section_image. rewrite !size_of_app.
  rewrite LayoutFacts.size_of_header_fields, LayoutFacts.size_of_frame_records,
    LayoutFacts.size_of_constants.
  rewrite !size_of_singleton. cbn [Emitted_size]. lia.
Qed.

End Buffer.

Lemma section_image_length addr this base :
  Z.of_nat (length (section_bytes addr (section_image base this))) =
    size_of (section_image base this).
Proof. apply length_section_bytes, section_image_nonneg. Qed.

(** X16. The reader reads back what the writer serializes.  For a writer
    whose call sites are all within the limits and without live-outs, or
    beyond the limits, [StackMapSection::parse] on the bytes of the stack
    map section that [serializeToStackMapSection] emitted (little-endian,
    symbols and expressions resolved, into a section that was empty)
    returns at the end of the buffer with the frame records, the
    constants and one record per call site: the id, the offset of the
    call site and the locations, each field cut to its width; a call
    site beyond the limits is read as the record with the id
    [UINT64_MAX] and no location. *)
Theorem writer_reader_round_trip addr this OS this' OS' :
  CSInfos this ≠ [] →
  Forall readable (CSInfos this) →
  section_contents StackMapSection OS = [] →
  serializeToStackMapSection this OS = Ret (this', OS') →
  Z.of_nat (length (section_bytes addr (section_contents StackMapSection OS')))
    < 2 ^ 32 →
  Reader.StackMapSection_parse Reader.empty_section
    (Some (section_bytes addr (section_contents StackMapSection OS'))) 0
    (Z.of_nat (length (section_bytes addr (section_contents StackMapSection OS'))))
  = Ret (StackMapSection_of addr this,
         Z.of_nat (length (section_bytes addr (section_contents StackMapSection OS')))).
Proof.
  intros HCS Hrd Hempty Hser.
  pose proof (LayoutFacts.serialized_streamer this OS HCS) as Hser1.
  set (OSe := emit_all _ _) in Hser1. rewrite Hser in Hser1.
  injection Hser1 as _ ->. subst OSe.
  rewrite LayoutFacts.section_contents_emit_all, decide_True by done.
  change (section_contents StackMapSection (SwitchSection StackMapSection OS))
    with (section_contents StackMapSection OS).
  rewrite Hempty. cbn [app].
  assert (section_size StackMapSection OS = 0) as ->
    by (unfold section_size; by rewrite Hempty).
  set (buf := section_bytes addr (section_image 0 this)). intros Hmax.
  rewrite (StackMapSection_parse_image addr buf Hmax Reader.empty_section this 0);
    [|by (exists [], []; rewrite app_nil_r)|done|done].
  unfold buf. by rewrite section_image_length.
Qed.

(** X17. The reader takes no live-outs.  When a call site within the
    limits has a live-out (and the call sites before it are read), then
    [StackMapSection::parse] on the bytes of the section that
    [serializeToStackMapSection] emitted fails the assertion on the
    number of live-outs. *)
Theorem live_outs_rejected addr this OS this' OS' pre CSI post :
  CSInfos this = pre ++ CSI :: post →
  Forall readable pre → ¬ overflows CSI → LiveOuts CSI ≠ [] →
  section_contents StackMapSection OS = [] →
  serializeToStackMapSection this OS = Ret (this', OS') →
  Z.of_nat (length (section_bytes addr (section_contents StackMapSection OS')))
    < 2 ^ 32 →
  Reader.StackMapSection_parse Reader.empty_section
    (Some (section_bytes addr (section_contents StackMapSection OS'))) 0
    (Z.of_nat (length (section_bytes addr (section_contents StackMapSection OS'))))
  = AssertionFailure.
Proof.
  intros HCSI Hrd Hov HLO Hempty Hser.
  assert (CSInfos this ≠ []) as HCS by (rewrite HCSI; by destruct pre).
  pose proof (LayoutFacts.serialized_streamer this OS HCS) as Hser1.
  set (OSe := emit_all _ _) in Hser1. rewrite Hser in Hser1.
  injection Hser1 as _ ->. subst OSe.
  rewrite LayoutFacts.section_contents_emit_all, decide_True by done.
  change (section_contents StackMapSection (SwitchSection StackMapSection OS))
    with (section_contents StackMapSection OS).
  rewrite Hempty. cbn [app].
  assert (section_size StackMapSection OS = 0) as ->
    by (unfold section_size; by rewrite Hempty).
  set (buf := section_bytes addr (section_image 0 this)). intros Hmax.
  destruct (StackMapSection_parse_upto_records addr buf Hmax
              Reader.empty_section this 0) as [Hcs ->].
  { exists [], []. by rewrite app_nil_r. }
  rewrite HCSI in Hcs |- *.
  rewrite (parse_Records_rejects addr buf Hmax pre CSI post _ Hcs);
    [done| |done|done|done].
  Z.div_mod_to_equations. lia.
Qed.

(** *** The theorems at the sample writers *)

(** The bytes of the section for the sample stackmap without live-outs:
    the header, the frame record of [f] (at [0x1000], 24 bytes of stack),
    the constant [2^32], and the record of the call site with its four
    locations. *)
Example readable_section_golden_bytes :
  readable_section_bytes =
  Reader.bytes
    [1; 0; 0; 0;  1; 0; 0; 0;  1; 0; 0; 0;  1; 0; 0; 0;
     0; 16; 0; 0; 0; 0; 0; 0;  24; 0; 0; 0; 0; 0; 0; 0;
     0; 0; 0; 0; 1; 0; 0; 0;
     1; 0; 0; 0; 0; 0; 0; 0;  16; 0; 0; 0;  0; 0;  4; 0;
     5; 8; 0; 0; 0; 0; 0; 0;  3; 8; 3; 0; 240; 255; 255; 255;
     1; 8; 0; 0; 0; 0; 0; 0;  4; 8; 0; 0; 7; 0; 0; 0;
     0; 0;  0; 0;  0; 0; 0; 0]%N.
Proof. vm_compute. reflexivity. Qed.

Lemma writer_reader_round_trip_witness :
  Reader.StackMapSection_parse Reader.empty_section
    (Some readable_section_bytes) 0 96
  = Ret (StackMapSection_of sample_addr (fst readable_recorded), 96).
Proof.
  apply (writer_reader_round_trip sample_addr
           (fst readable_recorded) (snd readable_recorded)
           (fst readable_serialized) (snd readable_serialized)).
  - vm_compute. discriminate.
  - apply Forall_singleton. right. reflexivity.
  - reflexivity.
  - vm_compute. reflexivity.
  - vm_compute. reflexivity.
Defined.

Lemma live_outs_rejected_witness :
  Reader.StackMapSection_parse Reader.empty_section
    (Some (section_bytes sample_addr
             (section_contents StackMapSection (snd sample_serialized)))) 0 104
  = AssertionFailure.
Proof.
  eapply (live_outs_rejected sample_addr
            (fst sample_recorded_once) (snd sample_recorded_once)
            (fst sample_serialized) (snd sample_serialized) [] _ []).
  - reflexivity.
  - constructor.
  - intros [H|H]; vm_compute in H; discriminate.
  - discriminate.
  - reflexivity.
  - vm_compute. reflexivity.
  - vm_compute. reflexivity.
Defined.

End RoundTripFacts.

(** ** Live-outs and the order of the sort *)

Module LiveOutFacts.
Import StackMaps StackMapsFacts.

Lemma StronglySorted_lt_ext (l1 l2 : list Z) :
  StronglySorted Z.lt l1 → StronglySorted Z.lt l2 →
  (∀ x, x ∈ l1 ↔ x ∈ l2) → l1 = l2.
Proof.
  intros H1. revert l2. induction H1 as [|h1 t1 Ht1 IH Hh1]; intros l2 H2 Hext.
  - destruct l2 as [|h2 t2]; [done|].
    exfalso. apply (elem_of_nil h2), Hext. by left.
  - destruct H2 as [|h2 t2 Ht2 Hh2].
    { exfalso. apply (elem_of_nil h1), Hext. by left. }
    rewrite Forall_forall in Hh1, Hh2.
    assert (h1 = h2) as ->.
    { assert (h1 ∈ h2 :: t2) as Ha by (apply Hext; by left).
      assert (h2 ∈ h1 :: t1) as Hb by (apply Hext; by left).
      apply elem_of_cons in Ha as [->|Ha]; [done|].
      apply elem_of_cons in Hb as [->|Hb]; [done|].
      specialize (Hh1 _ Hb). specialize (Hh2 _ Ha). lia. }
    f_equal. apply IH; [done|]. intros x. split; intros Hx.
    + assert (x ∈ h2 :: t2) as Ha by (apply Hext; by right).
      apply elem_of_cons in Ha as [->|Ha]; [|done].
      specialize (Hh1 _ Hx). lia.
    + assert (x ∈ h2 :: t1) as Ha by (apply Hext; by right).
      apply elem_of_cons in Ha as [->|Ha]; [|done].
      specialize (Hh2 _ Hx). lia.
Qed.

Section Sorts.

Variables sort1 sort2 : LiveOutVec → LiveOutVec.
Hypothesis sort1_Permutation : ∀ l, sort1 l ≡ₚ l.
Hypothesis sort1_sorted : ∀ l, StronglySorted LiveOutReg_le (sort1 l).
Hypothesis sort2_Permutation : ∀ l, sort2 l ≡ₚ l.
Hypothesis sort2_sorted : ∀ l, StronglySorted LiveOutReg_le (sort2 l).

(** X18. The DWARF register numbers and the sizes of the live-outs do
    not depend on the order in which [std::sort] leaves entries that
    compare equal: for two sorts by DWARF register number,
    [parseRegisterLiveOutMask] returns vectors with the same numbers and
    sizes, so that the same fields are emitted for them. *)
Theorem live_outs_independent_of_sort AP Mask :
  getNumRegs (TRI AP) ≤ 32 * Z.of_nat (length Mask) →
  (∀ Reg, 0 ≤ Reg < getNumRegs (TRI AP) → mask_bit Mask Reg = true →
          ∃ RegNo, getDwarfRegNum Reg (TRI AP) = Ret RegNo) →
  ∃ LiveOuts1 LiveOuts2,
    parseRegisterLiveOutMask sort1 AP (Some Mask) = Ret LiveOuts1 ∧
    parseRegisterLiveOutMask sort2 AP (Some Mask) = Ret LiveOuts2 ∧
    LO_RegNo <$> LiveOuts1 = LO_RegNo <$> LiveOuts2 ∧
    LO_Size <$> LiveOuts1 = LO_Size <$> LiveOuts2 ∧
    LiveOuts1 ≫= LiveOut_fields = LiveOuts2 ≫= LiveOut_fields.
Proof.
  intros Hlen Hdw.
  destruct (parseRegisterLiveOutMask_spec sort1 sort1_Permutation sort1_sorted
              AP Mask Hlen Hdw) as (L1 & Hret1 & Hss1 & Hcov1 & Hruns1).
  destruct (parseRegisterLiveOutMask_spec sort2 sort2_Permutation sort2_sorted
              AP Mask Hlen Hdw) as (L2 & Hret2 & Hss2 & Hcov2 & Hruns2).
  exists L1, L2. split; [done|]. split; [done|].
  (* an entry stands for the registers of the mask with its number *)
  assert (∀ L : LiveOutVec, (∀ e, e ∈ L →
                 ∃ h t, e = foldl (absorb (TRI AP)) h t ∧ LO_Valid h = true ∧
                   ∀ LO, LO ∈ h :: t ↔
                         in_mask (TRI AP) Mask LO ∧ LO_RegNo LO = LO_RegNo e) →
            ∀ e, e ∈ L →
              (∃ LO, in_mask (TRI AP) Mask LO ∧ LO_RegNo LO = LO_RegNo e ∧
                     LO_Size LO = LO_Size e) ∧
              (∀ LO, in_mask (TRI AP) Mask LO → LO_RegNo LO = LO_RegNo e →
                     LO_Size LO ≤ LO_Size e)) as Hmax.
  { intros L Hruns e He. destruct (Hruns e He) as (h & t & -> & _ & Hmem).
    destruct (foldl_absorb_Size (TRI AP) h t) as [Hle (x & Hx & Hxs)]. split.
    - exists x. apply Hmem in Hx as [? ?]. done.
    - intros LO HLO Hk. apply Hle, Hmem. done. }
  assert (LO_RegNo <$> L1 = LO_RegNo <$> L2) as Hkeys.
  { apply StronglySorted_lt_ext.
    - by apply (StronglySorted_fmap LO_RegNo LiveOutReg_lt Z.lt).
    - by apply (StronglySorted_fmap LO_RegNo LiveOutReg_lt Z.lt).
    - intros k. rewrite !list_elem_of_fmap. split.
      + intros (e & -> & He).
        destruct (Hmax L1 Hruns1 e He) as [(LO & HLO & Hk & _) _].
        destruct (Hcov2 LO HLO) as (e2 & He2 & Hk2).
        exists e2. split; [congruence|done].
      + intros (e & -> & He).
        destruct (Hmax L2 Hruns2 e He) as [(LO & HLO & Hk & _) _].
        destruct (Hcov1 LO HLO) as (e1 & He1 & Hk1).
        exists e1. split; [congruence|done]. }
  assert (LO_Size <$> L1 = LO_Size <$> L2) as Hsizes.
  { apply list_eq. intros i. rewrite !list_lookup_fmap.
    pose proof (f_equal (λ l, l !! i) Hkeys) as Hi. cbn beta in Hi.
    rewrite !list_lookup_fmap in Hi.
    destruct (L1 !! i) as [e1|] eqn:H1, (L2 !! i) as [e2|] eqn:H2;
      try discriminate; [|done].
    injection Hi as Hk. cbn [fmap option_fmap option_map]. f_equal.
    apply list_elem_of_lookup_2 in H1, H2.
    destruct (Hmax L1 Hruns1 e1 H1) as [(x1 & Hx1 & Hk1 & Hs1) Hle1].
    destruct (Hmax L2 Hruns2 e2 H2) as [(x2 & Hx2 & Hk2 & Hs2) Hle2].
    specialize (Hle1 x2 Hx2 ltac:(congruence)).
    specialize (Hle2 x1 Hx1 ltac:(congruence)). lia. }
  split; [done|]. split; [done|].
  clear -Hkeys Hsizes. revert L2 Hkeys Hsizes.
  induction L1 as [|e1 L1 IH]; intros [|e2 L2] Hkeys Hsizes; try done.
  cbn [fmap list_fmap] in Hkeys, Hsizes.
  injection Hkeys as Hk Hkeys. injection Hsizes as Hs Hsizes.
  cbn [mbind list_bind]. rewrite (IH L2) by done.
  unfold LiveOut_fields. by rewrite Hk, Hs.
Qed.

End Sorts.

Lemma sample_sort_reversed_Permutation l : sample_sort_reversed l ≡ₚ l.
Proof.
  unfold sample_sort_reversed. rewrite merge_sort_Permutation.
  apply reverse_Permutation.
Qed.

Lemma sample_sort_reversed_sorted l :
  StronglySorted LiveOutReg_le (sample_sort_reversed l).
Proof. apply StronglySorted_merge_sort; apply _. Qed.

Lemma live_outs_independent_of_sort_witness :
  ∃ LiveOuts1 LiveOuts2,
    parseRegisterLiveOutMask sample_sort sample_AP (Some [114]) = Ret LiveOuts1 ∧
    parseRegisterLiveOutMask sample_sort_reversed sample_AP (Some [114])
      = Ret LiveOuts2 ∧
    LiveOuts1 ≫= LiveOut_fields = LiveOuts2 ≫= LiveOut_fields.
Proof.
  destruct (live_outs_independent_of_sort sample_sort sample_sort_reversed
              sample_sort_Permutation sample_sort_sorted
              sample_sort_reversed_Permutation sample_sort_reversed_sorted
              sample_AP [114] ltac:(simpl; lia) sample_mask_has_DwarfRegNum)
    as (L1 & L2 & H1 & H2 & _ & _ & H5).
  exists L1, L2. split_and!; [exact H1|exact H2|exact H5].
Defined.

(** The physical register of an entry does depend on the order: for the
    mask of [AL] and [AH] the two sample sorts give different registers
    for the DWARF register number 0. *)
Example live_out_register_depends_on_sort :
  LO_Reg <$> (match parseRegisterLiveOutMask sample_sort sample_AP (Some [6])
              with Ret L => L | _ => [] end) ≠
  LO_Reg <$> (match parseRegisterLiveOutMask sample_sort_reversed sample_AP (Some [6])
              with Ret L => L | _ => [] end).
Proof. vm_compute. discriminate. Qed.

End LiveOutFacts.

(** ** From an instruction to the record the reader finds *)

Module PipelineFacts.
Import StackMaps StackMapsFacts ObjectFile.

Lemma recordStackMapOpers_frame_witness :
  recordStackMapOpers sample_sort sample_OpType_of_imm sample_AP
    (<[1%nat := MO_Immediate 99]> stackmap_MI) 7 2 4 false
    empty_StackMaps empty_streamer =
  recordStackMapOpers sample_sort sample_OpType_of_imm sample_AP
    stackmap_MI 7 2 4 false empty_StackMaps empty_streamer.
Proof.
  apply (EntryPointFacts.recordStackMapOpers_frame sample_sort sample_OpType_of_imm
           sample_AP stackmap_MI (<[1%nat := MO_Immediate 99]> stackmap_MI)
           7 2 4 empty_StackMaps empty_streamer).
  - reflexivity.
  - intros i Hi. destruct i as [|[|i]]; [lia|lia|reflexivity].
Defined.

Section LiveOuts.

Variable std_sort : LiveOutVec → LiveOutVec.
Variable OpType_of_imm : Z → option OpType.

(** Only a register-live-out operand changes the live-outs. *)
Lemma parseOperand_LiveOuts AP MI MOI MOE Locs LiveOuts MOI' Locs' LiveOuts' :
  Forall (λ MO, isRegLiveOut MO = false) MI →
  parseOperand std_sort OpType_of_imm AP MI MOI MOE Locs LiveOuts
    = Ret (MOI', Locs', LiveOuts') →
  LiveOuts' = LiveOuts.
Proof.
  intros Hno H. unfold parseOperand, deref in H.
  destruct (MI !! MOI) as [MO|] eqn:HMO; simpl in H; [|discriminate].
  pose proof (Forall_lookup_1 _ _ _ _ Hno HMO) as HMOno.
  destruct MO as [Imm|Reg d i ec sr|Mask|]; simpl in H; [| | discriminate |].
  - destruct (OpType_of_imm Imm) as [[| |]|] eqn:HOp; [..|discriminate];
      inv_outcome; by simplify_eq.
  - destruct i; simpl in H.
    + by injection H as <- <- <-.
    + inv_outcome. by simplify_eq.
  - by injection H as <- <- <-.
Qed.

Lemma parseOperands_LiveOuts fuel AP MI MOI MOE Locs LiveOuts Locs' LiveOuts' :
  Forall (λ MO, isRegLiveOut MO = false) MI →
  parseOperands std_sort OpType_of_imm fuel AP MI MOI MOE Locs LiveOuts
    = Ret (Locs', LiveOuts') →
  LiveOuts' = LiveOuts.
Proof.
  intros Hno. revert MOI Locs LiveOuts.
  induction fuel as [|fuel IH]; intros MOI Locs LiveOuts; simpl;
    (case_decide; [by intros [= <- <-]|]); [done|].
  intros Hret. inv_outcome.
  match goal with Hp : parseOperand _ _ _ _ _ _ _ _ = Ret _ |- _ =>
    apply parseOperand_LiveOuts in Hp as ->; [|done] end.
  match goal with Hp : parseOperands _ _ _ _ _ _ _ _ _ = Ret _ |- _ =>
    by apply IH in Hp end.
Qed.

Lemma moveLargeConstants_length Locs CP Locs' CP' :
  moveLargeConstants Locs CP = Ret (Locs', CP') → length Locs' = length Locs.
Proof.
  revert CP Locs' CP'. induction Locs as [|Loc Locs IH]; intros CP Locs' CP' H.
  - by injection H as <- _.
  - cbn [moveLargeConstants] in H.
    destruct (bool_decide _ && negb _); inv_outcome; simplify_eq; cbn [length];
      f_equal; by eapply IH.
Qed.

(** The promotion loop adds at most one constant for each location. *)
Lemma moveLargeConstants_pool_length Locs : ∀ CP Locs' CP',
  moveLargeConstants Locs CP = Ret (Locs', CP') →
  (length CP' ≤ length CP + length Locs)%nat.
Proof.
  induction Locs as [|Loc Locs IH]; intros CP Locs' CP' H.
  - injection H as _ <-. simpl. lia.
  - cbn [moveLargeConstants] in H.
    destruct (bool_decide _ && negb _); inv_outcome; simplify_eq; cbn [length].
    + match goal with Hm : moveLargeConstants _ _ = Ret _ |- _ =>
        apply IH in Hm end.
      match goal with Hi : MapVector_insert _ _ = _ |- _ =>
        unfold MapVector_insert in Hi; destruct (MapVector_find _ _);
        injection Hi as <- _ end; [lia|]. rewrite length_app in *. simpl in *. lia.
    + match goal with Hm : moveLargeConstants _ _ = Ret _ |- _ =>
        apply IH in Hm end. lia.
Qed.

(** Each call of [parseOperand] takes an operand and gives at most a
    location. *)
Lemma parseOperands_length fuel AP MI MOE : ∀ MOI Locs LiveOuts Locs' LiveOuts',
  parseOperands std_sort OpType_of_imm fuel AP MI MOI MOE Locs LiveOuts
    = Ret (Locs', LiveOuts') →
  (length Locs' + MOI ≤ length Locs + Nat.max MOI (length MI))%nat.
Proof.
  induction fuel as [|fuel IH]; intros MOI Locs LiveOuts Locs' LiveOuts'; simpl;
    (case_decide; [intros [= <- <-]; lia|]); [done|].
  intros Hret. inv_outcome.
  match goal with Hp : parseOperand _ _ _ _ _ _ _ _ = Ret _ |- _ =>
    apply parseOperand_Ret in Hp as (MO & HMO & -> & Hle & _ & Hl) end.
  apply lookup_lt_Some in HMO.
  pose proof (operands_spanned_pos OpType_of_imm MO).
  match goal with Hp : parseOperands _ _ _ _ _ _ _ _ _ = Ret _ |- _ =>
    apply IH in Hp end.
  destruct Hl as [->|(Loc & -> & _)]; rewrite ?length_app in *; simpl in *; lia.
Qed.

(** Recording, serializing and reading one STACKMAP. *)
Lemma stackmap_pipeline addr AP MI PatchPointID OS :
  MI !! 0%nat = Some (MO_Immediate PatchPointID) →
  2 ≤ Z.of_nat (length MI) ≤ 65537 →
  immediates_int64 MI →
  well_formed_range OpType_of_imm AP MI 2 (length MI) →
  Forall (λ MO, isRegLiveOut MO = false) MI →
  CurrentSection OS ≠ StackMapSection →
  section_contents StackMapSection OS = [] →
  ∃ this1 OS1 this2 OS2 Locs,
    recordStackMap std_sort OpType_of_imm AP STACKMAP MI empty_StackMaps OS
      = Ret (this1, OS1) ∧
    serializeToStackMapSection this1 OS1 = Ret (this2, OS2) ∧
    CSInfos this1 = [recorded_callsite AP OS PatchPointID Locs] ∧
    FnStackSize this1 = [(CurrentFnSym AP, recorded_stack_size AP)] ∧
    Z.of_nat (length Locs) ≤ 65535 ∧
    Reader.StackMapSection_parse Reader.empty_section
      (Some (section_bytes addr (section_contents StackMapSection OS2))) 0
      (Z.of_nat (length (section_bytes addr (section_contents StackMapSection OS2))))
    = Ret (StackMapSection_of addr this1,
           Z.of_nat (length (section_bytes addr
                               (section_contents StackMapSection OS2)))).
Proof.
  intros H0 Hlen Himm Hwf Hno HSec Hempty.
  destruct (EntryPointFacts.recordStackMapOpers_returns std_sort OpType_of_imm
              AP MI PatchPointID 2 (length MI) empty_StackMaps OS Himm Hwf)
    as (this1 & OS1 & Hrec).
  assert (recordStackMap std_sort OpType_of_imm AP STACKMAP MI empty_StackMaps OS
          = Ret (this1, OS1)) as Hret.
  { unfold recordStackMap, deref, operands_next. rewrite H0.
    rewrite decide_True by lia. exact Hrec. }
  (* the writer and the streamer after the recording *)
  set (CSI := recorded_callsite AP OS PatchPointID).
  assert (∃ Locs,
            CSInfos this1 = [CSI Locs] ∧
            FnStackSize this1 = [(CurrentFnSym AP, recorded_stack_size AP)] ∧
            Z.of_nat (length Locs) ≤ 65535 ∧
            Z.of_nat (length (ConstPool this1)) ≤ 65535 ∧
            section_contents StackMapSection OS1 = [])
    as (Locs & HCSI & HFn & HLocs & HCP & HOS1).
  { clear Hret. unfold recordStackMapOpers, createTempSymbol in Hrec.
    cbv zeta in Hrec. cbn [mbind outcome_bind mret outcome_ret] in Hrec.
    inv_outcome. simplify_eq.
    match goal with Hp : parseOperands _ _ _ _ _ _ _ _ _ = Ret _ |- _ =>
      pose proof (parseOperands_LiveOuts _ _ _ _ _ _ _ _ _ Hno Hp) as ->;
      apply parseOperands_length in Hp as Hl end.
    match goal with Hm : moveLargeConstants _ _ = Ret _ |- _ =>
      apply moveLargeConstants_length in Hm as Hl';
      apply moveLargeConstants_pool_length in Hm as Hl'' end.
    eexists. split_and!; [reflexivity|reflexivity|simpl in *; lia|simpl in *; lia|].
    unfold section_contents, EmitLabel, emit. cbn [Output CurrentSection].
    rewrite filter_app, filter_cons_False, filter_nil, app_nil_r by done.
    exact Hempty. }
  assert (CSInfos this1 ≠ []) as HCS by (rewrite HCSI; done).
  pose proof (LayoutFacts.serialized_streamer this1 OS1 HCS) as Hser.
  eexists this1, OS1, _, _, Locs.
  split; [exact Hret|]. split; [exact Hser|].
  split; [exact HCSI|]. split; [exact HFn|]. split; [exact HLocs|].
  rewrite LayoutFacts.section_contents_emit_all, decide_True by done.
  change (section_contents StackMapSection (SwitchSection StackMapSection OS1))
    with (section_contents StackMapSection OS1).
  assert (section_size StackMapSection OS1 = 0) as ->
    by (unfold section_size; by rewrite HOS1).
  rewrite HOS1. cbn [app].
  set (buf := section_bytes addr (section_image 0 this1)).
  assert (¬ overflows (CSI Locs)) as Hov.
  { unfold overflows, UINT16_MAX. unfold CSI. cbn [recorded_callsite Locations LiveOuts length]. lia. }
  assert (Forall readable (CSInfos this1)) as Hrd.
  { rewrite HCSI. apply Forall_singleton. by right. }
  assert (Z.of_nat (length buf) < 2 ^ 32) as Hmax.
  { unfold buf. rewrite RoundTripFacts.section_image_length.
    unfold section_image. rewrite !size_of_app.
    rewrite LayoutFacts.size_of_header_fields, LayoutFacts.size_of_frame_records,
      LayoutFacts.size_of_constants, !size_of_singleton, HCSI, HFn.
    cbn [callsite_entries Emitted_size length]. rewrite app_nil_r.
    rewrite RoundTripFacts.callsite_entry_size;
      [|Z.div_mod_to_equations; lia|by right].
    rewrite decide_False by done. unfold CSI. cbn [recorded_callsite Locations]. lia. }
  assert (holds buf 0 (section_bytes addr (section_image 0 this1))) as Hh
    by (exists [], []; by rewrite app_nil_r).
  pose proof (RoundTripFacts.StackMapSection_parse_image addr buf Hmax
                Reader.empty_section this1 0 Hh eq_refl Hrd) as Hparse.
  rewrite Hparse. unfold buf. by rewrite RoundTripFacts.section_image_length.
Qed.

(** X19. From the instruction to the record the reader finds.  A
    STACKMAP of at most 65537 operands that are well formed, with no
    live-out mask among them, is recorded on a new writer by
    [recordStackMap] and serialized into an empty stack map section while
    another section is current.  [StackMapSection::parse] then reads
    the bytes of that section to their end, the section it returns
    passes [verify], its one frame record is that of the current function
    and its one record has the id of the instruction (operand 0) and the
    offset of the call site's label from [CurrentFnSymForSize];
    [hasRecordForRelPC] and [findRecordForRelPC] find the record at that
    offset. *)
Theorem stackmap_end_to_end addr AP MI PatchPointID OS :
  MI !! 0%nat = Some (MO_Immediate PatchPointID) →
  2 ≤ Z.of_nat (length MI) ≤ 65537 →
  immediates_int64 MI →
  well_formed_range OpType_of_imm AP MI 2 (length MI) →
  Forall (λ MO, isRegLiveOut MO = false) MI →
  CurrentSection OS ≠ StackMapSection →
  section_contents StackMapSection OS = [] →
  ∃ this1 OS1 this2 OS2,
    recordStackMap std_sort OpType_of_imm AP STACKMAP MI empty_StackMaps OS
      = Ret (this1, OS1) ∧
    serializeToStackMapSection this1 OS1 = Ret (this2, OS2) ∧
    (∃ S R,
       Reader.StackMapSection_parse Reader.empty_section
         (Some (section_bytes addr (section_contents StackMapSection OS2))) 0
         (Z.of_nat (length (section_bytes addr (section_contents StackMapSection OS2))))
       = Ret (S, Z.of_nat (length (section_bytes addr
                                     (section_contents StackMapSection OS2)))) ∧
       Reader.StackMapSection_verify S = Ret tt ∧
       Reader.FnSizeRecords S =
         [{| Reader.FunctionAddr := to_uint64 (addr (CurrentFnSym AP));
             Reader.StackSize := to_uint64 (recorded_stack_size AP) |}] ∧
       Reader.Records S = [R] ∧
       Reader.PatchPointID R = to_uint64 PatchPointID ∧
       Reader.InstructionOffset R =
         wrap32 (addr (TempSymbol (NextTempSymbol OS))
                 - addr (CurrentFnSymForSize AP)) ∧
       Reader.hasRecordForRelPC S (Reader.InstructionOffset R) = Ret true ∧
       Reader.findRecordForRelPC S (Reader.InstructionOffset R) = Ret R).
Proof.
  intros H0 Hlen Himm Hwf Hno HSec Hempty.
  destruct (stackmap_pipeline addr AP MI PatchPointID OS H0 Hlen Himm Hwf Hno
              HSec Hempty)
    as (this1 & OS1 & this2 & OS2 & Locs & Hret & Hser & HCSI & HFn & HLocs & Hparse).
  exists this1, OS1, this2, OS2. split; [exact Hret|]. split; [exact Hser|].
  pose proof (InspectorFacts.StackMapSection_verify_parsed _ _ _ _ _ _ Hparse)
    as Hver.
  assert (¬ overflows (recorded_callsite AP OS PatchPointID Locs)) as Hov.
  { unfold overflows, UINT16_MAX. cbn [recorded_callsite Locations LiveOuts length].
    lia. }
  assert (StackMapRecord_of addr (recorded_callsite AP OS PatchPointID Locs) =
            {| Reader.PatchPointID := to_uint64 PatchPointID;
               Reader.InstructionOffset :=
                 wrap32 (addr (TempSymbol (NextTempSymbol OS))
                         - addr (CurrentFnSymForSize AP));
               Reader.ReservedFlags := 0;
               Reader.Locations := LocationRecord_of <$> Locs |}) as HR.
  { unfold StackMapRecord_of. rewrite decide_False by done.
    cbn [recorded_callsite ID].
    f_equal; [unfold to_uint64, wrap; by rewrite Z.mod_mod|by rewrite decide_False]. }
  eexists _, (StackMapRecord_of addr (recorded_callsite AP OS PatchPointID Locs)).
  split; [exact Hparse|]. split; [exact Hver|].
  unfold StackMapSection_of. rewrite HFn, HCSI.
  cbn [Reader.FnSizeRecords Reader.Records fmap list_fmap app].
  rewrite !HR. cbn [Reader.PatchPointID Reader.InstructionOffset].
  unfold StackMapSizeRecord_of. cbn [fst snd].
  split_and!; [reflexivity|reflexivity|reflexivity|reflexivity| |].
  - unfold Reader.hasRecordForRelPC. cbn [Reader.Records length].
    cbn [Reader.hasRecordForRelPC_loop length lookup list_lookup].
    change (0 <? Z.of_nat 1) with true. change (Z.to_nat 0) with 0%nat.
    cbn [lookup list_lookup defined mbind outcome_bind Reader.InstructionOffset].
    by rewrite Z.eqb_refl.
  - unfold Reader.findRecordForRelPC. cbn [Reader.Records length].
    cbn [Reader.findRecordForRelPC_loop length lookup list_lookup].
    change (0 <? Z.of_nat 1) with true. change (Z.to_nat 0) with 0%nat.
    cbn [lookup list_lookup defined mbind outcome_bind Reader.InstructionOffset].
    by rewrite Z.eqb_refl.
Qed.

(** X20. The frame record read back.  For a well-formed STACKMAP of at
    most 65537 operands with no live-out mask, recorded on a new writer,
    serialized into an empty stack map section and read by
    [StackMapSection::parse], [isFixedSizeFrame] holds of the one frame record
    the reader returns exactly when the function had no variable-sized
    objects, needed no stack realignment and its stack size is not
    [UINT64_MAX]: a dynamic frame is written as [UINT64_MAX], and a stack
    size with that value reads as a dynamic frame too. *)
Theorem frame_read_back_fixed_size addr AP MI PatchPointID OS :
  MI !! 0%nat = Some (MO_Immediate PatchPointID) →
  2 ≤ Z.of_nat (length MI) ≤ 65537 →
  immediates_int64 MI →
  well_formed_range OpType_of_imm AP MI 2 (length MI) →
  Forall (λ MO, isRegLiveOut MO = false) MI →
  CurrentSection OS ≠ StackMapSection →
  section_contents StackMapSection OS = [] →
  ∃ this1 OS1 this2 OS2 S offset' FR,
    recordStackMap std_sort OpType_of_imm AP STACKMAP MI empty_StackMaps OS
      = Ret (this1, OS1) ∧
    serializeToStackMapSection this1 OS1 = Ret (this2, OS2) ∧
    Reader.StackMapSection_parse Reader.empty_section
      (Some (section_bytes addr (section_contents StackMapSection OS2))) 0
      (Z.of_nat (length (section_bytes addr (section_contents StackMapSection OS2))))
    = Ret (S, offset') ∧
    Reader.FnSizeRecords S = [FR] ∧
    (Reader.isFixedSizeFrame FR = true ↔
       hasVarSizedObjects AP = false ∧ needsStackRealignment AP = false ∧
       to_uint64 (getStackSize AP) ≠ UINT64_MAX).
Proof.
  intros H0 Hlen Himm Hwf Hno HSec Hempty.
  destruct (stackmap_pipeline addr AP MI PatchPointID OS H0 Hlen Himm Hwf Hno
              HSec Hempty)
    as (this1 & OS1 & this2 & OS2 & Locs & Hret & Hser & HCSI & HFn & HLocs & Hparse).
  eexists this1, OS1, this2, OS2, _, _, _.
  split; [exact Hret|]. split; [exact Hser|]. split; [exact Hparse|].
  unfold StackMapSection_of. rewrite HFn.
  cbn [Reader.FnSizeRecords fmap list_fmap]. split; [reflexivity|].
  unfold Reader.isFixedSizeFrame, StackMapSizeRecord_of, recorded_stack_size.
  cbn [Reader.StackSize snd]. rewrite negb_true_iff, Z.eqb_neq.
  destruct (hasVarSizedObjects AP), (needsStackRealignment AP); cbn [orb];
    try (split; [intros Hne; by destruct Hne|intros (? & ? & _); discriminate]).
  split; [done|]. by intros (_ & _ & ?).
Qed.

End LiveOuts.

Lemma stackmap_end_to_end_witness :
  ∃ this1 OS1 this2 OS2,
    recordStackMap sample_sort sample_OpType_of_imm sample_AP STACKMAP stackmap_MI
      empty_StackMaps empty_streamer = Ret (this1, OS1) ∧
    serializeToStackMapSection this1 OS1 = Ret (this2, OS2) ∧
    (∃ S R,
       Reader.StackMapSection_parse Reader.empty_section
         (Some (section_bytes sample_addr (section_contents StackMapSection OS2))) 0
         (Z.of_nat (length (section_bytes sample_addr
                              (section_contents StackMapSection OS2))))
       = Ret (S, Z.of_nat (length (section_bytes sample_addr
                                     (section_contents StackMapSection OS2)))) ∧
       Reader.StackMapSection_verify S = Ret tt ∧
       Reader.FnSizeRecords S =
         [{| Reader.FunctionAddr := to_uint64 (sample_addr (CurrentFnSym sample_AP));
             Reader.StackSize := to_uint64 (recorded_stack_size sample_AP) |}] ∧
       Reader.Records S = [R] ∧
       Reader.PatchPointID R = to_uint64 7 ∧
       Reader.InstructionOffset R =
         wrap32 (sample_addr (TempSymbol (NextTempSymbol empty_streamer))
                 - sample_addr (CurrentFnSymForSize sample_AP)) ∧
       Reader.hasRecordForRelPC S (Reader.InstructionOffset R) = Ret true ∧
       Reader.findRecordForRelPC S (Reader.InstructionOffset R) = Ret R).
Proof.
  apply (stackmap_end_to_end sample_sort sample_OpType_of_imm sample_addr
           sample_AP stackmap_MI 7 empty_streamer).
  - reflexivity.
  - simpl. lia.
  - intros Imm HImm. unfold stackmap_MI in HImm.
    repeat (apply elem_of_cons in HImm as [[= ->]|HImm]; [vm_compute; split; congruence|]).
    by apply elem_of_nil in HImm.
  - apply EntryPointFacts.stackmap_MI_well_formed.
  - unfold stackmap_MI. repeat constructor.
  - discriminate.
  - reflexivity.
Defined.

Lemma frame_read_back_fixed_size_witness :
  ∃ this1 OS1 this2 OS2 S offset' FR,
    recordStackMap sample_sort sample_OpType_of_imm sample_AP STACKMAP stackmap_MI
      empty_StackMaps empty_streamer = Ret (this1, OS1) ∧
    serializeToStackMapSection this1 OS1 = Ret (this2, OS2) ∧
    Reader.StackMapSection_parse Reader.empty_section
      (Some (section_bytes sample_addr (section_contents StackMapSection OS2))) 0
      (Z.of_nat (length (section_bytes sample_addr
                           (section_contents StackMapSection OS2))))
    = Ret (S, offset') ∧
    Reader.FnSizeRecords S = [FR] ∧
    (Reader.isFixedSizeFrame FR = true ↔
       hasVarSizedObjects sample_AP = false ∧
       needsStackRealignment sample_AP = false ∧
       to_uint64 (getStackSize sample_AP) ≠ UINT64_MAX).
Proof.
  apply (frame_read_back_fixed_size sample_sort sample_OpType_of_imm sample_addr
           sample_AP stackmap_MI 7 empty_streamer).
  - reflexivity.
  - simpl. lia.
  - intros Imm HImm. unfold stackmap_MI in HImm.
    repeat (apply elem_of_cons in HImm as [[= ->]|HImm]; [vm_compute; split; congruence|]).
    by apply elem_of_nil in HImm.
  - apply EntryPointFacts.stackmap_MI_well_formed.
  - unfold stackmap_MI. repeat constructor.
  - discriminate.
  - reflexivity.
Defined.

End PipelineFacts.

Module TypeNameFacts.
Import Reader.

Lemma LocationRecord_parse_Type_range data offset len L offset' :
  LocationRecord_parse data offset len = Ret (L, offset') → 0 ≤ Type_ L ≤ 5.
Proof.
  intros H. split; [|by eapply InspectorFacts.LocationRecord_parse_Type].
  unfold LocationRecord_parse in H. inv_outcome. simplify_eq.
  unfold LocationRecord_of_bytes. cbn [Type_]. apply ReaderFacts.le_decode_range.
Qed.

Lemma parse_Locations_Type_range n data : ∀ offset len Ls offset',
  parse_Locations n data offset len = Ret (Ls, offset') →
  Forall (λ L, 0 ≤ Type_ L ≤ 5) Ls.
Proof.
  induction n as [|n IH]; intros offset len Ls offset' H.
  - injection H as <- _. constructor.
  - cbn [parse_Locations] in H. inv_outcome. simplify_eq.
    constructor; [by eapply LocationRecord_parse_Type_range|by eapply IH].
Qed.

Lemma parse_Records_Type_range n data : ∀ offset len Rs offset',
  parse_Records n data offset len = Ret (Rs, offset') →
  Forall (λ R, Forall (λ L, 0 ≤ Type_ L ≤ 5) (Locations R)) Rs.
Proof.
  induction n as [|n IH]; intros offset len Rs offset' H.
  - injection H as <- _. constructor.
  - cbn [parse_Records] in H. inv_outcome. simplify_eq.
    constructor; [|by eapply IH].
    match goal with Hr : StackMapRecord_parse _ _ _ = Ret _ |- _ =>
      unfold StackMapRecord_parse in Hr; inv_outcome; simplify_eq end.
    cbn [Locations]. by eapply parse_Locations_Type_range.
Qed.

Lemma locationTypeToString_Ret Ty :
  0 ≤ Ty ≤ 5 → ∃ name, locationTypeToString Ty = Ret name.
Proof.
  intros H. assert (Ty = 0 ∨ Ty = 1 ∨ Ty = 2 ∨ Ty = 3 ∨ Ty = 4 ∨ Ty = 5)
    as [->|[->|[->|[->|[->| ->]]]]] by lia; by eexists.
Qed.

(** X21. Every location that [StackMapSection::parse] returns has a type
    that [locationTypeToString] names: on none of them the function
    reaches its [llvm_unreachable]; on a type above 5 it does. *)
Theorem parsed_location_types_named this data offset len S offset' :
  StackMapSection_parse this data offset len = Ret (S, offset') →
  (∀ R L, R ∈ Records S → L ∈ Locations R →
     ∃ name, locationTypeToString (Type_ L) = Ret name) ∧
  (∀ Ty, 5 < Ty → locationTypeToString Ty = AssertionFailure).
Proof.
  intros H. split.
  - intros R L HR HL. apply locationTypeToString_Ret.
    unfold StackMapSection_parse in H. inv_outcome. simplify_eq.
    cbn [Records] in HR.
    match goal with Hr : parse_Records _ _ _ _ = Ret _ |- _ =>
      apply parse_Records_Type_range in Hr as HRs end.
    rewrite Forall_forall in HRs. specialize (HRs R HR).
    rewrite Forall_forall in HRs. by apply HRs.
  - intros Ty HTy. unfold locationTypeToString.
    repeat match goal with |- context [?a =? ?b] =>
      rewrite (proj2 (Z.eqb_neq a b)) by lia end. done.
Qed.

Lemma parsed_location_types_named_witness :
  (∀ R L, R ∈ Records sample_section → L ∈ Locations R →
     ∃ name, locationTypeToString (Type_ L) = Ret name) ∧
  (∀ Ty, 5 < Ty → locationTypeToString Ty = AssertionFailure).
Proof.
  apply (parsed_location_types_named empty_section (Some sample_section_bytes)
           0 72 sample_section 72).
  vm_compute. reflexivity.
Defined.

End TypeNameFacts.
